(** * go-migration: a verification development

    A shallow embedding of the migration engine of go-migration
    (registry, tracker, batch manager, hooks, runner, migrator), of the
    seeder registry and dependency resolver, and of the schema package
    (blueprints, the three SQL grammars, the builder), together with the
    properties the specification states about them and further
    properties of the same code.

    Conventions.
    - A Go [string] is a [string] of bytes; Go's [<], [>=] on strings and
      [sort.Strings] use the byte-wise lexicographic order, which is
      [String.compare].
    - A Go [error] is a value of [error]: a sentinel, an opaque error made
      by host code, or a sentinel or error wrapped by [fmt.Errorf] with a
      [%w] verb; [errors_Is] walks the chain as [errors.Is] does.
    - A function returning [(T, error)] returns [result T].
    - What the Go release or the database's configuration decides is a
      field of [Platform]; the sections below take a platform as a
      parameter, and the examples run on [example_platform]. *)

From Stdlib Require Import ZArith Lia Bool Ascii String List.
From Stdlib Require Import DecimalString Sorting.Sorted Sorting.Permutation.
From stdpp Require Import base option list gmap strings sorting.

Local Open Scope Z_scope.
Local Open Scope nat_scope.

(** stdpp keeps [simpl] from unfolding [String.append]; the messages
    built here are computed with it. *)
Arguments String.append !s1 s2 : simpl nomatch.

(** ** The platform

    Two things the program's behaviour depends on are fixed outside its
    text: the Unicode tables of the Go release that builds it, which
    decide what the [%q] verb escapes, and the database's resolution of
    table names to schemas.  The development is parametric in both: a
    definition that depends on one of them takes the platform as an
    argument, and a theorem about it holds for every platform. *)
Class Platform : Type := {
  (** [strconv.IsPrint] on a rune above U+00FF. *)
  printable : N -> bool;
  (** Whether a table, named as the tracker writes its table name into
      its statements, is a table of schema [public]. *)
  in_public : string -> bool
}.

(** The platform the examples run on.  Their strings are ASCII, so what
    prints above U+00FF is never looked up; every table name resolves to
    schema [public], as unqualified names do with the default
    [search_path]. *)
Definition example_platform : Platform :=
  {| printable := fun _ => false; in_public := fun _ => true |}.

(** ** Strings *)

Module Str.

Definition lt (a b : string) : Prop := String.compare a b = Lt.
Definition le (a b : string) : Prop := String.compare a b <> Gt.

(** Go's [a >= b] on strings. *)
Definition geb (a b : string) : bool :=
  match String.compare a b with Lt => false | _ => true end.

(** Go's [a <= b] on strings; the comparison [sort.Strings] sorts by. *)
Definition leb (a b : string) : bool :=
  match String.compare a b with Gt => false | _ => true end.

Definition dquote : string := String (ascii_of_nat 34) EmptyString.
Definition newline : string := String (ascii_of_nat 10) EmptyString.
Definition tab : string := String (ascii_of_nat 9) EmptyString.

(** [strings.Join]. *)
Fixpoint join (sep : string) (l : list string) : string :=
  match l with
  | [] => EmptyString
  | [x] => x
  | x :: rest => String.append x (String.append sep (join sep rest))
  end.

(** [contains sub s]: [sub] occurs in [s] as a contiguous substring. *)
Fixpoint contains (sub s : string) : bool :=
  String.prefix sub s ||
  match s with
  | EmptyString => false
  | String _ s' => contains sub s'
  end.

Definition is_digit (c : ascii) : bool :=
  let n := nat_of_ascii c in (48 <=? n) && (n <=? 57).
Definition is_lower (c : ascii) : bool :=
  let n := nat_of_ascii c in (97 <=? n) && (n <=? 122).
Definition is_underscore (c : ascii) : bool := nat_of_ascii c =? 95.

Definition hex_digit (n : nat) : ascii :=
  ascii_of_nat (if n <? 10 then 48 + n else 87 + n).

Definition backslash : string := String (ascii_of_nat 92) EmptyString.

(** [\x] and the two hexadecimal digits of a byte. *)
Definition escape_x (n : nat) : string :=
  String.append backslash
    (String "x" (String (hex_digit (n / 16)) (String (hex_digit (n mod 16)) EmptyString))).

(** A byte that [strconv.Quote] takes by itself, as it is written inside
    the quotes: a byte below 0x80, which is a rune, or a byte that begins
    no valid UTF-8 encoding.  The quote and the backslash are escaped,
    the control characters get their mnemonic or a [\x] escape,
    printable ASCII is kept, and a byte from 0x80 on gets a [\x]
    escape. *)
Definition quote_byte (c : ascii) : string :=
  let n := nat_of_ascii c in
  let bs := String (ascii_of_nat 92) EmptyString in
  if n =? 34 then String.append bs dquote
  else if n =? 92 then String.append bs bs
  else if n =? 7 then String.append bs "a"
  else if n =? 8 then String.append bs "b"
  else if n =? 12 then String.append bs "f"
  else if n =? 10 then String.append bs "n"
  else if n =? 13 then String.append bs "r"
  else if n =? 9 then String.append bs "t"
  else if n =? 11 then String.append bs "v"
  else if (n <? 32) || (n =? 127) then
    String.append bs (String "x" (String (hex_digit (n / 16))
                                    (String (hex_digit (n mod 16)) EmptyString)))
  else if n <? 128 then String c EmptyString
  else escape_x n.

(** *** UTF-8 ([utf8.DecodeRuneInString])

    The first byte gives the length of an encoding, [size], and the
    range of its second byte, [accepts] (the table [acceptRanges]: no
    overlong forms, no surrogates, nothing above U+10FFFF).  The other
    bytes are continuation bytes.  A byte from 0x80 on that does not
    begin such an encoding is invalid, and taken by itself. *)
Definition continuation (b : nat) : bool := (128 <=? b) && (b <=? 191).

Definition accepts (b0 b1 : nat) : bool :=
  if b0 =? 224 then (160 <=? b1) && (b1 <=? 191)
  else if b0 =? 237 then (128 <=? b1) && (b1 <=? 159)
  else if b0 =? 240 then (144 <=? b1) && (b1 <=? 191)
  else if b0 =? 244 then (128 <=? b1) && (b1 <=? 143)
  else continuation b1.

Definition size (b0 : nat) : nat :=
  if (194 <=? b0) && (b0 <=? 223) then 2
  else if (224 <=? b0) && (b0 <=? 239) then 3
  else if (240 <=? b0) && (b0 <=? 244) then 4
  else 1.

(** [rune(b & mask) << shift]. *)
Definition bits (b : nat) (mask shift : N) : N :=
  N.shiftl (N.land (N.of_nat b) mask) shift.

Definition rune2 (b0 b1 : nat) : N := N.lor (bits b0 31 6) (bits b1 63 0).
Definition rune3 (b0 b1 b2 : nat) : N :=
  N.lor (N.lor (bits b0 15 12) (bits b1 63 6)) (bits b2 63 0).
Definition rune4 (b0 b1 b2 b3 : nat) : N :=
  N.lor (N.lor (N.lor (bits b0 7 18) (bits b1 63 12)) (bits b2 63 6)) (bits b3 63 0).

(** [digits] hexadecimal digits of [r], the most significant first. *)
Fixpoint hex_digits (digits : nat) (r : N) : string :=
  match digits with
  | O => EmptyString
  | S digits' =>
      String (hex_digit (N.to_nat (N.land (N.shiftr r (4 * N.of_nat digits')) 15)))
             (hex_digits digits' r)
  end.

Section Quote.
Context {platform : Platform}.

(** [strconv.IsPrint]: Latin-1 is decided by comparisons, the rest by the
    tables of the release. *)
Definition IsPrint (r : N) : bool :=
  if (r <=? 255)%N then
    ((32 <=? r)%N && (r <=? 126)%N) ||
    ((161 <=? r)%N && (r <=? 255)%N && negb (r =? 173)%N)
  else printable r.

(** A rune from U+0080 on, decoded from [encoding]: kept when it prints,
    else written [\u] and four digits, or [\U] and eight. *)
Definition quote_rune (r : N) (encoding : string) : string :=
  if IsPrint r then encoding
  else if (r <? 65536)%N then String.append backslash (String "u" (hex_digits 4 r))
  else String.append backslash (String "U" (hex_digits 8 r)).

(** The loop of [strconv.Quote]: rune by rune, an invalid byte by
    itself. *)
Fixpoint quote_body (s : string) : string :=
  match s with
  | EmptyString => EmptyString
  | String c0 s1 =>
      let b0 := nat_of_ascii c0 in
      let alone := String.append (quote_byte c0) (quote_body s1) in
      match size b0, s1 with
      | 2, String c1 s2 =>
          let b1 := nat_of_ascii c1 in
          if accepts b0 b1
          then String.append
                 (quote_rune (rune2 b0 b1) (String c0 (String c1 EmptyString)))
                 (quote_body s2)
          else alone
      | 3, String c1 (String c2 s3) =>
          let b1 := nat_of_ascii c1 in
          let b2 := nat_of_ascii c2 in
          if accepts b0 b1 && continuation b2
          then String.append
                 (quote_rune (rune3 b0 b1 b2)
                    (String c0 (String c1 (String c2 EmptyString))))
                 (quote_body s3)
          else alone
      | 4, String c1 (String c2 (String c3 s4)) =>
          let b1 := nat_of_ascii c1 in
          let b2 := nat_of_ascii c2 in
          let b3 := nat_of_ascii c3 in
          if accepts b0 b1 && continuation b2 && continuation b3
          then String.append
                 (quote_rune (rune4 b0 b1 b2 b3)
                    (String c0 (String c1 (String c2 (String c3 EmptyString)))))
                 (quote_body s4)
          else alone
      | _, _ => alone
      end
  end.

(** The [%q] verb of [fmt] on a string ([strconv.Quote]). *)
Definition Quote (s : string) : string :=
  String.append dquote (String.append (quote_body s) dquote).

End Quote.

(** The [%d] verb of [fmt] on an [int]. *)
Definition itoa (z : Z) : string :=
  DecimalString.NilZero.string_of_int (Z.to_int z).

End Str.

(** ** Errors *)

Inductive sentinel : Type :=
| ErrMigrationNotFound
| ErrDuplicateMigration
| ErrInvalidMigrationName
| ErrTransactionFailed
| ErrTrackingTable
| ErrCircularDependency
| ErrSeederNotFound
| ErrUnsupportedType.

Definition sentinel_msg (s : sentinel) : string :=
  match s with
  | ErrMigrationNotFound => "migration not found"
  | ErrDuplicateMigration => "duplicate migration name"
  | ErrInvalidMigrationName => "invalid migration name"
  | ErrTransactionFailed => "transaction failed"
  | ErrTrackingTable => "migration tracking table error"
  | ErrCircularDependency => "circular seeder dependency"
  | ErrSeederNotFound => "seeder not found"
  | ErrUnsupportedType => "unsupported column type"
  end.

Inductive error : Type :=
| Sentinel (s : sentinel)
| Opaque (msg : string)
| Wrap (context : string) (inner : error).

(** [err.Error()]. *)
Fixpoint error_msg (e : error) : string :=
  match e with
  | Sentinel s => sentinel_msg s
  | Opaque m => m
  | Wrap c inner => String.append c (error_msg inner)
  end.

Definition sentinel_eqb (a b : sentinel) : bool :=
  match a, b with
  | ErrMigrationNotFound, ErrMigrationNotFound
  | ErrDuplicateMigration, ErrDuplicateMigration
  | ErrInvalidMigrationName, ErrInvalidMigrationName
  | ErrTransactionFailed, ErrTransactionFailed
  | ErrTrackingTable, ErrTrackingTable
  | ErrCircularDependency, ErrCircularDependency
  | ErrSeederNotFound, ErrSeederNotFound
  | ErrUnsupportedType, ErrUnsupportedType => true
  | _, _ => false
  end.

(** [errors.Is(e, s)] for a sentinel [s]. *)
Fixpoint errors_Is (e : error) (s : sentinel) : bool :=
  match e with
  | Sentinel s' => sentinel_eqb s' s
  | Opaque _ => false
  | Wrap _ inner => errors_Is inner s
  end.

Inductive result (A : Type) : Type :=
| Ok (a : A)
| Err (e : error).
Arguments Ok {A} a.
Arguments Err {A} e.

(** ** Package sort (Go standard library) *)

Module sort.

(** The loop of [sort.Search]: [for i < j { h := int(uint(i+j) >> 1);
    if !f(h) { i = h + 1 } else { j = h } }].  The interval shrinks at
    every turn, so [j - i] turns are enough. *)
Fixpoint Search_loop (fuel : nat) (f : nat -> bool) (i j : nat) : nat :=
  match fuel with
  | O => i
  | S fuel' =>
      if i <? j then
        let h := (i + j) / 2 in
        if negb (f h) then Search_loop fuel' f (h + 1) j
        else Search_loop fuel' f i h
      else i
  end.

Definition Search (n : nat) (f : nat -> bool) : nat := Search_loop n f 0 n.

(** [sort.Strings] puts a slice of strings in increasing order.  Equal
    strings are indistinguishable, so the result does not depend on the
    algorithm; insertion sort computes it. *)
Fixpoint insert_sorted (x : string) (l : list string) : list string :=
  match l with
  | [] => [x]
  | y :: l' => if Str.leb x y then x :: y :: l' else y :: insert_sorted x l'
  end.

Fixpoint Strings (l : list string) : list string :=
  match l with
  | [] => []
  | x :: l' => insert_sorted x (Strings l')
  end.

End sort.

(** ** Package schema *)

Module schema.

(** [type ColumnType int], with the twelve constants declared by [iota].
    Any other integer is a value of the type too. *)
Definition ColumnType : Type := Z.

Definition TypeString : ColumnType := 0%Z.
Definition TypeText : ColumnType := 1%Z.
Definition TypeInteger : ColumnType := 2%Z.
Definition TypeBigInteger : ColumnType := 3%Z.
Definition TypeBoolean : ColumnType := 4%Z.
Definition TypeTimestamp : ColumnType := 5%Z.
Definition TypeDate : ColumnType := 6%Z.
Definition TypeDecimal : ColumnType := 7%Z.
Definition TypeFloat : ColumnType := 8%Z.
Definition TypeUUID : ColumnType := 9%Z.
Definition TypeJSON : ColumnType := 10%Z.
Definition TypeBinary : ColumnType := 11%Z.

Definition ColumnType_String (ct : ColumnType) : string :=
  match ct with
  | 0%Z => "string"
  | 1%Z => "text"
  | 2%Z => "integer"
  | 3%Z => "bigInteger"
  | 4%Z => "boolean"
  | 5%Z => "timestamp"
  | 6%Z => "date"
  | 7%Z => "decimal"
  | 8%Z => "float"
  | 9%Z => "uuid"
  | 10%Z => "json"
  | 11%Z => "binary"
  | _ => "unknown"
  end.

(** A default value is an [interface{}]: a string, a boolean, or a value
    printed with [%v]. *)
Inductive default_value : Type :=
| DefaultString (s : string)
| DefaultBool (b : bool)
| DefaultOther (printed : string).

Record ColumnDefinition : Type := {
  Name : string;
  Type_ : ColumnType;
  Length : Z;
  Precision : Z;
  Scale : Z;
  IsNullable : bool;
  DefaultValue : option default_value;
  IsPrimary : bool;
  IsUnique : bool;
  IsUnsigned : bool;
  IsAutoIncrement : bool
}.

(** The [Grammar] interface, with the two methods this development
    reasons about. *)
Record Grammar : Type := {
  CompileDropAllTables : string;
  CompileColumnType : ColumnDefinition -> result string
}.

End schema.

(** ** Package grammars *)

Module grammars.
Import schema.

Section env.
Context {platform : Platform}.

(** [fmt.Errorf("column %q: type %q: %w", col.Name, col.Type.String(),
    ErrUnsupportedType)]. *)
Definition unsupported (col : ColumnDefinition) : error :=
  Wrap (String.append "column "
         (String.append (Str.Quote (Name col))
           (String.append ": type "
             (String.append (Str.Quote (ColumnType_String (Type_ col))) ": "))))
       (Sentinel ErrUnsupportedType).

Definition varchar (col : ColumnDefinition) : string :=
  let length := Length col in
  let length := if (length <=? 0)%Z then 255%Z else length in
  String.append "VARCHAR(" (String.append (Str.itoa length) ")").

Definition decimal (col : ColumnDefinition) : string :=
  let precision := Precision col in
  let scale := Scale col in
  let precision := if (precision <=? 0)%Z then 10%Z else precision in
  let scale := if (scale <? 0)%Z then 0%Z else scale in
  String.append "DECIMAL("
    (String.append (Str.itoa precision)
      (String.append ", " (String.append (Str.itoa scale) ")"))).

Definition PostgresGrammar_CompileDropAllTables : string :=
  "DROP SCHEMA public CASCADE; CREATE SCHEMA public".

Definition PostgresGrammar_CompileColumnType (col : ColumnDefinition)
  : result string :=
  match Type_ col with
  | 0%Z => Ok (varchar col)
  | 1%Z => Ok "TEXT"
  | 2%Z => if IsAutoIncrement col then Ok "SERIAL" else Ok "INTEGER"
  | 3%Z => if IsAutoIncrement col then Ok "BIGSERIAL" else Ok "BIGINT"
  | 4%Z => Ok "BOOLEAN"
  | 5%Z => Ok "TIMESTAMPTZ"
  | 6%Z => Ok "DATE"
  | 7%Z => Ok (decimal col)
  | 8%Z => Ok "DOUBLE PRECISION"
  | 9%Z => Ok "UUID"
  | 10%Z => Ok "JSONB"
  | 11%Z => Ok "BYTEA"
  | _ => Err (unsupported col)
  end.

Definition MySQLGrammar_CompileDropAllTables : string :=
  "SET FOREIGN_KEY_CHECKS = 0".

Definition mysql_integer (base : string) (col : ColumnDefinition) : string :=
  let base := if IsUnsigned col then String.append base " UNSIGNED" else base in
  let base :=
    if IsAutoIncrement col then String.append base " AUTO_INCREMENT" else base in
  base.

Definition MySQLGrammar_CompileColumnType (col : ColumnDefinition)
  : result string :=
  match Type_ col with
  | 0%Z => Ok (varchar col)
  | 1%Z => Ok "TEXT"
  | 2%Z => Ok (mysql_integer "INT" col)
  | 3%Z => Ok (mysql_integer "BIGINT" col)
  | 4%Z => Ok "TINYINT(1)"
  | 5%Z => Ok "TIMESTAMP"
  | 6%Z => Ok "DATE"
  | 7%Z => Ok (decimal col)
  | 8%Z => Ok "DOUBLE"
  | 9%Z => Ok "CHAR(36)"
  | 10%Z => Ok "JSON"
  | 11%Z => Ok "BLOB"
  | _ => Err (unsupported col)
  end.

Definition SQLiteGrammar_CompileDropAllTables : string :=
  "SELECT name FROM sqlite_master WHERE type='table' AND name NOT LIKE 'sqlite_%'".

Definition SQLiteGrammar_CompileColumnType (col : ColumnDefinition)
  : result string :=
  match Type_ col with
  | 0%Z => Ok "TEXT"
  | 1%Z => Ok "TEXT"
  | 2%Z =>
      if IsAutoIncrement col && IsPrimary col
      then Ok "INTEGER PRIMARY KEY AUTOINCREMENT" else Ok "INTEGER"
  | 3%Z =>
      if IsAutoIncrement col && IsPrimary col
      then Ok "INTEGER PRIMARY KEY AUTOINCREMENT" else Ok "INTEGER"
  | 4%Z => Ok "INTEGER"
  | 5%Z => Ok "TEXT"
  | 6%Z => Ok "TEXT"
  | 7%Z => Ok "REAL"
  | 8%Z => Ok "REAL"
  | 9%Z => Ok "TEXT"
  | 10%Z => Ok "TEXT"
  | 11%Z => Ok "BLOB"
  | _ => Err (unsupported col)
  end.

Definition PostgresGrammar : Grammar :=
  {| CompileDropAllTables := PostgresGrammar_CompileDropAllTables;
     CompileColumnType := PostgresGrammar_CompileColumnType |}.

Definition MySQLGrammar : Grammar :=
  {| CompileDropAllTables := MySQLGrammar_CompileDropAllTables;
     CompileColumnType := MySQLGrammar_CompileColumnType |}.

Definition SQLiteGrammar : Grammar :=
  {| CompileDropAllTables := SQLiteGrammar_CompileDropAllTables;
     CompileColumnType := SQLiteGrammar_CompileColumnType |}.

End env.

End grammars.

(** ** Package migrator *)

Module migrator.

Section env.
Context {platform : Platform}.

(** *** registry.go *)

Fixpoint all_chars (p : ascii -> bool) (s : string) : bool :=
  match s with
  | EmptyString => true
  | String c s' => p c && all_chars p s'
  end.

(** Reads exactly [n] digits off the front of [s]; the rest, if it can. *)
Fixpoint digits (n : nat) (s : string) : option string :=
  match n with
  | O => Some s
  | S n' =>
      match s with
      | String c s' => if Str.is_digit c then digits n' s' else None
      | EmptyString => None
      end
  end.

(** [namePattern.MatchString] for [^\d{14}_[a-z][a-z0-9_]*$].  Go's
    [\d] is [0-9], and [$] without the [m] flag is the end of the text. *)
Definition namePattern_MatchString (s : string) : bool :=
  match digits 14 s with
  | Some (String u (String c rest)) =>
      Str.is_underscore u && Str.is_lower c &&
      all_chars (fun x => Str.is_lower x || Str.is_digit x || Str.is_underscore x) rest
  | _ => false
  end.

Section Registry.

(** The values of the [Migration] interface. *)
Variable M : Type.

Record registeredMigration : Type := {
  Name : string;
  Migration_ : M
}.

Record Registry : Type := {
  migrations : list registeredMigration
}.

Definition NewRegistry : Registry := {| migrations := [] |}.

(** [r.migrations[i].Name], for [i] in range. *)
Definition name_at (ms : list registeredMigration) (i : nat) : string :=
  match ms !! i with
  | Some e => Name e
  | None => EmptyString
  end.

(** The three statements that open a slot at [idx] and fill it:
    [append(ms, registeredMigration{})], [copy(ms[idx+1:], ms[idx:])],
    [ms[idx] = e].  [copy] moves [len(ms) - idx] entries one place up and
    overwrites the appended zero entry, which [ms[idx] = e] does when
    [idx = len(ms)]; so the appended entry is written as [e] from the
    start. *)
Definition insert_at (idx : nat) (e : registeredMigration)
    (ms : list registeredMigration) : list registeredMigration :=
  let grown := ms ++ [e] in
  let shifted := take (idx + 1) grown ++ take (length ms - idx) (drop idx grown) in
  <[idx := e]> shifted.

(** [Register] answers with the error it returns (if any) and the registry
    it leaves behind. *)
Definition Registry_Register (r : Registry) (name : string) (m : M)
  : option error * Registry :=
  if negb (namePattern_MatchString name) then
    (Some (Wrap (String.append "migration name " (String.append (Str.Quote name) ": "))
                (Sentinel ErrInvalidMigrationName)), r)
  else if existsb (fun existing => String.eqb (Name existing) name) (migrations r) then
    (Some (Wrap (String.append "migration name " (String.append (Str.Quote name) ": "))
                (Sentinel ErrDuplicateMigration)), r)
  else
    let idx := sort.Search (length (migrations r))
                 (fun i => Str.geb (name_at (migrations r) i) name) in
    (None,
     {| migrations :=
          insert_at idx {| Name := name; Migration_ := m |} (migrations r) |}).

Definition Registry_GetAll (r : Registry) : list registeredMigration :=
  migrations r.

Definition Registry_Get (r : Registry) (name : string) : result M :=
  let idx := sort.Search (length (migrations r))
               (fun i => Str.geb (name_at (migrations r) i) name) in
  match migrations r !! idx with
  | Some e =>
      if String.eqb (Name e) name then Ok (Migration_ e)
      else Err (Wrap (String.append "migration name " (String.append (Str.Quote name) ": "))
                     (Sentinel ErrMigrationNotFound))
  | None =>
      Err (Wrap (String.append "migration name " (String.append (Str.Quote name) ": "))
                (Sentinel ErrMigrationNotFound))
  end.

Definition Registry_Count (r : Registry) : nat := length (migrations r).

End Registry.

End env.

Arguments Name {M} _.
Arguments Migration_ {M} _.
Arguments migrations {M} _.
Arguments NewRegistry {M}.
Arguments name_at {M} _ _.
Arguments insert_at {M} _ _ _.
Arguments Registry_Register {platform M} _ _ _.
Arguments Registry_GetAll {M} _.
Arguments Registry_Get {platform M} _ _.
Arguments Registry_Count {M} _.

(** *** The database

    The database the migrator talks to is the environment.  Its state is
    a catalog of tracking tables by name, each a list of rows in heap
    order, and a clock for [CURRENT_TIMESTAMP].  Every statement sent
    over the connection is logged, and may fail for a reason of the
    connection: [faults] scripts that, one entry per statement.  Text
    columns compare byte-wise, as Go strings do. *)

Module MigrationRecord.
Record t : Type := {
  Name : string;
  Batch : Z;
  CreatedAt : Z
}.
End MigrationRecord.

Inductive sqlarg : Type :=
| ArgString (s : string)
| ArgInt (z : Z).

(** The values of the [Migration] interface: what the host's [Up] and
    [Down] return, and [DisableTransaction] when the migration
    implements [TransactionOption].  What a body does to the schema goes
    through the schema builder and is not part of this model. *)
Record Migration : Type := {
  Up : option error;
  Down : option error;
  DisableTransaction : option bool
}.

Inductive Event : Type :=
| EvSQL (stmt : string) (args : list sqlarg)
| EvBegin
| EvCommit
| EvRollback
| EvBody (m : Migration) (direction : string)
| EvBeforeHook (index : nat) (name direction : string)
| EvAfterHook (index : nat) (name direction : string).

Record World : Type := {
  tables : gmap string (list MigrationRecord.t);
  clock : Z;
  faults : list bool;
  trace : list Event
}.

Definition Action (A : Type) : Type := World -> result A * World.

Definition ret {A : Type} (a : A) : Action A := fun w => (Ok a, w).
Definition fail {A : Type} (e : error) : Action A := fun w => (Err e, w).

Definition bind {A B : Type} (a : Action A) (k : A -> Action B) : Action B :=
  fun w =>
    match a w with
    | (Ok x, w') => k x w'
    | (Err e, w') => (Err e, w')
    end.

(** [if err != nil { return wrap(err) }]. *)
Definition on_error {A : Type} (a : Action A) (wrap : error -> error) : Action A :=
  fun w =>
    match a w with
    | (Ok x, w') => (Ok x, w')
    | (Err e, w') => (Err (wrap e), w')
    end.

(** [err := f()], to branch on afterwards. *)
Definition attempt {A : Type} (a : Action A) : Action (result A) :=
  fun w => let (r, w') := a w in (Ok r, w').

Notation "x <- a ;; k" := (bind a (fun x => k))
  (at level 100, a at next level, right associativity).
Notation "a ;;; k" := (bind a (fun _ => k))
  (at level 100, right associativity).

Section env.
Context {platform : Platform}.

Definition log (ev : Event) : Action unit := fun w =>
  (Ok tt, {| tables := tables w; clock := clock w; faults := faults w;
             trace := trace w ++ [ev] |}).

(** One round trip over the connection. *)
Definition connection : Action unit := fun w =>
  match faults w with
  | true :: rest =>
      (Err (Opaque "driver: bad connection"),
       {| tables := tables w; clock := clock w; faults := rest; trace := trace w |})
  | false :: rest =>
      (Ok tt, {| tables := tables w; clock := clock w; faults := rest; trace := trace w |})
  | [] => (Ok tt, w)
  end.

Definition statement (stmt : string) (args : list sqlarg) : Action unit :=
  log (EvSQL stmt args) ;;; connection.

Definition get_tables : Action (gmap string (list MigrationRecord.t)) :=
  fun w => (Ok (tables w), w).

Definition put_table (name : string) (rows : list MigrationRecord.t) : Action unit :=
  fun w =>
    (Ok tt, {| tables := <[name := rows]> (tables w); clock := clock w;
               faults := faults w; trace := trace w |}).

(** [DROP SCHEMA public CASCADE]: the tables of schema [public] go, the
    tables of the other schemas stay. *)
Definition drop_schema_public : Action unit := fun w =>
  (Ok tt, {| tables := filter (fun entry => in_public entry.1 = false) (tables w);
             clock := clock w; faults := faults w; trace := trace w |}).

Definition tick : Action Z := fun w =>
  (Ok (clock w), {| tables := tables w; clock := (clock w + 1)%Z;
                    faults := faults w; trace := trace w |}).

(** The rows of a table; a statement on a table that does not exist fails. *)
Definition rows_of (name : string) : Action (list MigrationRecord.t) :=
  ts <- get_tables ;;
  match ts !! name with
  | Some rows => ret rows
  | None => fail (Opaque (String.append "relation does not exist: " name))
  end.

(** [ORDER BY migration ASC]. *)
Fixpoint insert_by_name (r : MigrationRecord.t) (l : list MigrationRecord.t)
  : list MigrationRecord.t :=
  match l with
  | [] => [r]
  | x :: l' =>
      if Str.leb (MigrationRecord.Name r) (MigrationRecord.Name x)
      then r :: x :: l' else x :: insert_by_name r l'
  end.

Fixpoint order_by_name (l : list MigrationRecord.t) : list MigrationRecord.t :=
  match l with
  | [] => []
  | r :: l' => insert_by_name r (order_by_name l')
  end.

(** [COALESCE(MAX(batch), 0)]. *)
Definition max_batch (rows : list MigrationRecord.t) : Z :=
  match rows with
  | [] => 0%Z
  | r :: rest => fold_left Z.max (map MigrationRecord.Batch rest) (MigrationRecord.Batch r)
  end.

(** Go's [int] is 64 bits wide on the platforms the drivers run on. *)
Definition int_wrap (z : Z) : Z := ((z + 2 ^ 63) mod 2 ^ 64 - 2 ^ 63)%Z.

(** *** tracker.go *)

Record Tracker : Type := {
  tableName : string
}.

Definition NewTracker (tableName : string) : Tracker :=
  {| tableName := tableName |}.

Definition EnsureTable_query (t : Tracker) : string :=
  Str.join EmptyString
    [ "CREATE TABLE IF NOT EXISTS "; tableName t; " ("; Str.newline;
      Str.tab; Str.tab; "id         SERIAL PRIMARY KEY,"; Str.newline;
      Str.tab; Str.tab; "migration  VARCHAR(255) NOT NULL UNIQUE,"; Str.newline;
      Str.tab; Str.tab; "batch      INTEGER NOT NULL,"; Str.newline;
      Str.tab; Str.tab; "created_at TIMESTAMP NOT NULL DEFAULT CURRENT_TIMESTAMP";
      Str.newline; Str.tab; ")" ].

Definition GetApplied_query (t : Tracker) : string :=
  Str.join EmptyString
    [ "SELECT migration, batch, created_at FROM "; tableName t;
      " ORDER BY migration ASC" ].

Definition GetByBatch_query (t : Tracker) : string :=
  Str.join EmptyString
    [ "SELECT migration, batch, created_at FROM "; tableName t;
      " WHERE batch = $1 ORDER BY migration ASC" ].

Definition GetLastBatchNumber_query (t : Tracker) : string :=
  Str.join EmptyString [ "SELECT COALESCE(MAX(batch), 0) FROM "; tableName t ].

Definition Record_query (t : Tracker) : string :=
  Str.join EmptyString
    [ "INSERT INTO "; tableName t; " (migration, batch) VALUES ($1, $2)" ].

Definition Remove_query (t : Tracker) : string :=
  Str.join EmptyString [ "DELETE FROM "; tableName t; " WHERE migration = $1" ].

Definition tracking_error (context : string) : error -> error :=
  fun _ => Wrap context (Sentinel ErrTrackingTable).

Definition Tracker_EnsureTable (t : Tracker) : Action unit :=
  on_error
    (statement (EnsureTable_query t) [] ;;;
     ts <- get_tables ;;
     match ts !! tableName t with
     | Some _ => ret tt
     | None => put_table (tableName t) []
     end)
    (tracking_error
       (Str.join EmptyString ["ensure tracking table "; Str.Quote (tableName t); ": "])).

Definition Tracker_GetApplied (t : Tracker) : Action (list MigrationRecord.t) :=
  on_error
    (statement (GetApplied_query t) [] ;;;
     rows <- rows_of (tableName t) ;;
     ret (order_by_name rows))
    (tracking_error "get applied migrations: ").

Definition Tracker_GetByBatch (t : Tracker) (batch : Z)
  : Action (list MigrationRecord.t) :=
  on_error
    (statement (GetByBatch_query t) [ArgInt batch] ;;;
     rows <- rows_of (tableName t) ;;
     ret (order_by_name
            (filter (fun r => MigrationRecord.Batch r = batch) rows)))
    (tracking_error
       (Str.join EmptyString ["get migrations for batch "; Str.itoa batch; ": "])).

Definition Tracker_GetLastBatchNumber (t : Tracker) : Action Z :=
  on_error
    (statement (GetLastBatchNumber_query t) [] ;;;
     rows <- rows_of (tableName t) ;;
     ret (max_batch rows))
    (tracking_error "get last batch number: ").

Definition Tracker_Record (t : Tracker) (name : string) (batch : Z) : Action unit :=
  on_error
    (statement (Record_query t) [ArgString name; ArgInt batch] ;;;
     rows <- rows_of (tableName t) ;;
     if existsb (fun r => String.eqb (MigrationRecord.Name r) name) rows
     then fail (Opaque "duplicate key value violates unique constraint")
     else
       now <- tick ;;
       put_table (tableName t)
         (rows ++ [ {| MigrationRecord.Name := name;
                       MigrationRecord.Batch := batch;
                       MigrationRecord.CreatedAt := now |} ]))
    (tracking_error
       (Str.join EmptyString ["record migration "; Str.Quote name; ": "])).

Definition Tracker_Remove (t : Tracker) (name : string) : Action unit :=
  on_error
    (statement (Remove_query t) [ArgString name] ;;;
     rows <- rows_of (tableName t) ;;
     put_table (tableName t)
       (filter (fun r => MigrationRecord.Name r <> name) rows))
    (tracking_error
       (Str.join EmptyString ["remove migration "; Str.Quote name; ": "])).

(** *** batch.go *)

Record BatchManager : Type := {
  tracker_of : Tracker
}.

Definition NewBatchManager (tracker : Tracker) : BatchManager :=
  {| tracker_of := tracker |}.

Definition BatchManager_NextBatchNumber (b : BatchManager) : Action Z :=
  last <- on_error (Tracker_GetLastBatchNumber (tracker_of b))
            (Wrap "next batch number: ") ;;
  ret (int_wrap (last + 1)).

Definition BatchManager_GetLastBatch (b : BatchManager)
  : Action (list MigrationRecord.t) :=
  last <- on_error (Tracker_GetLastBatchNumber (tracker_of b))
            (Wrap "get last batch: ") ;;
  if (last =? 0)%Z then ret []
  else on_error (Tracker_GetByBatch (tracker_of b) last) (Wrap "get last batch: ").

(** [result[i] = applied[len(applied)-1-i]] for [i] from [0] to [n - 1]. *)
Definition last_reversed (n : nat) (applied : list MigrationRecord.t)
  : list MigrationRecord.t :=
  omap (fun i => applied !! (length applied - 1 - i)) (seq 0 n).

Definition BatchManager_GetLastNMigrations (b : BatchManager) (n : Z)
  : Action (list MigrationRecord.t) :=
  if (n <=? 0)%Z then ret []
  else
    applied <- on_error (Tracker_GetApplied (tracker_of b))
                 (Wrap (Str.join EmptyString ["get last "; Str.itoa n; " migrations: "])) ;;
    if (length applied =? 0)%nat then ret []
    else
      let n := if (n >? Z.of_nat (length applied))%Z
               then Z.of_nat (length applied) else n in
      ret (last_reversed (Z.to_nat n) applied).

(** *** hooks.go

    A hook is host code; the model keeps what it returns and logs each
    call.  The duration an after-hook receives is wall-clock time and is
    left out. *)

Definition HookFunc : Type := string -> string -> option error.
Definition AfterHookFunc : Type := string -> string -> option error.

Record HookManager : Type := {
  beforeHooks : list HookFunc;
  afterHooks : list AfterHookFunc
}.

Definition NewHookManager : HookManager :=
  {| beforeHooks := []; afterHooks := [] |}.

Definition HookManager_RegisterBefore (h : HookManager) (fn : HookFunc) : HookManager :=
  {| beforeHooks := beforeHooks h ++ [fn]; afterHooks := afterHooks h |}.

Definition HookManager_RegisterAfter (h : HookManager) (fn : AfterHookFunc) : HookManager :=
  {| beforeHooks := beforeHooks h; afterHooks := afterHooks h ++ [fn] |}.

Fixpoint run_before_from (i : nat) (hooks : list HookFunc) (name direction : string)
  : Action unit :=
  match hooks with
  | [] => ret tt
  | fn :: rest =>
      log (EvBeforeHook i name direction) ;;;
      match fn name direction with
      | Some err => fail err
      | None => run_before_from (S i) rest name direction
      end
  end.

Definition HookManager_RunBefore (h : HookManager) (name direction : string)
  : Action unit :=
  run_before_from 0 (beforeHooks h) name direction.

Fixpoint run_after_from (i : nat) (hooks : list AfterHookFunc) (name direction : string)
  : Action unit :=
  match hooks with
  | [] => ret tt
  | fn :: rest =>
      log (EvAfterHook i name direction) ;;;
      let _ := fn name direction in
      run_after_from (S i) rest name direction
  end.

Definition HookManager_RunAfter (h : HookManager) (name direction : string)
  : Action unit :=
  run_after_from 0 (afterHooks h) name direction.

(** *** runner.go *)

Record Runner : Type := {
  runner_grammar : option schema.Grammar
}.

Definition NewRunner (grammar : option schema.Grammar) : Runner :=
  {| runner_grammar := grammar |}.

Definition Runner_runMigration (r : Runner) (m : Migration) (direction : string)
  : Action unit :=
  if String.eqb direction "up" then
    log (EvBody m direction) ;;;
    match Up m with Some err => fail err | None => ret tt end
  else if String.eqb direction "down" then
    log (EvBody m direction) ;;;
    match Down m with Some err => fail err | None => ret tt end
  else
    fail (Opaque (String.append "unknown migration direction: " (Str.Quote direction))).

(** [tx.Rollback()] after [tx.Commit()] was tried: [database/sql] has
    finished the transaction and answers [sql.ErrTxDone]. *)
Definition ErrTxDone : error :=
  Opaque "sql: transaction has already been committed or rolled back".

Definition Runner_ExecuteInTransaction (r : Runner) (m : Migration) (direction : string)
  : Action unit :=
  begun <- attempt (log EvBegin ;;; connection) ;;
  match begun with
  | Err err => fail (Wrap "begin transaction: " err)
  | Ok _ =>
      ran <- attempt (Runner_runMigration r m direction) ;;
      match ran with
      | Err err =>
          rolled <- attempt (log EvRollback ;;; connection) ;;
          match rolled with
          | Err rbErr =>
              fail (Wrap (Str.join EmptyString
                            ["rollback after migration error: "; error_msg rbErr;
                             ", original: "]) err)
          | Ok _ => fail err
          end
      | Ok _ =>
          committed <- attempt (log EvCommit ;;; connection) ;;
          match committed with
          | Err _ =>
              fail (Wrap (Str.join EmptyString
                            ["rollback after commit failure: "; error_msg ErrTxDone; ": "])
                         (Sentinel ErrTransactionFailed))
          | Ok _ => ret tt
          end
      end
  end.

Definition Runner_executeWithoutTransaction (r : Runner) (m : Migration)
    (direction : string) : Action unit :=
  Runner_runMigration r m direction.

Definition Runner_Execute (r : Runner) (m : Migration) (direction : string)
  : Action unit :=
  match DisableTransaction m with
  | Some true => Runner_executeWithoutTransaction r m direction
  | _ => Runner_ExecuteInTransaction r m direction
  end.

(** *** migrator.go *)

Record Migrator : Type := {
  registry : Registry Migration;
  runner : option Runner;
  tracker : Tracker;
  batch : BatchManager;
  hooks : HookManager;
  grammar : option schema.Grammar
}.

(** The options the package offers.  [WithGrammar] may be handed a nil
    grammar; the logger of [WithLogger] is not part of the model, its
    rebuilding of the runner is. *)
Inductive Option : Type :=
| WithTableName (name : string)
| WithGrammar (g : option schema.Grammar)
| WithLogger.

Definition apply_option (m : Migrator) (opt : Option) : Migrator :=
  match opt with
  | WithTableName name =>
      let t := NewTracker name in
      {| registry := registry m; runner := runner m; tracker := t;
         batch := NewBatchManager t; hooks := hooks m; grammar := grammar m |}
  | WithGrammar g =>
      {| registry := registry m; runner := Some (NewRunner g); tracker := tracker m;
         batch := batch m; hooks := hooks m; grammar := g |}
  | WithLogger =>
      match grammar m with
      | Some _ =>
          {| registry := registry m; runner := Some (NewRunner (grammar m));
             tracker := tracker m; batch := batch m; hooks := hooks m;
             grammar := grammar m |}
      | None => m
      end
  end.

Definition New (opts : list Option) : Migrator :=
  let t := NewTracker "migrations" in
  let m := {| registry := NewRegistry; runner := None; tracker := t;
              batch := NewBatchManager t; hooks := NewHookManager;
              grammar := None |} in
  let m := fold_left apply_option opts m in
  match runner m with
  | None =>
      {| registry := registry m; runner := Some (NewRunner (grammar m));
         tracker := tracker m; batch := batch m; hooks := hooks m;
         grammar := grammar m |}
  | Some _ => m
  end.

Definition Migrator_Register (m : Migrator) (name : string) (migration : Migration)
  : option error * Migrator :=
  let (err, r) := Registry_Register (registry m) name migration in
  (err, {| registry := r; runner := runner m; tracker := tracker m;
           batch := batch m; hooks := hooks m; grammar := grammar m |}).

Definition Migrator_BeforeMigrate (m : Migrator) (fn : HookFunc) : Migrator :=
  {| registry := registry m; runner := runner m; tracker := tracker m;
     batch := batch m; hooks := HookManager_RegisterBefore (hooks m) fn;
     grammar := grammar m |}.

Definition Migrator_AfterMigrate (m : Migrator) (fn : AfterHookFunc) : Migrator :=
  {| registry := registry m; runner := runner m; tracker := tracker m;
     batch := batch m; hooks := HookManager_RegisterAfter (hooks m) fn;
     grammar := grammar m |}.

(** [for _, x := range l { if err := body(x); err != nil { return err } }]. *)
Fixpoint for_range {A : Type} (l : list A) (body : A -> Action unit) : Action unit :=
  match l with
  | [] => ret tt
  | x :: rest => body x ;;; for_range rest body
  end.

(** [_ = f()]. *)
Definition discard {A : Type} (a : Action A) : Action unit :=
  fun w => (Ok tt, snd (a w)).

Definition lift {A : Type} (r : result A) : Action A :=
  match r with
  | Ok a => ret a
  | Err e => fail e
  end.

(** [m.runner.Execute]; through a nil runner Go panics. *)
Definition execute (m : Migrator) (migration : Migration) (direction : string)
  : Action unit :=
  match runner m with
  | Some r => Runner_Execute r migration direction
  | None => fail (Opaque "runtime error: invalid memory address or nil pointer dereference")
  end.

(** The pending migrations of [Up]: registered and not in the applied set. *)
Definition pending_of (registered : list (registeredMigration Migration))
    (applied : list MigrationRecord.t) : list (registeredMigration Migration) :=
  let appliedSet : gset string := list_to_set (map MigrationRecord.Name applied) in
  filter (fun reg => Name reg ∉ appliedSet) registered.

Definition Up_step (m : Migrator) (batchNumber : Z)
    (p : registeredMigration Migration) : Action unit :=
  on_error (HookManager_RunBefore (hooks m) (Name p) "up")
    (Wrap (Str.join EmptyString ["before hook for "; Str.Quote (Name p); ": "])) ;;;
  on_error (execute m (Migration_ p) "up")
    (Wrap (Str.join EmptyString ["migration "; Str.Quote (Name p); " up: "])) ;;;
  Tracker_Record (tracker m) (Name p) batchNumber ;;;
  discard (HookManager_RunAfter (hooks m) (Name p) "up").

Definition Migrator_Up (m : Migrator) : Action unit :=
  Tracker_EnsureTable (tracker m) ;;;
  let registered := Registry_GetAll (registry m) in
  applied <- Tracker_GetApplied (tracker m) ;;
  let pending := pending_of registered applied in
  if (length pending =? 0)%nat then ret tt
  else
    batchNumber <- BatchManager_NextBatchNumber (batch m) ;;
    for_range pending (Up_step m batchNumber).

Definition Rollback_step (m : Migrator) (rec : MigrationRecord.t) : Action unit :=
  migration <- lift (Registry_Get (registry m) (MigrationRecord.Name rec)) ;;
  on_error (HookManager_RunBefore (hooks m) (MigrationRecord.Name rec) "down")
    (Wrap (Str.join EmptyString
             ["before hook for "; Str.Quote (MigrationRecord.Name rec); ": "])) ;;;
  on_error (execute m migration "down")
    (Wrap (Str.join EmptyString
             ["migration "; Str.Quote (MigrationRecord.Name rec); " down: "])) ;;;
  Tracker_Remove (tracker m) (MigrationRecord.Name rec) ;;;
  discard (HookManager_RunAfter (hooks m) (MigrationRecord.Name rec) "down").

Definition Migrator_Rollback (m : Migrator) (steps : Z) : Action unit :=
  Tracker_EnsureTable (tracker m) ;;;
  records <- (if (steps =? 0)%Z then BatchManager_GetLastBatch (batch m)
              else BatchManager_GetLastNMigrations (batch m) steps) ;;
  if (length records =? 0)%nat then ret tt
  else
    let records := if (steps =? 0)%Z then rev records else records in
    for_range records (Rollback_step m).

Definition Reset_step (m : Migrator) (rec : MigrationRecord.t) : Action unit :=
  migration <- lift (Registry_Get (registry m) (MigrationRecord.Name rec)) ;;
  on_error (execute m migration "down")
    (Wrap (Str.join EmptyString
             ["migration "; Str.Quote (MigrationRecord.Name rec); " down: "])) ;;;
  Tracker_Remove (tracker m) (MigrationRecord.Name rec) ;;;
  discard (HookManager_RunAfter (hooks m) (MigrationRecord.Name rec) "down").

Definition Migrator_Reset (m : Migrator) : Action unit :=
  Tracker_EnsureTable (tracker m) ;;;
  applied <- Tracker_GetApplied (tracker m) ;;
  for_range (rev applied) (Reset_step m).

Definition Migrator_Refresh (m : Migrator) : Action unit :=
  on_error (Migrator_Reset m) (Wrap "refresh reset phase: ") ;;;
  on_error (Migrator_Up m) (Wrap "refresh up phase: ").

(** [m.db.Exec(dropSQL)]: the statement goes to the database as it is.
    What the database does with it is its own.  Of the statements the
    three grammars compile, PostgreSQL's drops schema [public] and makes
    it anew, and the query of SQLite and the [SET] of MySQL leave the
    catalog as it was; any other statement is taken to leave the tables
    alone. *)
Definition db_Exec (stmt : string) : Action unit :=
  statement stmt [] ;;;
  if String.eqb stmt "DROP SCHEMA public CASCADE; CREATE SCHEMA public"
  then drop_schema_public else ret tt.

Definition Migrator_Fresh (m : Migrator) : Action unit :=
  match grammar m with
  | None => fail (Opaque "fresh requires a grammar: configure with WithGrammar")
  | Some g =>
      on_error (db_Exec (schema.CompileDropAllTables g)) (Wrap "drop all tables: ") ;;;
      Migrator_Up m
  end.

(** [reverseRecords]: [for i, j := 0, len(records)-1; i < j; i, j = i+1, j-1]
    swaps [records[i]] and [records[j]].  An index out of range panics:
    [None].  The distance between [i] and [j] shrinks at every turn, so
    [len(records)] turns are enough. *)
Fixpoint reverse_loop {A : Type} (fuel : nat) (i j : Z) (records : list A)
  : option (list A) :=
  match fuel with
  | O => Some records
  | S fuel' =>
      if (i <? j)%Z then
        match records !! Z.to_nat i, records !! Z.to_nat j with
        | Some x, Some y =>
            if (0 <=? i)%Z then
              reverse_loop fuel' (i + 1)%Z (j - 1)%Z
                (<[Z.to_nat j := x]> (<[Z.to_nat i := y]> records))
            else None
        | _, _ => None
        end
      else Some records
  end.

Definition reverseRecords {A : Type} (records : list A) : option (list A) :=
  reverse_loop (length records) 0%Z (Z.of_nat (length records) - 1)%Z records.

(** *** migrator.go: Status *)

End env.

Module MigrationStatus.
Record t : Type := {
  Name : string;
  Applied : bool;
  Batch : Z;
  AppliedAt : option Z
}.
End MigrationStatus.

Section env.
Context {platform : Platform}.

(** [appliedMap[rec.Name] = rec] for every record, in order. *)
Definition applied_map (applied : list MigrationRecord.t)
  : gmap string MigrationRecord.t :=
  fold_left (fun m rec => <[MigrationRecord.Name rec := rec]> m) applied ∅.

Definition status_of (appliedMap : gmap string MigrationRecord.t)
    (reg : registeredMigration Migration) : MigrationStatus.t :=
  match appliedMap !! Name reg with
  | Some rec =>
      {| MigrationStatus.Name := Name reg; MigrationStatus.Applied := true;
         MigrationStatus.Batch := MigrationRecord.Batch rec;
         MigrationStatus.AppliedAt := Some (MigrationRecord.CreatedAt rec) |}
  | None =>
      {| MigrationStatus.Name := Name reg; MigrationStatus.Applied := false;
         MigrationStatus.Batch := 0%Z; MigrationStatus.AppliedAt := None |}
  end.

Definition Migrator_Status (m : Migrator) : Action (list MigrationStatus.t) :=
  Tracker_EnsureTable (tracker m) ;;;
  let registered := Registry_GetAll (registry m) in
  applied <- Tracker_GetApplied (tracker m) ;;
  ret (map (status_of (applied_map applied)) registered).

End env.

End migrator.

(** ** Package seeder *)

Module seeder.

Section env.
Context {platform : Platform}.

(** The values of the [Seeder] interface: what the host's [Run] returns,
    and the names [DependsOn] lists when the seeder implements
    [DependentSeeder]. *)
Record Seeder : Type := {
  Run : option error;
  DependsOn : option (list string)
}.

(** *** registry.go *)

Record Registry : Type := {
  seeders : gmap string Seeder
}.

Definition NewRegistry : Registry := {| seeders := ∅ |}.

Definition Registry_Get (r : Registry) (name : string) : result Seeder :=
  match seeders r !! name with
  | Some s => Ok s
  | None =>
      Err (Wrap (Str.join EmptyString ["seeder name "; Str.Quote name; ": "])
                (Sentinel ErrSeederNotFound))
  end.

Definition Registry_GetAll (r : Registry) : gmap string Seeder := seeders r.

(** *** registry.go: Register

    [strings.TrimSpace(name) == ""] holds when [name] is made of white
    space only, as [unicode.IsSpace] has it on the runes Go decodes from
    the bytes: the six ASCII characters tab, line feed, vertical tab,
    form feed, carriage return and space, and the UTF-8 encodings of
    U+0085, U+00A0, U+1680, U+2000 to U+200A, U+2028, U+2029, U+202F,
    U+205F and U+3000. *)
Definition ascii_space (c : ascii) : bool :=
  let n := nat_of_ascii c in ((9 <=? n) && (n <=? 13)) || (n =? 32).

Definition byte_is (c : ascii) (n : nat) : bool := nat_of_ascii c =? n.

Fixpoint blank (s : string) : bool :=
  match s with
  | EmptyString => true
  | String c rest =>
      if ascii_space c then blank rest
      else if byte_is c 194 then
        match rest with
        | String d rest' => (byte_is d 133 || byte_is d 160) && blank rest'
        | EmptyString => false
        end
      else if byte_is c 225 then
        match rest with
        | String d (String e rest') => byte_is d 154 && byte_is e 128 && blank rest'
        | _ => false
        end
      else if byte_is c 226 then
        match rest with
        | String d (String e rest') =>
            let k := nat_of_ascii e in
            ((byte_is d 128 &&
              (((128 <=? k) && (k <=? 138)) || (k =? 168) || (k =? 169) || (k =? 175)))
             || (byte_is d 129 && (k =? 159)))
            && blank rest'
        | _ => false
        end
      else if byte_is c 227 then
        match rest with
        | String d (String e rest') => byte_is d 128 && byte_is e 128 && blank rest'
        | _ => false
        end
      else false
  end.

(** The sentinel errors of [Register], and the error it makes of one:
    [fmt.Errorf("seeder name %q: %w", name, sentinel)]. *)
Inductive register_sentinel : Type :=
| ErrInvalidSeederName
| ErrDuplicateSeeder.

Definition register_sentinel_msg (s : register_sentinel) : string :=
  match s with
  | ErrInvalidSeederName => "invalid seeder name"
  | ErrDuplicateSeeder => "duplicate seeder name"
  end.

Record register_error : Type := {
  error_context : string;
  error_cause : register_sentinel
}.

Definition register_error_msg (e : register_error) : string :=
  String.append (error_context e) (register_sentinel_msg (error_cause e)).

Definition Registry_Register (r : Registry) (name : string) (s : Seeder)
  : option register_error * Registry :=
  let wrap c :=
    {| error_context := Str.join EmptyString ["seeder name "; Str.Quote name; ": "];
       error_cause := c |} in
  if blank name then (Some (wrap ErrInvalidSeederName), r)
  else
    match seeders r !! name with
    | Some _ => (Some (wrap ErrDuplicateSeeder), r)
    | None => (None, {| seeders := <[name := s]> (seeders r) |})
    end.

(** *** runner.go *)

(** [m[n]] on a [map[string]bool]: [false] for a key that is not there. *)
Definition flag (m : gmap string bool) (n : string) : bool :=
  match m !! n with
  | Some b => b
  | None => false
  end.

(** The variables the closure [visit] captures. *)
Record resolver : Type := {
  order : list string;
  visited : gmap string bool;
  inProgress : gmap string bool;
  path : list string
}.

Definition start : resolver :=
  {| order := []; visited := ∅; inProgress := ∅; path := [] |}.

Inductive outcome : Type :=
| Done (st : resolver)
| Failed (e : error)
| Exhausted.

(** The index of the first [target] in [path]. *)
Fixpoint index_of (target : string) (path : list string) : option nat :=
  match path with
  | [] => None
  | n :: rest =>
      if String.eqb n target then Some 0
      else match index_of target rest with
           | Some i => Some (S i)
           | None => None
           end
  end.

Definition buildCyclePath (path : list string) (target : string) : string :=
  match index_of target path with
  | None => String.append target (String.append " -> " target)
  | Some start => Str.join " -> " (drop start path ++ [target])
  end.

Definition circular (path : list string) (n : string) : error :=
  Wrap (String.append (buildCyclePath path n) ": ") (Sentinel ErrCircularDependency).

Definition missing (n : string) : error :=
  Wrap (Str.join EmptyString ["dependency "; Str.Quote n; ": "])
       (Sentinel ErrSeederNotFound).

(** [inProgress[n] = true; path = append(path, n)]. *)
Definition enter (n : string) (st : resolver) : resolver :=
  {| order := order st; visited := visited st;
     inProgress := <[n := true]> (inProgress st);
     path := path st ++ [n] |}.

(** [path = path[:len(path)-1]; inProgress[n] = false; visited[n] = true;
    order = append(order, n)]. *)
Definition leave (n : string) (st : resolver) : resolver :=
  {| order := order st ++ [n];
     visited := <[n := true]> (visited st);
     inProgress := <[n := false]> (inProgress st);
     path := take (length (path st) - 1) (path st) |}.

(** [for _, dep := range deps { if err := visit(dep); err != nil { return err } }]. *)
Fixpoint visit_each (visit : string -> resolver -> outcome) (deps : list string)
    (st : resolver) : outcome :=
  match deps with
  | [] => Done st
  | dep :: rest =>
      match visit dep st with
      | Done st' => visit_each visit rest st'
      | other => other
      end
  end.

(** The closure [visit] of [resolveOrder], which [resolveAllOrder] repeats
    word for word.  Go recurses without a bound; here the depth of the
    recursion is bounded by [fuel], and [Exhausted] is the answer when the
    bound is hit. *)
Fixpoint visit (all : gmap string Seeder) (fuel : nat) (n : string) (st : resolver)
  : outcome :=
  match fuel with
  | O => Exhausted
  | S fuel' =>
      if flag (visited st) n then Done st
      else if flag (inProgress st) n then Failed (circular (path st) n)
      else
        let st := enter n st in
        match all !! n with
        | None => Failed (missing n)
        | Some s =>
            let after :=
              match DependsOn s with
              | Some deps => visit_each (visit all fuel') (sort.Strings deps) st
              | None => Done st
              end in
            match after with
            | Done st => Done (leave n st)
            | other => other
            end
        end
  end.

Record Runner : Type := {
  registry : Registry
}.

Definition NewRunner (registry : Registry) : Runner := {| registry := registry |}.

(** A recursion enters a seeder only while it is not in progress, so it
    is never deeper than the number of registered seeders plus one. *)
Definition depth_bound (all : gmap string Seeder) : nat := S (size all).

Definition Runner_resolveOrder (r : Runner) (name : string) : outcome :=
  let all := Registry_GetAll (registry r) in
  visit all (depth_bound all) name start.

(** The keys of the map, collected and put in order by [sort.Strings]. *)
Definition sorted_names (all : gmap string Seeder) : list string :=
  sort.Strings (map fst (map_to_list all)).

Definition Runner_resolveAllOrder (r : Runner) (all : gmap string Seeder) : outcome :=
  visit_each (visit all (depth_bound all)) (sorted_names all) start.

(** What a call of [Run] or [RunAll] leaves behind: the error it returns
    and the seeders whose [Run] it called, in order; [None] when the
    resolution hit the recursion bound. *)
Definition report : Type := option (option error * list string).

Fixpoint run_each (all : gmap string Seeder) (names : list string) (ran : list string)
  : option error * list string :=
  match names with
  | [] => (None, ran)
  | name :: rest =>
      match all !! name with
      | Some s =>
          match Run s with
          | Some err =>
              (Some (Wrap (Str.join EmptyString ["seeder "; Str.Quote name; ": "]) err),
               ran ++ [name])
          | None => run_each all rest (ran ++ [name])
          end
      | None =>
          (Some (Opaque "runtime error: invalid memory address or nil pointer dereference"),
           ran)
      end
  end.

Definition Runner_RunAll (r : Runner) : report :=
  let all := Registry_GetAll (registry r) in
  if (size all =? 0)%nat then Some (None, [])
  else
    match Runner_resolveAllOrder r all with
    | Exhausted => None
    | Failed err => Some (Some err, [])
    | Done st => Some (run_each all (order st) [])
    end.

Definition Runner_Run (r : Runner) (name : string) : report :=
  match Registry_Get (registry r) name with
  | Err err => Some (Some err, [])
  | Ok _ =>
      match Runner_resolveOrder r name with
      | Exhausted => None
      | Failed err => Some (Some err, [])
      | Done st =>
          let all := Registry_GetAll (registry r) in
          Some (run_each all (order st) [])
      end
  end.

End env.

End seeder.

(** ** Package schema: blueprints *)

Module blueprint.
Import schema.

Record IndexDefinition : Type := {
  index_Name : string;
  Columns : list string;
  Unique : bool
}.

Record ForeignKeyDefinition : Type := {
  Column : string;
  RefTable : string;
  RefColumn : string;
  OnDelete : string;
  OnUpdate : string;
  fk_Name : string
}.

(** [type CommandType int], with four constants declared by [iota]. *)
Definition CommandType : Type := Z.
Definition CommandDropColumn : CommandType := 0%Z.
Definition CommandRenameColumn : CommandType := 1%Z.
Definition CommandDropIndex : CommandType := 2%Z.
Definition CommandDropForeign : CommandType := 3%Z.

Record Command : Type := {
  command_Type : CommandType;
  command_Name : string;
  To : string
}.

Record Blueprint : Type := {
  table : string;
  columns : list ColumnDefinition;
  indexes : list IndexDefinition;
  foreignKeys : list ForeignKeyDefinition;
  commands : list Command
}.

Definition NewBlueprint (table : string) : Blueprint :=
  {| table := table; columns := []; indexes := []; foreignKeys := []; commands := [] |}.

Definition with_columns (bp : Blueprint) (cols : list ColumnDefinition) : Blueprint :=
  {| table := table bp; columns := cols; indexes := indexes bp;
     foreignKeys := foreignKeys bp; commands := commands bp |}.

(** [ColumnDefinition{Name: name, Type: colType}]: the other fields are
    the zero values. *)
Definition new_column (name : string) (colType : ColumnType) : ColumnDefinition :=
  {| Name := name; Type_ := colType; Length := 0%Z; Precision := 0%Z; Scale := 0%Z;
     IsNullable := false; DefaultValue := None; IsPrimary := false; IsUnique := false;
     IsUnsigned := false; IsAutoIncrement := false |}.

(** [addColumn] appends the column and returns a pointer to the last
    element of the slice; what a method does through the pointer right
    away is done to that element: [chained]. *)
Definition addColumn (bp : Blueprint) (name : string) (colType : ColumnType) : Blueprint :=
  with_columns bp (columns bp ++ [new_column name colType]).

Definition chained (f : ColumnDefinition -> ColumnDefinition) (bp : Blueprint)
  : Blueprint :=
  match columns bp !! (length (columns bp) - 1) with
  | Some col => with_columns bp (<[length (columns bp) - 1 := f col]> (columns bp))
  | None => bp
  end.

Definition Nullable (cd : ColumnDefinition) : ColumnDefinition :=
  {| Name := Name cd; Type_ := Type_ cd; Length := Length cd; Precision := Precision cd;
     Scale := Scale cd; IsNullable := true; DefaultValue := DefaultValue cd;
     IsPrimary := IsPrimary cd; IsUnique := IsUnique cd; IsUnsigned := IsUnsigned cd;
     IsAutoIncrement := IsAutoIncrement cd |}.

(** [Default(value)] for a [value] that is not [nil]; [Default(nil)]
    leaves the column without a default. *)
Definition Default (value : default_value) (cd : ColumnDefinition) : ColumnDefinition :=
  {| Name := Name cd; Type_ := Type_ cd; Length := Length cd; Precision := Precision cd;
     Scale := Scale cd; IsNullable := IsNullable cd; DefaultValue := Some value;
     IsPrimary := IsPrimary cd; IsUnique := IsUnique cd; IsUnsigned := IsUnsigned cd;
     IsAutoIncrement := IsAutoIncrement cd |}.

Definition Primary (cd : ColumnDefinition) : ColumnDefinition :=
  {| Name := Name cd; Type_ := Type_ cd; Length := Length cd; Precision := Precision cd;
     Scale := Scale cd; IsNullable := IsNullable cd; DefaultValue := DefaultValue cd;
     IsPrimary := true; IsUnique := IsUnique cd; IsUnsigned := IsUnsigned cd;
     IsAutoIncrement := IsAutoIncrement cd |}.

Definition Unique_ (cd : ColumnDefinition) : ColumnDefinition :=
  {| Name := Name cd; Type_ := Type_ cd; Length := Length cd; Precision := Precision cd;
     Scale := Scale cd; IsNullable := IsNullable cd; DefaultValue := DefaultValue cd;
     IsPrimary := IsPrimary cd; IsUnique := true; IsUnsigned := IsUnsigned cd;
     IsAutoIncrement := IsAutoIncrement cd |}.

Definition Unsigned (cd : ColumnDefinition) : ColumnDefinition :=
  {| Name := Name cd; Type_ := Type_ cd; Length := Length cd; Precision := Precision cd;
     Scale := Scale cd; IsNullable := IsNullable cd; DefaultValue := DefaultValue cd;
     IsPrimary := IsPrimary cd; IsUnique := IsUnique cd; IsUnsigned := true;
     IsAutoIncrement := IsAutoIncrement cd |}.

Definition AutoIncrement (cd : ColumnDefinition) : ColumnDefinition :=
  {| Name := Name cd; Type_ := Type_ cd; Length := Length cd; Precision := Precision cd;
     Scale := Scale cd; IsNullable := IsNullable cd; DefaultValue := DefaultValue cd;
     IsPrimary := IsPrimary cd; IsUnique := IsUnique cd; IsUnsigned := IsUnsigned cd;
     IsAutoIncrement := true |}.

Definition set_Length (length : Z) (cd : ColumnDefinition) : ColumnDefinition :=
  {| Name := Name cd; Type_ := Type_ cd; Length := length; Precision := Precision cd;
     Scale := Scale cd; IsNullable := IsNullable cd; DefaultValue := DefaultValue cd;
     IsPrimary := IsPrimary cd; IsUnique := IsUnique cd; IsUnsigned := IsUnsigned cd;
     IsAutoIncrement := IsAutoIncrement cd |}.

Definition set_Precision (precision scale : Z) (cd : ColumnDefinition)
  : ColumnDefinition :=
  {| Name := Name cd; Type_ := Type_ cd; Length := Length cd; Precision := precision;
     Scale := scale; IsNullable := IsNullable cd; DefaultValue := DefaultValue cd;
     IsPrimary := IsPrimary cd; IsUnique := IsUnique cd; IsUnsigned := IsUnsigned cd;
     IsAutoIncrement := IsAutoIncrement cd |}.

Definition ID (bp : Blueprint) : Blueprint :=
  chained (fun col => Unsigned (AutoIncrement (Primary col)))
          (addColumn bp "id" TypeBigInteger).

Definition String_ (bp : Blueprint) (name : string) (length : Z) : Blueprint :=
  chained (set_Length length) (addColumn bp name TypeString).

Definition Text (bp : Blueprint) (name : string) : Blueprint := addColumn bp name TypeText.
Definition Integer (bp : Blueprint) (name : string) : Blueprint :=
  addColumn bp name TypeInteger.
Definition BigInteger (bp : Blueprint) (name : string) : Blueprint :=
  addColumn bp name TypeBigInteger.
Definition Boolean (bp : Blueprint) (name : string) : Blueprint :=
  addColumn bp name TypeBoolean.
Definition Timestamp (bp : Blueprint) (name : string) : Blueprint :=
  addColumn bp name TypeTimestamp.
Definition Date (bp : Blueprint) (name : string) : Blueprint := addColumn bp name TypeDate.

Definition Decimal (bp : Blueprint) (name : string) (precision scale : Z) : Blueprint :=
  chained (set_Precision precision scale) (addColumn bp name TypeDecimal).

Definition Float (bp : Blueprint) (name : string) : Blueprint := addColumn bp name TypeFloat.
Definition UUID (bp : Blueprint) (name : string) : Blueprint := addColumn bp name TypeUUID.
Definition JSON (bp : Blueprint) (name : string) : Blueprint := addColumn bp name TypeJSON.
Definition Binary (bp : Blueprint) (name : string) : Blueprint :=
  addColumn bp name TypeBinary.

Definition Timestamps (bp : Blueprint) : Blueprint :=
  chained Nullable (Timestamp (chained Nullable (Timestamp bp "created_at")) "updated_at").

Definition SoftDeletes (bp : Blueprint) : Blueprint :=
  chained Nullable (Timestamp bp "deleted_at").

(** [name := prefix + "_" + bp.table], then [name += "_" + col] for every
    column. *)
Definition generateIndexName (bp : Blueprint) (columns : list string) (unique : bool)
  : string :=
  let prefix := if unique then "uniq"%string else "idx"%string in
  fold_left (fun name col => String.append name (String.append "_" col)) columns
            (String.append prefix (String.append "_" (table bp))).

Definition add_index (bp : Blueprint) (idx : IndexDefinition) : Blueprint :=
  {| table := table bp; columns := columns bp; indexes := indexes bp ++ [idx];
     foreignKeys := foreignKeys bp; commands := commands bp |}.

Definition Index (bp : Blueprint) (columns : list string) : Blueprint :=
  add_index bp {| index_Name := generateIndexName bp columns false;
                  Columns := columns; Unique := false |}.

Definition UniqueIndex (bp : Blueprint) (columns : list string) : Blueprint :=
  add_index bp {| index_Name := generateIndexName bp columns true;
                  Columns := columns; Unique := true |}.

Definition Foreign (bp : Blueprint) (column : string) : Blueprint :=
  {| table := table bp; columns := columns bp; indexes := indexes bp;
     foreignKeys :=
       foreignKeys bp ++
       [ {| Column := column; RefTable := EmptyString; RefColumn := EmptyString;
            OnDelete := EmptyString; OnUpdate := EmptyString;
            fk_Name := Str.join EmptyString ["fk_"; table bp; "_"; column] |} ];
     commands := commands bp |}.

Definition add_command (bp : Blueprint) (cmd : Command) : Blueprint :=
  {| table := table bp; columns := columns bp; indexes := indexes bp;
     foreignKeys := foreignKeys bp; commands := commands bp ++ [cmd] |}.

Definition DropColumn (bp : Blueprint) (name : string) : Blueprint :=
  add_command bp {| command_Type := CommandDropColumn; command_Name := name;
                    To := EmptyString |}.

Definition RenameColumn (bp : Blueprint) (from to : string) : Blueprint :=
  add_command bp {| command_Type := CommandRenameColumn; command_Name := from;
                    To := to |}.

Definition DropIndex (bp : Blueprint) (name : string) : Blueprint :=
  add_command bp {| command_Type := CommandDropIndex; command_Name := name;
                    To := EmptyString |}.

Definition DropForeign (bp : Blueprint) (name : string) : Blueprint :=
  add_command bp {| command_Type := CommandDropForeign; command_Name := name;
                    To := EmptyString |}.

(** The methods of a foreign key, chained on [Foreign]. *)
Definition References (column : string) (fk : ForeignKeyDefinition)
  : ForeignKeyDefinition :=
  {| Column := Column fk; RefTable := RefTable fk; RefColumn := column;
     OnDelete := OnDelete fk; OnUpdate := OnUpdate fk; fk_Name := fk_Name fk |}.

Definition On (table : string) (fk : ForeignKeyDefinition) : ForeignKeyDefinition :=
  {| Column := Column fk; RefTable := table; RefColumn := RefColumn fk;
     OnDelete := OnDelete fk; OnUpdate := OnUpdate fk; fk_Name := fk_Name fk |}.

Definition OnDeleteAction (action : string) (fk : ForeignKeyDefinition)
  : ForeignKeyDefinition :=
  {| Column := Column fk; RefTable := RefTable fk; RefColumn := RefColumn fk;
     OnDelete := action; OnUpdate := OnUpdate fk; fk_Name := fk_Name fk |}.

Definition OnUpdateAction (action : string) (fk : ForeignKeyDefinition)
  : ForeignKeyDefinition :=
  {| Column := Column fk; RefTable := RefTable fk; RefColumn := RefColumn fk;
     OnDelete := OnDelete fk; OnUpdate := action; fk_Name := fk_Name fk |}.

Definition chained_key (f : ForeignKeyDefinition -> ForeignKeyDefinition)
    (bp : Blueprint) : Blueprint :=
  match foreignKeys bp !! (length (foreignKeys bp) - 1) with
  | Some fk =>
      {| table := table bp; columns := columns bp; indexes := indexes bp;
         foreignKeys := <[length (foreignKeys bp) - 1 := f fk]> (foreignKeys bp);
         commands := commands bp |}
  | None => bp
  end.

(** *** Callbacks

    The callback of [Create] and [Alter] fills the blueprint through its
    methods: it is a sequence of calls, each with the modifiers chained
    on the pointer the call returns. *)

Inductive modifier : Type :=
| CallNullable
| CallDefault (value : default_value)
| CallPrimary
| CallUnique
| CallUnsigned
| CallAutoIncrement.

Definition modify (m : modifier) : ColumnDefinition -> ColumnDefinition :=
  match m with
  | CallNullable => Nullable
  | CallDefault value => Default value
  | CallPrimary => Primary
  | CallUnique => Unique_
  | CallUnsigned => Unsigned
  | CallAutoIncrement => AutoIncrement
  end.

Inductive reference : Type :=
| CallReferences (column : string)
| CallOn (table : string)
| CallOnDeleteAction (action : string)
| CallOnUpdateAction (action : string).

Definition refer (r : reference) : ForeignKeyDefinition -> ForeignKeyDefinition :=
  match r with
  | CallReferences column => References column
  | CallOn table => On table
  | CallOnDeleteAction action => OnDeleteAction action
  | CallOnUpdateAction action => OnUpdateAction action
  end.

Inductive column_call : Type :=
| CallID
| CallString (name : string) (length : Z)
| CallText (name : string)
| CallInteger (name : string)
| CallBigInteger (name : string)
| CallBoolean (name : string)
| CallTimestamp (name : string)
| CallDate (name : string)
| CallDecimal (name : string) (precision scale : Z)
| CallFloat (name : string)
| CallUUID (name : string)
| CallJSON (name : string)
| CallBinary (name : string).

Definition add (c : column_call) (bp : Blueprint) : Blueprint :=
  match c with
  | CallID => ID bp
  | CallString name length => String_ bp name length
  | CallText name => Text bp name
  | CallInteger name => Integer bp name
  | CallBigInteger name => BigInteger bp name
  | CallBoolean name => Boolean bp name
  | CallTimestamp name => Timestamp bp name
  | CallDate name => Date bp name
  | CallDecimal name precision scale => Decimal bp name precision scale
  | CallFloat name => Float bp name
  | CallUUID name => UUID bp name
  | CallJSON name => JSON bp name
  | CallBinary name => Binary bp name
  end.

Inductive call : Type :=
| CallColumn (c : column_call) (chain : list modifier)
| CallTimestamps
| CallSoftDeletes
| CallIndex (columns : list string)
| CallUniqueIndex (columns : list string)
| CallForeign (column : string) (chain : list reference)
| CallDropColumn (name : string)
| CallRenameColumn (from to : string)
| CallDropIndex (name : string)
| CallDropForeign (name : string).

Definition run_call (bp : Blueprint) (c : call) : Blueprint :=
  match c with
  | CallColumn c chain => fold_left (fun bp m => chained (modify m) bp) chain (add c bp)
  | CallTimestamps => Timestamps bp
  | CallSoftDeletes => SoftDeletes bp
  | CallIndex columns => Index bp columns
  | CallUniqueIndex columns => UniqueIndex bp columns
  | CallForeign column chain =>
      fold_left (fun bp r => chained_key (refer r) bp) chain (Foreign bp column)
  | CallDropColumn name => DropColumn bp name
  | CallRenameColumn from to => RenameColumn bp from to
  | CallDropIndex name => DropIndex bp name
  | CallDropForeign name => DropForeign bp name
  end.

Definition run (calls : list call) (bp : Blueprint) : Blueprint :=
  fold_left run_call calls bp.

End blueprint.

(** ** Package grammars: statements *)

Module statements.
Import schema blueprint grammars.

Section env.
Context {platform : Platform}.

Definition apostrophe : ascii := ascii_of_nat 39.
Definition squote : string := String apostrophe EmptyString.
Definition backtick : string := String (ascii_of_nat 96) EmptyString.

(** [fmt.Sprintf(`"%s"`, name)]: the name goes between the quotes as it
    is. *)
Definition quote (name : string) : string :=
  String.append Str.dquote (String.append name Str.dquote).

Definition quoteSlice (names : list string) : list string := map quote names.

Definition mysqlQuote (name : string) : string :=
  String.append backtick (String.append name backtick).

Definition mysqlQuoteSlice (names : list string) : list string := map mysqlQuote names.

(** [strings.ReplaceAll(v, "'", "''")]: the string searched for is one
    byte long, so every occurrence is replaced, left to right. *)
Fixpoint double_apostrophes (v : string) : string :=
  match v with
  | EmptyString => EmptyString
  | String c v' =>
      if Ascii.eqb c apostrophe
      then String apostrophe (String apostrophe (double_apostrophes v'))
      else String c (double_apostrophes v')
  end.

Definition formatDefault (value : default_value) : string :=
  match value with
  | DefaultString v =>
      String.append squote (String.append (double_apostrophes v) squote)
  | DefaultBool v => if v then "TRUE" else "FALSE"
  | DefaultOther printed => printed
  end.

(** The end of every [compileColumnDef]: [DEFAULT] and [UNIQUE]. *)
Definition default_clause (col : ColumnDefinition) : string :=
  match DefaultValue col with
  | Some value => String.append " DEFAULT " (formatDefault value)
  | None => EmptyString
  end.

Definition unique_clause (col : ColumnDefinition) : string :=
  if IsUnique col then " UNIQUE" else EmptyString.

Definition is_integer_type (col : ColumnDefinition) : bool :=
  (Type_ col =? TypeInteger)%Z || (Type_ col =? TypeBigInteger)%Z.

Definition PostgresGrammar_compileColumnDef (col : ColumnDefinition) : result string :=
  match PostgresGrammar_CompileColumnType col with
  | Err err => Err err
  | Ok colType =>
      let isSerial := IsAutoIncrement col && is_integer_type col in
      Ok (Str.join EmptyString
            [ quote (Name col); " "; colType;
              if negb (IsNullable col) && negb isSerial then " NOT NULL" else EmptyString;
              default_clause col; unique_clause col ])
  end.

Definition MySQLGrammar_compileColumnDef (col : ColumnDefinition) : result string :=
  match MySQLGrammar_CompileColumnType col with
  | Err err => Err err
  | Ok colType =>
      Ok (Str.join EmptyString
            [ mysqlQuote (Name col); " "; colType;
              if negb (IsNullable col) then " NOT NULL" else EmptyString;
              default_clause col; unique_clause col ])
  end.

Definition SQLiteGrammar_isInlineAutoIncrementPK (col : ColumnDefinition) : bool :=
  IsPrimary col && IsAutoIncrement col && is_integer_type col.

Definition SQLiteGrammar_compileColumnDef (col : ColumnDefinition) : result string :=
  match SQLiteGrammar_CompileColumnType col with
  | Err err => Err err
  | Ok colType =>
      if SQLiteGrammar_isInlineAutoIncrementPK col
      then Ok (Str.join EmptyString [ quote (Name col); " "; colType ])
      else
        Ok (Str.join EmptyString
              [ quote (Name col); " "; colType;
                if negb (IsNullable col) then " NOT NULL" else EmptyString;
                default_clause col; unique_clause col ])
  end.

(** [compileForeignKey] is the same in the three grammars but for the
    quoting. *)
Definition compileForeignKey (quote : string -> string) (fk : ForeignKeyDefinition)
  : string :=
  Str.join EmptyString
    [ "CONSTRAINT "; quote (fk_Name fk); " FOREIGN KEY ("; quote (Column fk);
      ") REFERENCES "; quote (RefTable fk); " ("; quote (RefColumn fk); ")";
      if String.eqb (OnDelete fk) EmptyString then EmptyString
      else String.append " ON DELETE " (OnDelete fk);
      if String.eqb (OnUpdate fk) EmptyString then EmptyString
      else String.append " ON UPDATE " (OnUpdate fk) ].

Definition PostgresGrammar_compileForeignKey := compileForeignKey quote.
Definition MySQLGrammar_compileForeignKey := compileForeignKey mysqlQuote.
Definition SQLiteGrammar_compileForeignKey := compileForeignKey quote.

(** [for _, col := range columns { colSQL, err := g.compileColumnDef(col);
    if err != nil { return err }; out = append(out, line(colSQL)) }]. *)
Fixpoint compile_columns (compileColumnDef : ColumnDefinition -> result string)
    (line : string -> string) (columns : list ColumnDefinition) (out : list string)
  : result (list string) :=
  match columns with
  | [] => Ok out
  | col :: rest =>
      match compileColumnDef col with
      | Err err => Err err
      | Ok colSQL => compile_columns compileColumnDef line rest (out ++ [line colSQL])
      end
  end.

Definition no_columns (bp : Blueprint) : error :=
  Opaque (Str.join EmptyString ["table "; Str.Quote (table bp); ": no columns defined"]).

Definition primary_key (pkCols : list string) : list string :=
  if 0 <? length pkCols
  then [Str.join EmptyString ["PRIMARY KEY ("; Str.join ", " pkCols; ")"]]
  else [].

Definition unique_constraint (idx : IndexDefinition) : string :=
  Str.join EmptyString
    [ "CONSTRAINT "; quote (index_Name idx); " UNIQUE (";
      Str.join ", " (quoteSlice (Columns idx)); ")" ].

Definition create_table (quote : string -> string) (bp : Blueprint) (parts : list string)
  : string :=
  Str.join EmptyString ["CREATE TABLE "; quote (table bp); " ("; Str.join ", " parts; ")"].

Definition trailing_index (bp : Blueprint) (sql : string) (idx : IndexDefinition)
  : string :=
  String.append sql
    (Str.join EmptyString
       [ "; CREATE INDEX "; quote (index_Name idx); " ON "; quote (table bp); " (";
         Str.join ", " (quoteSlice (Columns idx)); ")" ]).

Definition PostgresGrammar_CompileCreate (bp : Blueprint) : result string :=
  let columns := columns bp in
  if length columns =? 0 then Err (no_columns bp)
  else
    match compile_columns PostgresGrammar_compileColumnDef id columns [] with
    | Err err => Err err
    | Ok parts =>
        let pkCols := map (fun col => quote (Name col)) (List.filter IsPrimary columns) in
        let parts := parts ++ primary_key pkCols in
        let parts := parts ++ map unique_constraint (List.filter Unique (indexes bp)) in
        let parts := parts ++ map PostgresGrammar_compileForeignKey (foreignKeys bp) in
        Ok (fold_left (trailing_index bp)
                      (List.filter (fun idx => negb (Unique idx)) (indexes bp))
                      (create_table quote bp parts))
    end.

Definition SQLiteGrammar_CompileCreate (bp : Blueprint) : result string :=
  let columns := columns bp in
  if length columns =? 0 then Err (no_columns bp)
  else
    match compile_columns SQLiteGrammar_compileColumnDef id columns [] with
    | Err err => Err err
    | Ok parts =>
        let pkCols :=
          map (fun col => quote (Name col))
              (List.filter
                 (fun col => IsPrimary col && negb (SQLiteGrammar_isInlineAutoIncrementPK col))
                 columns) in
        let parts := parts ++ primary_key pkCols in
        let parts := parts ++ map unique_constraint (List.filter Unique (indexes bp)) in
        let parts := parts ++ map SQLiteGrammar_compileForeignKey (foreignKeys bp) in
        Ok (fold_left (trailing_index bp)
                      (List.filter (fun idx => negb (Unique idx)) (indexes bp))
                      (create_table quote bp parts))
    end.

Definition mysql_key (idx : IndexDefinition) : string :=
  Str.join EmptyString
    [ if Unique idx then "UNIQUE KEY " else "KEY "; mysqlQuote (index_Name idx); " (";
      Str.join ", " (mysqlQuoteSlice (Columns idx)); ")" ].

Definition MySQLGrammar_CompileCreate (bp : Blueprint) : result string :=
  let columns := columns bp in
  if length columns =? 0 then Err (no_columns bp)
  else
    match compile_columns MySQLGrammar_compileColumnDef id columns [] with
    | Err err => Err err
    | Ok parts =>
        let pkCols :=
          map (fun col => mysqlQuote (Name col)) (List.filter IsPrimary columns) in
        let parts := parts ++ primary_key pkCols in
        let parts := parts ++ map mysql_key (indexes bp) in
        let parts := parts ++ map MySQLGrammar_compileForeignKey (foreignKeys bp) in
        Ok (create_table mysqlQuote bp parts)
    end.

(** *** CompileAlter *)

Definition add_column (table colSQL : string) : string :=
  Str.join EmptyString ["ALTER TABLE "; table; " ADD COLUMN "; colSQL].

Definition drop_column (quote : string -> string) (table : string) (cmd : Command)
  : string :=
  Str.join EmptyString ["ALTER TABLE "; table; " DROP COLUMN "; quote (command_Name cmd)].

Definition rename_column (quote : string -> string) (table : string) (cmd : Command)
  : string :=
  Str.join EmptyString
    [ "ALTER TABLE "; table; " RENAME COLUMN "; quote (command_Name cmd); " TO ";
      quote (To cmd) ].

(** The [switch cmd.Type] of PostgreSQL and SQLite; it has no default
    case, so a command of another type adds no statement. *)
Definition command_statement (table : string) (cmd : Command) : list string :=
  match command_Type cmd with
  | 0%Z => [drop_column quote table cmd]
  | 1%Z => [rename_column quote table cmd]
  | 2%Z => [String.append "DROP INDEX " (quote (command_Name cmd))]
  | 3%Z =>
      [Str.join EmptyString
         ["ALTER TABLE "; table; " DROP CONSTRAINT "; quote (command_Name cmd)]]
  | _ => []
  end.

Definition mysql_command_statement (table : string) (cmd : Command) : list string :=
  match command_Type cmd with
  | 0%Z => [drop_column mysqlQuote table cmd]
  | 1%Z => [rename_column mysqlQuote table cmd]
  | 2%Z =>
      [Str.join EmptyString
         ["ALTER TABLE "; table; " DROP INDEX "; mysqlQuote (command_Name cmd)]]
  | 3%Z =>
      [Str.join EmptyString
         ["ALTER TABLE "; table; " DROP FOREIGN KEY "; mysqlQuote (command_Name cmd)]]
  | _ => []
  end.

Definition create_index (quote : string -> string) (table : string)
    (idx : IndexDefinition) : string :=
  Str.join EmptyString
    [ if Unique idx then "CREATE UNIQUE INDEX " else "CREATE INDEX ";
      quote (index_Name idx); " ON "; table; " (";
      Str.join ", " (map quote (Columns idx)); ")" ].

Definition add_foreign_key (table fkSQL : string) : string :=
  Str.join EmptyString ["ALTER TABLE "; table; " ADD "; fkSQL].

Definition PostgresGrammar_CompileAlter (bp : Blueprint) : result (list string) :=
  let table := quote (table bp) in
  match compile_columns PostgresGrammar_compileColumnDef (add_column table)
                        (columns bp) [] with
  | Err err => Err err
  | Ok stmts =>
      let stmts := stmts ++ flat_map (command_statement table) (commands bp) in
      let stmts := stmts ++ map (create_index quote table) (indexes bp) in
      Ok (stmts ++
          map (fun fk => add_foreign_key table (PostgresGrammar_compileForeignKey fk))
              (foreignKeys bp))
  end.

Definition SQLiteGrammar_CompileAlter (bp : Blueprint) : result (list string) :=
  let table := quote (table bp) in
  match compile_columns SQLiteGrammar_compileColumnDef (add_column table)
                        (columns bp) [] with
  | Err err => Err err
  | Ok stmts =>
      let stmts := stmts ++ flat_map (command_statement table) (commands bp) in
      let stmts := stmts ++ map (create_index quote table) (indexes bp) in
      Ok (stmts ++
          map (fun fk => add_foreign_key table (SQLiteGrammar_compileForeignKey fk))
              (foreignKeys bp))
  end.

Definition MySQLGrammar_CompileAlter (bp : Blueprint) : result (list string) :=
  let table := mysqlQuote (table bp) in
  match compile_columns MySQLGrammar_compileColumnDef (add_column table)
                        (columns bp) [] with
  | Err err => Err err
  | Ok stmts =>
      let stmts := stmts ++ flat_map (mysql_command_statement table) (commands bp) in
      let stmts := stmts ++ map (create_index mysqlQuote table) (indexes bp) in
      Ok (stmts ++
          map (fun fk => add_foreign_key table (MySQLGrammar_compileForeignKey fk))
              (foreignKeys bp))
  end.

(** *** The statements on a table name *)

Definition PostgresGrammar_CompileDrop (table : string) : string :=
  String.append "DROP TABLE " (quote table).
Definition PostgresGrammar_CompileDropIfExists (table : string) : string :=
  String.append "DROP TABLE IF EXISTS " (quote table).
Definition PostgresGrammar_CompileRename (from to : string) : string :=
  Str.join EmptyString ["ALTER TABLE "; quote from; " RENAME TO "; quote to].

Definition MySQLGrammar_CompileDrop (table : string) : string :=
  String.append "DROP TABLE " (mysqlQuote table).
Definition MySQLGrammar_CompileDropIfExists (table : string) : string :=
  String.append "DROP TABLE IF EXISTS " (mysqlQuote table).
Definition MySQLGrammar_CompileRename (from to : string) : string :=
  Str.join EmptyString ["RENAME TABLE "; mysqlQuote from; " TO "; mysqlQuote to].

End env.

End statements.

(** ** Package schema: the builder *)

Module builder.
Import schema blueprint statements migrator.

Section env.
Context {platform : Platform}.

(** The [Grammar] interface, with the methods the builder compiles
    statements by. *)
Record Grammar : Type := {
  CompileCreate : Blueprint -> result string;
  CompileAlter : Blueprint -> result (list string);
  CompileDrop : string -> string;
  CompileDropIfExists : string -> string;
  CompileRename : string -> string -> string
}.

Definition PostgresGrammar : Grammar :=
  {| CompileCreate := PostgresGrammar_CompileCreate;
     CompileAlter := PostgresGrammar_CompileAlter;
     CompileDrop := PostgresGrammar_CompileDrop;
     CompileDropIfExists := PostgresGrammar_CompileDropIfExists;
     CompileRename := PostgresGrammar_CompileRename |}.

Definition MySQLGrammar : Grammar :=
  {| CompileCreate := MySQLGrammar_CompileCreate;
     CompileAlter := MySQLGrammar_CompileAlter;
     CompileDrop := MySQLGrammar_CompileDrop;
     CompileDropIfExists := MySQLGrammar_CompileDropIfExists;
     CompileRename := MySQLGrammar_CompileRename |}.

(** SQLite's statements on a table name are those of PostgreSQL. *)
Definition SQLiteGrammar : Grammar :=
  {| CompileCreate := SQLiteGrammar_CompileCreate;
     CompileAlter := SQLiteGrammar_CompileAlter;
     CompileDrop := PostgresGrammar_CompileDrop;
     CompileDropIfExists := PostgresGrammar_CompileDropIfExists;
     CompileRename := PostgresGrammar_CompileRename |}.

(** The builder's executor is the connection: [b.executor.Exec(sqlStr)]
    sends one statement and returns the connection's error. *)
Record Builder : Type := {
  grammar : Grammar
}.

Definition NewBuilder (grammar : Grammar) : Builder := {| grammar := grammar |}.

Definition executor_Exec (query : string) : Action unit := statement query [].

(** The callback receives the new blueprint and fills it through the
    blueprint's methods. *)
Definition Builder_Create (b : Builder) (table : string) (fn : Blueprint -> Blueprint)
  : Action unit :=
  let bp := fn (NewBlueprint table) in
  match CompileCreate (grammar b) bp with
  | Err err => fail err
  | Ok sqlStr => executor_Exec sqlStr
  end.

Definition Builder_Alter (b : Builder) (table : string) (fn : Blueprint -> Blueprint)
  : Action unit :=
  let bp := fn (NewBlueprint table) in
  match CompileAlter (grammar b) bp with
  | Err err => fail err
  | Ok stmts => for_range stmts executor_Exec
  end.

Definition Builder_Drop (b : Builder) (table : string) : Action unit :=
  executor_Exec (CompileDrop (grammar b) table).

Definition Builder_DropIfExists (b : Builder) (table : string) : Action unit :=
  executor_Exec (CompileDropIfExists (grammar b) table).

Definition Builder_Rename (b : Builder) (from to : string) : Action unit :=
  executor_Exec (CompileRename (grammar b) from to).

End env.

End builder.

(** * Properties *)

(** ** Order facts on strings *)

Module StrFacts.

Lemma ascii_compare_refl (a : ascii) : Ascii.compare a a = Eq.
Proof. unfold Ascii.compare. apply N.compare_refl. Qed.

Lemma ascii_compare_trans (a b c : ascii) :
  Ascii.compare a b = Lt -> Ascii.compare b c = Lt -> Ascii.compare a c = Lt.
Proof.
  unfold Ascii.compare. rewrite !N.compare_lt_iff. apply N.lt_trans.
Qed.

Lemma compare_refl (a : string) : String.compare a a = Eq.
Proof.
  induction a as [|c a IH]; simpl; [reflexivity|].
  now rewrite ascii_compare_refl.
Qed.

Lemma compare_eq (a b : string) : String.compare a b = Eq <-> a = b.
Proof.
  split; [apply String.compare_eq_iff | intros ->; apply compare_refl].
Qed.

Lemma compare_gt_lt (a b : string) :
  String.compare a b = Gt <-> String.compare b a = Lt.
Proof.
  rewrite (String.compare_antisym b a).
  destruct (String.compare a b); simpl; split; congruence.
Qed.

Lemma lt_trans (a b c : string) : Str.lt a b -> Str.lt b c -> Str.lt a c.
Proof.
  unfold Str.lt. revert b c.
  induction a as [|x a IH]; intros [|y b] [|z c]; simpl; try congruence.
  destruct (Ascii.compare x y) eqn:Hxy; try discriminate.
  - apply Ascii.compare_eq_iff in Hxy. subst y.
    destruct (Ascii.compare x z); try congruence. apply IH.
  - destruct (Ascii.compare y z) eqn:Hyz; try discriminate.
    + apply Ascii.compare_eq_iff in Hyz. subst z. now rewrite Hxy.
    + intros _ _. now rewrite (ascii_compare_trans _ _ _ Hxy Hyz).
Qed.

Lemma lt_irrefl (a : string) : ~ Str.lt a a.
Proof. unfold Str.lt. now rewrite compare_refl. Qed.

Lemma lt_asym (a b : string) : Str.lt a b -> ~ Str.lt b a.
Proof. intros H1 H2. exact (lt_irrefl a (lt_trans _ _ _ H1 H2)). Qed.

Lemma lt_neq (a b : string) : Str.lt a b -> a <> b.
Proof. intros H ->. exact (lt_irrefl b H). Qed.

Lemma trichotomy (a b : string) : Str.lt a b \/ a = b \/ Str.lt b a.
Proof.
  unfold Str.lt. destruct (String.compare a b) eqn:H.
  - right; left. now apply compare_eq.
  - now left.
  - right; right. now apply compare_gt_lt.
Qed.

Lemma geb_false (a b : string) : Str.geb a b = false <-> Str.lt a b.
Proof.
  unfold Str.geb, Str.lt. destruct (String.compare a b); split; congruence.
Qed.

Lemma geb_true (a b : string) : Str.geb a b = true <-> (a = b \/ Str.lt b a).
Proof.
  unfold Str.geb, Str.lt. destruct (String.compare a b) eqn:H; split; intros H'.
  - left. now apply compare_eq.
  - reflexivity.
  - discriminate.
  - destruct H' as [->|H'].
    + now rewrite compare_refl in H.
    + apply compare_gt_lt in H'. congruence.
  - right. now apply compare_gt_lt.
  - reflexivity.
Qed.

Lemma leb_true (a b : string) : Str.leb a b = true <-> (a = b \/ Str.lt a b).
Proof.
  unfold Str.leb, Str.lt. destruct (String.compare a b) eqn:H; split; intros H'.
  - left. now apply compare_eq.
  - reflexivity.
  - now right.
  - reflexivity.
  - discriminate.
  - destruct H' as [->|H']; [now rewrite compare_refl in H | congruence].
Qed.

Lemma leb_false (a b : string) : Str.leb a b = false <-> Str.lt b a.
Proof.
  unfold Str.leb, Str.lt. rewrite <- compare_gt_lt.
  destruct (String.compare a b); split; congruence.
Qed.

Section Quote.
Context {platform : Platform}.

Definition byte (n : nat) : string := String (ascii_of_nat n) EmptyString.

(** [%q] beyond ASCII, on every platform: a byte that begins no encoding
    is written as a [\x] escape, a rune of Latin-1 that does not print,
    the no-break space U+00A0 or the next line U+0085, as a [\u]
    escape, and a rune of Latin-1 that prints is kept. *)
Lemma Quote_beyond_ascii :
  Str.Quote (String.append "caf" (byte 233))
  = Str.join EmptyString [Str.dquote; "caf\xe9"; Str.dquote] /\
  Str.Quote (String.append (byte 194) (byte 160))
  = Str.join EmptyString [Str.dquote; "\u00a0"; Str.dquote] /\
  Str.Quote (String.append (byte 194) (byte 133))
  = Str.join EmptyString [Str.dquote; "\u0085"; Str.dquote] /\
  Str.Quote (String.append "caf" (String.append (byte 195) (byte 169)))
  = Str.join EmptyString
      [Str.dquote; "caf"; String.append (byte 195) (byte 169); Str.dquote].
Proof. repeat split; reflexivity. Qed.

End Quote.

End StrFacts.

(** ** Binary search *)

Module SearchFacts.

(** On a predicate that is false below [k] and true from [k] on, the
    loop of [sort.Search] ends at [k]. *)
Lemma Search_loop_threshold (f : nat -> bool) (k : nat) :
  forall fuel i j,
    i <= k -> k <= j -> j - i <= fuel ->
    (forall x, i <= x -> x < k -> f x = false) ->
    (forall x, k <= x -> x < j -> f x = true) ->
    sort.Search_loop fuel f i j = k.
Proof.
  induction fuel as [|fuel IH]; intros i j Hik Hkj Hfuel Hlo Hhi;
    cbn [sort.Search_loop].
  - lia.
  - destruct (Nat.ltb_spec i j) as [Hij|Hij]; [|lia].
    assert (Hh : i <= (i + j) / 2 /\ (i + j) / 2 < j).
    { split.
      - apply Nat.div_le_lower_bound; lia.
      - apply Nat.Div0.div_lt_upper_bound; lia. }
    set (h := (i + j) / 2) in *.
    destruct (f h) eqn:Hf; cbn [negb].
    + assert (Hkh : k <= h).
      { destruct (Nat.le_gt_cases k h) as [H|H]; [exact H|].
        rewrite Hlo in Hf by lia. discriminate. }
      apply IH; [lia | lia | lia | exact Hlo |].
      intros x H1 H2. apply Hhi; lia.
    + assert (Hhk : h < k).
      { destruct (Nat.le_gt_cases k h) as [H|H]; [|exact H].
        rewrite Hhi in Hf by lia. discriminate. }
      apply IH; [lia | lia | lia | | exact Hhi].
      intros x H1 H2. apply Hlo; lia.
Qed.

Lemma Search_threshold (f : nat -> bool) (n k : nat) :
  k <= n ->
  (forall x, x < k -> f x = false) ->
  (forall x, k <= x -> x < n -> f x = true) ->
  sort.Search n f = k.
Proof.
  intros Hk Hlo Hhi. unfold sort.Search.
  apply Search_loop_threshold; [lia | lia | lia | | exact Hhi].
  intros x _. apply Hlo.
Qed.

End SearchFacts.

(** ** The migration registry *)

Module RegistryFacts.
Import migrator.

Section env.
Context {platform : Platform}.

Section Facts.
Context {M : Type}.

Definition names (r : Registry M) : list string := map Name (migrations r).

(** Strictly increasing names: in order, and no name twice. *)
Definition sorted (ms : list (registeredMigration M)) : Prop :=
  StronglySorted (fun a b => Str.lt (Name a) (Name b)) ms.

Definition below (name : string) (e : registeredMigration M) : Prop :=
  Str.lt (Name e) name.
Definition at_or_above (name : string) (e : registeredMigration M) : Prop :=
  Name e = name \/ Str.lt name (Name e).

Lemma sorted_split (name : string) (ms : list (registeredMigration M)) :
  sorted ms ->
  exists l1 l2, ms = l1 ++ l2 /\ Forall (below name) l1 /\ Forall (at_or_above name) l2.
Proof.
  induction 1 as [|e ms Hs IH Hall].
  - exists [], []. repeat split; constructor.
  - destruct (StrFacts.trichotomy (Name e) name) as [Hlt|[Heq|Hgt]].
    + destruct IH as (l1 & l2 & -> & H1 & H2).
      exists (e :: l1), l2. repeat split; auto.
    + exists [], (e :: ms). repeat split; [constructor|].
      constructor; [now left|].
      eapply List.Forall_impl; [|exact Hall]. intros a Ha. right.
      unfold at_or_above. now rewrite <- Heq.
    + exists [], (e :: ms). repeat split; [constructor|].
      constructor; [now right|].
      eapply List.Forall_impl; [|exact Hall]. intros a Ha. right.
      eapply StrFacts.lt_trans; eauto.
Qed.

Lemma Search_split (name : string) (l1 l2 : list (registeredMigration M)) :
  Forall (below name) l1 -> Forall (at_or_above name) l2 ->
  sort.Search (length (l1 ++ l2)) (fun i => Str.geb (name_at (l1 ++ l2) i) name)
  = length l1.
Proof.
  intros H1 H2. apply SearchFacts.Search_threshold.
  - rewrite length_app. lia.
  - intros x Hx. unfold name_at.
    destruct (lookup_lt_is_Some_2 l1 x Hx) as [e He].
    rewrite lookup_app_l, He by exact Hx.
    apply StrFacts.geb_false.
    rewrite List.Forall_forall in H1. apply H1.
    apply list_elem_of_In. eapply list_elem_of_lookup_2; eauto.
  - intros x Hx1 Hx2. unfold name_at.
    rewrite lookup_app_r by exact Hx1.
    rewrite length_app in Hx2.
    destruct (lookup_lt_is_Some_2 l2 (x - length l1)) as [e He]; [lia|].
    rewrite He. apply StrFacts.geb_true.
    rewrite List.Forall_forall in H2.
    destruct (H2 e) as [Heq|Hlt].
    + apply list_elem_of_In. eapply list_elem_of_lookup_2; eauto.
    + now left.
    + now right.
Qed.

(** Opening a slot by [append], [copy] and one assignment is an insertion. *)
Lemma insert_at_split (e : registeredMigration M) (l1 l2 : list (registeredMigration M)) :
  insert_at (length l1) e (l1 ++ l2) = l1 ++ e :: l2.
Proof.
  unfold insert_at.
  rewrite <- (app_assoc l1 l2 [e]).
  rewrite take_app_add', drop_app_length by reflexivity.
  rewrite length_app.
  replace (length l1 + length l2 - length l1) with (length l2) by lia.
  rewrite take_app_length.
  rewrite <- app_assoc.
  replace (length l1) with (length l1 + 0) at 1 by lia.
  rewrite insert_app_r.
  destruct l2; reflexivity.
Qed.

Lemma sorted_insert (name : string) (m : M) (l1 l2 : list (registeredMigration M)) :
  sorted (l1 ++ l2) ->
  Forall (below name) l1 -> Forall (fun e => Str.lt name (Name e)) l2 ->
  sorted (l1 ++ {| Name := name; Migration_ := m |} :: l2).
Proof.
  induction l1 as [|a l1 IH]; simpl; intros Hs H1 H2.
  - constructor; [exact Hs|exact H2].
  - apply StronglySorted_inv in Hs. destruct Hs as [Hs Ha].
    apply List.Forall_cons_iff in H1. destruct H1 as [Hb H1].
    constructor; [now apply IH|].
    apply List.Forall_app in Ha. destruct Ha as [Ha1 Ha2].
    apply List.Forall_app. split; [exact Ha1|].
    constructor; [exact Hb|exact Ha2].
Qed.

Lemma existsb_name (name : string) (ms : list (registeredMigration M)) :
  existsb (fun e => String.eqb (Name e) name) ms = true <-> In name (map Name ms).
Proof.
  rewrite existsb_exists, in_map_iff. split.
  - intros (e & He & Heq). apply String.eqb_eq in Heq. eauto.
  - intros (e & Heq & He). exists e. split; [exact He|]. now apply String.eqb_eq.
Qed.

Lemma at_or_above_fresh (name : string) (l : list (registeredMigration M)) :
  Forall (at_or_above name) l -> ~ In name (map Name l) ->
  Forall (fun e => Str.lt name (Name e)) l.
Proof.
  rewrite !List.Forall_forall. intros H Hfresh e He.
  destruct (H e He) as [Heq|Hlt]; [|exact Hlt].
  exfalso. apply Hfresh. apply in_map_iff. eauto.
Qed.

(** A registration that passes both checks inserts the entry in place. *)
Lemma Register_fresh (r : Registry M) (name : string) (m : M) :
  sorted (migrations r) ->
  namePattern_MatchString name = true ->
  ~ In name (names r) ->
  exists l1 l2,
    migrations r = l1 ++ l2 /\
    Registry_Register r name m =
      (None, {| migrations := l1 ++ {| Name := name; Migration_ := m |} :: l2 |}) /\
    sorted (l1 ++ {| Name := name; Migration_ := m |} :: l2).
Proof.
  intros Hs Hvalid Hfresh.
  destruct (sorted_split name _ Hs) as (l1 & l2 & Heq & H1 & H2).
  exists l1, l2. split; [exact Heq|].
  assert (Hex : existsb (fun e => String.eqb (Name e) name) (migrations r) = false).
  { destruct (existsb _ _) eqn:E; [|reflexivity].
    apply existsb_name in E. contradiction. }
  unfold names in Hfresh. rewrite Heq in Hfresh, Hs.
  split.
  - unfold Registry_Register. rewrite Hvalid, Hex. simpl.
    rewrite Heq, Search_split, insert_at_split by assumption. reflexivity.
  - apply sorted_insert; auto.
    apply at_or_above_fresh; [exact H2|].
    intros Hin. apply Hfresh. rewrite map_app. apply in_or_app. now right.
Qed.

Lemma Register_invalid (r : Registry M) (name : string) (m : M) :
  namePattern_MatchString name = false ->
  exists e, Registry_Register r name m = (Some e, r) /\
            errors_Is e ErrInvalidMigrationName = true.
Proof.
  intros H. unfold Registry_Register. rewrite H. simpl. eauto.
Qed.

Lemma Register_duplicate (r : Registry M) (name : string) (m : M) :
  namePattern_MatchString name = true ->
  In name (names r) ->
  exists e, Registry_Register r name m = (Some e, r) /\
            errors_Is e ErrDuplicateMigration = true.
Proof.
  intros H Hin. unfold Registry_Register. rewrite H. simpl.
  apply existsb_name in Hin. rewrite Hin. eauto.
Qed.

Lemma Register_sorted (r : Registry M) (name : string) (m : M) :
  sorted (migrations r) -> sorted (migrations (snd (Registry_Register r name m))).
Proof.
  intros Hs.
  destruct (namePattern_MatchString name) eqn:Hvalid.
  - destruct (in_dec String.string_dec name (names r)) as [Hin|Hfresh].
    + destruct (Register_duplicate r name m Hvalid Hin) as (e & -> & _). exact Hs.
    + destruct (Register_fresh r name m Hs Hvalid Hfresh) as (l1 & l2 & _ & -> & H).
      exact H.
  - destruct (Register_invalid r name m Hvalid) as (e & -> & _). exact Hs.
Qed.

(** In a sorted registry the binary search of [Get] finds an entry by its name. *)
Lemma Get_found (r : Registry M) (e : registeredMigration M) :
  sorted (migrations r) -> In e (migrations r) ->
  Registry_Get r (Name e) = Ok (Migration_ e).
Proof.
  intros Hs Hin.
  destruct (sorted_split (Name e) _ Hs) as (l1 & l2 & Heq & H1 & H2).
  unfold Registry_Get. rewrite Heq, Search_split by assumption.
  rewrite Heq in Hin, Hs. apply in_app_or in Hin. destruct Hin as [Hin|Hin].
  - rewrite List.Forall_forall in H1. apply H1 in Hin.
    exfalso. exact (StrFacts.lt_irrefl _ Hin).
  - destruct l2 as [|a l2]; [contradiction|].
    rewrite lookup_app_r, Nat.sub_diag by lia. simpl.
    destruct Hin as [->|Hin]; [now rewrite String.eqb_refl|].
    exfalso.
    apply List.Forall_cons_iff in H2. destruct H2 as [Ha _].
    assert (Hs2 : sorted (a :: l2)).
    { clear -Hs. induction l1; [exact Hs|].
      apply StronglySorted_inv in Hs. tauto. }
    apply StronglySorted_inv in Hs2. destruct Hs2 as [_ Hall].
    rewrite List.Forall_forall in Hall. specialize (Hall e Hin).
    destruct Ha as [Ha|Ha].
    + rewrite Ha in Hall. exact (StrFacts.lt_irrefl _ Hall).
    + exact (StrFacts.lt_asym _ _ Ha Hall).
Qed.

Lemma Get_absent (r : Registry M) (name : string) :
  ~ In name (names r) ->
  exists err, Registry_Get r name = Err err /\
              errors_Is err ErrMigrationNotFound = true.
Proof.
  intros Hfresh. unfold Registry_Get.
  destruct (migrations r !! _) as [e|] eqn:He; [|eauto].
  destruct (String.eqb_spec (Name e) name) as [Heq|Hne]; [|eauto].
  exfalso. apply Hfresh. unfold names. apply in_map_iff. exists e. split; [exact Heq|].
  apply list_elem_of_In. eapply list_elem_of_lookup_2; eauto.
Qed.

(** What [Get] returns is the migration of an entry of that name. *)
Lemma Get_entry (r : Registry M) (name : string) (mig : M) :
  Registry_Get r name = Ok mig ->
  exists e, In e (migrations r) /\ Name e = name /\ Migration_ e = mig.
Proof.
  unfold Registry_Get. destruct (migrations r !! _) as [e|] eqn:He; [|discriminate].
  destruct (String.eqb_spec (Name e) name) as [Heq|Hne]; [|discriminate].
  intros [= <-]. exists e. split; [|auto].
  apply list_elem_of_In. eapply list_elem_of_lookup_2; eauto.
Qed.

(** The registry a sequence of [Register] calls leaves, failed calls included. *)
Definition after_calls (calls : list (string * M)) : Registry M :=
  fold_left (fun r c => snd (Registry_Register r (fst c) (snd c))) calls NewRegistry.

Lemma after_calls_sorted (calls : list (string * M)) :
  sorted (migrations (after_calls calls)).
Proof.
  unfold after_calls.
  assert (H : sorted (migrations (@NewRegistry M))) by constructor.
  revert H. generalize (@NewRegistry M).
  induction calls as [|c calls IH]; intros r Hr; simpl; [exact Hr|].
  apply IH. now apply Register_sorted.
Qed.

End Facts.

End env.

End RegistryFacts.

(** ** The name pattern *)

Module PatternFacts.
Import migrator.

(** What [^\d{14}_[a-z][a-z0-9_]*$] describes: fourteen digits, an
    underscore, a lower-case letter, then lower-case letters, digits and
    underscores to the end. *)
Definition name_shape (s : string) : Prop :=
  exists (stamp : string) (c : ascii) (rest : string),
    s = String.append stamp (String "_" (String c rest)) /\
    String.length stamp = 14 /\
    all_chars Str.is_digit stamp = true /\
    Str.is_lower c = true /\
    all_chars (fun x => Str.is_lower x || Str.is_digit x || Str.is_underscore x) rest = true.

Lemma digits_spec (n : nat) (s rest : string) :
  digits n s = Some rest <->
  exists stamp, s = String.append stamp rest /\ String.length stamp = n /\
                all_chars Str.is_digit stamp = true.
Proof.
  revert s. induction n as [|n IH]; intros s; simpl.
  - split.
    + intros [= ->]. exists EmptyString. auto.
    + intros (stamp & -> & Hlen & _). destruct stamp; [reflexivity|discriminate].
  - destruct s as [|c s].
    + split; [discriminate|].
      intros (stamp & Heq & Hlen & _). destruct stamp; discriminate.
    + destruct (Str.is_digit c) eqn:Hc.
      * rewrite IH. split.
        -- intros (stamp & -> & Hlen & Hall).
           exists (String c stamp). simpl. rewrite Hc, Hall, Hlen. auto.
        -- intros (stamp & Heq & Hlen & Hall).
           destruct stamp as [|c' stamp]; [discriminate|].
           simpl in Heq, Hlen, Hall. injection Heq as -> ->.
           apply andb_true_iff in Hall. destruct Hall as [_ Hall].
           exists stamp. auto.
      * split; [discriminate|].
        intros (stamp & Heq & Hlen & Hall).
        destruct stamp as [|c' stamp]; [discriminate|].
        simpl in Heq, Hall. injection Heq as -> ->.
        rewrite Hc in Hall. discriminate.
Qed.

Lemma is_underscore_spec (c : ascii) : Str.is_underscore c = true <-> c = "_"%char.
Proof.
  unfold Str.is_underscore. rewrite Nat.eqb_eq. split.
  - intros H. rewrite <- (ascii_nat_embedding c), H. reflexivity.
  - intros ->. reflexivity.
Qed.

Lemma MatchString_spec (s : string) :
  namePattern_MatchString s = true <-> name_shape s.
Proof.
  unfold namePattern_MatchString, name_shape. split.
  - destruct (digits 14 s) as [[|u [|c rest]]|] eqn:Hd; try discriminate.
    intros H. apply andb_true_iff in H. destruct H as [H Hrest].
    apply andb_true_iff in H. destruct H as [Hu Hc].
    apply is_underscore_spec in Hu. subst u.
    apply digits_spec in Hd. destruct Hd as (stamp & -> & Hlen & Hall).
    exists stamp, c, rest. auto.
  - intros (stamp & c & rest & -> & Hlen & Hall & Hc & Hrest).
    assert (Hd : digits 14 (String.append stamp (String "_" (String c rest)))
                 = Some (String "_" (String c rest))).
    { apply digits_spec. exists stamp. auto. }
    rewrite Hd, Hc, Hrest. reflexivity.
Qed.

End PatternFacts.

Module RegistryContract.
Import migrator RegistryFacts PatternFacts.

Section env.
Context {platform : Platform}.

(** C4.  The registry contract.  Whatever sequence of [Register] calls
    built the registry [r], it is sorted by strictly increasing name.  A
    further [Register(name, m)] returns an error wrapping
    [ErrInvalidMigrationName] when [name] does not have the shape of
    [^\d{14}_[a-z][a-z0-9_]*$], an error wrapping [ErrDuplicateMigration]
    when it has the shape and is registered already, and in both cases
    leaves [r] as it was; otherwise it returns no error and leaves [r] with
    the entry inserted at one place, sorted, and [Get(name)] then returns
    [m].  [Get] returns the registered instance for every entry of [r], and
    an error wrapping [ErrMigrationNotFound] for a name that is not
    registered. *)
Theorem C4_registry_contract {M : Type} (calls : list (string * M))
    (name : string) (m : M) :
  let r := after_calls calls in
  let entry := {| Name := name; Migration_ := m |} in
  sorted (migrations r) /\
  (~ name_shape name ->
     exists e, Registry_Register r name m = (Some e, r) /\
               errors_Is e ErrInvalidMigrationName = true) /\
  (name_shape name -> In name (names r) ->
     exists e, Registry_Register r name m = (Some e, r) /\
               errors_Is e ErrDuplicateMigration = true) /\
  (name_shape name -> ~ In name (names r) ->
     exists l1 l2,
       migrations r = l1 ++ l2 /\
       Registry_Register r name m = (None, {| migrations := l1 ++ entry :: l2 |}) /\
       sorted (l1 ++ entry :: l2) /\
       Registry_Get {| migrations := l1 ++ entry :: l2 |} name = Ok m) /\
  (forall e, In e (migrations r) -> Registry_Get r (Name e) = Ok (Migration_ e)) /\
  (~ In name (names r) ->
     exists err, Registry_Get r name = Err err /\
                 errors_Is err ErrMigrationNotFound = true).
Proof.
  intros r entry.
  assert (Hs : sorted (migrations r)) by apply after_calls_sorted.
  split; [exact Hs|]. split; [|split; [|split; [|split]]].
  - intros Hshape. apply Register_invalid.
    destruct (namePattern_MatchString name) eqn:E; [|reflexivity].
    exfalso. apply Hshape. now apply MatchString_spec.
  - intros Hshape Hin. apply Register_duplicate; [|exact Hin].
    now apply MatchString_spec.
  - intros Hshape Hfresh. apply MatchString_spec in Hshape.
    destruct (Register_fresh r name m Hs Hshape Hfresh) as (l1 & l2 & Heq & Hreg & Hs').
    exists l1, l2. repeat split; try assumption.
    apply (Get_found {| migrations := l1 ++ entry :: l2 |} entry Hs').
    simpl. apply in_or_app. right. now left.
  - intros e He. now apply Get_found.
  - apply Get_absent.
Qed.

Definition example_calls : list (string * nat) :=
  [ ("20240102000000_b", 2); ("not a migration name", 9);
    ("20240101000000_a", 1); ("20240102000000_b", 7) ].

End env.

Section example.
Existing Instance example_platform.

(** The contract at work: after these four calls, of which two fail, a
    third migration is registered behind the other two. *)
Lemma C4_registry_contract_witness :
  migrations (after_calls example_calls) =
    [ {| Name := "20240101000000_a"; Migration_ := 1 |};
      {| Name := "20240102000000_b"; Migration_ := 2 |} ] /\
  exists l1 l2,
    migrations (after_calls example_calls) = l1 ++ l2 /\
    Registry_Register (after_calls example_calls) "20240103000000_c" 3
    = (None, {| migrations :=
                  l1 ++ {| Name := "20240103000000_c"; Migration_ := 3 |} :: l2 |}) /\
    sorted (l1 ++ {| Name := "20240103000000_c"; Migration_ := 3 |} :: l2) /\
    Registry_Get
      {| migrations := l1 ++ {| Name := "20240103000000_c"; Migration_ := 3 |} :: l2 |}
      "20240103000000_c" = Ok 3.
Proof.
  split; [reflexivity|].
  apply (C4_registry_contract example_calls "20240103000000_c" 3).
  - apply MatchString_spec. reflexivity.
  - vm_compute. intros [H|[H|[]]]; discriminate.
Defined.

End example.

End RegistryContract.

(** ** Column types *)

Module ColumnTypes.
Import schema grammars.

Section env.
Context {platform : Platform}.

Inductive dialect : Type := PostgreSQL | MySQL | SQLite.







(** A byte [strconv.Quote] copies as it is: printable ASCII other than
    the double quote and the backslash. *)
Definition plain (c : ascii) : bool :=
  let n := nat_of_ascii c in
  (32 <=? n) && (n <? 127) && negb (n =? 34) && negb (n =? 92).




Lemma append_assoc (a b c : string) :
  String.append (String.append a b) c = String.append a (String.append b c).
Proof. induction a as [|x a IH]; simpl; [reflexivity|]. now rewrite IH. Qed.










End env.

Section example.
Existing Instance example_platform.




End example.

End ColumnTypes.

(** ** The SQL of the tracker and of [Fresh] *)

Module TrackerSQL.
Import migrator.

Lemma prefix_append (a b : string) : String.prefix a (String.append a b) = true.
Proof.
  induction a as [|c a IH]; simpl; [now destruct b|].
  destruct (ascii_dec c c); [exact IH|contradiction].
Qed.

Lemma contains_prefix (sub s : string) :
  String.prefix sub s = true -> Str.contains sub s = true.
Proof. intros H. destruct s; cbn [Str.contains]; rewrite H; reflexivity. Qed.

Lemma contains_append_r (sub a b : string) :
  Str.contains sub b = true -> Str.contains sub (String.append a b) = true.
Proof.
  intros H. induction a as [|c a IH]; simpl; [exact H|].
  rewrite IH. apply orb_true_r.
Qed.

Lemma prefix_append_l (sub a b : string) :
  String.prefix sub a = true -> String.prefix sub (String.append a b) = true.
Proof.
  revert a. induction sub as [|x sub IH]; intros a H.
  - now destruct (String.append a b).
  - destruct a as [|y a]; [discriminate|]. simpl in *.
    destruct (ascii_dec x y); [now apply IH|discriminate].
Qed.

Lemma contains_append_l (sub a b : string) :
  Str.contains sub a = true -> Str.contains sub (String.append a b) = true.
Proof.
  induction a as [|c a IH]; cbn [Str.contains]; intros H.
  - rewrite orb_false_r in H. apply contains_prefix.
    now apply prefix_append_l.
  - apply orb_true_iff in H. destruct H as [H|H].
    + apply contains_prefix. now apply prefix_append_l.
    + change (String.append (String c a) b) with (String c (String.append a b)).
      cbn [Str.contains]. rewrite (IH H). apply orb_true_r.
Qed.

Ltac find_substring :=
  repeat first
    [ reflexivity
    | apply contains_append_l; reflexivity
    | apply contains_append_r ].

Section env.
Context {platform : Platform}.

(** The table name an option list configures: the last [WithTableName],
    or the default. *)
Definition configured_table (opts : list Option) : string :=
  fold_left (fun name opt =>
               match opt with WithTableName name' => name' | _ => name end)
            opts "migrations"%string.

Lemma tracker_fold (opts : list Option) (m : Migrator) :
  tracker (fold_left apply_option opts m) =
  NewTracker
    (fold_left (fun name opt =>
                  match opt with WithTableName name' => name' | _ => name end)
               opts (tableName (tracker m))).
Proof.
  revert m. induction opts as [|opt opts IH]; intros m; simpl.
  - now destruct (tracker m).
  - rewrite IH. destruct opt as [name|g|]; simpl; try reflexivity.
    now destruct (grammar m).
Qed.

Lemma New_tracker (opts : list Option) :
  tracker (New opts) = NewTracker (configured_table opts).
Proof.
  unfold New, configured_table.
  match goal with |- context [fold_left apply_option opts ?m0] =>
    pose proof (tracker_fold opts m0) as H;
    set (m := fold_left apply_option opts m0) in *
  end.
  destruct (runner m); exact H.
Qed.

(** An action only ever adds to the trace. *)
Definition extends {A : Type} (a : Action A) : Prop :=
  forall w, exists later, trace (snd (a w)) = trace w ++ later.

Lemma extends_ret {A : Type} (x : A) : extends (ret x).
Proof. intros w. exists []. simpl. now rewrite app_nil_r. Qed.

Lemma extends_fail {A : Type} (e : error) : extends (@fail A e).
Proof. intros w. exists []. simpl. now rewrite app_nil_r. Qed.

Lemma extends_bind {A B : Type} (a : Action A) (k : A -> Action B) :
  extends a -> (forall x, extends (k x)) -> extends (bind a k).
Proof.
  intros Ha Hk w. unfold bind. destruct (Ha w) as [l1 H1].
  destruct (a w) as [[x|e] w1]; simpl in *.
  - destruct (Hk x w1) as [l2 H2]. exists (l1 ++ l2).
    now rewrite H2, H1, app_assoc.
  - now exists l1.
Qed.

Lemma extends_on_error {A : Type} (a : Action A) (f : error -> error) :
  extends a -> extends (on_error a f).
Proof.
  intros Ha w. destruct (Ha w) as [l H]. exists l.
  unfold on_error. now destruct (a w) as [[x|e] w1].
Qed.

Lemma extends_log (ev : Event) : extends (log ev).
Proof. intros w. now exists [ev]. Qed.

Lemma extends_connection : extends connection.
Proof.
  intros w. exists []. unfold connection.
  destruct (faults w) as [|[|] rest]; simpl; now rewrite app_nil_r.
Qed.

Lemma extends_get_tables : extends get_tables.
Proof. intros w. exists []. simpl. now rewrite app_nil_r. Qed.

Lemma extends_put_table (name : string) (rows : list MigrationRecord.t) :
  extends (put_table name rows).
Proof. intros w. exists []. simpl. now rewrite app_nil_r. Qed.

Lemma extends_drop_schema_public : extends drop_schema_public.
Proof. intros w. exists []. simpl. now rewrite app_nil_r. Qed.

Lemma extends_tick : extends tick.
Proof. intros w. exists []. simpl. now rewrite app_nil_r. Qed.

Lemma extends_discard {A : Type} (a : Action A) : extends a -> extends (discard a).
Proof. intros Ha w. destruct (Ha w) as [l H]. now exists l. Qed.

Lemma extends_attempt {A : Type} (a : Action A) : extends a -> extends (attempt a).
Proof.
  intros Ha w. destruct (Ha w) as [l H]. exists l.
  unfold attempt. now destruct (a w).
Qed.

Lemma extends_lift {A : Type} (r : result A) : extends (lift r).
Proof. destruct r; [apply extends_ret|apply extends_fail]. Qed.

End env.

Ltac extends_step :=
  lazymatch goal with
  | |- extends (bind _ _) => apply extends_bind; [|intros ?]
  | |- extends (on_error _ _) => apply extends_on_error
  | |- extends (discard _) => apply extends_discard
  | |- extends (attempt _) => apply extends_attempt
  | |- extends (lift _) => apply extends_lift
  | |- extends (ret _) => apply extends_ret
  | |- extends (fail _) => apply extends_fail
  | |- extends (log _) => apply extends_log
  | |- extends connection => apply extends_connection
  | |- extends get_tables => apply extends_get_tables
  | |- extends (put_table _ _) => apply extends_put_table
  | |- extends tick => apply extends_tick
  | |- extends drop_schema_public => apply extends_drop_schema_public
  | |- extends (match ?x with _ => _ end) => destruct x
  end.

Ltac extends_auto :=
  unfold statement, rows_of; repeat extends_step.

Section env.
Context {platform : Platform}.

Lemma sent (stmt : string) (args : list sqlarg) (w : World) :
  trace (snd (statement stmt args w)) = trace w ++ [EvSQL stmt args].
Proof.
  unfold statement, bind, log, connection. simpl.
  destruct (faults w) as [|[|] rest]; reflexivity.
Qed.

Lemma on_error_trace {A : Type} (a : Action A) (f : error -> error) (w : World) :
  snd (on_error a f w) = snd (a w).
Proof. unfold on_error. destruct (a w) as [[x|e] w']; reflexivity. Qed.

(** The first event an action logs after the trace of [w]. *)
Definition first_sent {A : Type} (a : Action A) (w : World) : option Event :=
  trace (snd (a w)) !! length (trace w).

Lemma first_sent_statement {A : Type} (stmt : string) (args : list sqlarg)
    (k : Action A) (f : error -> error) (w : World) :
  extends k ->
  first_sent (on_error (statement stmt args ;;; k) f) w = Some (EvSQL stmt args).
Proof.
  intros Hk. unfold first_sent. rewrite on_error_trace.
  unfold bind at 1.
  pose proof (sent stmt args w) as Hs.
  destruct (statement stmt args w) as [[[]|e] w1]; simpl in *.
  - destruct (Hk w1) as [later ->]. rewrite Hs, <- app_assoc.
    rewrite lookup_app_r, Nat.sub_diag by lia. reflexivity.
  - rewrite Hs. rewrite lookup_app_r, Nat.sub_diag by lia. reflexivity.
Qed.

(** C10.  The tracker writes PostgreSQL.  Whatever options configure the
    migrator, the grammar among them, its tracker is the one of the
    configured table name alone.  The statements with parameters that a
    tracker sends are [... WHERE batch = $1 ...], [... VALUES ($1, $2)] and
    [... WHERE migration = $1], and the table it creates has the column
    [id SERIAL PRIMARY KEY]; the table name is the only part of these
    texts that varies. *)
Theorem C10_tracker_sql_is_postgres (opts : list Option) (w : World)
    (name : string) (b : Z) :
  let t := tracker (New opts) in
  t = NewTracker (configured_table opts) /\
  (forall opts1 opts2 g,
     opts = opts1 ++ WithGrammar g :: opts2 -> t = tracker (New (opts1 ++ opts2))) /\
  first_sent (Tracker_GetByBatch t b) w =
    Some (EvSQL (Str.join EmptyString
                   ["SELECT migration, batch, created_at FROM "; tableName t;
                    " WHERE batch = $1 ORDER BY migration ASC"]) [ArgInt b]) /\
  first_sent (Tracker_Record t name b) w =
    Some (EvSQL (Str.join EmptyString
                   ["INSERT INTO "; tableName t; " (migration, batch) VALUES ($1, $2)"])
                [ArgString name; ArgInt b]) /\
  first_sent (Tracker_Remove t name) w =
    Some (EvSQL (Str.join EmptyString
                   ["DELETE FROM "; tableName t; " WHERE migration = $1"])
                [ArgString name]) /\
  (exists ddl, first_sent (Tracker_EnsureTable t) w = Some (EvSQL ddl []) /\
               Str.contains "id         SERIAL PRIMARY KEY" ddl = true) /\
  Str.contains "$1" (GetByBatch_query t) = true /\
  Str.contains "($1, $2)" (Record_query t) = true /\
  Str.contains "$1" (Remove_query t) = true.
Proof.
  intros t. subst t. rewrite New_tracker.
  split; [reflexivity|].
  split.
  { intros opts1 opts2 g ->. rewrite New_tracker. f_equal.
    unfold configured_table. rewrite !fold_left_app. reflexivity. }
  set (t := NewTracker (configured_table opts)).
  split; [apply first_sent_statement; extends_auto|].
  split; [apply first_sent_statement; extends_auto|].
  split; [apply first_sent_statement; extends_auto|].
  split.
  { exists (EnsureTable_query t). split.
    - apply first_sent_statement. extends_auto.
    - unfold EnsureTable_query. cbn [Str.join]. find_substring. }
  unfold GetByBatch_query, Record_query, Remove_query. cbn [Str.join].
  repeat split; find_substring.
Qed.

End env.

End TrackerSQL.

(** ** Reasoning about actions on the database *)

Module Effects.
Import migrator TrackerSQL.

(** What the properties below observe of a world: the rows of a tracking
    table, as (name, batch) pairs, and the migration bodies that ran. *)
Definition rows_in (t : Tracker) (w : World) : list MigrationRecord.t :=
  match tables w !! tableName t with
  | Some rows => rows
  | None => []
  end.

Definition entry (r : MigrationRecord.t) : string * Z :=
  (MigrationRecord.Name r, MigrationRecord.Batch r).

Definition entries (t : Tracker) (w : World) : list (string * Z) :=
  map entry (rows_in t w).

Definition is_body (ev : Event) : option (Migration * string) :=
  match ev with
  | EvBody m direction => Some (m, direction)
  | _ => None
  end.

Definition bodies (w : World) : list (Migration * string) := omap is_body (trace w).

Definition is_before_hook (ev : Event) : option (nat * string * string) :=
  match ev with
  | EvBeforeHook i name direction => Some (i, name, direction)
  | _ => None
  end.

Definition before_calls (w : World) : list (nat * string * string) :=
  omap is_before_hook (trace w).

Definition calm (w : World) : Prop := faults w = [].
Definition has_table (t : Tracker) (w : World) : Prop :=
  is_Some (tables w !! tableName t).

(** [wp a Q w]: running [a] in [w] ends with a result and a world that
    satisfy [Q]. *)
Definition wp {A : Type} (a : Action A) (Q : result A -> World -> Prop) (w : World)
  : Prop :=
  Q (fst (a w)) (snd (a w)).

Lemma wp_mono {A : Type} (a : Action A) (Q Q' : result A -> World -> Prop) (w : World) :
  wp a Q w -> (forall r w', Q r w' -> Q' r w') -> wp a Q' w.
Proof. unfold wp. auto. Qed.

Lemma wp_ret {A : Type} (x : A) (Q : result A -> World -> Prop) (w : World) :
  Q (Ok x) w -> wp (ret x) Q w.
Proof. auto. Qed.

Lemma wp_fail {A : Type} (e : error) (Q : result A -> World -> Prop) (w : World) :
  Q (Err e) w -> wp (fail e) Q w.
Proof. auto. Qed.

Lemma wp_bind {A B : Type} (a : Action A) (k : A -> Action B)
    (Q : result B -> World -> Prop) (w : World) :
  wp a (fun r w1 => match r with
                    | Ok x => wp (k x) Q w1
                    | Err e => Q (Err e) w1
                    end) w ->
  wp (bind a k) Q w.
Proof. unfold wp, bind. destruct (a w) as [[x|e] w1]; auto. Qed.

Lemma wp_on_error {A : Type} (a : Action A) (f : error -> error)
    (Q : result A -> World -> Prop) (w : World) :
  wp a (fun r w1 => match r with
                    | Ok x => Q (Ok x) w1
                    | Err e => Q (Err (f e)) w1
                    end) w ->
  wp (on_error a f) Q w.
Proof. unfold wp, on_error. destruct (a w) as [[x|e] w1]; auto. Qed.

Lemma wp_attempt {A : Type} (a : Action A)
    (Q : result (result A) -> World -> Prop) (w : World) :
  wp a (fun r w1 => Q (Ok r) w1) w -> wp (attempt a) Q w.
Proof. unfold wp, attempt. destruct (a w); auto. Qed.

Lemma wp_discard {A : Type} (a : Action A)
    (Q : result unit -> World -> Prop) (w : World) :
  wp a (fun _ w1 => Q (Ok tt) w1) w -> wp (discard a) Q w.
Proof. unfold wp, discard. auto. Qed.

Lemma wp_lift {A : Type} (r : result A) (Q : result A -> World -> Prop) (w : World) :
  Q r w -> wp (lift r) Q w.
Proof. destruct r; auto. Qed.

(** An action that leaves the tables, the clock and the bodies alone: it
    may log events that are not bodies and use the connection. *)
Definition quiet (w w' : World) : Prop :=
  tables w' = tables w /\ bodies w' = bodies w /\ (calm w -> calm w').

Lemma quiet_refl (w : World) : quiet w w.
Proof. repeat split; auto. Qed.

Lemma quiet_trans (w1 w2 w3 : World) : quiet w1 w2 -> quiet w2 w3 -> quiet w1 w3.
Proof.
  intros (H1 & H2 & H3) (H4 & H5 & H6).
  repeat split; [congruence | congruence | auto].
Qed.

Lemma quiet_rows (t : Tracker) (w w' : World) :
  quiet w w' -> rows_in t w' = rows_in t w.
Proof. intros (H & _). unfold rows_in. now rewrite H. Qed.

Lemma quiet_has_table (t : Tracker) (w w' : World) :
  quiet w w' -> has_table t w -> has_table t w'.
Proof. intros (H & _). unfold has_table. now rewrite H. Qed.

Lemma bodies_logged (w : World) (ev : Event) :
  bodies {| tables := tables w; clock := clock w; faults := faults w;
            trace := trace w ++ [ev] |}
  = bodies w ++ match is_body ev with Some b => [b] | None => [] end.
Proof.
  unfold bodies. simpl. rewrite omap_app. simpl. now destruct (is_body ev).
Qed.

(** The connection: quiet, and it answers when calm. *)
Lemma connection_spec (w : World) :
  wp connection (fun r w' => quiet w w' /\ (calm w -> r = Ok tt)) w.
Proof.
  unfold wp, connection, quiet, calm.
  destruct (faults w) as [|[|] rest] eqn:E; simpl; rewrite ?E;
    repeat split; auto; discriminate.
Qed.

Lemma log_spec (ev : Event) (w : World) :
  wp (log ev)
     (fun r w' =>
        r = Ok tt /\ tables w' = tables w /\ (calm w -> calm w') /\
        bodies w' = bodies w ++ match is_body ev with Some b => [b] | None => [] end) w.
Proof.
  unfold wp, log. simpl. repeat split; auto. apply bodies_logged.
Qed.

Lemma statement_spec (stmt : string) (args : list sqlarg) (w : World) :
  wp (statement stmt args) (fun r w' => quiet w w' /\ (calm w -> r = Ok tt)) w.
Proof.
  unfold statement. apply wp_bind.
  eapply wp_mono; [apply log_spec|]. intros r w1 (-> & Ht & Hc & Hb).
  eapply wp_mono; [apply connection_spec|]. intros r w2 [Hq Hok].
  simpl in Hb. rewrite app_nil_r in Hb.
  split.
  - eapply quiet_trans; [|exact Hq]. repeat split; auto.
  - auto.
Qed.

Lemma rows_of_spec (t : Tracker) (w : World) :
  wp (rows_of (tableName t))
     (fun r w' => w' = w /\
                  match r with
                  | Ok rows => tables w !! tableName t = Some rows
                  | Err _ => tables w !! tableName t = None
                  end) w.
Proof.
  unfold wp, rows_of, bind, get_tables. simpl.
  destruct (tables w !! tableName t); simpl; auto.
Qed.

End Effects.

Module TrackerSpec.
Import migrator TrackerSQL Effects.

Section env.
Context {platform : Platform}.

Lemma rows_in_put (t : Tracker) (rows : list MigrationRecord.t) (w : World) :
  rows_in t (snd (put_table (tableName t) rows w)) = rows.
Proof. unfold rows_in, put_table. simpl. now rewrite lookup_insert_eq. Qed.

Lemma rows_in_Some (t : Tracker) (w : World) (rows : list MigrationRecord.t) :
  tables w !! tableName t = Some rows -> rows_in t w = rows.
Proof. unfold rows_in. now intros ->. Qed.

Lemma rows_in_None (t : Tracker) (w : World) :
  tables w !! tableName t = None -> rows_in t w = [].
Proof. unfold rows_in. now intros ->. Qed.

Lemma EnsureTable_spec (t : Tracker) (w : World) :
  wp (Tracker_EnsureTable t)
     (fun r w' =>
        rows_in t w' = rows_in t w /\ bodies w' = bodies w /\
        (calm w -> calm w') /\ (has_table t w -> has_table t w') /\
        (r = Ok tt -> has_table t w') /\ (calm w -> r = Ok tt)) w.
Proof.
  unfold Tracker_EnsureTable. apply wp_on_error, wp_bind.
  eapply wp_mono; [apply statement_spec|].
  intros [[]|e] w1 [Hq Hok].
  - unfold wp, bind, get_tables. simpl.
    destruct Hq as (Ht & Hb & Hc).
    destruct (tables w1 !! tableName t) as [rows|] eqn:E; simpl.
    + unfold rows_in, has_table. rewrite Ht in *. rewrite E.
      repeat split; auto.
    + unfold rows_in, has_table. simpl. rewrite lookup_insert_eq.
      rewrite <- Ht, E. repeat split; auto.
  - destruct Hq as (Ht & Hb & Hc). unfold rows_in, has_table. rewrite Ht.
    repeat split; auto; try discriminate.
    intros Hcalm. specialize (Hok Hcalm). discriminate.
Qed.

(** A query: quiet, it returns [f] of the rows, and it answers when the
    connection is calm and the table is there. *)
Definition query_post {A : Type} (t : Tracker) (f : list MigrationRecord.t -> A)
    (w : World) (r : result A) (w' : World) : Prop :=
  quiet w w' /\
  (forall x, r = Ok x -> x = f (rows_in t w)) /\
  (calm w -> has_table t w -> r = Ok (f (rows_in t w))).

Lemma query_spec {A : Type} (t : Tracker) (stmt : string) (args : list sqlarg)
    (f : list MigrationRecord.t -> A) (wrap : error -> error) (w : World) :
  wp (on_error (statement stmt args ;;; rows <- rows_of (tableName t) ;; ret (f rows))
               wrap)
     (query_post t f w) w.
Proof.
  apply wp_on_error, wp_bind.
  eapply wp_mono; [apply statement_spec|].
  intros [[]|e] w1 [Hq Hok].
  - apply wp_bind. eapply wp_mono; [apply rows_of_spec|].
    intros [rows|e] w2 [-> Hrows].
    + apply wp_ret. destruct Hq as (Ht & Hb & Hc).
      rewrite Ht in Hrows. unfold query_post.
      rewrite (rows_in_Some _ _ _ Hrows).
      split; [repeat split; auto|]. split; [|reflexivity].
      intros y Hy. now injection Hy as <-.
    + destruct Hq as (Ht & Hb & Hc). rewrite Ht in Hrows.
      repeat split; auto; try discriminate.
      intros _ [y Hy]. congruence.
  - repeat split; try apply Hq; try discriminate.
    intros Hcalm. specialize (Hok Hcalm). discriminate.
Qed.

Lemma GetApplied_spec (t : Tracker) (w : World) :
  wp (Tracker_GetApplied t) (query_post t order_by_name w) w.
Proof. apply query_spec. Qed.

Lemma GetByBatch_spec (t : Tracker) (b : Z) (w : World) :
  wp (Tracker_GetByBatch t b)
     (query_post t (fun rows => order_by_name
                                  (filter (fun r => MigrationRecord.Batch r = b) rows)) w) w.
Proof. apply (query_spec t _ _ (fun rows => order_by_name (filter _ rows))). Qed.

Lemma GetLastBatchNumber_spec (t : Tracker) (w : World) :
  wp (Tracker_GetLastBatchNumber t) (query_post t max_batch w) w.
Proof. apply query_spec. Qed.

Definition row (name : string) (b ts : Z) : MigrationRecord.t :=
  {| MigrationRecord.Name := name; MigrationRecord.Batch := b;
     MigrationRecord.CreatedAt := ts |}.

Lemma existsb_row_name (name : string) (rows : list MigrationRecord.t) :
  existsb (fun r => String.eqb (MigrationRecord.Name r) name) rows = true <->
  In name (map MigrationRecord.Name rows).
Proof.
  rewrite existsb_exists, in_map_iff. split.
  - intros (r & Hr & Heq). apply String.eqb_eq in Heq. eauto.
  - intros (r & Heq & Hr). exists r. split; [exact Hr|]. now apply String.eqb_eq.
Qed.

Lemma same_tables (t : Tracker) (w w1 : World) :
  tables w1 = tables w ->
  rows_in t w1 = rows_in t w /\ (has_table t w1 <-> has_table t w).
Proof. intros H. unfold rows_in, has_table. now rewrite H. Qed.

Lemma Record_spec (t : Tracker) (name : string) (b : Z) (w : World) :
  wp (Tracker_Record t name b)
     (fun r w' =>
        bodies w' = bodies w /\ (calm w -> calm w') /\
        (has_table t w -> has_table t w') /\
        match r with
        | Ok _ => exists ts, rows_in t w' = rows_in t w ++ [row name b ts]
        | Err _ => rows_in t w' = rows_in t w
        end /\
        (calm w -> has_table t w ->
         ~ In name (map MigrationRecord.Name (rows_in t w)) -> r = Ok tt)) w.
Proof.
  unfold Tracker_Record. apply wp_on_error, wp_bind.
  eapply wp_mono; [apply statement_spec|].
  intros [[]|e] w1 [(Ht & Hb & Hc) Hok];
    destruct (same_tables t w w1 Ht) as [Hrows1 Hhas1].
  - apply wp_bind. eapply wp_mono; [apply rows_of_spec|].
    intros [rows|e] w2 [-> Hrows].
    + assert (Hr : rows_in t w = rows).
      { rewrite <- Hrows1. now apply rows_in_Some. }
      rewrite Hr.
      destruct (existsb _ rows) eqn:Hex.
      * apply wp_fail. rewrite Hrows1, Hr.
        repeat split; auto; try tauto.
        intros _ _ Hfresh. exfalso. apply Hfresh. now apply existsb_row_name.
      * unfold wp, bind, tick, put_table. simpl.
        unfold rows_in at 1. unfold has_table at 2. simpl.
        rewrite lookup_insert_eq.
        repeat split; eauto.
    + rewrite Hrows1. repeat split; auto; try tauto.
      intros _ Hhas. apply Hhas1 in Hhas. destruct Hhas as [x Hx]. congruence.
  - rewrite Hrows1. repeat split; auto; try tauto.
    intros Hcalm. specialize (Hok Hcalm). discriminate.
Qed.

Lemma Remove_spec (t : Tracker) (name : string) (w : World) :
  wp (Tracker_Remove t name)
     (fun r w' =>
        bodies w' = bodies w /\ (calm w -> calm w') /\
        (has_table t w -> has_table t w') /\
        match r with
        | Ok _ => rows_in t w' =
                  filter (fun r => MigrationRecord.Name r <> name) (rows_in t w)
        | Err _ => rows_in t w' = rows_in t w
        end /\
        (calm w -> has_table t w -> r = Ok tt)) w.
Proof.
  unfold Tracker_Remove. apply wp_on_error, wp_bind.
  eapply wp_mono; [apply statement_spec|].
  intros [[]|e] w1 [(Ht & Hb & Hc) Hok];
    destruct (same_tables t w w1 Ht) as [Hrows1 Hhas1].
  - apply wp_bind. eapply wp_mono; [apply rows_of_spec|].
    intros [rows|e] w2 [-> Hrows].
    + assert (Hr : rows_in t w = rows).
      { rewrite <- Hrows1. now apply rows_in_Some. }
      rewrite Hr. unfold wp, put_table. simpl.
      unfold rows_in at 1. unfold has_table at 2. simpl.
      rewrite lookup_insert_eq.
      repeat split; eauto.
    + rewrite Hrows1. repeat split; auto; try tauto.
      intros _ Hhas. apply Hhas1 in Hhas. destruct Hhas as [x Hx]. congruence.
  - rewrite Hrows1. repeat split; auto; try tauto.
    intros Hcalm. specialize (Hok Hcalm). discriminate.
Qed.

End env.

End TrackerSpec.

Module StepSpec.
Import migrator TrackerSQL Effects TrackerSpec.

Section env.
Context {platform : Platform}.

(** The error the before-hooks answer with: the first one any of them
    returns. *)
Fixpoint before_error (hooks : list HookFunc) (name direction : string)
  : option error :=
  match hooks with
  | [] => None
  | fn :: rest =>
      match fn name direction with
      | Some err => Some err
      | None => before_error rest name direction
      end
  end.

Definition outcome (e : option error) : result unit :=
  match e with
  | None => Ok tt
  | Some err => Err err
  end.

Lemma quiet_log (ev : Event) (w : World) :
  is_body ev = None -> wp (log ev) (fun r w' => r = Ok tt /\ quiet w w') w.
Proof.
  intros H. eapply wp_mono; [apply log_spec|].
  intros r w' (-> & Ht & Hc & Hb). rewrite H, app_nil_r in Hb.
  repeat split; auto.
Qed.

Lemma run_before_from_spec (hooks : list HookFunc) (name direction : string) :
  forall i w,
    wp (run_before_from i hooks name direction)
       (fun r w' => quiet w w' /\ r = outcome (before_error hooks name direction)) w.
Proof.
  induction hooks as [|fn hooks IH]; intros i w; simpl.
  - apply wp_ret. split; [apply quiet_refl|reflexivity].
  - apply wp_bind. eapply wp_mono; [apply quiet_log; reflexivity|].
    intros r w1 [-> Hq1].
    destruct (fn name direction) as [err|].
    + apply wp_fail. auto.
    + eapply wp_mono; [apply IH|]. intros r w2 [Hq2 ->].
      split; [eapply quiet_trans; eauto|reflexivity].
Qed.

Lemma RunBefore_spec (h : HookManager) (name direction : string) (w : World) :
  wp (HookManager_RunBefore h name direction)
     (fun r w' => quiet w w' /\
                  r = outcome (before_error (beforeHooks h) name direction)) w.
Proof. apply run_before_from_spec. Qed.

Lemma run_after_from_spec (hooks : list AfterHookFunc) (name direction : string) :
  forall i w,
    wp (run_after_from i hooks name direction)
       (fun r w' => quiet w w' /\ r = Ok tt) w.
Proof.
  induction hooks as [|fn hooks IH]; intros i w; simpl.
  - apply wp_ret. split; [apply quiet_refl|reflexivity].
  - apply wp_bind. eapply wp_mono; [apply quiet_log; reflexivity|].
    intros r w1 [-> Hq1].
    eapply wp_mono; [apply IH|]. intros r w2 [Hq2 ->].
    split; [eapply quiet_trans; eauto|reflexivity].
Qed.

Lemma RunAfter_spec (h : HookManager) (name direction : string) (w : World) :
  wp (discard (HookManager_RunAfter h name direction))
     (fun r w' => quiet w w' /\ r = Ok tt) w.
Proof.
  apply wp_discard. eapply wp_mono; [apply run_after_from_spec|].
  intros r w' [Hq _]. auto.
Qed.

(** What the body of a migration returns in a direction. *)
Definition body_of (m : Migration) (direction : string) : option error :=
  if String.eqb direction "up" then Up m
  else if String.eqb direction "down" then Down m
  else Some (Opaque (String.append "unknown migration direction: "
                                   (Str.Quote direction))).

Definition known (direction : string) : Prop :=
  direction = "up"%string \/ direction = "down"%string.

(** Running something that may run the body once. *)
Definition ran (m : Migration) (direction : string) (w : World)
    (r : result unit) (w' : World) : Prop :=
  tables w' = tables w /\ (calm w -> calm w') /\
  (r = Ok tt -> bodies w' = bodies w ++ [(m, direction)]) /\
  (bodies w' = bodies w \/ bodies w' = bodies w ++ [(m, direction)]).

Lemma runMigration_spec (r : Runner) (m : Migration) (direction : string) (w : World) :
  wp (Runner_runMigration r m direction)
     (fun res w' =>
        ran m direction w res w' /\ res = outcome (body_of m direction) /\
        (known direction -> bodies w' = bodies w ++ [(m, direction)])) w.
Proof.
  unfold Runner_runMigration, body_of, known, ran.
  destruct (String.eqb_spec direction "up") as [->|Hup].
  - apply wp_bind. eapply wp_mono; [apply log_spec|].
    intros res w1 (-> & Ht & Hc & Hb). simpl in Hb.
    destruct (Up m); [apply wp_fail|apply wp_ret]; repeat split; auto; discriminate.
  - destruct (String.eqb_spec direction "down") as [->|Hdown].
    + apply wp_bind. eapply wp_mono; [apply log_spec|].
      intros res w1 (-> & Ht & Hc & Hb). simpl in Hb.
      destruct (Down m); [apply wp_fail|apply wp_ret]; repeat split; auto; discriminate.
    + apply wp_fail. repeat split; auto; try discriminate.
      intros [H|H]; contradiction.
Qed.

Lemma control_spec (ev : Event) (w : World) :
  is_body ev = None ->
  wp (attempt (log ev ;;; connection))
     (fun r w' => quiet w w' /\ (calm w -> r = Ok (Ok tt)) /\ exists r', r = Ok r') w.
Proof.
  intros Hev. apply wp_attempt, wp_bind.
  eapply wp_mono; [apply quiet_log; exact Hev|]. intros r w1 [-> Hq1].
  eapply wp_mono; [apply connection_spec|]. intros r w2 [Hq2 Hok].
  split; [eapply quiet_trans; eauto|]. split; [|eauto].
  intros Hcalm. f_equal. apply Hok. now apply Hq1.
Qed.

Lemma ran_quiet_l (m : Migration) (direction : string) (w w1 : World)
    (r : result unit) (w' : World) :
  quiet w w1 -> ran m direction w1 r w' -> ran m direction w r w'.
Proof.
  intros (Ht & Hb & Hc) (Ht' & Hc' & Hok & Hany). unfold ran.
  rewrite Ht', Ht, <- Hb. repeat split; auto.
Qed.

Lemma ran_quiet_r (m : Migration) (direction : string) (w w1 w' : World)
    (r r' : result unit) :
  ran m direction w r w1 -> quiet w1 w' -> (r' = Ok tt -> r = Ok tt) ->
  ran m direction w r' w'.
Proof.
  intros (Ht' & Hc' & Hok & Hany) (Ht & Hb & Hc) Hr. unfold ran.
  rewrite Ht, Ht', Hb. repeat split; auto.
Qed.

Lemma ExecuteInTransaction_spec (r : Runner) (m : Migration) (direction : string)
    (w : World) :
  wp (Runner_ExecuteInTransaction r m direction)
     (fun res w' =>
        ran m direction w res w' /\
        (calm w -> res = outcome (body_of m direction) /\
                   (known direction -> bodies w' = bodies w ++ [(m, direction)]))) w.
Proof.
  unfold Runner_ExecuteInTransaction.
  apply wp_bind. eapply wp_mono; [apply (control_spec EvBegin); reflexivity|].
  intros res0 w1 (Hq1 & Hok1 & [[[]|e1] ->]).
  2:{ apply wp_fail. split.
      - destruct Hq1 as (Ht & Hb & Hc). repeat split; auto; discriminate.
      - intros Hcalm. specialize (Hok1 Hcalm). discriminate. }
  apply wp_bind. apply wp_attempt.
  eapply wp_mono; [apply runMigration_spec|].
  intros res1 w2 (Hran & Hres & Hknown).
  assert (Hcalm2 : calm w -> calm w2).
  { intros Hcalm. apply Hran. now apply Hq1. }
  destruct res1 as [[]|err].
  - apply wp_bind. eapply wp_mono; [apply (control_spec EvCommit); reflexivity|].
    intros res2 w3 (Hq3 & Hok3 & [[[]|e3] ->]).
    + apply wp_ret. split.
      * eapply ran_quiet_l; [exact Hq1|]. eapply ran_quiet_r; eauto.
      * intros Hcalm. split; [exact Hres|].
        intros Hk. destruct Hq3 as (_ & -> & _). rewrite (Hknown Hk).
        now destruct Hq1 as (_ & -> & _).
    + apply wp_fail. split.
      * eapply ran_quiet_l; [exact Hq1|]. eapply ran_quiet_r; eauto; discriminate.
      * intros Hcalm. specialize (Hok3 (Hcalm2 Hcalm)). discriminate.
  - apply wp_bind. eapply wp_mono; [apply (control_spec EvRollback); reflexivity|].
    intros res2 w3 (Hq3 & Hok3 & [[[]|e3] ->]).
    + apply wp_fail. split.
      * eapply ran_quiet_l; [exact Hq1|]. eapply ran_quiet_r; eauto; discriminate.
      * intros Hcalm. split; [exact Hres|].
        intros Hk. destruct Hq3 as (_ & -> & _). rewrite (Hknown Hk).
        now destruct Hq1 as (_ & -> & _).
    + apply wp_fail. split.
      * eapply ran_quiet_l; [exact Hq1|]. eapply ran_quiet_r; eauto; discriminate.
      * intros Hcalm. specialize (Hok3 (Hcalm2 Hcalm)). discriminate.
Qed.

Lemma execute_spec (m : Migrator) (mig : Migration) (direction : string) (w : World) :
  wp (execute m mig direction)
     (fun res w' =>
        ran mig direction w res w' /\
        (calm w -> runner m <> None ->
         res = outcome (body_of mig direction) /\
         (known direction -> bodies w' = bodies w ++ [(mig, direction)]))) w.
Proof.
  unfold execute. destruct (runner m) as [r|].
  - unfold Runner_Execute, Runner_executeWithoutTransaction.
    destruct (DisableTransaction mig) as [[|]|].
    + eapply wp_mono; [apply runMigration_spec|].
      intros res w' (Hran & Hres & Hk). auto.
    + eapply wp_mono; [apply ExecuteInTransaction_spec|].
      intros res w' (Hran & Hcalm). auto.
    + eapply wp_mono; [apply ExecuteInTransaction_spec|].
      intros res w' (Hran & Hcalm). auto.
  - apply wp_fail. split.
    + unfold ran. repeat split; auto; discriminate.
    + intros _ H. contradiction.
Qed.

End env.

End StepSpec.

(** ** Up *)

Module UpSpec.
Import migrator TrackerSQL Effects TrackerSpec StepSpec.

Section env.
Context {platform : Platform}.

Definition names_of (rows : list MigrationRecord.t) : list string :=
  map MigrationRecord.Name rows.

(** A pending migration goes through: no before-hook objects and its
    [Up] returns no error. *)
Definition goes_up (m : Migrator) (p : registeredMigration Migration) : bool :=
  match before_error (beforeHooks (hooks m)) (Name p) "up", Up (Migration_ p) with
  | None, None => true
  | _, _ => false
  end.

Definition hooks_pass (m : Migrator) (name direction : string) : bool :=
  match before_error (beforeHooks (hooks m)) name direction with
  | None => true
  | Some _ => false
  end.

Definition recorded (b : Z) (ps : list (registeredMigration Migration))
  : list (string * Z) :=
  map (fun p => (Name p, b)) ps.

Definition ups (ps : list (registeredMigration Migration))
  : list (Migration * string) :=
  map (fun p => (Migration_ p, "up"%string)) ps.

Definition Up_step_post (m : Migrator) (b : Z) (p : registeredMigration Migration)
    (w : World) (r : result unit) (w' : World) : Prop :=
  let t := tracker m in
  (calm w -> calm w') /\ (has_table t w -> has_table t w') /\
  match r with
  | Ok _ =>
      (exists ts, rows_in t w' = rows_in t w ++ [row (Name p) b ts]) /\
      bodies w' = bodies w ++ ups [p]
  | Err _ =>
      rows_in t w' = rows_in t w /\
      (bodies w' = bodies w \/ bodies w' = bodies w ++ ups [p])
  end /\
  (calm w -> has_table t w -> runner m <> None ->
   ~ In (Name p) (names_of (rows_in t w)) ->
   (goes_up m p = true -> r = Ok tt) /\
   (goes_up m p = false ->
    (exists e, r = Err e) /\
    bodies w' = bodies w ++ (if hooks_pass m (Name p) "up" then ups [p] else []))).

Lemma Up_step_spec (m : Migrator) (b : Z) (p : registeredMigration Migration)
    (w : World) :
  wp (Up_step m b p) (Up_step_post m b p w) w.
Proof.
  unfold Up_step, Up_step_post, goes_up, hooks_pass.
  apply wp_bind, wp_on_error.
  eapply wp_mono; [apply RunBefore_spec|]. intros r0 w1 [Hq1 ->].
  pose proof Hq1 as (Ht1 & Hb1 & Hc1).
  destruct (same_tables (tracker m) w w1 Ht1) as [Hrows1 Hhas1].
  destruct (before_error _ _ _) as [e0|]; simpl outcome; cbv beta iota.
  { rewrite Hrows1, Hb1.
    split; [exact Hc1|]. split; [tauto|]. split; [auto|].
    intros _ _ _ _. split; [discriminate|]. intros _.
    split; [eauto|now rewrite app_nil_r]. }
  apply wp_bind, wp_on_error.
  eapply wp_mono; [apply execute_spec|].
  intros r1 w2 ((Ht2 & Hc2 & Hok2 & Hany2) & Hcalm2).
  destruct (same_tables (tracker m) w1 w2 Ht2) as [Hrows2 Hhas2].
  rewrite Hb1 in Hok2, Hany2.
  assert (Hcalm2' : calm w -> runner m <> None ->
            r1 = outcome (Up (Migration_ p)) /\
            bodies w2 = bodies w ++ ups [p]).
  { intros Hc Hr. destruct (Hcalm2 (Hc1 Hc) Hr) as [H1 H2]. split; [exact H1|].
    rewrite H2, Hb1; [reflexivity|now left]. }
  destruct r1 as [[]|e1].
  2:{ rewrite Hrows2, Hrows1.
      split; [auto|]. split; [tauto|]. split; [auto|].
      intros Hc _ Hr _. destruct (Hcalm2' Hc Hr) as [Hres Hbod].
      split.
      - intros Hgo. destruct (Up (Migration_ p)); discriminate.
      - intros _. split; [eauto|exact Hbod]. }
  specialize (Hok2 eq_refl).
  apply wp_bind.
  eapply wp_mono; [apply Record_spec|].
  intros r2 w3 (Hb3 & Hc3 & Hhas3 & Hrows3 & Hok3).
  rewrite Hrows2, Hrows1 in Hrows3, Hok3.
  assert (Hrec : calm w -> has_table (tracker m) w ->
                 ~ In (Name p) (names_of (rows_in (tracker m) w)) -> r2 = Ok tt).
  { intros Hc Hh Hf. apply Hok3; auto. tauto. }
  destruct r2 as [[]|e2].
  2:{ rewrite Hrows3, Hb3, Hok2.
      split; [auto|]. split; [tauto|]. split; [auto|].
      intros Hc Hh _ Hf. specialize (Hrec Hc Hh Hf). discriminate. }
  eapply wp_mono; [apply RunAfter_spec|].
  intros r3 w4 [(Ht4 & Hb4 & Hc4) ->].
  destruct (same_tables (tracker m) w3 w4 Ht4) as [Hrows4 Hhas4].
  rewrite Hrows4, Hb4, Hb3, Hok2.
  split; [auto|]. split; [tauto|]. split; [auto|].
  intros Hc _ Hr _. destruct (Hcalm2' Hc Hr) as [Hres _].
  split; [reflexivity|].
  intros Hgo. destruct (Up (Migration_ p)); discriminate.
Qed.

Lemma entries_rows (t : Tracker) (w w' : World) (extra : list MigrationRecord.t) :
  rows_in t w' = rows_in t w ++ extra ->
  entries t w' = entries t w ++ map entry extra.
Proof. unfold entries. intros ->. apply map_app. Qed.

Lemma entries_same (t : Tracker) (w w' : World) :
  rows_in t w' = rows_in t w -> entries t w' = entries t w.
Proof. unfold entries. now intros ->. Qed.

Definition Up_loop_post (m : Migrator) (b : Z)
    (pending : list (registeredMigration Migration))
    (w : World) (r : result unit) (w' : World) : Prop :=
  let t := tracker m in
  (calm w -> calm w') /\
  (exists k k',
     k <= k' /\ k' <= S k /\ k' <= length pending /\
     entries t w' = entries t w ++ recorded b (take k pending) /\
     bodies w' = bodies w ++ ups (take k' pending) /\
     (r = Ok tt -> k = length pending) /\
     ((exists e, r = Err e) -> k < length pending)) /\
  (calm w -> has_table t w -> runner m <> None ->
   NoDup (map Name pending) ->
   (forall p, In p pending -> ~ In (Name p) (names_of (rows_in t w))) ->
   (forallb (goes_up m) pending = true -> r = Ok tt) /\
   (forall done p rest,
      pending = done ++ p :: rest ->
      forallb (goes_up m) done = true -> goes_up m p = false ->
      (exists e, r = Err e) /\
      entries t w' = entries t w ++ recorded b done /\
      bodies w' = bodies w ++ ups done ++
                  (if hooks_pass m (Name p) "up" then ups [p] else []))).

Lemma Up_loop_spec (m : Migrator) (b : Z) :
  forall pending w,
    wp (for_range pending (Up_step m b)) (Up_loop_post m b pending w) w.
Proof.
  induction pending as [|p ps IH]; intros w; cbn [for_range].
  - apply wp_ret. split; [auto|]. split.
    + exists 0, 0. simpl. rewrite !app_nil_r.
      repeat split; auto. intros [e He]. discriminate.
    + intros _ _ _ _ _. split; [reflexivity|].
      intros done q rest Heq. destruct done; discriminate.
  - apply wp_bind. eapply wp_mono; [apply Up_step_spec|].
    intros r1 w1 (Hc1 & Hh1 & Hstep & Hcalm1).
    destruct r1 as [[]|e1].
    + destruct Hstep as [[ts Hrows1] Hb1].
      pose proof (entries_rows _ _ _ _ Hrows1) as He1. simpl in He1.
      eapply wp_mono; [apply IH|].
      intros r w' (Hc2 & (k & k' & Hk1 & Hk2 & Hk3 & Hent & Hbod & Hok & Herr) & Hcalm2).
      split; [auto|]. split.
      * exists (S k), (S k'). simpl.
        rewrite Hent, He1, Hbod, Hb1, <- ?app_assoc. simpl.
        repeat split; auto; try lia; intros Hr;
          first [rewrite (Hok Hr); reflexivity | specialize (Herr Hr); lia].
      * intros Hc Hh Hr Hnd Hfresh.
        apply NoDup_cons in Hnd. destruct Hnd as [Hp Hnd].
        assert (Hgo : goes_up m p = true).
        { destruct (goes_up m p) eqn:E; [reflexivity|].
          destruct (Hcalm1 Hc Hh Hr) as [_ Hbad].
          - apply Hfresh. now left.
          - destruct (Hbad eq_refl) as [[e He] _]. discriminate. }
        destruct (Hcalm2 (Hc1 Hc) (Hh1 Hh) Hr) as [Hall Hpos].
        { exact Hnd. }
        { intros q Hq. unfold names_of. rewrite Hrows1, map_app. simpl.
          intros Hin. apply in_app_or in Hin. destruct Hin as [Hin|[Hin|[]]].
          - apply (Hfresh q); [now right|exact Hin].
          - apply Hp. rewrite Hin. apply list_elem_of_In, in_map. exact Hq. }
        split.
        -- simpl. rewrite Hgo. exact Hall.
        -- intros done q rest Heq Hdone Hq.
           destruct done as [|d done]; simpl in Heq; injection Heq as -> ->.
           ++ congruence.
           ++ simpl in Hdone. apply andb_true_iff in Hdone. destruct Hdone as [_ Hdone].
              destruct (Hpos done q rest eq_refl Hdone Hq) as (Hr' & Hent' & Hbod').
              split; [exact Hr'|].
              rewrite Hent', He1, Hbod', Hb1, <- ?app_assoc. auto.
    + destruct Hstep as [Hrows1 Hb1].
      pose proof (entries_same _ _ _ Hrows1) as He1.
      split; [auto|]. split.
      * destruct Hb1 as [Hb1|Hb1]; [exists 0, 0|exists 0, 1]; simpl;
          rewrite He1, Hb1, ?app_nil_r; repeat split; auto; try lia; discriminate.
      * intros Hc Hh Hr Hnd Hfresh.
        destruct (Hcalm1 Hc Hh Hr) as [Hgood Hbad].
        { apply Hfresh. now left. }
        assert (Hgo : goes_up m p = false).
        { destruct (goes_up m p); [|reflexivity].
          specialize (Hgood eq_refl). discriminate. }
        split.
        -- simpl. rewrite Hgo. discriminate.
        -- intros done q rest Heq Hdone Hq.
           destruct done as [|d done]; simpl in Heq; injection Heq as -> ->.
           ++ destruct (Hbad Hgo) as [He Hbod]. simpl.
              rewrite He1, app_nil_r. auto.
           ++ simpl in Hdone. rewrite Hgo in Hdone. discriminate.
Qed.

Lemma insert_by_name_perm (r : MigrationRecord.t) (l : list MigrationRecord.t) :
  Permutation (insert_by_name r l) (r :: l).
Proof.
  induction l as [|x l IH]; simpl; [reflexivity|].
  destruct (Str.leb _ _); [reflexivity|].
  rewrite IH. apply perm_swap.
Qed.

Lemma order_by_name_perm (l : list MigrationRecord.t) :
  Permutation (order_by_name l) l.
Proof.
  induction l as [|x l IH]; simpl; [reflexivity|].
  rewrite insert_by_name_perm. now constructor.
Qed.

(** Registered minus applied, matched by name. *)
Definition pending (m : Migrator) (w : World) : list (registeredMigration Migration) :=
  filter (fun reg => Name reg ∉ names_of (rows_in (tracker m) w))
         (migrations (registry m)).

Lemma pending_of_rows (regs : list (registeredMigration Migration))
    (rows : list MigrationRecord.t) :
  pending_of regs (order_by_name rows)
  = filter (fun reg => Name reg ∉ names_of rows) regs.
Proof.
  unfold pending_of. apply list_filter_iff. intros reg.
  rewrite elem_of_list_to_set, !list_elem_of_In.
  assert (H : Permutation (map MigrationRecord.Name (order_by_name rows))
                          (names_of rows)).
  { unfold names_of. apply Permutation_map, order_by_name_perm. }
  split; intros Hn Hin; apply Hn.
  - eapply Permutation_in; [symmetry; exact H|exact Hin].
  - eapply Permutation_in; [exact H|exact Hin].
Qed.

Lemma NextBatchNumber_spec (b : BatchManager) (w : World) :
  wp (BatchManager_NextBatchNumber b)
     (query_post (tracker_of b) (fun rows => int_wrap (max_batch rows + 1)) w) w.
Proof.
  unfold BatchManager_NextBatchNumber. apply wp_bind, wp_on_error.
  eapply wp_mono; [apply GetLastBatchNumber_spec|].
  intros [last|e] w1 (Hq & Hval & Hok).
  - apply wp_ret. split; [exact Hq|]. split.
    + intros x [= <-]. now rewrite (Hval last eq_refl).
    + intros Hc Hh. specialize (Hok Hc Hh). now injection Hok as ->.
  - split; [exact Hq|]. split; [discriminate|].
    intros Hc Hh. specialize (Hok Hc Hh). discriminate.
Qed.

(** A migrator as [New] and [Register] make it. *)
Definition wf (m : Migrator) : Prop :=
  tracker_of (batch m) = tracker m /\ runner m <> None /\
  RegistryFacts.sorted (migrations (registry m)).

Definition Up_post (m : Migrator) (w : World) (r : result unit) (w' : World) : Prop :=
  let t := tracker m in
  let b := int_wrap (max_batch (rows_in t w) + 1) in
  let pend := pending m w in
  (exists k k',
     k <= k' /\ k' <= S k /\ k' <= length pend /\
     entries t w' = entries t w ++ recorded b (take k pend) /\
     bodies w' = bodies w ++ ups (take k' pend) /\
     (r = Ok tt -> k = length pend) /\
     ((exists e, r = Err e) -> pend <> [] -> k < length pend)) /\
  (calm w ->
   (forallb (goes_up m) pend = true -> r = Ok tt) /\
   (forall done p rest,
      pend = done ++ p :: rest ->
      forallb (goes_up m) done = true -> goes_up m p = false ->
      (exists e, r = Err e) /\
      entries t w' = entries t w ++ recorded b done /\
      bodies w' = bodies w ++ ups done ++
                  (if hooks_pass m (Name p) "up" then ups [p] else []))).

Lemma sorted_names_NoDup (ms : list (registeredMigration Migration)) :
  RegistryFacts.sorted ms -> NoDup (map Name ms).
Proof.
  induction 1 as [|e ms Hs IH Hall]; simpl; constructor; [|exact IH].
  rewrite list_elem_of_In, in_map_iff. intros (x & Heq & Hx).
  rewrite List.Forall_forall in Hall. specialize (Hall x Hx).
  rewrite Heq in Hall. exact (StrFacts.lt_irrefl _ Hall).
Qed.

Lemma sorted_filter (P : registeredMigration Migration -> Prop)
    `{forall x, Decision (P x)} (ms : list (registeredMigration Migration)) :
  RegistryFacts.sorted ms -> RegistryFacts.sorted (filter P ms).
Proof.
  induction 1 as [|e ms Hs IH Hall]; [constructor|].
  rewrite filter_cons. destruct (decide (P e)); [|exact IH].
  constructor; [exact IH|].
  rewrite List.Forall_forall in *. intros x Hx.
  apply Hall. apply list_elem_of_In in Hx. apply list_elem_of_In.
  now apply list_elem_of_filter in Hx.
Qed.

Lemma nothing_done (m : Migrator) (w : World) (r : result unit) (w' : World) :
  rows_in (tracker m) w' = rows_in (tracker m) w -> bodies w' = bodies w ->
  (calm w -> False) ->
  (forall x, r <> Ok x) ->
  Up_post m w r w'.
Proof.
  intros Hrows Hb Hc Hr. split.
  - exists 0, 0. simpl. rewrite (entries_same _ _ _ Hrows), Hb, !app_nil_r.
    repeat split; auto; try lia.
    + intros ->. now destruct (Hr tt).
    + intros _ Hne. destruct (pending m w); [contradiction|simpl; lia].
  - intros Hcalm. contradiction.
Qed.

Lemma Up_spec (m : Migrator) (w : World) :
  wf m -> wp (Migrator_Up m) (Up_post m w) w.
Proof.
  intros (Hbt & Hrun & Hsorted). unfold Migrator_Up.
  apply wp_bind. eapply wp_mono; [apply EnsureTable_spec|].
  intros r0 w1 (Hrows1 & Hb1 & Hc1 & _ & Hh1 & Hok1).
  destruct r0 as [[]|e0].
  2:{ apply nothing_done; auto; try discriminate.
      intros Hc. specialize (Hok1 Hc). discriminate. }
  specialize (Hh1 eq_refl).
  apply wp_bind. eapply wp_mono; [apply GetApplied_spec|].
  intros r1 w2 ((Ht2 & Hb2 & Hc2) & Hval2 & Hok2).
  destruct (same_tables (tracker m) w1 w2 Ht2) as [Hrows2 Hhas2].
  destruct r1 as [applied|e1].
  2:{ apply nothing_done; try congruence; try discriminate.
      intros Hc. specialize (Hok2 (Hc1 Hc) Hh1). discriminate. }
  rewrite (Hval2 applied eq_refl), Hrows1.
  unfold Registry_GetAll. rewrite pending_of_rows. fold (pending m w).
  destruct (Nat.eqb_spec (length (pending m w)) 0) as [Hlen|Hlen].
  { apply wp_ret. split.
    - exists 0, 0. simpl. rewrite Hlen.
      rewrite (entries_same (tracker m) w w2) by congruence.
      rewrite Hb2, Hb1, !app_nil_r. repeat split; auto.
      intros [e He]. discriminate.
    - intros _. split; [reflexivity|].
      intros done p rest Heq. rewrite Heq, length_app in Hlen. simpl in Hlen. lia. }
  apply wp_bind. eapply wp_mono; [apply NextBatchNumber_spec|].
  rewrite Hbt.
  intros r2 w3 ((Ht3 & Hb3 & Hc3) & Hval3 & Hok3).
  destruct (same_tables (tracker m) w2 w3 Ht3) as [Hrows3 Hhas3].
  destruct r2 as [b|e2].
  2:{ apply nothing_done; try congruence; try discriminate.
      intros Hc. apply Hhas2 in Hh1. specialize (Hok3 (Hc2 (Hc1 Hc)) Hh1). discriminate. }
  rewrite (Hval3 b eq_refl), Hrows2, Hrows1.
  assert (Hrows : rows_in (tracker m) w3 = rows_in (tracker m) w) by congruence.
  assert (Hbod : bodies w3 = bodies w) by congruence.
  eapply wp_mono; [apply Up_loop_spec|].
  intros r w' (Hc4 & (k & k' & Hk1 & Hk2 & Hk3 & Hent & Hbods & Hok & Herr) & Hcalm).
  rewrite (entries_same _ _ _ Hrows), Hbod in *. rewrite Hrows in Hcalm.
  split.
  - exists k, k'. repeat split; auto.
  - intros Hc. apply Hcalm; auto.
    + apply Hhas3, Hhas2, Hh1.
    + apply sorted_names_NoDup. unfold pending. now apply sorted_filter.
    + intros p Hp. unfold pending in Hp.
      apply list_elem_of_In, list_elem_of_filter in Hp.
      rewrite <- list_elem_of_In. tauto.
Qed.

(** [COALESCE(MAX(batch), 0)] is the greatest batch of the table. *)
Lemma fold_max_ge (l : list Z) (a : Z) :
  (a <= fold_left Z.max l a)%Z /\
  (forall x, In x l -> (x <= fold_left Z.max l a)%Z).
Proof.
  revert a. induction l as [|y l IH]; intros a; simpl; [split; [lia|tauto]|].
  destruct (IH (Z.max a y)) as [H1 H2]. split; [lia|].
  intros x [<-|Hx]; [lia|auto].
Qed.

Lemma max_batch_ge (rows : list MigrationRecord.t) (r : MigrationRecord.t) :
  In r rows -> (MigrationRecord.Batch r <= max_batch rows)%Z.
Proof.
  destruct rows as [|r0 rows]; [contradiction|]. simpl.
  destruct (fold_max_ge (map MigrationRecord.Batch rows) (MigrationRecord.Batch r0))
    as [H1 H2].
  intros [<-|Hr]; [exact H1|]. apply H2. now apply in_map.
Qed.

Lemma fold_max_in (l : list Z) (a : Z) :
  fold_left Z.max l a = a \/ In (fold_left Z.max l a) l.
Proof.
  revert a. induction l as [|y l IH]; intros a; simpl; [now left|].
  destruct (IH (Z.max a y)) as [H|H]; [|now right; right].
  rewrite H. destruct (Z.max_spec a y) as [[_ ->]|[_ ->]]; auto.
Qed.

Lemma max_batch_in (rows : list MigrationRecord.t) :
  rows <> [] -> exists r, In r rows /\ MigrationRecord.Batch r = max_batch rows.
Proof.
  destruct rows as [|r rows]; [congruence|]. intros _. simpl.
  destruct (fold_max_in (map MigrationRecord.Batch rows) (MigrationRecord.Batch r))
    as [H|H].
  - exists r. auto.
  - apply in_map_iff in H. destruct H as (x & Hx & Hin). exists x. auto.
Qed.

End env.

End UpSpec.

Module UpContract.
Import migrator Effects TrackerSpec StepSpec UpSpec.

Section env.
Context {platform : Platform}.

Lemma New_wf (opts : list Option) : wf (New opts).
Proof.
  assert (Hfold : forall m,
            tracker_of (batch m) = tracker m ->
            migrations (registry m) = [] ->
            tracker_of (batch (fold_left apply_option opts m)) =
              tracker (fold_left apply_option opts m) /\
            migrations (registry (fold_left apply_option opts m)) = []).
  { induction opts as [|opt opts IH]; intros m Hb Hr; simpl; [auto|].
    apply IH; destruct opt; simpl; auto; destruct (grammar m); auto. }
  unfold New.
  match goal with |- context [fold_left apply_option opts ?m0] =>
    destruct (Hfold m0 eq_refl eq_refl) as [Hb Hr];
    set (m := fold_left apply_option opts m0) in *
  end.
  unfold wf. destruct (runner m) eqn:E; simpl; rewrite ?E, ?Hr;
    repeat split; auto; try discriminate; constructor.
Qed.

Lemma Register_wf (m : Migrator) (name : string) (mig : Migration) :
  wf m -> wf (snd (Migrator_Register m name mig)).
Proof.
  intros (Hb & Hr & Hs). unfold Migrator_Register.
  pose proof (RegistryFacts.Register_sorted (registry m) name mig Hs) as Hs'.
  destruct (Registry_Register (registry m) name mig) as [err r]. simpl in *.
  repeat split; auto.
Qed.

Lemma int_wrap_fits (z : Z) :
  (- 2 ^ 63 <= z < 2 ^ 63)%Z -> int_wrap z = z.
Proof.
  intros H. unfold int_wrap.
  rewrite Z.mod_small by lia. lia.
Qed.

(** C1.  [Up] on a migrator made by [New] and [Register], in any state of
    the database in which the next batch number fits an [int].  The
    pending migrations are the registered ones whose name is not in the
    tracking table, in ascending name order.  With nothing pending, [Up]
    records nothing and runs no body, and returns no error unless the
    connection fails.  Otherwise the rows it adds to the tracking table
    are those of a prefix of the pending migrations, in order, every one
    with the batch number [max + 1] of the highest batch there was; the
    prefix is all of them when [Up] returns no error, which it does when
    the connection holds, no before-hook objects and no body fails.  The
    new batch number is greater than the batch of every row there was,
    and it is one more than the batch of one of these rows, or [1] when
    the table held no row. *)
Theorem C1_up_one_batch (m : Migrator) (w : World) :
  wf m ->
  (- 2 ^ 63 <= max_batch (rows_in (tracker m) w) + 1 < 2 ^ 63)%Z ->
  let t := tracker m in
  let pend := pending m w in
  let b := (max_batch (rows_in t w) + 1)%Z in
  let r := fst (Migrator_Up m w) in
  let w' := snd (Migrator_Up m w) in
  RegistryFacts.sorted pend /\
  (forall reg, In reg pend <->
               In reg (migrations (registry m)) /\
               ~ In (Name reg) (names_of (rows_in t w))) /\
  (pend = [] ->
     entries t w' = entries t w /\ bodies w' = bodies w /\ (calm w -> r = Ok tt)) /\
  (exists k,
     k <= length pend /\
     entries t w' = entries t w ++ recorded b (take k pend) /\
     (r = Ok tt -> k = length pend)) /\
  (calm w -> forallb (goes_up m) pend = true ->
     r = Ok tt /\
     entries t w' = entries t w ++ recorded b pend /\
     bodies w' = bodies w ++ ups pend) /\
  (forall row, In row (rows_in t w) -> (MigrationRecord.Batch row < b)%Z) /\
  (rows_in t w = [] -> b = 1%Z) /\
  (rows_in t w <> [] ->
     exists row, In row (rows_in t w) /\ b = (MigrationRecord.Batch row + 1)%Z).
Proof.
  intros Hwf Hfit t pend b r w'.
  pose proof (Up_spec m w Hwf) as Hup. unfold wp, Up_post in Hup.
  rewrite (int_wrap_fits _ Hfit) in Hup.
  fold t pend b r w' in Hup.
  destruct Hup as [(k & k' & Hk1 & Hk2 & Hk3 & Hent & Hbod & Hok & Herr) Hcalm].
  split; [|split; [|split; [|split; [|split; [|split; [|split]]]]]];
    [| | | | | intros row Hrow; pose proof (max_batch_ge _ _ Hrow); subst b; lia
     | intros Hnone; subst b; now rewrite Hnone
     | intros Hsome; destruct (max_batch_in _ Hsome) as (row & Hrow & Hmax);
       exists row; split; [exact Hrow|subst b; now rewrite Hmax] ].
  - unfold pend, pending. apply sorted_filter. apply Hwf.
  - intros reg. unfold pend, pending.
    rewrite <- !list_elem_of_In, list_elem_of_filter. tauto.
  - intros Hnil. rewrite Hnil in *. rewrite take_nil in Hent, Hbod.
    simpl in Hent, Hbod. rewrite app_nil_r in Hent, Hbod.
    repeat split; auto. intros Hc. now apply (Hcalm Hc).
  - exists k. repeat split; auto. lia.
  - intros Hc Hall. destruct (Hcalm Hc) as [Hgood _].
    specialize (Hgood Hall). specialize (Hok Hgood).
    assert (k' = length pend) by lia. subst k k'.
    rewrite firstn_all in Hent, Hbod. auto.
Qed.

Definition noop : Migration :=
  {| Up := None; Down := None; DisableTransaction := None |}.

Definition example_migrator : Migrator :=
  snd (Migrator_Register
         (snd (Migrator_Register (New []) "20240102000000_b" noop))
         "20240101000000_a" noop).

Definition empty_world : World :=
  {| tables := ∅; clock := 0%Z; faults := []; trace := [] |}.

Lemma example_migrator_wf : wf example_migrator.
Proof. apply Register_wf, Register_wf, New_wf. Qed.

(** A migration that asks to run outside a transaction. *)
Definition detached : Migration :=
  {| Up := None; Down := None; DisableTransaction := Some true |}.

Definition mixed_migrator : Migrator :=
  snd (Migrator_Register
         (snd (Migrator_Register
                 (snd (Migrator_Register (New []) "20240103000000_c" noop))
                 "20240101000000_a" noop))
         "20240102000000_b" detached).

Definition one_applied : World :=
  {| tables := {[ "migrations"%string :=
                    [ {| MigrationRecord.Name := "20240101000000_a";
                         MigrationRecord.Batch := 2%Z;
                         MigrationRecord.CreatedAt := 0%Z |} ] ]};
     clock := 1%Z; faults := []; trace := [] |}.

Lemma mixed_migrator_wf : wf mixed_migrator.
Proof. do 3 apply Register_wf. apply New_wf. Qed.

End env.

Section example.
Existing Instance example_platform.

(** Three migrations registered out of order, the first of them applied
    in batch 2: the other two run, in name order, each its own body, and
    both rows carry batch 3, which no row had. *)
Lemma C1_up_one_batch_witness :
  fst (Migrator_Up mixed_migrator one_applied) = Ok tt /\
  entries (tracker mixed_migrator) (snd (Migrator_Up mixed_migrator one_applied))
  = [("20240101000000_a"%string, 2%Z); ("20240102000000_b"%string, 3%Z);
     ("20240103000000_c"%string, 3%Z)] /\
  bodies (snd (Migrator_Up mixed_migrator one_applied))
  = [(detached, "up"%string); (noop, "up"%string)] /\
  (forall row, In row (rows_in (tracker mixed_migrator) one_applied) ->
               (MigrationRecord.Batch row < 3)%Z).
Proof.
  assert (Hfit : (- 2 ^ 63 <=
                  max_batch (rows_in (tracker mixed_migrator) one_applied) + 1
                  < 2 ^ 63)%Z).
  { vm_compute. split; [discriminate|reflexivity]. }
  destruct (C1_up_one_batch mixed_migrator one_applied mixed_migrator_wf Hfit)
    as (_ & _ & _ & _ & H & Hnew & _).
  destruct H as (H1 & H2 & H3); [reflexivity|reflexivity|].
  split; [exact H1|]. split; [exact H2|]. split; [exact H3|exact Hnew].
Defined.

End example.

End UpContract.

Module FreshSQL.
Import schema grammars migrator TrackerSQL.

Section env.
Context {platform : Platform}.

Lemma db_Exec_sent (stmt : string) (w : World) :
  trace (snd (db_Exec stmt w)) = trace w ++ [EvSQL stmt []].
Proof.
  unfold db_Exec, statement, bind, log, connection. simpl.
  destruct (faults w) as [|[|] rest]; simpl; try reflexivity;
    destruct (String.eqb stmt _); reflexivity.
Qed.

Lemma db_Exec_keeps (stmt : string) (w : World) :
  String.eqb stmt "DROP SCHEMA public CASCADE; CREATE SCHEMA public" = false ->
  tables (snd (db_Exec stmt w)) = tables w.
Proof.
  intros H. unfold db_Exec, statement, bind, log, connection. rewrite H. simpl.
  destruct (faults w) as [|[|] rest]; reflexivity.
Qed.

(** After PostgreSQL's statement the tables of schema [public] are gone
    and the others are as they were. *)
Lemma db_Exec_drops (w : World) (name : string) :
  let sent := db_Exec "DROP SCHEMA public CASCADE; CREATE SCHEMA public" w in
  fst sent = Ok tt ->
  tables (snd sent) !! name = if in_public name then None else tables w !! name.
Proof.
  unfold db_Exec, statement, bind, log, connection. simpl.
  assert (Hlook : forall tables : gmap string (list MigrationRecord.t),
            filter (fun entry => in_public entry.1 = false) tables !! name
            = if in_public name then None else tables !! name).
  { intros tables. destruct (in_public name) eqn:Hp.
    - apply map_lookup_filter_None. right. intros rows _. simpl. congruence.
    - destruct (tables !! name) as [rows|] eqn:Hrows.
      + apply map_lookup_filter_Some. auto.
      + apply map_lookup_filter_None. now left. }
  destruct (faults w) as [|[|] rest]; simpl; try discriminate; intros _; apply Hlook.
Qed.

Lemma Fresh_unfold (m : Migrator) (g : Grammar) (w : World) :
  grammar m = Some g ->
  Migrator_Fresh m w =
    match db_Exec (CompileDropAllTables g) w with
    | (Ok _, w1) => Migrator_Up m w1
    | (Err e, w1) => (Err (Wrap "drop all tables: " e), w1)
    end.
Proof.
  intros H. unfold Migrator_Fresh. rewrite H. unfold bind, on_error.
  destruct (db_Exec (CompileDropAllTables g) w) as [[[]|e] w1]; reflexivity.
Qed.

(** C9.  Of the three grammars only PostgreSQL's [CompileDropAllTables]
    is a statement that drops tables.  [Fresh] sends the grammar's
    statement to the database as it is, and when that succeeds goes on
    with [Up].  With the SQLite grammar the statement is a [SELECT] over
    [sqlite_master], with the MySQL grammar it is
    [SET FOREIGN_KEY_CHECKS = 0]: the database has the same tables after
    it as before, and [Up] runs on them.  With the PostgreSQL grammar no
    table of schema [public] is left when [Up] starts, and the tables of
    the other schemas are as they were. *)
Theorem C9_only_postgres_drops (m : Migrator) (g : Grammar) (w : World) :
  CompileDropAllTables PostgresGrammar
    = "DROP SCHEMA public CASCADE; CREATE SCHEMA public"%string /\
  CompileDropAllTables SQLiteGrammar
    = "SELECT name FROM sqlite_master WHERE type='table' AND name NOT LIKE 'sqlite_%'"%string /\
  CompileDropAllTables MySQLGrammar = "SET FOREIGN_KEY_CHECKS = 0"%string /\
  (grammar m = Some g ->
     let sent := db_Exec (CompileDropAllTables g) w in
     trace (snd sent) = trace w ++ [EvSQL (CompileDropAllTables g) []] /\
     (forall e, fst sent = Err e ->
        Migrator_Fresh m w = (Err (Wrap "drop all tables: " e), snd sent)) /\
     (fst sent = Ok tt -> Migrator_Fresh m w = Migrator_Up m (snd sent)) /\
     (g = SQLiteGrammar \/ g = MySQLGrammar -> tables (snd sent) = tables w) /\
     (g = PostgresGrammar -> fst sent = Ok tt ->
      forall name,
        tables (snd sent) !! name = if in_public name then None else tables w !! name)).
Proof.
  split; [reflexivity|]. split; [reflexivity|]. split; [reflexivity|].
  intros Hg sent.
  pose proof (Fresh_unfold m g w Hg) as HF. fold sent in HF.
  split; [apply db_Exec_sent|].
  split; [|split; [|split]].
  - intros e He. rewrite HF. destruct sent as [[[]|e'] w1]; simpl in *; congruence.
  - intros Hok. rewrite HF. destruct sent as [[[]|e'] w1]; simpl in *; congruence.
  - intros [->| ->]; apply db_Exec_keeps; reflexivity.
  - intros -> Hok name. now apply db_Exec_drops.
Qed.

Definition applied_world : World :=
  {| tables := {[ "migrations"%string :=
                    [ {| MigrationRecord.Name := "20240101000000_a";
                         MigrationRecord.Batch := 1%Z;
                         MigrationRecord.CreatedAt := 0%Z |} ] ]};
     clock := 1%Z; faults := []; trace := [] |}.

End env.

Section example.
Existing Instance example_platform.

(** [Fresh] with the MySQL grammar on a database that holds the tracking
    table: the table is still there when [Up] starts. *)
Lemma C9_only_postgres_drops_witness :
  let m := New [WithGrammar (Some MySQLGrammar)] in
  let sent := db_Exec "SET FOREIGN_KEY_CHECKS = 0" applied_world in
  trace (snd sent) = [EvSQL "SET FOREIGN_KEY_CHECKS = 0" []] /\
  (forall e, fst sent = Err e ->
     Migrator_Fresh m applied_world = (Err (Wrap "drop all tables: " e), snd sent)) /\
  (fst sent = Ok tt -> Migrator_Fresh m applied_world = Migrator_Up m (snd sent)) /\
  (MySQLGrammar = SQLiteGrammar \/ MySQLGrammar = MySQLGrammar ->
   tables (snd sent) = tables applied_world) /\
  (MySQLGrammar = PostgresGrammar -> fst sent = Ok tt ->
   forall name,
     tables (snd sent) !! name
     = if in_public name then None else tables applied_world !! name).
Proof.
  exact (proj2 (proj2 (proj2
    (C9_only_postgres_drops (New [WithGrammar (Some MySQLGrammar)])
                            MySQLGrammar applied_world))) eq_refl).
Defined.

End example.

End FreshSQL.

(** ** Rollback *)

Module RollbackSpec.
Import migrator TrackerSQL Effects TrackerSpec StepSpec UpSpec.

Section env.
Context {platform : Platform}.

(** The body a record's rollback runs: [Down] of the migration registered
    under the record's name. *)
Definition down_of (m : Migrator) (rec : MigrationRecord.t)
  : option (Migration * string) :=
  match Registry_Get (registry m) (MigrationRecord.Name rec) with
  | Ok mig => Some (mig, "down"%string)
  | Err _ => None
  end.

Definition downs (m : Migrator) (recs : list MigrationRecord.t)
  : list (Migration * string) :=
  omap (down_of m) recs.

Definition registered (m : Migrator) (rec : MigrationRecord.t) : Prop :=
  exists mig, Registry_Get (registry m) (MigrationRecord.Name rec) = Ok mig.

(** A record rolls back: its migration is registered, no before-hook
    objects and [Down] returns no error. *)
Definition goes_down (m : Migrator) (rec : MigrationRecord.t) : bool :=
  match Registry_Get (registry m) (MigrationRecord.Name rec) with
  | Ok mig =>
      match before_error (beforeHooks (hooks m)) (MigrationRecord.Name rec) "down",
            Down mig with
      | None, None => true
      | _, _ => false
      end
  | Err _ => false
  end.

(** A rollback that fails gets as far as the body. *)
Definition reaches_body (m : Migrator) (rec : MigrationRecord.t) : bool :=
  match Registry_Get (registry m) (MigrationRecord.Name rec) with
  | Ok mig => hooks_pass m (MigrationRecord.Name rec) "down"
  | Err _ => false
  end.

Definition without (names : list string) (rows : list MigrationRecord.t)
  : list MigrationRecord.t :=
  filter (fun r => MigrationRecord.Name r ∉ names) rows.

Definition down_step_post (m : Migrator) (rec : MigrationRecord.t)
    (w : World) (r : result unit) (w' : World) : Prop :=
  let t := tracker m in
  (calm w -> calm w') /\ (has_table t w -> has_table t w') /\
  match r with
  | Ok _ =>
      rows_in t w' = without [MigrationRecord.Name rec] (rows_in t w) /\
      registered m rec /\ bodies w' = bodies w ++ downs m [rec]
  | Err _ =>
      rows_in t w' = rows_in t w /\
      (bodies w' = bodies w \/ bodies w' = bodies w ++ downs m [rec])
  end /\
  (calm w -> has_table t w -> runner m <> None ->
   (goes_down m rec = true -> r = Ok tt) /\
   (goes_down m rec = false ->
    (exists e, r = Err e) /\
    bodies w' = bodies w ++ (if reaches_body m rec then downs m [rec] else []))).

Lemma without_one (name : string) (rows : list MigrationRecord.t) :
  filter (fun r => MigrationRecord.Name r <> name) rows = without [name] rows.
Proof.
  unfold without. apply list_filter_iff. intros r.
  rewrite list_elem_of_singleton. tauto.
Qed.

(** The part of a step that follows the lookup: hooks, body, removal.
    [Rollback] runs it with the before-hooks, [Reset] without. *)
Lemma down_tail_spec (m : Migrator) (rec : MigrationRecord.t) (mig : Migration)
    (w : World) :
  wp (on_error (execute m mig "down")
        (Wrap (Str.join EmptyString
                 ["migration "; Str.Quote (MigrationRecord.Name rec); " down: "])) ;;;
      Tracker_Remove (tracker m) (MigrationRecord.Name rec) ;;;
      discard (HookManager_RunAfter (hooks m) (MigrationRecord.Name rec) "down"))
     (fun r w' =>
        let t := tracker m in
        (calm w -> calm w') /\ (has_table t w -> has_table t w') /\
        match r with
        | Ok _ =>
            rows_in t w' = without [MigrationRecord.Name rec] (rows_in t w) /\
            bodies w' = bodies w ++ [(mig, "down"%string)]
        | Err _ =>
            rows_in t w' = rows_in t w /\
            (bodies w' = bodies w \/ bodies w' = bodies w ++ [(mig, "down"%string)])
        end /\
        (calm w -> has_table t w -> runner m <> None ->
         bodies w' = bodies w ++ [(mig, "down"%string)] /\
         (Down mig = None -> r = Ok tt) /\
         (Down mig <> None -> exists e, r = Err e))) w.
Proof.
  apply wp_bind, wp_on_error.
  eapply wp_mono; [apply execute_spec|].
  intros r1 w2 ((Ht2 & Hc2 & Hok2 & Hany2) & Hcalm2).
  destruct (same_tables (tracker m) w w2 Ht2) as [Hrows2 Hhas2].
  assert (Hcalm2' : calm w -> runner m <> None ->
            r1 = outcome (Down mig) /\ bodies w2 = bodies w ++ [(mig, "down"%string)]).
  { intros Hc Hr. destruct (Hcalm2 Hc Hr) as [H1 H2]. split; [exact H1|].
    apply H2. now right. }
  destruct r1 as [[]|e1].
  2:{ cbv zeta. rewrite Hrows2.
      split; [auto|]. split; [tauto|]. split; [auto|].
      intros Hc _ Hr. destruct (Hcalm2' Hc Hr) as [Hres Hbod].
      split; [exact Hbod|]. split; [|eauto].
      intros Hd. rewrite Hd in Hres. discriminate. }
  specialize (Hok2 eq_refl).
  apply wp_bind.
  eapply wp_mono; [apply Remove_spec|].
  intros r2 w3 (Hb3 & Hc3 & Hhas3 & Hrows3 & Hok3).
  rewrite Hrows2 in Hrows3. rewrite without_one in Hrows3.
  destruct r2 as [[]|e2].
  2:{ cbv zeta. rewrite Hrows3, Hb3, Hok2.
      split; [auto|]. split; [tauto|]. split; [auto|].
      intros Hc Hh _. enough (Err e2 = Ok tt) by discriminate.
      apply Hok3; auto. tauto. }
  eapply wp_mono; [apply RunAfter_spec|].
  intros r3 w4 [(Ht4 & Hb4 & Hc4) ->].
  destruct (same_tables (tracker m) w3 w4 Ht4) as [Hrows4 Hhas4].
  cbv zeta. rewrite Hrows4, Hb4, Hb3, Hok2, Hrows3.
  split; [auto|]. split; [tauto|]. split; [auto|].
  intros Hc _ Hr. destruct (Hcalm2' Hc Hr) as [Hres _].
  split; [reflexivity|]. split; [reflexivity|].
  intros Hd. destruct (Down mig); [discriminate|contradiction].
Qed.

Lemma downs_registered (m : Migrator) (rec : MigrationRecord.t) (mig : Migration) :
  Registry_Get (registry m) (MigrationRecord.Name rec) = Ok mig ->
  downs m [rec] = [(mig, "down"%string)].
Proof. intros H. unfold downs, down_of. simpl. now rewrite H. Qed.

Lemma downs_unregistered (m : Migrator) (rec : MigrationRecord.t) (e : error) :
  Registry_Get (registry m) (MigrationRecord.Name rec) = Err e ->
  downs m [rec] = [].
Proof. intros H. unfold downs, down_of. simpl. now rewrite H. Qed.

Lemma Rollback_step_spec (m : Migrator) (rec : MigrationRecord.t) (w : World) :
  wp (Rollback_step m rec) (down_step_post m rec w) w.
Proof.
  unfold Rollback_step, down_step_post, goes_down, reaches_body, hooks_pass,
    registered. cbv zeta.
  apply wp_bind, wp_lift.
  destruct (Registry_Get (registry m) (MigrationRecord.Name rec)) as [mig|e] eqn:Hget.
  2:{ rewrite (downs_unregistered _ _ _ Hget).
      split; [auto|]. split; [auto|]. split; [auto|].
      intros _ _ _. split; [discriminate|]. intros _.
      split; [eauto|now rewrite app_nil_r]. }
  rewrite (downs_registered _ _ _ Hget).
  apply wp_bind, wp_on_error.
  eapply wp_mono; [apply RunBefore_spec|]. intros r0 w1 [Hq1 ->].
  pose proof Hq1 as (Ht1 & Hb1 & Hc1).
  destruct (same_tables (tracker m) w w1 Ht1) as [Hrows1 Hhas1].
  destruct (before_error _ _ _) as [e0|]; simpl outcome; cbv beta iota.
  { rewrite Hrows1, Hb1.
    split; [exact Hc1|]. split; [tauto|]. split; [auto|].
    intros _ _ _. split; [discriminate|]. intros _.
    split; [eauto|now rewrite app_nil_r]. }
  eapply wp_mono; [apply down_tail_spec|].
  intros r w' (Hc & Hh & Hres & Hcalm). cbv zeta in *.
  rewrite Hrows1, Hb1 in *.
  split; [auto|]. split; [tauto|]. split.
  - destruct r; [|exact Hres]. destruct Hres as [H1 H2]. eauto.
  - intros Hcw Hhw Hr.
    destruct (Hcalm (Hc1 Hcw) (proj2 Hhas1 Hhw) Hr) as (Hb & Hgood & Hbad).
    split.
    + intros Hgo. apply Hgood. now destruct (Down mig).
    + intros Hgo. split; [|exact Hb]. apply Hbad. now destruct (Down mig).
Qed.

Lemma without_without (n : string) (names : list string) (rows : list MigrationRecord.t) :
  without names (without [n] rows) = without (n :: names) rows.
Proof.
  unfold without. rewrite list_filter_filter. apply list_filter_iff. intros r.
  rewrite list_elem_of_singleton, elem_of_cons. tauto.
Qed.

Lemma without_nil (rows : list MigrationRecord.t) : without [] rows = rows.
Proof.
  unfold without. induction rows as [|r rows IH]; [reflexivity|].
  rewrite filter_cons. destruct (decide _) as [_|H]; [now rewrite IH|].
  exfalso. apply H. apply not_elem_of_nil.
Qed.

Lemma downs_cons (m : Migrator) (rec : MigrationRecord.t) (l : list MigrationRecord.t) :
  downs m (rec :: l) = downs m [rec] ++ downs m l.
Proof. unfold downs. simpl. now destruct (down_of m rec). Qed.

Lemma downs_app (m : Migrator) (l1 l2 : list MigrationRecord.t) :
  downs m (l1 ++ l2) = downs m l1 ++ downs m l2.
Proof. unfold downs. apply omap_app. Qed.

Definition down_loop_post (m : Migrator) (records : list MigrationRecord.t)
    (w : World) (r : result unit) (w' : World) : Prop :=
  let t := tracker m in
  (calm w -> calm w') /\ (has_table t w -> has_table t w') /\
  (exists k k',
     k <= k' /\ k' <= S k /\ k' <= length records /\
     rows_in t w' = without (names_of (take k records)) (rows_in t w) /\
     bodies w' = bodies w ++ downs m (take k' records) /\
     Forall (registered m) (take k records) /\
     (r = Ok tt -> k = length records) /\
     ((exists e, r = Err e) -> k < length records)) /\
  (calm w -> has_table t w -> runner m <> None ->
   (forallb (goes_down m) records = true -> r = Ok tt) /\
   (forall done rec rest,
      records = done ++ rec :: rest ->
      forallb (goes_down m) done = true -> goes_down m rec = false ->
      (exists e, r = Err e) /\
      rows_in t w' = without (names_of done) (rows_in t w) /\
      bodies w' = bodies w ++ downs m done ++
                  (if reaches_body m rec then downs m [rec] else []))).

Lemma Rollback_loop_spec (m : Migrator) :
  forall records w,
    wp (for_range records (Rollback_step m)) (down_loop_post m records w) w.
Proof.
  induction records as [|rec recs IH]; intros w; cbn [for_range].
  - apply wp_ret. split; [auto|]. split; [auto|]. split.
    + exists 0, 0. simpl. rewrite without_nil, !app_nil_r.
      repeat split; auto. intros [e He]. discriminate.
    + intros _ _ _. split; [reflexivity|].
      intros done q rest Heq. destruct done; discriminate.
  - apply wp_bind. eapply wp_mono; [apply Rollback_step_spec|].
    intros r1 w1 (Hc1 & Hh1 & Hstep & Hcalm1).
    destruct r1 as [[]|e1].
    + destruct Hstep as (Hrows1 & Hreg1 & Hb1).
      eapply wp_mono; [apply IH|].
      intros r w' (Hc2 & Hh2 & (k & k' & Hk1 & Hk2 & Hk3 & Hrows & Hbod & Hreg & Hok & Herr)
                   & Hcalm2).
      split; [auto|]. split; [auto|]. split.
      * exists (S k), (S k'). cbn [take names_of map length].
        rewrite (downs_cons m rec (take k' recs)).
        rewrite Hrows, Hrows1, without_without, Hbod, Hb1, <- app_assoc.
        repeat split; auto; try lia; try (constructor; assumption); intros Hr;
          first [rewrite (Hok Hr); reflexivity | specialize (Herr Hr); lia].
      * intros Hc Hh Hr.
        assert (Hgo : goes_down m rec = true).
        { destruct (goes_down m rec) eqn:E; [reflexivity|].
          destruct (Hcalm1 Hc Hh Hr) as [_ Hbad].
          destruct (Hbad eq_refl) as [[e He] _]. discriminate. }
        destruct (Hcalm2 (Hc1 Hc) (Hh1 Hh) Hr) as [Hall Hpos].
        split.
        -- simpl. rewrite Hgo. exact Hall.
        -- intros done q rest Heq Hdone Hq.
           destruct done as [|d done]; simpl in Heq; injection Heq as -> ->.
           ++ congruence.
           ++ simpl in Hdone. apply andb_true_iff in Hdone. destruct Hdone as [_ Hdone].
              destruct (Hpos done q rest eq_refl Hdone Hq) as (Hr' & Hrows' & Hbod').
              split; [exact Hr'|]. cbn [names_of map].
              rewrite (downs_cons m d done).
              rewrite Hrows', Hrows1, without_without, Hbod', Hb1, <- ?app_assoc.
              auto.
    + destruct Hstep as [Hrows1 Hb1].
      split; [auto|]. split; [auto|]. split.
      * destruct Hb1 as [Hb1|Hb1]; [exists 0, 0|exists 0, 1];
          cbn [take names_of map length];
          rewrite Hrows1, Hb1, without_nil, ?app_nil_r;
          repeat split; auto; try lia; discriminate.
      * intros Hc Hh Hr.
        destruct (Hcalm1 Hc Hh Hr) as [Hgood Hbad].
        assert (Hgo : goes_down m rec = false).
        { destruct (goes_down m rec); [|reflexivity].
          specialize (Hgood eq_refl). discriminate. }
        split.
        -- simpl. rewrite Hgo. discriminate.
        -- intros done q rest Heq Hdone Hq.
           destruct done as [|d done]; simpl in Heq; injection Heq as -> ->.
           ++ destruct (Hbad Hgo) as [He Hbod]. cbn [names_of map downs omap].
              rewrite Hrows1, without_nil. auto.
           ++ simpl in Hdone. rewrite Hgo in Hdone. discriminate.
Qed.

(** The records [GetLastBatch] returns. *)
Definition last_batch (rows : list MigrationRecord.t) : list MigrationRecord.t :=
  if (max_batch rows =? 0)%Z then []
  else order_by_name
         (filter (fun r => MigrationRecord.Batch r = max_batch rows) rows).

(** The records [GetLastNMigrations] returns. *)
Definition last_n (n : Z) (rows : list MigrationRecord.t) : list MigrationRecord.t :=
  if (n <=? 0)%Z then []
  else
    let applied := order_by_name rows in
    if (length applied =? 0)%nat then []
    else
      let n := if (n >? Z.of_nat (length applied))%Z
               then Z.of_nat (length applied) else n in
      last_reversed (Z.to_nat n) applied.

(** The records [Rollback] goes through, in the order it does. *)
Definition rollback_records (steps : Z) (rows : list MigrationRecord.t)
  : list MigrationRecord.t :=
  if (steps =? 0)%Z then rev (last_batch rows) else last_n steps rows.

Lemma GetLastBatch_spec (b : BatchManager) (w : World) :
  wp (BatchManager_GetLastBatch b) (query_post (tracker_of b) last_batch w) w.
Proof.
  unfold BatchManager_GetLastBatch. apply wp_bind, wp_on_error.
  eapply wp_mono; [apply GetLastBatchNumber_spec|].
  intros [last|e] w1 (Hq & Hval & Hok).
  2:{ split; [exact Hq|]. split; [discriminate|].
      intros Hc Hh. specialize (Hok Hc Hh). discriminate. }
  unfold query_post, last_batch. rewrite <- (Hval last eq_refl).
  destruct (Z.eqb_spec last 0) as [Hz|Hz].
  { apply wp_ret. split; [exact Hq|]. split; [now intros x [= <-]|reflexivity]. }
  apply wp_on_error.
  eapply wp_mono; [apply GetByBatch_spec|].
  pose proof Hq as (Ht1 & Hb1 & Hc1).
  destruct (same_tables (tracker_of b) w w1 Ht1) as [Hrows1 Hhas1].
  intros [l|e] w2 (Hq2 & Hval2 & Hok2); rewrite Hrows1 in *; unfold wp; simpl.
  - split; [eapply quiet_trans; eauto|]. split.
    + intros x [= <-]. now apply Hval2.
    + intros Hc Hh. apply Hok2; auto. tauto.
  - split; [eapply quiet_trans; eauto|]. split; [discriminate|].
    intros Hc Hh. enough (Err e = Ok (order_by_name
      (filter (fun r => MigrationRecord.Batch r = last) (rows_in (tracker_of b) w))))
      by discriminate.
    apply Hok2; auto. tauto.
Qed.

Lemma GetLastNMigrations_spec (b : BatchManager) (n : Z) (w : World) :
  wp (BatchManager_GetLastNMigrations b n) (query_post (tracker_of b) (last_n n) w) w.
Proof.
  unfold BatchManager_GetLastNMigrations, last_n.
  destruct (Z.leb_spec n 0) as [Hn|Hn].
  { apply wp_ret. split; [apply quiet_refl|]. split; [now intros x [= <-]|reflexivity]. }
  apply wp_bind, wp_on_error.
  eapply wp_mono; [apply GetApplied_spec|].
  intros [applied|e] w1 (Hq & Hval & Hok).
  2:{ split; [exact Hq|]. split; [discriminate|].
      intros Hc Hh. specialize (Hok Hc Hh). discriminate. }
  unfold query_post. rewrite <- (Hval applied eq_refl). cbv zeta.
  destruct (length applied =? 0); apply wp_ret;
    (split; [exact Hq|]; split; [now intros x [= <-]|reflexivity]).
Qed.

Definition Rollback_post (m : Migrator) (steps : Z) (w : World)
    (r : result unit) (w' : World) : Prop :=
  let t := tracker m in
  let records := rollback_records steps (rows_in t w) in
  (exists k k',
     k <= k' /\ k' <= S k /\ k' <= length records /\
     rows_in t w' = without (names_of (take k records)) (rows_in t w) /\
     bodies w' = bodies w ++ downs m (take k' records) /\
     Forall (registered m) (take k records) /\
     (r = Ok tt -> k = length records) /\
     ((exists e, r = Err e) -> records <> [] -> k < length records)) /\
  (calm w ->
   (forallb (goes_down m) records = true -> r = Ok tt) /\
   (forall done rec rest,
      records = done ++ rec :: rest ->
      forallb (goes_down m) done = true -> goes_down m rec = false ->
      (exists e, r = Err e) /\
      rows_in t w' = without (names_of done) (rows_in t w) /\
      bodies w' = bodies w ++ downs m done ++
                  (if reaches_body m rec then downs m [rec] else []))).

Lemma nothing_undone (m : Migrator) (steps : Z) (w : World) (r : result unit)
    (w' : World) :
  rows_in (tracker m) w' = rows_in (tracker m) w -> bodies w' = bodies w ->
  (calm w -> False) ->
  (forall x, r <> Ok x) ->
  Rollback_post m steps w r w'.
Proof.
  intros Hrows Hb Hc Hr. split.
  - exists 0, 0. simpl. rewrite Hrows, Hb, without_nil, !app_nil_r.
    repeat split; auto; try lia.
    + intros ->. now destruct (Hr tt).
    + intros _ Hne. destruct (rollback_records _ _); [contradiction|simpl; lia].
  - intros Hcalm. contradiction.
Qed.

Lemma Rollback_spec (m : Migrator) (steps : Z) (w : World) :
  wf m -> wp (Migrator_Rollback m steps) (Rollback_post m steps w) w.
Proof.
  intros (Hbt & Hrun & Hsorted). unfold Migrator_Rollback.
  apply wp_bind. eapply wp_mono; [apply EnsureTable_spec|].
  intros r0 w1 (Hrows1 & Hb1 & Hc1 & _ & Hh1 & Hok1).
  destruct r0 as [[]|e0].
  2:{ apply nothing_undone; auto; try discriminate.
      intros Hc. specialize (Hok1 Hc). discriminate. }
  specialize (Hh1 eq_refl).
  apply wp_bind.
  apply (wp_mono _ (query_post (tracker m) (fun rows =>
           if (steps =? 0)%Z then last_batch rows else last_n steps rows) w1)).
  { rewrite <- Hbt.
    destruct (steps =? 0)%Z; [apply GetLastBatch_spec|apply GetLastNMigrations_spec]. }
  intros r1 w2 ((Ht2 & Hb2 & Hc2) & Hval2 & Hok2).
  destruct (same_tables (tracker m) w1 w2 Ht2) as [Hrows2 Hhas2].
  destruct r1 as [records|e1].
  2:{ apply nothing_undone; try congruence; try discriminate.
      intros Hc. specialize (Hok2 (Hc1 Hc) Hh1). discriminate. }
  rewrite (Hval2 records eq_refl), Hrows1.
  assert (Hrec : (if (steps =? 0)%Z
                  then rev (if (steps =? 0)%Z then last_batch (rows_in (tracker m) w)
                            else last_n steps (rows_in (tracker m) w))
                  else (if (steps =? 0)%Z then last_batch (rows_in (tracker m) w)
                        else last_n steps (rows_in (tracker m) w)))
                 = rollback_records steps (rows_in (tracker m) w)).
  { unfold rollback_records. now destruct (steps =? 0)%Z. }
  assert (Hlen : length (if (steps =? 0)%Z then last_batch (rows_in (tracker m) w)
                         else last_n steps (rows_in (tracker m) w))
                 = length (rollback_records steps (rows_in (tracker m) w))).
  { unfold rollback_records. destruct (steps =? 0)%Z; [now rewrite length_rev|reflexivity]. }
  rewrite Hlen, Hrec.
  assert (Hrows : rows_in (tracker m) w2 = rows_in (tracker m) w) by congruence.
  assert (Hbod : bodies w2 = bodies w) by congruence.
  unfold Rollback_post. cbv zeta.
  set (records' := rollback_records steps (rows_in (tracker m) w)).
  destruct (Nat.eqb_spec (length records') 0) as [Hz|Hz].
  { apply wp_ret. destruct records' as [|x l]; [|discriminate]. split.
    - exists 0, 0. simpl. rewrite Hrows, Hbod, without_nil, !app_nil_r.
      repeat split; auto. intros _ H. contradiction.
    - intros _. split; [reflexivity|].
      intros done p rest Heq. destruct done; discriminate. }
  eapply wp_mono; [apply Rollback_loop_spec|].
  intros r w' (Hc4 & Hh4 & (k & k' & Hk1 & Hk2 & Hk3 & Hrws & Hbods & Hreg & Hok & Herr)
               & Hcalm).
  rewrite Hrows, Hbod in *.
  split.
  - exists k, k'. repeat split; auto.
  - intros Hc. apply Hcalm; auto. apply Hhas2, Hh1.
Qed.

End env.

End RollbackSpec.

(** ** The records a rollback goes through *)

Module RollbackTarget.
Import migrator UpSpec RollbackSpec.

Section env.
Context {platform : Platform}.

Definition name_le (a b : MigrationRecord.t) : Prop :=
  Str.leb (MigrationRecord.Name a) (MigrationRecord.Name b) = true.

(** Greatest name first. *)
Definition descending (l : list MigrationRecord.t) : Prop :=
  StronglySorted (fun a b => name_le b a) l.

(** The rows of the batch with the highest number. *)
Definition most_recent_batch (rows : list MigrationRecord.t)
  : list MigrationRecord.t :=
  filter (fun r => MigrationRecord.Batch r = max_batch rows) rows.

Definition newest_first (rows : list MigrationRecord.t) : list MigrationRecord.t :=
  rev (order_by_name rows).

(** What a rollback is to undo, in the words of its contract: the most
    recent batch for [steps = 0], the [steps] most recent rows otherwise,
    the newest name first. *)
Definition rollback_target (steps : Z) (rows : list MigrationRecord.t)
  : list MigrationRecord.t :=
  if (steps =? 0)%Z then newest_first (most_recent_batch rows)
  else take (Z.to_nat steps) (newest_first rows).

Lemma name_le_total (a b : MigrationRecord.t) : name_le a b \/ name_le b a.
Proof.
  unfold name_le. rewrite !StrFacts.leb_true.
  destruct (StrFacts.trichotomy (MigrationRecord.Name a) (MigrationRecord.Name b))
    as [H|[H|H]]; auto.
Qed.

Lemma name_le_trans (a b c : MigrationRecord.t) :
  name_le a b -> name_le b c -> name_le a c.
Proof.
  unfold name_le. rewrite !StrFacts.leb_true.
  intros [H1|H1] [H2|H2]; try rewrite H1 in *; try rewrite <- H2 in *; auto.
  right. eapply StrFacts.lt_trans; eauto.
Qed.

Lemma insert_by_name_sorted (r : MigrationRecord.t) (l : list MigrationRecord.t) :
  StronglySorted name_le l -> StronglySorted name_le (insert_by_name r l).
Proof.
  induction 1 as [|x l Hs IH Hall]; simpl.
  - constructor; constructor.
  - destruct (Str.leb _ _) eqn:E.
    + constructor; [constructor; assumption|].
      constructor; [exact E|].
      eapply List.Forall_impl; [|exact Hall]. intros y Hy.
      eapply name_le_trans; [exact E|exact Hy].
    + constructor; [exact IH|].
      assert (Hx : name_le x r).
      { destruct (name_le_total x r) as [H|H]; [exact H|].
        unfold name_le in H. congruence. }
      rewrite List.Forall_forall in *. intros y Hy.
      apply (Permutation_in _ (insert_by_name_perm r l)) in Hy.
      destruct Hy as [<-|Hy]; auto.
Qed.

Lemma order_by_name_sorted (l : list MigrationRecord.t) :
  StronglySorted name_le (order_by_name l).
Proof.
  induction l as [|x l IH]; simpl; [constructor|].
  now apply insert_by_name_sorted.
Qed.

Lemma sorted_rev (l : list MigrationRecord.t) :
  StronglySorted name_le l -> descending (rev l).
Proof.
  unfold descending. induction 1 as [|x l Hs IH Hall]; simpl; [constructor|].
  apply StronglySorted_app_2; [|exact IH|repeat constructor].
  intros a b Ha Hb. apply list_elem_of_singleton in Hb. subst b.
  rewrite List.Forall_forall in Hall. apply Hall.
  apply list_elem_of_In in Ha. now apply in_rev in Ha.
Qed.

Lemma descending_take (k : nat) (l : list MigrationRecord.t) :
  descending l -> descending (take k l).
Proof.
  unfold descending. intros H. revert k.
  induction H as [|x l Hs IH Hall]; intros [|k]; simpl; try constructor; auto.
  rewrite List.Forall_forall in *. intros y Hy. apply Hall.
  apply list_elem_of_In in Hy. apply list_elem_of_In.
  exact (subseteq_take k l y Hy).
Qed.

Lemma newest_first_descending (rows : list MigrationRecord.t) :
  descending (newest_first rows).
Proof. apply sorted_rev, order_by_name_sorted. Qed.

Lemma newest_first_perm (rows : list MigrationRecord.t) :
  Permutation (newest_first rows) rows.
Proof.
  unfold newest_first. rewrite <- Permutation_rev. apply order_by_name_perm.
Qed.

Lemma last_reversed_take (k : nat) (l : list MigrationRecord.t) :
  k <= length l -> last_reversed k l = take k (rev l).
Proof.
  unfold last_reversed. induction k as [|k IH]; intros Hk; [reflexivity|].
  rewrite seq_S, omap_app, IH by lia. simpl.
  assert (Hlook : rev l !! k = l !! (length l - 1 - k)).
  { rewrite rev_alt. change (rev_append l []) with (reverse l).
    rewrite reverse_lookup by lia. f_equal. lia. }
  rewrite <- Hlook.
  destruct (rev l !! k) as [x|] eqn:E.
  - now rewrite (take_S_r _ _ _ E).
  - apply lookup_ge_None in E. rewrite length_rev in E. lia.
Qed.

(** The records [Rollback] goes through are the target of its contract. *)
Lemma rollback_records_target (steps : Z) (rows : list MigrationRecord.t) :
  (0 <= steps)%Z ->
  Forall (fun r => (0 < MigrationRecord.Batch r)%Z) rows ->
  rollback_records steps rows = rollback_target steps rows.
Proof.
  intros Hsteps Hpos. unfold rollback_records, rollback_target.
  destruct (Z.eqb_spec steps 0) as [Hz|Hz].
  - unfold last_batch, newest_first, most_recent_batch.
    destruct (Z.eqb_spec (max_batch rows) 0) as [Hm|Hm]; [|reflexivity].
    destruct rows as [|r rows]; [reflexivity|].
    exfalso. rewrite List.Forall_forall in Hpos.
    pose proof (Hpos r (or_introl eq_refl)).
    pose proof (max_batch_ge (r :: rows) r (or_introl eq_refl)). lia.
  - unfold last_n, newest_first.
    destruct (Z.leb_spec steps 0) as [Hn|Hn]; [lia|]. cbv zeta.
    destruct (Nat.eqb_spec (length (order_by_name rows)) 0) as [Hl|Hl].
    { destruct (order_by_name rows); [|discriminate]. simpl. now rewrite take_nil. }
    destruct (Z.gtb_spec steps (Z.of_nat (length (order_by_name rows)))) as [Hg|Hg].
    + rewrite Nat2Z.id, last_reversed_take by lia.
      rewrite !firstn_all2; rewrite ?length_rev; auto; lia.
    + apply last_reversed_take. lia.
Qed.

Lemma rollback_target_descending (steps : Z) (rows : list MigrationRecord.t) :
  descending (rollback_target steps rows).
Proof.
  unfold rollback_target. destruct (steps =? 0)%Z.
  - apply newest_first_descending.
  - apply descending_take, newest_first_descending.
Qed.

Lemma rollback_target_length (steps : Z) (rows : list MigrationRecord.t) :
  (0 < steps)%Z ->
  length (rollback_target steps rows) = Nat.min (Z.to_nat steps) (length rows).
Proof.
  intros H. unfold rollback_target.
  destruct (Z.eqb_spec steps 0); [lia|].
  rewrite length_take. f_equal.
  apply Permutation_length, newest_first_perm.
Qed.

Lemma downs_length (m : Migrator) (recs : list MigrationRecord.t) :
  Forall (registered m) recs -> length (downs m recs) = length recs.
Proof.
  induction 1 as [|rec recs [mig Hget] Hall IH]; [reflexivity|].
  rewrite downs_cons, length_app, IH, (downs_registered _ _ _ Hget). reflexivity.
Qed.

(** The bodies of [downs] are the [Down] of the registry's entries of
    the records' names. *)
Definition undo (ps : list (registeredMigration Migration))
  : list (Migration * string) :=
  map (fun p => (Migration_ p, "down"%string)) ps.

Lemma downs_entries (m : Migrator) (recs : list MigrationRecord.t) :
  Forall (registered m) recs ->
  exists ps,
    (forall p, In p ps -> In p (migrations (registry m))) /\
    map Name ps = names_of recs /\
    downs m recs = undo ps.
Proof.
  induction 1 as [|rec recs [mig Hget] Hall (ps & Hin & Hnames & Hdowns)].
  - exists []. split; [intros p []|]. split; reflexivity.
  - destruct (RegistryFacts.Get_entry _ _ _ Hget) as (e & He & Hname & Hmig).
    exists (e :: ps). split; [|split].
    + intros p [<-|Hp]; auto.
    + simpl. now rewrite Hname, Hnames.
    + rewrite downs_cons, (downs_registered _ _ _ Hget), Hdowns. simpl.
      now rewrite Hmig.
Qed.

(** The rows of the most recent batch are the rows whose batch no row
    exceeds. *)
Lemma most_recent_highest (rows : list MigrationRecord.t) (rec : MigrationRecord.t) :
  In rec (most_recent_batch rows) <->
  In rec rows /\
  forall row, In row rows -> (MigrationRecord.Batch row <= MigrationRecord.Batch rec)%Z.
Proof.
  unfold most_recent_batch. rewrite <- !list_elem_of_In, list_elem_of_filter.
  rewrite !list_elem_of_In. split.
  - intros [Hmax Hin]. split; [exact Hin|]. intros row Hrow. rewrite Hmax.
    now apply max_batch_ge.
  - intros [Hin Hall]. split; [|exact Hin].
    destruct (max_batch_in rows) as (top & Htop & Hmax); [now destruct rows|].
    pose proof (Hall top Htop). pose proof (max_batch_ge rows rec Hin). lia.
Qed.

End env.

End RollbackTarget.

Module RollbackContract.
Import migrator Effects TrackerSpec StepSpec UpSpec RollbackSpec RollbackTarget.

Section env.
Context {platform : Platform}.

(** C2.  [Rollback steps] on a migrator made by [New] and [Register], in
    any state of the tracking table whose batch numbers are positive, as
    [Up] records them and as the data model has them.  The records it goes through are the rows of the
    batch with the highest number when [steps] is [0], and otherwise the
    [steps] rows with the greatest names, all rows when there are fewer:
    [min steps total] of them.  It goes through them greatest name first.
    The rows it removes are those of a prefix of these records, and the
    bodies it runs are [Down] of that prefix, when it returns no error of
    all of them, one body for each; it returns no error when the
    connection holds, every record's migration is registered, no
    before-hook objects and no [Down] fails.  In other words: for
    [steps = 0] the records are the rows whose batch no row exceeds; for
    [steps > 0] they are the first [steps] of the rows put greatest name
    first; and the bodies run are the [Down] of the entries the registry
    holds under the records' names, record by record. *)
Theorem C2_rollback_targets (m : Migrator) (steps : Z) (w : World) :
  wf m -> (0 <= steps)%Z ->
  Forall (fun r => (0 < MigrationRecord.Batch r)%Z) (rows_in (tracker m) w) ->
  let t := tracker m in
  let rows := rows_in t w in
  let records := rollback_records steps rows in
  let r := fst (Migrator_Rollback m steps w) in
  let w' := snd (Migrator_Rollback m steps w) in
  records = rollback_target steps rows /\
  descending records /\
  (steps = 0%Z -> Permutation records (most_recent_batch rows)) /\
  ((0 < steps)%Z ->
     length records = Nat.min (Z.to_nat steps) (length rows) /\
     exists older, newest_first rows = records ++ older) /\
  (exists k,
     k <= length records /\
     rows_in t w' = without (names_of (take k records)) rows /\
     (r = Ok tt ->
        k = length records /\
        bodies w' = bodies w ++ downs m records /\
        length (downs m records) = length records)) /\
  (calm w -> forallb (goes_down m) records = true ->
     r = Ok tt /\
     rows_in t w' = without (names_of records) rows /\
     bodies w' = bodies w ++ downs m records) /\
  (steps = 0%Z ->
     forall rec,
       In rec records <->
       In rec rows /\
       forall row, In row rows ->
                   (MigrationRecord.Batch row <= MigrationRecord.Batch rec)%Z) /\
  ((0 < steps)%Z ->
     exists older,
       Permutation (records ++ older) rows /\ descending (records ++ older)) /\
  (r = Ok tt ->
     exists ps,
       (forall p, In p ps -> In p (migrations (registry m))) /\
       map Name ps = names_of records /\
       bodies w' = bodies w ++ undo ps).
Proof.
  intros Hwf Hsteps Hpos t rows records r w'.
  pose proof (Rollback_spec m steps w Hwf) as Hrb. unfold wp, Rollback_post in Hrb.
  fold t rows records r w' in Hrb.
  destruct Hrb as [(k & k' & Hk1 & Hk2 & Hk3 & Hrows & Hbod & Hreg & Hok & Herr) Hcalm].
  assert (Htarget : records = rollback_target steps rows)
    by (apply rollback_records_target; assumption).
  assert (Hdone : r = Ok tt ->
            k = length records /\
            bodies w' = bodies w ++ downs m records /\
            length (downs m records) = length records).
  { intros Hr. specialize (Hok Hr). assert (k' = length records) by lia. subst k k'.
    rewrite firstn_all in Hbod, Hreg. repeat split; auto. now apply downs_length. }
  split; [exact Htarget|].
  split; [|split; [|split; [|split; [|split; [|split; [|split]]]]]].
  - rewrite Htarget. apply rollback_target_descending.
  - intros ->. rewrite Htarget. unfold rollback_target. simpl.
    apply newest_first_perm.
  - intros Hs. rewrite Htarget. split; [now apply rollback_target_length|].
    unfold rollback_target. destruct (Z.eqb_spec steps 0); [lia|].
    exists (drop (Z.to_nat steps) (newest_first rows)). now rewrite take_drop.
  - exists k. split; [lia|]. split; [exact Hrows|exact Hdone].
  - intros Hc Hall. destruct (Hcalm Hc) as [Hgood _]. specialize (Hgood Hall).
    destruct (Hdone Hgood) as (-> & Hb & _).
    rewrite firstn_all in Hrows. auto.
  - intros Hz rec. rewrite <- most_recent_highest, Htarget, Hz.
    unfold rollback_target. simpl.
    split; apply Permutation_in;
      [|apply Permutation_sym]; apply newest_first_perm.
  - intros Hs. rewrite Htarget. unfold rollback_target.
    destruct (Z.eqb_spec steps 0); [lia|].
    exists (drop (Z.to_nat steps) (newest_first rows)). rewrite take_drop.
    split; [apply newest_first_perm|apply newest_first_descending].
  - intros Hr. destruct (Hdone Hr) as (Hk & Hb & _).
    rewrite Hk, firstn_all in Hreg.
    destruct (downs_entries m records Hreg) as (ps & Hin & Hnames & Hdowns).
    exists ps. split; [exact Hin|]. split; [exact Hnames|]. now rewrite Hb, Hdowns.
Qed.

Definition applied_row (name : string) (b : Z) : MigrationRecord.t :=
  {| MigrationRecord.Name := name; MigrationRecord.Batch := b;
     MigrationRecord.CreatedAt := 0%Z |}.

Definition three_migrations : Migrator :=
  snd (Migrator_Register
         (snd (Migrator_Register
                 (snd (Migrator_Register (New []) "20240102000000_b" UpContract.noop))
                 "20240103000000_c" UpContract.noop))
         "20240101000000_a" UpContract.noop).

Definition two_batches : World :=
  {| tables := {[ "migrations"%string :=
                    [ applied_row "20240101000000_a" 1; applied_row "20240102000000_b" 2;
                      applied_row "20240103000000_c" 2 ] ]};
     clock := 0%Z; faults := []; trace := [] |}.

Lemma three_migrations_wf : wf three_migrations.
Proof. do 3 apply UpContract.Register_wf. apply UpContract.New_wf. Qed.

(** A migration that asks for its transaction. *)
Definition attached : Migration :=
  {| Up := None; Down := None; DisableTransaction := Some false |}.

Definition three_distinct : Migrator :=
  snd (Migrator_Register
         (snd (Migrator_Register
                 (snd (Migrator_Register (New []) "20240102000000_b"
                                         UpContract.detached))
                 "20240103000000_c" attached))
         "20240101000000_a" UpContract.noop).

Lemma three_distinct_wf : wf three_distinct.
Proof. do 3 apply UpContract.Register_wf. apply UpContract.New_wf. Qed.

End env.

Section example.
Existing Instance example_platform.

(** Three rows, the last two of batch 2, and three migrations that differ:
    [Rollback 0] runs [Down] of c and then of b, each its own, and the
    row of a is what is left. *)
Lemma C2_rollback_targets_witness :
  rollback_records 0 (rows_in (tracker three_distinct) two_batches)
  = [applied_row "20240103000000_c" 2; applied_row "20240102000000_b" 2] /\
  fst (Migrator_Rollback three_distinct 0 two_batches) = Ok tt /\
  rows_in (tracker three_distinct)
          (snd (Migrator_Rollback three_distinct 0 two_batches))
  = [applied_row "20240101000000_a" 1] /\
  bodies (snd (Migrator_Rollback three_distinct 0 two_batches))
  = [(attached, "down"%string); (UpContract.detached, "down"%string)].
Proof.
  assert (Hpos : Forall (fun r => (0 < MigrationRecord.Batch r)%Z)
                        (rows_in (tracker three_distinct) two_batches)).
  { vm_compute. repeat constructor. }
  destruct (C2_rollback_targets three_distinct 0 two_batches three_distinct_wf
              (Z.le_refl 0) Hpos) as (_ & _ & _ & _ & _ & H & _).
  split; [reflexivity|].
  destruct H as (H1 & H2 & H3); [reflexivity|reflexivity|].
  split; [exact H1|]. split; [exact H2|exact H3].
Defined.

End example.

End RollbackContract.

(** ** The first failure stops the operation *)

Module FirstFailure.
Import migrator Effects TrackerSpec StepSpec UpSpec RollbackSpec.

Section env.
Context {platform : Platform}.

(** C3.  [Up] and [Rollback] on a migrator made by [New] and [Register],
    in any state of the database.

    [Up]: the rows added are those of the first [k] pending migrations and
    the bodies run are those of the first [k] or [k + 1] of them, nothing
    else; when [Up] returns an error and something was pending, [k] is
    less than their number.  With the connection holding: when the pending
    migrations are [done ++ p :: rest], those of [done] go through and
    [p] does not, [Up] returns an error, the rows added are those of
    [done], and the bodies run are those of [done] and then that of [p]
    where the before-hooks let it start; no body of [rest] runs.

    [Rollback]: the same with the records it goes through, the rows of the
    first [k] removed, those of the others left as they were. *)
Theorem C3_first_failure_stops (m : Migrator) (steps : Z) (w : World) :
  wf m ->
  (let t := tracker m in
   let pend := pending m w in
   let b := int_wrap (max_batch (rows_in t w) + 1) in
   let r := fst (Migrator_Up m w) in
   let w' := snd (Migrator_Up m w) in
   (exists k k',
      k <= k' /\ k' <= S k /\ k' <= length pend /\
      entries t w' = entries t w ++ recorded b (take k pend) /\
      bodies w' = bodies w ++ ups (take k' pend) /\
      ((exists e, r = Err e) -> pend <> [] -> k < length pend)) /\
   (calm w ->
    forall done p rest,
      pend = done ++ p :: rest ->
      forallb (goes_up m) done = true -> goes_up m p = false ->
      (exists e, r = Err e) /\
      entries t w' = entries t w ++ recorded b done /\
      bodies w' = bodies w ++ ups done ++
                  (if hooks_pass m (Name p) "up" then ups [p] else []))) /\
  (let t := tracker m in
   let records := rollback_records steps (rows_in t w) in
   let r := fst (Migrator_Rollback m steps w) in
   let w' := snd (Migrator_Rollback m steps w) in
   (exists k k',
      k <= k' /\ k' <= S k /\ k' <= length records /\
      rows_in t w' = without (names_of (take k records)) (rows_in t w) /\
      bodies w' = bodies w ++ downs m (take k' records) /\
      ((exists e, r = Err e) -> records <> [] -> k < length records)) /\
   (calm w ->
    forall done rec rest,
      records = done ++ rec :: rest ->
      forallb (goes_down m) done = true -> goes_down m rec = false ->
      (exists e, r = Err e) /\
      rows_in t w' = without (names_of done) (rows_in t w) /\
      bodies w' = bodies w ++ downs m done ++
                  (if reaches_body m rec then downs m [rec] else []))).
Proof.
  intros Hwf. split.
  - intros t pend b r w'.
    pose proof (Up_spec m w Hwf) as Hup. unfold wp, Up_post in Hup.
    fold t pend b r w' in Hup.
    destruct Hup as [(k & k' & Hk1 & Hk2 & Hk3 & Hent & Hbod & Hok & Herr) Hcalm].
    split.
    + exists k, k'. repeat split; auto.
    + intros Hc. apply (Hcalm Hc).
  - intros t records r w'.
    pose proof (Rollback_spec m steps w Hwf) as Hrb. unfold wp, Rollback_post in Hrb.
    fold t records r w' in Hrb.
    destruct Hrb as [(k & k' & Hk1 & Hk2 & Hk3 & Hrows & Hbod & Hreg & Hok & Herr) Hcalm].
    split.
    + exists k, k'. repeat split; auto.
    + intros Hc. apply (Hcalm Hc).
Qed.

Definition failing : Migration :=
  {| Up := Some (Opaque "no such column"); Down := Some (Opaque "no such column");
     DisableTransaction := None |}.

Definition second_fails : Migrator :=
  snd (Migrator_Register
         (snd (Migrator_Register
                 (snd (Migrator_Register (New []) "20240101000000_a" UpContract.noop))
                 "20240102000000_b" failing))
         "20240103000000_c" UpContract.noop).

Lemma second_fails_wf : wf second_fails.
Proof. do 3 apply UpContract.Register_wf. apply UpContract.New_wf. Qed.

End env.

Section example.
Existing Instance example_platform.

(** Three pending migrations, the second one's [Up] fails: the first is
    recorded, the third never runs. *)
Lemma C3_first_failure_stops_witness :
  (exists e, fst (Migrator_Up second_fails UpContract.empty_world) = Err e) /\
  entries (tracker second_fails) (snd (Migrator_Up second_fails UpContract.empty_world))
  = [("20240101000000_a"%string, 1%Z)] /\
  bodies (snd (Migrator_Up second_fails UpContract.empty_world))
  = [(UpContract.noop, "up"%string); (failing, "up"%string)].
Proof.
  destruct (C3_first_failure_stops second_fails 0 UpContract.empty_world second_fails_wf)
    as [[_ H] _].
  apply (H eq_refl
           [ {| Name := "20240101000000_a"%string; Migration_ := UpContract.noop |} ]
           {| Name := "20240102000000_b"%string; Migration_ := failing |}
           [ {| Name := "20240103000000_c"%string; Migration_ := UpContract.noop |} ]);
    reflexivity.
Defined.

End example.

End FirstFailure.

(** ** Reset and the before-hooks *)

Module ResetHooks.
Import migrator Effects.

Section env.
Context {platform : Platform}.

Definition refuse : HookFunc := fun _ _ => Some (Opaque "maintenance window").

Definition guarded : Migrator :=
  Migrator_BeforeMigrate
    (snd (Migrator_Register (New []) "20240101000000_a" UpContract.noop))
    refuse.

(** C8.  One applied migration and a before-hook that objects to every
    migration.  [Rollback 0] calls the hook for the migration, direction
    down, and stops there: no body runs and the row stays.  [Reset] on the
    same input calls no before-hook at all: it runs [Down] and removes the
    row. *)
Theorem C8_reset_skips_before_hooks :
  let w := FreshSQL.applied_world in
  let t := tracker guarded in
  (fst (Migrator_Rollback guarded 0 w)
   = Err (Wrap (Str.join EmptyString
                  ["before hook for "; Str.Quote "20240101000000_a"; ": "])
               (Opaque "maintenance window")) /\
   before_calls (snd (Migrator_Rollback guarded 0 w))
   = [(0, "20240101000000_a"%string, "down"%string)] /\
   bodies (snd (Migrator_Rollback guarded 0 w)) = [] /\
   rows_in t (snd (Migrator_Rollback guarded 0 w)) = rows_in t w) /\
  (fst (Migrator_Reset guarded w) = Ok tt /\
   before_calls (snd (Migrator_Reset guarded w)) = [] /\
   bodies (snd (Migrator_Reset guarded w)) = [(UpContract.noop, "down"%string)] /\
   rows_in t (snd (Migrator_Reset guarded w)) = []).
Proof. vm_compute. repeat split. Qed.

End env.

End ResetHooks.

(** ** Resolving the order of seeders *)

Module ResolveFacts.
Import seeder.

Section env.
Context {platform : Platform}.

Lemma insert_sorted_elem (x y : string) (l : list string) :
  y ∈ sort.insert_sorted x l <-> y = x \/ y ∈ l.
Proof.
  induction l as [|z l IH]; simpl.
  - rewrite list_elem_of_singleton, elem_of_nil. tauto.
  - destruct (Str.leb x z); rewrite !elem_of_cons; [tauto|].
    rewrite IH. tauto.
Qed.

Lemma Strings_elem (y : string) (l : list string) : y ∈ sort.Strings l <-> y ∈ l.
Proof.
  induction l as [|x l IH]; simpl; [tauto|].
  rewrite insert_sorted_elem, elem_of_cons, IH. tauto.
Qed.

Lemma insert_sorted_perm (x : string) (l : list string) :
  Permutation (sort.insert_sorted x l) (x :: l).
Proof.
  induction l as [|z l IH]; simpl; [reflexivity|].
  destruct (Str.leb x z); [reflexivity|]. rewrite IH. apply perm_swap.
Qed.

Lemma Strings_perm (l : list string) : Permutation (sort.Strings l) l.
Proof.
  induction l as [|x l IH]; simpl; [reflexivity|].
  rewrite insert_sorted_perm. now constructor.
Qed.

Definition increasing (l : list string) : Prop :=
  StronglySorted (fun a b => Str.leb a b = true) l.

Lemma insert_sorted_increasing (x : string) (l : list string) :
  increasing l -> increasing (sort.insert_sorted x l).
Proof.
  unfold increasing. induction 1 as [|z l Hs IH Hall]; simpl.
  - repeat constructor.
  - destruct (Str.leb x z) eqn:E.
    + constructor; [now constructor|]. constructor; [exact E|].
      eapply List.Forall_impl; [|exact Hall]. cbv beta. intros y.
      rewrite !StrFacts.leb_true in *.
      intros [Hy|Hy]; destruct E as [E|E]; subst; auto.
      right. eapply StrFacts.lt_trans; eauto.
    + constructor; [exact IH|].
      apply StrFacts.leb_false in E.
      rewrite List.Forall_forall in *. intros y Hy.
      apply list_elem_of_In, insert_sorted_elem in Hy.
      destruct Hy as [->|Hy].
      * apply StrFacts.leb_true. now right.
      * apply Hall. now apply list_elem_of_In.
Qed.

Lemma Strings_increasing (l : list string) : increasing (sort.Strings l).
Proof.
  induction l as [|x l IH]; simpl; [constructor|].
  now apply insert_sorted_increasing.
Qed.

(** [index_of] finds the first place of a name that is in the path. *)
Lemma index_of_elem (n : string) (l : list string) :
  n ∈ l -> exists i rest, index_of n l = Some i /\ drop i l = n :: rest.
Proof.
  induction l as [|x l IH]; intros Hin; [now apply elem_of_nil in Hin|].
  simpl. destruct (String.eqb_spec x n) as [->|Hne].
  - exists 0, l. auto.
  - apply elem_of_cons in Hin. destruct Hin as [->|Hin]; [contradiction|].
    destruct (IH Hin) as (i & rest & -> & Hd). exists (S i), rest. auto.
Qed.

Lemma flag_insert (m : gmap string bool) (n x : string) (b : bool) :
  flag (<[n := b]> m) x = if decide (n = x) then b else flag m x.
Proof.
  unfold flag. destruct (decide (n = x)) as [->|Hne].
  - now rewrite lookup_insert_eq.
  - now rewrite lookup_insert_ne.
Qed.

Section graph.
Variable all : gmap string Seeder.

(** The names a seeder declares, none for a seeder that is not a
    [DependentSeeder] and none for a name that is not registered. *)
Definition deps_of (n : string) : list string :=
  match all !! n with
  | Some s => match DependsOn s with Some deps => deps | None => [] end
  | None => []
  end.

Definition edge (x y : string) : Prop := y ∈ deps_of x.

(** [reach x y]: [y] is [x] or a dependency of [x], direct or not. *)
Definition reach : relation string := rtc edge.

Definition on_cycle (x : string) : Prop := tc edge x x.

Definition closed : Prop :=
  forall x y, edge x y -> is_Some (all !! y).

Lemma edge_registered (x y : string) : edge x y -> is_Some (all !! x).
Proof.
  unfold edge, deps_of. destruct (all !! x); [eauto|]. intros H.
  now apply elem_of_nil in H.
Qed.

(** Each name of the list is a dependency of the one before it. *)
Definition walk (l : list string) : Prop :=
  forall i x y, l !! i = Some x -> l !! S i = Some y -> edge x y.

Lemma walk_snoc (l : list string) (n : string) :
  walk l -> (forall x, last l = Some x -> edge x n) -> walk (l ++ [n]).
Proof.
  intros Hw Hl i x y Hx Hy.
  apply lookup_snoc_Some in Hy. destruct Hy as [[Hlt Hy]|[Hlen ->]].
  - rewrite lookup_app_l in Hx by lia. eauto.
  - apply Hl. rewrite last_lookup. rewrite lookup_app_l in Hx by lia.
    rewrite <- Hlen. exact Hx.
Qed.

Lemma walk_drop (l : list string) (k : nat) : walk l -> walk (drop k l).
Proof.
  intros Hw i x y Hx Hy. rewrite lookup_drop in Hx, Hy.
  apply (Hw (k + i)); [exact Hx|]. now rewrite <- Nat.add_succ_r.
Qed.

Lemma walk_tc (l : list string) (x y : string) :
  walk (x :: l ++ [y]) -> tc edge x y.
Proof.
  revert x. induction l as [|z l IH]; intros x Hw.
  - apply tc_once. apply (Hw 0); reflexivity.
  - eapply tc_l; [apply (Hw 0); reflexivity|].
    apply IH. intros i a b Ha Hb. apply (Hw (S i)); assumption.
Qed.

(** Every name of the list is registered and comes after its
    dependencies. *)
Definition topo (l : list string) : Prop :=
  forall i x, l !! i = Some x ->
    is_Some (all !! x) /\
    forall d, edge x d -> exists j, j < i /\ l !! j = Some d.

Lemma topo_snoc (l : list string) (n : string) :
  topo l -> is_Some (all !! n) -> (forall d, edge n d -> d ∈ l) ->
  topo (l ++ [n]).
Proof.
  intros Ht Hn Hd i x Hx.
  apply lookup_snoc_Some in Hx. destruct Hx as [[Hlt Hx]|[Hlen ->]].
  - destruct (Ht i x Hx) as [Hreg Hdeps]. split; [exact Hreg|].
    intros d Hed. destruct (Hdeps d Hed) as (j & Hj & Hjd).
    exists j. split; [exact Hj|]. rewrite lookup_app_l by lia. exact Hjd.
  - split; [exact Hn|]. intros d Hed.
    destruct (proj1 (list_elem_of_lookup l d) (Hd d Hed)) as [j Hj].
    pose proof (lookup_lt_Some _ _ _ Hj).
    exists j. split; [lia|]. rewrite lookup_app_l by lia. exact Hj.
Qed.

Lemma topo_tc (l : list string) (x y : string) :
  topo l -> tc edge x y ->
  forall i, l !! i = Some x -> exists j, j < i /\ l !! j = Some y.
Proof.
  intros Ht. induction 1 as [x y Hxy|x y z Hxy Hyz IH]; intros i Hi.
  - now apply (Ht i x Hi).
  - destruct (proj2 (Ht i x Hi) y Hxy) as (j & Hj & Hjy).
    destruct (IH j Hjy) as (k & Hk & Hkz). exists k. split; [lia|exact Hkz].
Qed.

(** No name of a list in dependency order is on a cycle. *)
Lemma topo_acyclic (l : list string) (x : string) :
  topo l -> x ∈ l -> ~ on_cycle x.
Proof.
  intros Ht Hx Hc. apply list_elem_of_lookup in Hx. destruct Hx as [i Hi].
  revert Hi. induction i as [i IH] using lt_wf_ind. intros Hi.
  destruct (topo_tc l x x Ht Hc i Hi) as (j & Hj & Hjx). exact (IH j Hj Hjx).
Qed.

(** A list in dependency order holds whatever its names reach. *)
Lemma topo_closed (l : list string) (x y : string) :
  topo l -> x ∈ l -> reach x y -> y ∈ l.
Proof.
  intros Ht Hx Hr. induction Hr as [x|x y z Hxy Hyz IH]; [exact Hx|].
  apply IH. apply list_elem_of_lookup in Hx. destruct Hx as [i Hi].
  destruct (proj2 (Ht i x Hi) y Hxy) as (j & _ & Hj).
  eapply list_elem_of_lookup_2; eauto.
Qed.

Lemma registered_bound (l : list string) :
  NoDup l -> (forall x, x ∈ l -> is_Some (all !! x)) -> length l <= size all.
Proof.
  intros Hnd Hreg.
  rewrite <- (size_list_to_set (C := gset string) l Hnd).
  rewrite <- (size_dom (D := gset string) all).
  apply subseteq_size. intros x Hx.
  apply elem_of_list_to_set in Hx. apply elem_of_dom. auto.
Qed.

Lemma walk_prefix (l1 l2 : list string) : walk (l1 ++ l2) -> walk l1.
Proof.
  intros Hw i x y Hx Hy. apply (Hw i).
  - rewrite lookup_app_l; [exact Hx|]. eapply lookup_lt_Some; eauto.
  - rewrite lookup_app_l; [exact Hy|]. eapply lookup_lt_Some; eauto.
Qed.

Lemma last_drop (l : list string) (i : nat) (x : string) :
  last (drop i l) = Some x -> last l = Some x.
Proof.
  intros H. rewrite <- (take_drop i l), last_app, H. reflexivity.
Qed.

(** What holds of the variables of [visit] between two calls: the names
    in progress are those of the path, which runs along dependencies and
    has every name once; the names visited are those of the order, which
    has every name once and after its dependencies. *)
Record Inv (st : resolver) : Prop := {
  path_nodup : NoDup (path st);
  path_flag : forall x, flag (inProgress st) x = true <-> x ∈ path st;
  path_registered : forall x, x ∈ path st -> is_Some (all !! x);
  path_walk : walk (path st);
  order_flag : forall x, flag (visited st) x = true <-> x ∈ order st;
  order_topo : topo (order st);
  order_nodup : NoDup (order st)
}.

(** [n] is a dependency of the name the path ends with. *)
Definition link (st : resolver) (n : string) : Prop :=
  forall x, last (path st) = Some x -> edge x n.

Lemma Inv_start : Inv start.
Proof.
  split; simpl.
  - constructor.
  - intros x. unfold flag. rewrite lookup_empty, elem_of_nil. split; [discriminate|tauto].
  - intros x H. now apply elem_of_nil in H.
  - intros i x y H. discriminate.
  - intros x. unfold flag. rewrite lookup_empty, elem_of_nil. split; [discriminate|tauto].
  - intros i x H. discriminate.
  - constructor.
Qed.

Lemma Inv_enter (n : string) (st : resolver) :
  Inv st -> flag (inProgress st) n = false -> is_Some (all !! n) -> link st n ->
  Inv (enter n st).
Proof.
  intros HI Hp Hn Hl.
  assert (Hnot : n ∉ path st).
  { intros Hin. apply (path_flag st HI) in Hin. congruence. }
  split; simpl; try apply HI.
  - apply NoDup_app. split; [apply HI|]. split; [|repeat constructor].
    + intros x Hx Hx'. apply list_elem_of_singleton in Hx'. now subst.
    + intros H. now apply elem_of_nil in H.
  - intros x. rewrite flag_insert, elem_of_app, list_elem_of_singleton.
    destruct (decide (n = x)) as [->|Hne].
    + tauto.
    + rewrite (path_flag st HI). split; [tauto|]. intros [H|H]; [exact H|congruence].
  - intros x Hx. apply elem_of_app in Hx. destruct Hx as [Hx|Hx].
    + now apply HI.
    + apply list_elem_of_singleton in Hx. now subst.
  - apply walk_snoc; [apply HI|exact Hl].
Qed.

Lemma Inv_leave (n : string) (st : resolver) (p : list string) :
  Inv st -> path st = p ++ [n] -> n ∉ order st ->
  (forall d, edge n d -> d ∈ order st) ->
  Inv (leave n st) /\ path (leave n st) = p.
Proof.
  intros HI Hp Hno Hdeps.
  assert (Hpath : path (leave n st) = p).
  { simpl. rewrite Hp, length_app. simpl.
    apply take_app_length'. lia. }
  assert (Hnd : NoDup (p ++ [n])) by (rewrite <- Hp; apply HI).
  apply NoDup_app in Hnd. destruct Hnd as (Hndp & Hdisj & _).
  assert (Hnp : n ∉ p).
  { intros Hin. apply (Hdisj n Hin). now apply list_elem_of_singleton. }
  split; [|exact Hpath]. split; rewrite ?Hpath.
  - exact Hndp.
  - intros x. simpl. rewrite flag_insert.
    destruct (decide (n = x)) as [->|Hne].
    + split; [discriminate|contradiction].
    + rewrite (path_flag st HI), Hp, elem_of_app, list_elem_of_singleton.
      split; [|tauto]. intros [H|H]; [exact H|congruence].
  - intros x Hx. apply (path_registered st HI). rewrite Hp, elem_of_app. now left.
  - apply (walk_prefix p [n]). rewrite <- Hp. apply HI.
  - intros x. simpl. rewrite flag_insert, elem_of_app, list_elem_of_singleton.
    destruct (decide (n = x)) as [->|Hne].
    + tauto.
    + rewrite (order_flag st HI). split; [tauto|]. intros [H|H]; [exact H|congruence].
  - simpl. apply topo_snoc; [apply HI| |exact Hdeps].
    apply (path_registered st HI). rewrite Hp, elem_of_app. right.
    now apply list_elem_of_singleton.
  - simpl. apply NoDup_app. split; [apply HI|]. split; [|repeat constructor].
    + intros x Hx Hx'. apply list_elem_of_singleton in Hx'. now subst.
    + intros H. now apply elem_of_nil in H.
Qed.

(** What a call that returns no error has done: the path is as it was,
    the names in [want] are in the order, and the names added to the
    order satisfy [from] and were not in progress. *)
Definition Post (from : string -> Prop) (want : list string) (st st' : resolver)
  : Prop :=
  Inv st' /\ path st' = path st /\
  (forall d, d ∈ want -> d ∈ order st') /\
  exists new, order st' = order st ++ new /\
              forall x, x ∈ new -> from x /\ x ∉ path st.

Definition circular_of (cycle : list string) : error :=
  Wrap (String.append (Str.join " -> " cycle) ": ") (Sentinel ErrCircularDependency).

(** The errors of a call: a cycle of the graph, from a name back to it,
    or a name that is not registered. *)
Inductive Bad (from : string -> Prop) (e : error) : Prop :=
| bad_cycle (x : string) (mid : list string) :
    e = circular_of (x :: mid ++ [x]) -> walk (x :: mid ++ [x]) -> Bad from e
| bad_missing (y : string) :
    e = missing y -> all !! y = None -> from y -> Bad from e.

Lemma Bad_mono (from from' : string -> Prop) (e : error) :
  (forall x, from x -> from' x) -> Bad from e -> Bad from' e.
Proof.
  intros H [x mid He Hw|y He Hy Hf].
  - eapply bad_cycle; eauto.
  - eapply bad_missing; eauto.
Qed.

Definition sound (fuel : nat) (V : string -> resolver -> outcome) : Prop :=
  forall n st,
    Inv st -> link st n -> size all < fuel + length (path st) ->
    match V n st with
    | Done st' => Post (reach n) [n] st st'
    | Failed e => Bad (reach n) e
    | Exhausted => False
    end.

Definition from_any (ds : list string) (x : string) : Prop :=
  exists d, d ∈ ds /\ reach d x.

Lemma each_sound (fuel : nat) (V : string -> resolver -> outcome) :
  sound fuel V ->
  forall ds st,
    Inv st -> (forall d, d ∈ ds -> link st d) ->
    size all < fuel + length (path st) ->
    match visit_each V ds st with
    | Done st' => Post (from_any ds) ds st st'
    | Failed e => Bad (from_any ds) e
    | Exhausted => False
    end.
Proof.
  intros HV. induction ds as [|d ds IH]; intros st HI Hl Hf; simpl.
  - split; [exact HI|]. split; [reflexivity|]. split.
    + intros d Hd. now apply elem_of_nil in Hd.
    + exists []. rewrite app_nil_r. split; [reflexivity|].
      intros x Hx. now apply elem_of_nil in Hx.
  - assert (Hd : d ∈ d :: ds) by (apply elem_of_cons; now left).
    specialize (HV d st HI (Hl d Hd) Hf).
    destruct (V d st) as [st1|e|]; [| |exact HV].
    2:{ eapply Bad_mono; [|exact HV]. intros x Hx. exists d. auto. }
    destruct HV as (HI1 & Hp1 & Hw1 & new1 & Ho1 & Hn1).
    assert (Hl1 : forall d', d' ∈ ds -> link st1 d').
    { intros d' Hd'. unfold link. rewrite Hp1. apply Hl. apply elem_of_cons. now right. }
    specialize (IH st1 HI1 Hl1). rewrite Hp1 in IH. specialize (IH Hf).
    destruct (visit_each V ds st1) as [st2|e|]; [| |exact IH].
    2:{ eapply Bad_mono; [|exact IH]. intros x (d' & Hd' & Hr).
        exists d'. split; [apply elem_of_cons; now right|exact Hr]. }
    destruct IH as (HI2 & Hp2 & Hw2 & new2 & Ho2 & Hn2).
    split; [exact HI2|]. split; [congruence|]. split.
    + intros d' Hd'. apply elem_of_cons in Hd'. destruct Hd' as [->|Hd'].
      * rewrite Ho2, elem_of_app. left. apply Hw1. now apply list_elem_of_singleton.
      * now apply Hw2.
    + exists (new1 ++ new2). split; [now rewrite Ho2, Ho1, app_assoc|].
      intros x Hx. apply elem_of_app in Hx. destruct Hx as [Hx|Hx].
      * destruct (Hn1 x Hx) as [Hr Hnp]. split; [|exact Hnp]. exists d. auto.
      * destruct (Hn2 x Hx) as [(d' & Hd' & Hr) Hnp]. rewrite Hp1 in Hnp.
        split; [|exact Hnp].
        exists d'. split; [apply elem_of_cons; now right|exact Hr].
Qed.

Lemma visit_sound (fuel : nat) : sound fuel (visit all fuel).
Proof.
  induction fuel as [|fuel IH]; intros n st HI Hl Hf.
  { pose proof (registered_bound (path st) (path_nodup st HI) (path_registered st HI)).
    simpl in *. lia. }
  cbn [visit].
  destruct (flag (visited st) n) eqn:Ev.
  { split; [exact HI|]. split; [reflexivity|]. split.
    - intros d Hd. apply list_elem_of_singleton in Hd. subst d.
      now apply (order_flag st HI).
    - exists []. rewrite app_nil_r. split; [reflexivity|].
      intros x Hx. now apply elem_of_nil in Hx. }
  destruct (flag (inProgress st) n) eqn:Ep.
  { apply (path_flag st HI) in Ep.
    destruct (index_of_elem n (path st) Ep) as (i & rest & Hi & Hd).
    unfold circular, buildCyclePath. rewrite Hi, Hd.
    apply (bad_cycle _ _ n rest); [reflexivity|].
    change (n :: rest ++ [n]) with ((n :: rest) ++ [n]). rewrite <- Hd.
    apply walk_snoc; [apply walk_drop, HI|].
    intros x Hx. apply Hl. eapply last_drop; eauto. }
  cbv zeta. destruct (all !! n) as [s|] eqn:En.
  2:{ apply (bad_missing _ _ n); [reflexivity|exact En|constructor]. }
  assert (Hafter :
    match DependsOn s with
    | Some deps => visit_each (visit all fuel) (sort.Strings deps) (enter n st)
    | None => Done (enter n st)
    end = visit_each (visit all fuel) (sort.Strings (deps_of n)) (enter n st)).
  { unfold deps_of. rewrite En. now destruct (DependsOn s). }
  rewrite Hafter. clear Hafter.
  assert (HI1 : Inv (enter n st)) by (apply Inv_enter; eauto).
  assert (Hnp : n ∉ path st).
  { intros Hin. apply (path_flag st HI) in Hin. congruence. }
  assert (Hno : n ∉ order st).
  { intros Hin. apply (order_flag st HI) in Hin. congruence. }
  assert (Hl1 : forall d, d ∈ sort.Strings (deps_of n) -> link (enter n st) d).
  { intros d Hd x Hx. simpl in Hx. rewrite last_snoc in Hx. injection Hx as <-.
    rewrite Strings_elem in Hd. exact Hd. }
  assert (Hf1 : size all < fuel + length (path (enter n st))).
  { simpl. rewrite length_app. simpl. lia. }
  pose proof (each_sound fuel _ IH _ _ HI1 Hl1 Hf1) as Heach.
  assert (Hfrom : forall x, from_any (sort.Strings (deps_of n)) x -> reach n x).
  { intros x (d & Hd & Hr). rewrite Strings_elem in Hd.
    eapply rtc_l; [exact Hd|exact Hr]. }
  destruct (visit_each _ _ _) as [st2|e|]; [| |exact Heach].
  2:{ eapply Bad_mono; [exact Hfrom|exact Heach]. }
  destruct Heach as (HI2 & Hp2 & Hw2 & new & Ho2 & Hn2). simpl in Hp2, Ho2.
  assert (Hnew : n ∉ order st2).
  { rewrite Ho2, elem_of_app. intros [Hin|Hin]; [contradiction|].
    destruct (Hn2 n Hin) as [_ Hnot]. apply Hnot. simpl.
    rewrite elem_of_app, list_elem_of_singleton. now right. }
  destruct (Inv_leave n st2 (path st) HI2 Hp2 Hnew) as [HI3 Hp3].
  { intros d Hd. apply Hw2. rewrite Strings_elem. exact Hd. }
  split; [exact HI3|]. split; [exact Hp3|]. split.
  - intros d Hd. apply list_elem_of_singleton in Hd. subst d. simpl.
    rewrite elem_of_app, list_elem_of_singleton. now right.
  - exists (new ++ [n]). split; [simpl; now rewrite Ho2, app_assoc|].
    intros x Hx. apply elem_of_app in Hx. destruct Hx as [Hx|Hx].
    + destruct (Hn2 x Hx) as [Hr Hnot]. split; [now apply Hfrom|].
      intros Hin. apply Hnot. simpl. rewrite elem_of_app. now left.
    + apply list_elem_of_singleton in Hx. subst x. split; [constructor|exact Hnp].
Qed.

Lemma sorted_names_elem (x : string) : x ∈ sorted_names all <-> is_Some (all !! x).
Proof.
  unfold sorted_names. rewrite Strings_elem, list_elem_of_In, in_map_iff. split.
  - intros ([k s] & <- & Hin). apply list_elem_of_In, elem_of_map_to_list in Hin.
    simpl. eauto.
  - intros [s Hs]. exists (x, s). split; [reflexivity|].
    now apply list_elem_of_In, elem_of_map_to_list.
Qed.

(** [resolveOrder]: the recursion bound is never hit; an order that comes
    back holds the names [n] reaches, once each, every one after its
    dependencies. *)
Lemma resolve_one (n : string) :
  match visit all (depth_bound all) n start with
  | Done st =>
      NoDup (order st) /\ topo (order st) /\ forall x, x ∈ order st <-> reach n x
  | Failed e => Bad (reach n) e
  | Exhausted => False
  end.
Proof.
  assert (Hl : link start n) by (intros x Hx; discriminate).
  assert (Hf : size all < depth_bound all + length (path start))
    by (unfold depth_bound; simpl; lia).
  pose proof (visit_sound (depth_bound all) n start Inv_start Hl Hf) as H.
  destruct (visit all (depth_bound all) n start) as [st|e|]; [|exact H|exact H].
  destruct H as (HI & _ & Hw & new & Ho & Hn). simpl in Ho.
  split; [apply HI|]. split; [apply HI|]. intros x. split.
  - rewrite Ho. intros Hx. now apply Hn.
  - apply topo_closed; [apply HI|]. apply Hw. now apply list_elem_of_singleton.
Qed.

(** [resolveAllOrder]: the same, for the registered names. *)
Lemma resolve_all :
  match visit_each (visit all (depth_bound all)) (sorted_names all) start with
  | Done st =>
      NoDup (order st) /\ topo (order st) /\
      forall x, x ∈ order st <-> is_Some (all !! x)
  | Failed e => Bad (from_any (sorted_names all)) e
  | Exhausted => False
  end.
Proof.
  assert (Hl : forall d, d ∈ sorted_names all -> link start d)
    by (intros d _ x Hx; discriminate).
  assert (Hf : size all < depth_bound all + length (path start))
    by (unfold depth_bound; simpl; lia).
  pose proof (each_sound _ _ (visit_sound (depth_bound all)) _ start Inv_start Hl Hf)
    as H.
  destruct (visit_each _ _ start) as [st|e|]; [|exact H|exact H].
  destruct H as (HI & _ & Hw & _).
  split; [apply HI|]. split; [apply HI|]. intros x. split.
  - intros Hx. apply list_elem_of_lookup in Hx. destruct Hx as [i Hi].
    now apply (order_topo st HI i x).
  - intros Hx. apply Hw. now apply sorted_names_elem.
Qed.

Definition acyclic : Prop := forall x, ~ on_cycle x.

(** An error in a graph without cycles names a dependency that is not
    registered. *)
Lemma Bad_acyclic (from : string -> Prop) (e : error) :
  Bad from e -> (forall x mid, ~ walk (x :: mid ++ [x])) ->
  exists y, e = missing y /\ all !! y = None /\ from y.
Proof.
  intros [x mid He Hw|y He Hy Hf] Hac.
  - destruct (Hac x mid Hw).
  - eauto.
Qed.

(** An error where every name in question is registered tells a cycle. *)
Lemma Bad_registered (from : string -> Prop) (e : error) :
  Bad from e -> (forall y, from y -> is_Some (all !! y)) ->
  exists x mid, e = circular_of (x :: mid ++ [x]) /\ walk (x :: mid ++ [x]).
Proof.
  intros [x mid He Hw|y He Hy Hf] Hreg.
  - eauto.
  - destruct (Hreg y Hf) as [s Hs]. congruence.
Qed.

Lemma closed_reach (x y : string) :
  closed -> is_Some (all !! x) -> reach x y -> is_Some (all !! y).
Proof.
  intros Hc Hx Hr. induction Hr as [x|x y z Hxy Hyz IH]; [exact Hx|].
  apply IH. eapply Hc; eauto.
Qed.

(** The seeders [run_each] calls are the first ones of the list, up to the
    first whose [Run] returns an error. *)
Definition runs_well (x : string) : Prop :=
  exists s, all !! x = Some s /\ Run s = None.

Lemma run_each_prefix (names ran : list string) :
  exists k, k <= length names /\
            snd (run_each all names ran) = ran ++ take k names /\
            (fst (run_each all names ran) = None -> k = length names).
Proof.
  revert ran. induction names as [|x names IH]; intros ran; simpl.
  - exists 0. rewrite app_nil_r. auto.
  - destruct (all !! x) as [s|].
    + destruct (Run s) as [err|].
      * exists 1. simpl. rewrite take_0. split; [lia|]. split; [reflexivity|discriminate].
      * destruct (IH (ran ++ [x])) as (k & Hk & Hs & Hf).
        exists (S k). simpl. rewrite Hs, <- app_assoc. simpl.
        split; [lia|]. split; [reflexivity|]. intros H. now rewrite (Hf H).
    + exists 0. simpl. rewrite app_nil_r. split; [lia|]. split; [reflexivity|discriminate].
Qed.

Lemma run_each_all (names ran : list string) :
  (forall x, x ∈ names -> runs_well x) ->
  run_each all names ran = (None, ran ++ names).
Proof.
  revert ran. induction names as [|x names IH]; intros ran Hall; simpl.
  - now rewrite app_nil_r.
  - destruct (Hall x) as (s & -> & ->); [apply elem_of_cons; now left|].
    rewrite IH, <- app_assoc; [reflexivity|].
    intros y Hy. apply Hall. apply elem_of_cons. now right.
Qed.

(** The order in the words of the contract: a depth-first traversal that
    takes the dependencies of a name in increasing order, passes over a
    name it has seen, and puts a name after its dependencies. *)
Fixpoint postorder (fuel : nat) (n : string) (seen : list string) : list string :=
  match fuel with
  | O => seen
  | S fuel' =>
      if decide (n ∈ seen) then seen
      else fold_left (fun acc d => postorder fuel' d acc)
                     (sort.Strings (deps_of n)) seen ++ [n]
  end.

Definition marks_order (st : resolver) : Prop :=
  forall x, flag (visited st) x = true <-> x ∈ order st.

Lemma visit_each_postorder (fuel : nat) :
  (forall n st st', visit all fuel n st = Done st' -> marks_order st ->
                    marks_order st' /\ order st' = postorder fuel n (order st)) ->
  forall ds st st',
    visit_each (visit all fuel) ds st = Done st' -> marks_order st ->
    marks_order st' /\
    order st' = fold_left (fun acc d => postorder fuel d acc) ds (order st).
Proof.
  intros HV. induction ds as [|d ds IH]; intros st st' H Hm; simpl in *.
  - injection H as <-. auto.
  - destruct (visit all fuel d st) as [st1|e|] eqn:E; try discriminate.
    destruct (HV d st st1 E Hm) as [Hm1 Ho1].
    destruct (IH st1 st' H Hm1) as [Hm' Ho']. split; [exact Hm'|].
    now rewrite Ho', Ho1.
Qed.

Lemma visit_postorder (fuel : nat) (n : string) (st st' : resolver) :
  visit all fuel n st = Done st' -> marks_order st ->
  marks_order st' /\ order st' = postorder fuel n (order st).
Proof.
  revert n st st'. induction fuel as [|fuel IH]; intros n st st' H Hm;
    [discriminate|].
  cbn [visit postorder] in *.
  destruct (flag (visited st) n) eqn:Ev.
  { injection H as <-. apply Hm in Ev.
    destruct (decide (n ∈ order st)); [auto|contradiction]. }
  destruct (decide (n ∈ order st)) as [Hin|_].
  { apply Hm in Hin. congruence. }
  destruct (flag (inProgress st) n); [discriminate|]. cbv zeta in H.
  destruct (all !! n) as [s|] eqn:En; [|discriminate].
  assert (Hafter :
    match DependsOn s with
    | Some deps => visit_each (visit all fuel) (sort.Strings deps) (enter n st)
    | None => Done (enter n st)
    end = visit_each (visit all fuel) (sort.Strings (deps_of n)) (enter n st)).
  { unfold deps_of. rewrite En. now destruct (DependsOn s). }
  rewrite Hafter in H. clear Hafter.
  destruct (visit_each _ _ _) as [st2|e|] eqn:E; try discriminate.
  injection H as <-.
  destruct (visit_each_postorder fuel IH _ _ _ E) as [Hm2 Ho2]; [exact Hm|].
  simpl in Ho2. split.
  - intros x. simpl. rewrite flag_insert, elem_of_app, list_elem_of_singleton.
    destruct (decide (n = x)) as [->|Hne]; [tauto|].
    rewrite (Hm2 x). split; [tauto|]. intros [Hx|Hx]; [exact Hx|congruence].
  - simpl. now rewrite Ho2.
Qed.

Lemma on_cycle_registered (x : string) : on_cycle x -> is_Some (all !! x).
Proof.
  unfold on_cycle. generalize x at 2. intros y H.
  destruct H as [x y H|x y z H _]; eapply edge_registered; eauto.
Qed.

Lemma reach_cycle_registered (n x : string) :
  reach n x -> on_cycle x -> is_Some (all !! n).
Proof.
  intros Hr Hc. destruct Hr as [n|n y x Hny _].
  - now apply on_cycle_registered.
  - eapply edge_registered; eauto.
Qed.

Lemma acyclic_walk (x : string) (mid : list string) :
  acyclic -> ~ walk (x :: mid ++ [x]).
Proof. intros Hac Hw. exact (Hac x (walk_tc mid x x Hw)). Qed.

(** A graph [resolveAllOrder] puts in order has no cycle. *)
Lemma resolved_acyclic (st : resolver) :
  visit_each (visit all (depth_bound all)) (sorted_names all) start = Done st ->
  acyclic.
Proof.
  intros H x Hc. pose proof resolve_all as Hall. rewrite H in Hall.
  destruct Hall as (_ & Ht & Hin).
  apply (topo_acyclic (order st) x Ht); [|exact Hc].
  apply Hin. now apply on_cycle_registered.
Qed.

(** What a name reaches is registered when [resolveOrder] returns an
    order for it. *)
Lemma resolved_registered (n : string) (st : resolver) :
  visit all (depth_bound all) n start = Done st ->
  forall y, reach n y -> is_Some (all !! y).
Proof.
  intros H y Hr. pose proof (resolve_one n) as Hone. rewrite H in Hone.
  destruct Hone as (_ & Ht & Hin). apply Hin in Hr.
  apply list_elem_of_lookup in Hr. destruct Hr as [i Hi].
  now apply (Ht i y).
Qed.

End graph.

End env.

End ResolveFacts.

(** ** Run: a seeder and what it depends on *)

Module RunContract.
Import seeder ResolveFacts.

Section env.
Context {platform : Platform}.

(** C6.  [Run name] for a registered name in a graph without cycles.
    When every name that [name] reaches is registered, the seeders it
    goes through are the names [name] reaches, [name] among them, each
    once and after all of its dependencies, in the order of the
    depth-first traversal that takes the dependencies of a name in
    increasing order; it calls [Run] of the first of them up to the first
    that fails, of all of them when none fails, and of no other seeder.
    When [name] reaches a name that is not registered, it returns
    [ErrSeederNotFound] for such a name and calls no seeder.  The
    dependencies of a name are gone through as [sort.Strings] leaves
    them: the same names, in increasing order. *)
Theorem C6_run_closure (r : Runner) (name : string) :
  let all := seeders (registry r) in
  acyclic all -> is_Some (all !! name) ->
  ((forall y, reach all name y -> is_Some (all !! y)) ->
   exists order,
     NoDup order /\
     (forall x, x ∈ order <-> reach all name x) /\
     topo all order /\
     order = postorder all (depth_bound all) name [] /\
     (exists err k, Runner_Run r name = Some (err, take k order)) /\
     ((forall x, x ∈ order -> runs_well all x) ->
      Runner_Run r name = Some (None, order))) /\
  (forall y, reach all name y -> all !! y = None ->
   exists z, all !! z = None /\ reach all name z /\
             Runner_Run r name = Some (Some (missing z), []) /\
             errors_Is (missing z) ErrSeederNotFound = true) /\
  (forall n, increasing (sort.Strings (deps_of all n)) /\
             Permutation (sort.Strings (deps_of all n)) (deps_of all n)).
Proof.
  intros all Hac [s Hs].
  pose proof (resolve_one all name) as Hone.
  assert (Hrun : Runner_Run r name =
                 match visit all (depth_bound all) name start with
                 | Exhausted => None
                 | Failed err => Some (Some err, [])
                 | Done st => Some (run_each all (order st) [])
                 end).
  { unfold Runner_Run, Registry_Get. fold all. rewrite Hs. reflexivity. }
  split; [|split].
  - intros Hreg.
    destruct (visit all (depth_bound all) name start) as [st|e|] eqn:E;
      [| |destruct Hone].
    2:{ destruct (Bad_acyclic all _ e Hone) as (y & _ & Hy & Hr).
        - intros x mid. now apply acyclic_walk.
        - destruct (Hreg y Hr) as [s' Hs']. congruence. }
    destruct Hone as (Hnd & Ht & Hin).
    exists (order st). split; [exact Hnd|]. split; [exact Hin|]. split; [exact Ht|].
    split; [|split].
    + apply (visit_postorder all _ _ _ _ E).
      intros x. unfold flag. simpl. rewrite lookup_empty, elem_of_nil.
      split; [discriminate|tauto].
    + destruct (run_each_prefix all (order st) []) as (k & _ & Hk & _).
      exists (fst (run_each all (order st) [])), k. rewrite Hrun.
      destruct (run_each all (order st) []) as [err ran]. simpl in *. now subst.
    + intros Hwell. rewrite Hrun, (run_each_all all _ [] Hwell). reflexivity.
  - intros y Hr Hy.
    destruct (visit all (depth_bound all) name start) as [st|e|] eqn:E;
      [| |destruct Hone].
    { destruct (resolved_registered all name st E y Hr) as [s' Hs']. congruence. }
    destruct (Bad_acyclic all _ e Hone) as (z & -> & Hz & Hrz).
    { intros x mid. now apply acyclic_walk. }
    exists z. split; [exact Hz|]. split; [exact Hrz|]. split; [exact Hrun|reflexivity].
  - intros n. split; [apply Strings_increasing|apply Strings_perm].
Qed.

Definition plain (deps : option (list string)) : Seeder :=
  {| Run := None; DependsOn := deps |}.

Definition chain : Runner :=
  NewRunner {| seeders := {[ "A"%string := plain None;
                             "B"%string := plain (Some ["A"%string]);
                             "C"%string := plain (Some ["B"%string]);
                             "D"%string := plain None ]} |}.

End env.

Section example.
Existing Instance example_platform.

(** C depends on B, B on A, and D is registered besides: [Run "C"] calls
    A, B and C, in this order, and not D. *)
Lemma C6_run_closure_witness :
  Runner_Run chain "C" = Some (None, ["A"%string; "B"%string; "C"%string]).
Proof.
  assert (Hac : acyclic (seeders (registry chain))).
  { eapply resolved_acyclic. vm_compute. reflexivity. }
  assert (Hreg : is_Some (seeders (registry chain) !! "C"%string)).
  { vm_compute. eauto. }
  assert (Hall : forall y, reach (seeders (registry chain)) "C" y ->
                           is_Some (seeders (registry chain) !! y)).
  { eapply resolved_registered. vm_compute. reflexivity. }
  destruct (C6_run_closure chain "C" Hac Hreg) as [H _].
  destruct (H Hall) as (order & _ & _ & _ & Heq & _ & Hrun).
  assert (Horder : order = ["A"%string; "B"%string; "C"%string]).
  { rewrite Heq. vm_compute. reflexivity. }
  rewrite Horder in Hrun. apply Hrun.
  intros x Hx. unfold runs_well.
  repeat (apply elem_of_cons in Hx; destruct Hx as [->|Hx]);
    [eexists; split; [vm_compute; reflexivity|reflexivity] ..|].
  now apply elem_of_nil in Hx.
Defined.

End example.

End RunContract.

(** ** Cycles among seeders *)

Module CycleContract.
Import seeder ResolveFacts.

Section env.
Context {platform : Platform}.

(** The error of a cycle: [ErrCircularDependency], wrapped in the names
    of a cycle of the graph, from a name back to it. *)
Definition cycle_error (all : gmap string Seeder) (e : error) : Prop :=
  exists x mid,
    walk all (x :: mid ++ [x]) /\
    errors_Is e ErrCircularDependency = true /\
    error_msg e = String.append (String.append (Str.join " -> " (x :: mid ++ [x])) ": ")
                                (sentinel_msg ErrCircularDependency).

(** The error of a dependency that is not registered. *)
Definition missing_error (all : gmap string Seeder) (e : error) : Prop :=
  exists y, all !! y = None /\ e = missing y.

Lemma Bad_error (all : gmap string Seeder) (from : string -> Prop) (e : error) :
  Bad all from e -> cycle_error all e \/ missing_error all e.
Proof.
  intros [x mid -> Hw|y -> Hy _].
  - left. exists x, mid. split; [exact Hw|]. split; reflexivity.
  - right. exists y. auto.
Qed.

Lemma Bad_cycle_error (all : gmap string Seeder) (from : string -> Prop) (e : error) :
  Bad all from e -> (forall y, from y -> is_Some (all !! y)) -> cycle_error all e.
Proof.
  intros HB Hreg. destruct (Bad_registered all from e HB Hreg) as (x & mid & -> & Hw).
  exists x, mid. split; [exact Hw|]. split; reflexivity.
Qed.

(** C5, as the code has it.  In a graph with a cycle (a name that depends
    on itself, directly or through others), [RunAll] returns an error and
    calls no seeder, and so does [Run name] when [name] reaches the cycle.
    The error is [ErrCircularDependency] with the names of a cycle of the
    graph in its message, joined by [ -> ], or it is [ErrSeederNotFound]
    for a dependency that is not registered; it is the former when every
    dependency in question is registered. *)
Theorem C5_cycle_fails (r : Runner) (name x : string) :
  let all := seeders (registry r) in
  on_cycle all x ->
  (exists e,
     Runner_RunAll r = Some (Some e, []) /\
     (cycle_error all e \/ missing_error all e) /\
     (closed all -> cycle_error all e)) /\
  (reach all name x ->
   exists e,
     Runner_Run r name = Some (Some e, []) /\
     (cycle_error all e \/ missing_error all e) /\
     ((forall y, reach all name y -> is_Some (all !! y)) -> cycle_error all e)).
Proof.
  intros all Hc. split.
  - pose proof (on_cycle_registered all x Hc) as [s Hs].
    pose proof (resolve_all all) as Hall.
    unfold Runner_RunAll, Runner_resolveAllOrder, Registry_GetAll. fold all.
    destruct (Nat.eqb_spec (size all) 0) as [Hz|_].
    { apply map_size_empty_iff in Hz. rewrite Hz, lookup_empty in Hs. discriminate. }
    destruct (visit_each _ _ start) as [st|e|]; [| |destruct Hall].
    { destruct Hall as (_ & Ht & Hin). exfalso.
      apply (topo_acyclic all (order st) x Ht); [|exact Hc]. apply Hin. eauto. }
    exists e. split; [reflexivity|]. split; [eapply Bad_error; eauto|].
    intros Hcl. eapply Bad_cycle_error; [exact Hall|].
    intros y (d & Hd & Hr). apply sorted_names_elem in Hd.
    eapply closed_reach; eauto.
  - intros Hr.
    pose proof (reach_cycle_registered all name x Hr Hc) as [s Hs].
    pose proof (resolve_one all name) as Hone.
    unfold Runner_Run, Registry_Get, Runner_resolveOrder, Registry_GetAll. fold all.
    rewrite Hs.
    destruct (visit all (depth_bound all) name start) as [st|e|]; [| |destruct Hone].
    { destruct Hone as (_ & Ht & Hin). exfalso.
      apply (topo_acyclic all (order st) x Ht); [|exact Hc]. now apply Hin. }
    exists e. split; [reflexivity|]. split; [eapply Bad_error; eauto|].
    intros Hreg. eapply Bad_cycle_error; eauto.
Qed.

Definition needs (deps : list string) : Seeder :=
  {| Run := None; DependsOn := Some deps |}.

Definition ring : Runner :=
  NewRunner {| seeders := {[ "a"%string := needs ["b"%string];
                             "b"%string := needs ["c"%string];
                             "c"%string := needs ["a"%string] ]} |}.

Lemma ring_edge (x y : string) :
  In y (deps_of (seeders (registry ring)) x) -> edge (seeders (registry ring)) x y.
Proof. intros H. now apply list_elem_of_In. Qed.

Lemma ring_cycle : on_cycle (seeders (registry ring)) "a".
Proof.
  eapply tc_l; [apply (ring_edge "a" "b"); vm_compute; auto|].
  eapply tc_l; [apply (ring_edge "b" "c"); vm_compute; auto|].
  apply tc_once. apply (ring_edge "c" "a"). vm_compute. auto.
Qed.

End env.

Section example.
Existing Instance example_platform.

(** a depends on b, b on c and c on a: [RunAll] calls no seeder and
    returns [ErrCircularDependency] with [a -> b -> c -> a]. *)
Lemma C5_cycle_fails_witness :
  Runner_RunAll ring
  = Some (Some (circular_of ["a"; "b"; "c"; "a"]%string), []) /\
  cycle_error (seeders (registry ring)) (circular_of ["a"; "b"; "c"; "a"]%string) /\
  error_msg (circular_of ["a"; "b"; "c"; "a"]%string)
  = "a -> b -> c -> a: circular seeder dependency"%string.
Proof.
  destruct (C5_cycle_fails ring "a" "a" ring_cycle) as [(e & Hrun & Hor & _) _].
  assert (He : Runner_RunAll ring
               = Some (Some (circular_of ["a"; "b"; "c"; "a"]%string), []))
    by (vm_compute; reflexivity).
  rewrite He in Hrun. injection Hrun as <-.
  split; [exact He|]. split; [|reflexivity].
  destruct Hor as [H|(y & _ & Hy)]; [exact H|discriminate].
Defined.

End example.

(** b depends on itself and on a, which is not registered. *)
Definition self_and_missing : Runner :=
  NewRunner {| seeders := {[ "b"%string := needs ["b"%string; "a"%string] ]} |}.

Section example.
Existing Instance example_platform.

(** The graph has a cycle, the self-dependency of b, which [Run "b"]
    reaches; neither [Run "b"] nor [RunAll] returns
    [ErrCircularDependency]: the traversal comes to a first, which is not
    registered, and the error is [ErrSeederNotFound]. *)
Lemma C5_counterexample :
  on_cycle (seeders (registry self_and_missing)) "b" /\
  reach (seeders (registry self_and_missing)) "b" "b" /\
  Runner_Run self_and_missing "b" = Some (Some (missing "a"), []) /\
  Runner_RunAll self_and_missing = Some (Some (missing "a"), []) /\
  errors_Is (missing "a") ErrCircularDependency = false.
Proof.
  split; [|split; [|split; [|split]]].
  - apply tc_once. apply list_elem_of_In. vm_compute. auto.
  - constructor.
  - vm_compute. reflexivity.
  - vm_compute. reflexivity.
  - reflexivity.
Qed.

End example.

End CycleContract.

(** ** More of the migrator *)

Module ReverseRecords.
Import migrator.

Lemma reverse_loop_middle {A : Type} (fuel : nat) :
  forall (front mid back : list A),
    length mid <= fuel ->
    reverse_loop fuel (Z.of_nat (length front))
      (Z.of_nat (length front + length mid) - 1)%Z (front ++ mid ++ back)
    = Some (front ++ rev mid ++ back).
Proof.
  induction fuel as [|fuel IH]; intros front mid back Hlen.
  { destruct mid; [reflexivity|simpl in Hlen; lia]. }
  cbn [reverse_loop].
  destruct mid as [|x mid].
  { destruct (Z.ltb_spec (Z.of_nat (length front))
                (Z.of_nat (length front + length (@nil A)) - 1)) as [H|H];
      [simpl in H; lia|reflexivity]. }
  destruct mid as [|y mid _] using rev_ind.
  { destruct (Z.ltb_spec (Z.of_nat (length front))
                (Z.of_nat (length front + length [x]) - 1)) as [H|H];
      [simpl in H; lia|reflexivity]. }
  rewrite length_cons, length_app in *. simpl length in *.
  destruct (Z.ltb_spec (Z.of_nat (length front))
              (Z.of_nat (length front + S (length mid + 1)) - 1)) as [_|H]; [|lia].
  rewrite Nat2Z.id.
  replace (Z.to_nat (Z.of_nat (length front + S (length mid + 1)) - 1))
    with (length front + S (length mid)) by lia.
  assert (Hi : (front ++ (x :: mid ++ [y]) ++ back) !! length front = Some x).
  { rewrite lookup_app_r, Nat.sub_diag by lia. reflexivity. }
  assert (Hj : (front ++ (x :: mid ++ [y]) ++ back) !! (length front + S (length mid))
               = Some y).
  { rewrite lookup_app_r by lia.
    replace (length front + S (length mid) - length front) with (S (length mid)) by lia.
    simpl. rewrite <- app_assoc. rewrite lookup_app_r, Nat.sub_diag by lia.
    reflexivity. }
  rewrite Hi, Hj.
  destruct (Z.leb_spec 0 (Z.of_nat (length front))) as [_|H]; [|lia].
  assert (Hswap : <[length front + S (length mid) := x]>
                    (<[length front := y]> (front ++ (x :: mid ++ [y]) ++ back))
                  = (front ++ [y]) ++ mid ++ (x :: back)).
  { rewrite !insert_app_r_alt by lia. rewrite Nat.sub_diag.
    replace (length front + S (length mid) - length front) with (S (length mid)) by lia.
    simpl. rewrite <- !app_assoc. f_equal. f_equal.
    rewrite insert_app_r_alt by lia. rewrite Nat.sub_diag. reflexivity. }
  rewrite Hswap.
  replace (Z.of_nat (length front) + 1)%Z with (Z.of_nat (length (front ++ [y])))
    by (rewrite length_app; simpl; lia).
  replace (Z.of_nat (length front + S (length mid + 1)) - 1 - 1)%Z
    with (Z.of_nat (length (front ++ [y]) + length mid) - 1)%Z
    by (rewrite length_app; simpl; lia).
  rewrite IH by lia.
  rewrite <- !app_assoc. simpl. rewrite rev_app_distr. simpl.
  now rewrite <- !app_assoc.
Qed.

(** X1.  The loop of [reverseRecords], which swaps the ends and moves
    inwards, never indexes out of range and leaves the slice reversed,
    whatever its length. *)
Theorem X1_reverseRecords_reverses {A : Type} (records : list A) :
  reverseRecords records = Some (rev records).
Proof.
  unfold reverseRecords.
  pose proof (reverse_loop_middle (length records) [] records [] (Nat.le_refl _)) as H.
  simpl in H. rewrite !app_nil_r in H. exact H.
Qed.

End ReverseRecords.

Module StatusSpec.
Import migrator Effects TrackerSpec UpSpec.

Section env.
Context {platform : Platform}.

Lemma applied_map_from (applied : list MigrationRecord.t)
    (m0 : gmap string MigrationRecord.t) (n : string) :
  match fold_left (fun m rec => <[MigrationRecord.Name rec := rec]> m) applied m0 !! n with
  | Some rec => (In rec applied /\ MigrationRecord.Name rec = n) \/ m0 !! n = Some rec
  | None => m0 !! n = None /\ ~ In n (map MigrationRecord.Name applied)
  end.
Proof.
  revert m0. induction applied as [|x l IH]; intros m0; simpl.
  - destruct (m0 !! n); auto.
  - specialize (IH (<[MigrationRecord.Name x := x]> m0)).
    destruct (fold_left _ l _ !! n) as [rec|].
    + destruct IH as [[Hin Hn]|Hm]; [left; auto|].
      apply lookup_insert_Some in Hm. destruct Hm as [[Hn ->]|[_ Hm]]; auto.
    + destruct IH as [Hm Hnot]. apply lookup_insert_None in Hm.
      destruct Hm as [Hm Hne]. split; [exact Hm|]. intros [H|H]; auto.
Qed.

(** X2.  [Status] reports on the registered migrations, one entry each,
    in the order of the registry.  An entry says applied exactly when the
    tracking table has a row of that name, and then carries the batch and
    the time of such a row; otherwise its batch is 0 and it has no time.
    [Status] leaves the rows as they are and runs no migration, and with
    the connection holding it returns no error. *)
Theorem X2_status_reports (m : Migrator) (w : World) :
  let t := tracker m in
  let rows := rows_in t w in
  let r := fst (Migrator_Status m w) in
  let w' := snd (Migrator_Status m w) in
  rows_in t w' = rows /\ bodies w' = bodies w /\
  (calm w -> exists statuses, r = Ok statuses) /\
  (forall statuses, r = Ok statuses ->
     map MigrationStatus.Name statuses = map Name (migrations (registry m)) /\
     forall s, In s statuses ->
       if MigrationStatus.Applied s
       then exists row,
              In row rows /\
              MigrationRecord.Name row = MigrationStatus.Name s /\
              MigrationStatus.Batch s = MigrationRecord.Batch row /\
              MigrationStatus.AppliedAt s = Some (MigrationRecord.CreatedAt row)
       else ~ In (MigrationStatus.Name s) (names_of rows) /\
            MigrationStatus.Batch s = 0%Z /\ MigrationStatus.AppliedAt s = None).
Proof.
  intros t rows r w'.
  enough (H : wp (Migrator_Status m)
                 (fun r w' =>
                    rows_in t w' = rows /\ bodies w' = bodies w /\
                    (calm w -> exists statuses, r = Ok statuses) /\
                    (forall statuses, r = Ok statuses ->
                       statuses = map (status_of (applied_map (order_by_name rows)))
                                      (migrations (registry m)))) w).
  { unfold wp in H. fold r w' in H. destruct H as (H1 & H2 & H3 & H4).
    split; [exact H1|]. split; [exact H2|]. split; [exact H3|].
    intros statuses Hr. rewrite (H4 statuses Hr). split.
    - rewrite map_map. apply map_ext. intros reg. unfold status_of.
      now destruct (applied_map _ !! Name reg).
    - intros s Hs. apply in_map_iff in Hs. destruct Hs as (reg & <- & _).
      unfold status_of, applied_map.
      pose proof (applied_map_from (order_by_name rows) ∅ (Name reg)) as Hm.
      destruct (fold_left _ _ _ !! Name reg) as [rec|]; simpl.
      + destruct Hm as [[Hin Hn]|Hm]; [|rewrite lookup_empty in Hm; discriminate].
        exists rec. split; [|auto].
        eapply Permutation_in; [apply order_by_name_perm|exact Hin].
      + destruct Hm as [_ Hnot]. split; [|auto]. intros Hin. apply Hnot.
        unfold names_of in Hin.
        eapply Permutation_in; [|exact Hin].
        apply Permutation_map. symmetry. apply order_by_name_perm. }
  unfold Migrator_Status. apply wp_bind.
  eapply wp_mono; [apply EnsureTable_spec|].
  intros r0 w1 (Hrows1 & Hb1 & Hc1 & _ & Hh1 & Hok1). fold t rows in Hrows1.
  destruct r0 as [[]|e0].
  2:{ split; [exact Hrows1|]. split; [exact Hb1|]. split; [|discriminate].
      intros Hc. specialize (Hok1 Hc). discriminate. }
  cbv zeta. apply wp_bind.
  eapply wp_mono; [apply GetApplied_spec|].
  intros r1 w2 ((Ht2 & Hb2 & Hc2) & Hval2 & Hok2).
  destruct (same_tables t w1 w2 Ht2) as [Hrows2 _].
  fold t in Hval2, Hok2. rewrite Hrows1 in Hval2, Hok2.
  destruct r1 as [applied|e1].
  - apply wp_ret. split; [congruence|]. split; [congruence|].
    split; [eauto|]. intros statuses [= <-]. now rewrite (Hval2 applied eq_refl).
  - split; [congruence|]. split; [congruence|]. split; [|discriminate].
    intros Hc. specialize (Hok2 (Hc1 Hc) (Hh1 eq_refl)). discriminate.
Qed.

End env.

End StatusSpec.

Module ResetSpec.
Import migrator Effects TrackerSpec StepSpec UpSpec RollbackSpec RollbackTarget.

Section env.
Context {platform : Platform}.

(** The migrator without its before-hooks. *)
Definition unhooked (m : Migrator) : Migrator :=
  {| registry := registry m; runner := runner m; tracker := tracker m;
     batch := batch m;
     hooks := {| beforeHooks := []; afterHooks := afterHooks (hooks m) |};
     grammar := grammar m |}.

(** A step of [Reset] is a step of [Rollback] with no before-hook
    registered. *)
Lemma Reset_step_unhooked (m : Migrator) (rec : MigrationRecord.t) (w : World) :
  Reset_step m rec w = Rollback_step (unhooked m) rec w.
Proof.
  unfold Reset_step, Rollback_step.
  destruct (Registry_Get (registry m) (MigrationRecord.Name rec)) eqn:E;
    unfold bind, lift; simpl; rewrite E; reflexivity.
Qed.

Lemma for_range_ext {A : Type} (f g : A -> Action unit) (l : list A) :
  (forall x w, f x w = g x w) -> forall w, for_range l f w = for_range l g w.
Proof.
  intros H. induction l as [|x l IH]; intros w; simpl; [reflexivity|].
  unfold bind. rewrite H. destruct (g x w) as [[[]|e] w1]; [apply IH|reflexivity].
Qed.

(** A record that [Reset] undoes: its migration is registered and its
    [Down] returns no error. *)
Definition comes_down (m : Migrator) (rec : MigrationRecord.t) : bool :=
  match Registry_Get (registry m) (MigrationRecord.Name rec) with
  | Ok mig => match Down mig with None => true | Some _ => false end
  | Err _ => false
  end.

Lemma without_all (rows l : list MigrationRecord.t) :
  Permutation l rows -> without (names_of l) rows = [].
Proof.
  intros Hp. unfold without.
  induction rows as [|r rows' IH] in Hp |- *; [reflexivity|].
  assert (Hall : forall x, In x (r :: rows') -> MigrationRecord.Name x ∈ names_of l).
  { intros x Hx. apply list_elem_of_In. unfold names_of. apply in_map.
    eapply Permutation_in; [symmetry; exact Hp|exact Hx]. }
  clear Hp IH. revert Hall. generalize (r :: rows'). intros rs.
  induction rs as [|x rs IH]; intros Hall; [reflexivity|].
  rewrite filter_cons. destruct (decide _) as [Hn|_].
  - destruct Hn. apply Hall. now left.
  - apply IH. intros y Hy. apply Hall. now right.
Qed.

(** What [Reset] has done when it returns: removed the rows of the
    first [k] records and run [Down] of the first [k] or [k + 1]. *)
Definition Reset_post (m : Migrator) (w : World) (r : result unit) (w' : World)
  : Prop :=
  let t := tracker m in
  let records := newest_first (rows_in t w) in
  (exists k k',
     k <= k' /\ k' <= S k /\ k' <= length records /\
     rows_in t w' = without (names_of (take k records)) (rows_in t w) /\
     bodies w' = bodies w ++ downs m (take k' records) /\
     Forall (registered m) (take k records) /\
     (r = Ok tt -> k = length records)) /\
  (calm w -> forallb (comes_down m) records = true -> r = Ok tt).

Lemma Reset_spec (m : Migrator) (w : World) :
  wf m -> wp (Migrator_Reset m) (Reset_post m w) w.
Proof.
  intros (Hbt & Hrun & Hsorted). unfold Reset_post. cbv zeta.
  set (t := tracker m). set (records := newest_first (rows_in t w)).
  unfold Migrator_Reset. apply wp_bind.
  eapply wp_mono; [apply EnsureTable_spec|].
  intros r0 w1 (Hrows1 & Hb1 & Hc1 & _ & Hh1 & Hok1). fold t in Hrows1, Hh1.
  assert (Hnone : forall (res : result unit) w2,
            rows_in t w2 = rows_in t w -> bodies w2 = bodies w ->
            (calm w -> False) -> res <> Ok tt ->
            (exists k k',
               k <= k' /\ k' <= S k /\ k' <= length records /\
               rows_in t w2 = without (names_of (take k records)) (rows_in t w) /\
               bodies w2 = bodies w ++ downs m (take k' records) /\
               Forall (registered m) (take k records) /\
               (res = Ok tt -> k = length records)) /\
            (calm w -> forallb (comes_down m) records = true -> res = Ok tt)).
  { intros res w2 Hr Hb Hc Hres. split; [|intros Hcw; destruct (Hc Hcw)].
    exists 0, 0. simpl. rewrite Hr, Hb, without_nil, app_nil_r.
    repeat split; auto; try lia. intros ->. now destruct Hres. }
  destruct r0 as [[]|e0].
  2:{ apply Hnone; [exact Hrows1|exact Hb1| |discriminate].
      intros Hc. specialize (Hok1 Hc). discriminate. }
  specialize (Hh1 eq_refl). apply wp_bind.
  eapply wp_mono; [apply GetApplied_spec|].
  intros r1 w2 ((Ht2 & Hb2 & Hc2) & Hval2 & Hok2).
  destruct (same_tables t w1 w2 Ht2) as [Hrows2 Hhas2].
  fold t in Hval2, Hok2. rewrite Hrows1 in Hval2, Hok2.
  destruct r1 as [applied|e1].
  2:{ apply Hnone; [congruence|congruence| |discriminate].
      intros Hc. specialize (Hok2 (Hc1 Hc) Hh1). discriminate. }
  rewrite (Hval2 applied eq_refl). fold (newest_first (rows_in t w)). fold records.
  unfold wp. rewrite (for_range_ext _ _ records (Reset_step_unhooked m) w2).
  pose proof (Rollback_loop_spec (unhooked m) records w2) as Hloop.
  unfold wp, down_loop_post in Hloop. cbv zeta in Hloop.
  change (tracker (unhooked m)) with t in Hloop.
  destruct Hloop as (_ & _ & (k & k' & Hk1 & Hk2 & Hk3 & Hrows & Hbod & Hreg & Hok & _)
                     & Hcalm).
  rewrite Hrows2, Hrows1 in Hrows. rewrite Hb2, Hb1 in Hbod.
  split.
  - exists k, k'. repeat split; auto.
  - intros Hc Hall.
    destruct (Hcalm (Hc2 (Hc1 Hc)) (proj2 Hhas2 Hh1) Hrun) as [Hgood _].
    apply Hgood. exact Hall.
Qed.

(** When [Reset] returns no error the table is empty and [Down] of every
    record has run. *)
Lemma Reset_done (m : Migrator) (w : World) (r : result unit) (w' : World) :
  Reset_post m w r w' -> r = Ok tt ->
  rows_in (tracker m) w' = [] /\
  bodies w' = bodies w ++ downs m (newest_first (rows_in (tracker m) w)) /\
  length (downs m (newest_first (rows_in (tracker m) w)))
  = length (newest_first (rows_in (tracker m) w)).
Proof.
  intros [(k & k' & Hk1 & Hk2 & Hk3 & Hrows & Hbod & Hreg & Hok) _] Hr.
  specialize (Hok Hr).
  assert (k' = length (newest_first (rows_in (tracker m) w))) by lia. subst k k'.
  rewrite firstn_all in Hrows, Hbod, Hreg.
  split; [|split; [exact Hbod|now apply downs_length]].
  rewrite Hrows. apply without_all, newest_first_perm.
Qed.

(** X3.  [Reset] on a migrator made by [New] and [Register], in any state
    of the database.  It goes through all rows of the tracking table,
    greatest name first.  The rows it removes are those of the first [k]
    of them and the bodies it runs are [Down] of the first [k] or [k + 1],
    nothing else; when it returns no error the table is empty.  With the
    connection holding, every row's migration registered and no [Down]
    failing, it returns no error, has run [Down] of every row in this
    order, and has emptied the table.  The bodies run are the [Down] of
    the entries the registry holds under the rows' names, row by row. *)
Theorem X3_reset_undoes_all (m : Migrator) (w : World) :
  wf m ->
  let t := tracker m in
  let records := newest_first (rows_in t w) in
  let r := fst (Migrator_Reset m w) in
  let w' := snd (Migrator_Reset m w) in
  descending records /\ Permutation records (rows_in t w) /\
  (exists k k',
     k <= k' /\ k' <= S k /\ k' <= length records /\
     rows_in t w' = without (names_of (take k records)) (rows_in t w) /\
     bodies w' = bodies w ++ downs m (take k' records)) /\
  (r = Ok tt -> rows_in t w' = [] /\ bodies w' = bodies w ++ downs m records) /\
  (calm w -> forallb (comes_down m) records = true ->
   r = Ok tt /\ rows_in t w' = [] /\ bodies w' = bodies w ++ downs m records /\
   length (downs m records) = length records) /\
  (r = Ok tt ->
   exists ps,
     (forall p, In p ps -> In p (migrations (registry m))) /\
     map Name ps = names_of records /\
     bodies w' = bodies w ++ undo ps).
Proof.
  intros Hwf t records r w'.
  split; [apply newest_first_descending|]. split; [apply newest_first_perm|].
  pose proof (Reset_spec m w Hwf) as H. unfold wp in H. fold r w' in H.
  pose proof (Reset_done m w r w' H) as Hdone. fold t records in Hdone.
  destruct H as [(k & k' & Hk1 & Hk2 & Hk3 & Hrows & Hbod & Hreg & Hok) Hcalm].
  fold t records in Hrows, Hbod, Hreg, Hok, Hcalm.
  split; [exists k, k'; auto|]. split; [intros Hr; split; apply (Hdone Hr)|].
  split.
  - intros Hc Hall. specialize (Hcalm Hc Hall).
    destruct (Hdone Hcalm) as (H1 & H2 & H3). auto.
  - intros Hr. rewrite (Hok Hr), firstn_all in Hreg.
    destruct (downs_entries m records Hreg) as (ps & Hin & Hnames & Hdowns).
    exists ps. split; [exact Hin|]. split; [exact Hnames|].
    destruct (Hdone Hr) as (_ & Hb & _). now rewrite Hb, Hdowns.
Qed.

End env.

Section example.
Existing Instance example_platform.

(** Three rows and three migrations that differ: [Reset] runs [Down] of
    c, of b and of a, each its own, and the table is empty. *)
Lemma X3_reset_undoes_all_witness :
  fst (Migrator_Reset RollbackContract.three_distinct RollbackContract.two_batches)
  = Ok tt /\
  rows_in (tracker RollbackContract.three_distinct)
          (snd (Migrator_Reset RollbackContract.three_distinct
                               RollbackContract.two_batches)) = [] /\
  bodies (snd (Migrator_Reset RollbackContract.three_distinct
                              RollbackContract.two_batches))
  = [(RollbackContract.attached, "down"%string);
     (UpContract.detached, "down"%string); (UpContract.noop, "down"%string)].
Proof.
  destruct (X3_reset_undoes_all RollbackContract.three_distinct
              RollbackContract.two_batches RollbackContract.three_distinct_wf)
    as (_ & _ & _ & _ & H & _).
  destruct H as (H1 & H2 & H3 & H4); [reflexivity|reflexivity|].
  split; [exact H1|]. split; [exact H2|]. rewrite H3. reflexivity.
Defined.

End example.

End ResetSpec.

Module ExecuteSpec.
Import migrator Effects StepSpec.

Section env.
Context {platform : Platform}.

(** The events of a body: one for a direction the runner knows, none
    otherwise. *)
Definition body_events (m : Migration) (direction : string) : list Event :=
  if String.eqb direction "up" || String.eqb direction "down"
  then [EvBody m direction] else [].

Definition closing (m : Migration) (direction : string) : Event :=
  match body_of m direction with
  | None => EvCommit
  | Some _ => EvRollback
  end.

(** X4.  [Execute] while the connection holds.  It returns what the body
    returns, [Up] or [Down] by the direction, and an error of its own for
    any other direction, for which no body runs.  A migration whose
    [DisableTransaction] is true runs with no transaction around it.  Any
    other runs between a begin and a commit when the body returns no
    error, and between a begin and a rollback when it returns one. *)
Theorem X4_execute_in_transaction (r : Runner) (m : Migration) (direction : string)
    (w : World) :
  calm w ->
  let res := fst (Runner_Execute r m direction w) in
  let w' := snd (Runner_Execute r m direction w) in
  res = outcome (body_of m direction) /\
  tables w' = tables w /\ calm w' /\
  trace w' = trace w ++
    match DisableTransaction m with
    | Some true => body_events m direction
    | _ => [EvBegin] ++ body_events m direction ++ [closing m direction]
    end.
Proof.
  unfold calm. intros Hc. destruct w as [tb ck fl tr]. simpl in Hc. subst fl.
  unfold Runner_Execute, Runner_executeWithoutTransaction, Runner_ExecuteInTransaction,
    Runner_runMigration, body_events, closing, body_of.
  destruct (DisableTransaction m) as [[|]|];
    destruct (String.eqb direction "up") eqn:Eu;
    try destruct (String.eqb direction "down") eqn:Ed;
    destruct (Up m) as [eu|]; destruct (Down m) as [ed|];
    cbn; rewrite <- ?app_assoc; repeat split; try reflexivity;
    rewrite ?app_nil_r; reflexivity.
Qed.

End env.

Section example.
Existing Instance example_platform.

Lemma X4_execute_in_transaction_witness :
  trace (snd (Runner_Execute (NewRunner None) FirstFailure.failing "up"
                UpContract.empty_world))
  = [EvBegin; EvBody FirstFailure.failing "up"; EvRollback].
Proof.
  destruct (X4_execute_in_transaction (NewRunner None) FirstFailure.failing "up"
              UpContract.empty_world eq_refl) as (_ & _ & _ & H).
  exact H.
Defined.

End example.

Section env.
Context {platform : Platform}.

(** X5.  [ExecuteInTransaction] when the connection fails.  A failing
    begin is returned, wrapped in [begin transaction: ], and the body does
    not run.  A failing commit after a body that returned no error gives
    an error that is [ErrTransactionFailed].  A failing rollback after a
    body that returned an error gives an error that wraps the body's: the
    cause stays in the chain. *)
Theorem X5_transaction_failures (r : Runner) (m : Migration) (direction : string)
    (w : World) (rest : list bool) :
  let res := fst (Runner_ExecuteInTransaction r m direction w) in
  let w' := snd (Runner_ExecuteInTransaction r m direction w) in
  (faults w = true :: rest ->
   res = Err (Wrap "begin transaction: " (Opaque "driver: bad connection")) /\
   trace w' = trace w ++ [EvBegin] /\ faults w' = rest) /\
  (faults w = false :: true :: rest -> body_of m direction = None ->
   (exists e, res = Err e /\ errors_Is e ErrTransactionFailed = true) /\
   trace w' = trace w ++ [EvBegin; EvBody m direction; EvCommit]) /\
  (faults w = false :: true :: rest ->
   forall err, body_of m direction = Some err ->
   (exists context, res = Err (Wrap context err)) /\
   trace w' = trace w ++ [EvBegin] ++ body_events m direction ++ [EvRollback]).
Proof.
  destruct w as [tb ck fl tr]. cbn [faults trace].
  unfold Runner_ExecuteInTransaction, Runner_runMigration, body_events, body_of.
  split; [|split].
  - intros ->. cbn. auto.
  - intros -> Hbody.
    destruct (String.eqb direction "up") eqn:Eu;
      [|destruct (String.eqb direction "down") eqn:Ed; [|discriminate]];
      rewrite Hbody; cbn; rewrite <- ?app_assoc; split; eauto.
  - intros -> err Hbody.
    destruct (String.eqb direction "up") eqn:Eu;
      [|destruct (String.eqb direction "down") eqn:Ed];
      try rewrite Hbody; try (injection Hbody as <-);
      cbn; rewrite <- ?app_assoc; split; eauto.
Qed.

End env.

End ExecuteSpec.

Module HookSpec.
Import migrator Effects.

Definition before_events (name direction : string) (from n : nat) : list Event :=
  map (fun i => EvBeforeHook i name direction) (seq from n).

Definition after_events (name direction : string) (from n : nat) : list Event :=
  map (fun i => EvAfterHook i name direction) (seq from n).

Lemma run_before_pass (hooks : list HookFunc) (name direction : string) :
  (forall fn, In fn hooks -> fn name direction = None) ->
  forall i w,
    run_before_from i hooks name direction w
    = (Ok tt, {| tables := tables w; clock := clock w; faults := faults w;
                 trace := trace w ++ before_events name direction i (length hooks) |}).
Proof.
  induction hooks as [|fn hooks IH]; intros Hall i w.
  - simpl. unfold ret, before_events. simpl. rewrite app_nil_r. now destruct w.
  - cbn [run_before_from]. unfold bind, log. cbn.
    rewrite (Hall fn (or_introl eq_refl)).
    rewrite IH by (intros g Hg; apply Hall; now right).
    cbn. unfold before_events. cbn. now rewrite <- app_assoc.
Qed.

Lemma run_before_stop (pre post : list HookFunc) (fn : HookFunc)
    (name direction : string) (err : error) :
  (forall g, In g pre -> g name direction = None) -> fn name direction = Some err ->
  forall i w,
    run_before_from i (pre ++ fn :: post) name direction w
    = (Err err, {| tables := tables w; clock := clock w; faults := faults w;
                   trace := trace w ++ before_events name direction i (S (length pre)) |}).
Proof.
  induction pre as [|g pre IH]; intros Hall Hfn i w.
  - cbn. rewrite Hfn. reflexivity.
  - cbn [app run_before_from]. unfold bind, log. cbn.
    rewrite (Hall g (or_introl eq_refl)).
    rewrite IH by (auto; intros g' Hg'; apply Hall; now right).
    cbn. unfold before_events. cbn. now rewrite <- app_assoc.
Qed.

Lemma run_after_all (hooks : list AfterHookFunc) (name direction : string) :
  forall i w,
    run_after_from i hooks name direction w
    = (Ok tt, {| tables := tables w; clock := clock w; faults := faults w;
                 trace := trace w ++ after_events name direction i (length hooks) |}).
Proof.
  induction hooks as [|fn hooks IH]; intros i w.
  - simpl. unfold ret, after_events. simpl. rewrite app_nil_r. now destruct w.
  - cbn [run_after_from]. unfold bind, log. cbn. rewrite IH.
    cbn. unfold after_events. cbn. now rewrite <- app_assoc.
Qed.

(** X6.  The hooks a migrator holds are those handed to [BeforeMigrate],
    in the order of the calls.  [RunBefore] calls them in this order and
    stops at the first that returns an error, which it returns: the hooks
    behind it are not called.  [RunAfter] calls every after-hook, in
    order, whatever they return, and returns no error.  Neither touches
    the database. *)
Theorem X6_hooks_in_order (m : Migrator) (fns : list HookFunc)
    (name direction : string) (w : World) :
  let h := hooks m in
  beforeHooks (hooks (fold_left Migrator_BeforeMigrate fns m)) = beforeHooks h ++ fns /\
  ((forall fn, In fn (beforeHooks h) -> fn name direction = None) ->
   fst (HookManager_RunBefore h name direction w) = Ok tt /\
   trace (snd (HookManager_RunBefore h name direction w))
   = trace w ++ before_events name direction 0 (length (beforeHooks h))) /\
  (forall pre fn post err,
     beforeHooks h = pre ++ fn :: post ->
     (forall g, In g pre -> g name direction = None) ->
     fn name direction = Some err ->
     fst (HookManager_RunBefore h name direction w) = Err err /\
     trace (snd (HookManager_RunBefore h name direction w))
     = trace w ++ before_events name direction 0 (S (length pre))) /\
  fst (HookManager_RunAfter h name direction w) = Ok tt /\
  trace (snd (HookManager_RunAfter h name direction w))
  = trace w ++ after_events name direction 0 (length (afterHooks h)) /\
  tables (snd (HookManager_RunBefore h name direction w)) = tables w /\
  tables (snd (HookManager_RunAfter h name direction w)) = tables w.
Proof.
  intros h. split; [|split; [|split; [|split; [|split; [|split]]]]].
  - subst h. revert m. induction fns as [|fn fns IH]; intros m; simpl.
    + now rewrite app_nil_r.
    + rewrite IH. simpl. now rewrite <- app_assoc.
  - intros Hall. unfold HookManager_RunBefore. now rewrite run_before_pass.
  - intros pre fn post err Heq Hpre Hfn. unfold HookManager_RunBefore.
    rewrite Heq. now rewrite (run_before_stop pre post fn name direction err).
  - unfold HookManager_RunAfter. now rewrite run_after_all.
  - unfold HookManager_RunAfter. now rewrite run_after_all.
  - pose proof (StepSpec.RunBefore_spec h name direction w) as H.
    unfold wp in H. apply H.
  - unfold HookManager_RunAfter. now rewrite run_after_all.
Qed.

End HookSpec.

Module TrackerRoundTrip.
Import migrator Effects TrackerSpec UpSpec RollbackSpec.

Section env.
Context {platform : Platform}.

Definition logged (w : World) (evs : list Event) (tb : gmap string (list MigrationRecord.t))
    (ck : Z) : World :=
  {| tables := tb; clock := ck; faults := faults w; trace := trace w ++ evs |}.

Lemma Record_calm (t : Tracker) (name : string) (b : Z) (w : World)
    (rows : list MigrationRecord.t) :
  calm w -> tables w !! tableName t = Some rows ->
  Tracker_Record t name b w =
    if existsb (fun r => String.eqb (MigrationRecord.Name r) name) rows
    then (Err (Wrap (Str.join EmptyString ["record migration "; Str.Quote name; ": "])
                    (Sentinel ErrTrackingTable)),
          logged w [EvSQL (Record_query t) [ArgString name; ArgInt b]] (tables w) (clock w))
    else (Ok tt,
          logged w [EvSQL (Record_query t) [ArgString name; ArgInt b]]
            (<[tableName t := rows ++ [row name b (clock w)]]> (tables w))
            (clock w + 1)%Z).
Proof.
  unfold calm. intros Hc Ht. destruct w as [tb ck fl tr]. simpl in *. subst fl.
  unfold Tracker_Record, on_error, statement, bind, log, connection, rows_of,
    get_tables, logged. cbn. rewrite Ht. cbn.
  destruct (existsb _ rows); reflexivity.
Qed.

Lemma Remove_calm (t : Tracker) (name : string) (w : World)
    (rows : list MigrationRecord.t) :
  calm w -> tables w !! tableName t = Some rows ->
  Tracker_Remove t name w =
    (Ok tt,
     logged w [EvSQL (Remove_query t) [ArgString name]]
       (<[tableName t := filter (fun r => MigrationRecord.Name r <> name) rows]> (tables w))
       (clock w)).
Proof.
  unfold calm. intros Hc Ht. destruct w as [tb ck fl tr]. simpl in *. subst fl.
  unfold Tracker_Remove, on_error, statement, bind, log, connection, rows_of,
    get_tables, put_table, logged. cbn. rewrite Ht. reflexivity.
Qed.

Lemma without_fresh (name : string) (rows : list MigrationRecord.t) :
  ~ In name (names_of rows) ->
  filter (fun r => MigrationRecord.Name r <> name) rows = rows.
Proof.
  induction rows as [|r rows IH]; intros Hn; [reflexivity|].
  rewrite filter_cons. destruct (decide _) as [_|Hd].
  - rewrite IH; [reflexivity|]. intros H. apply Hn. now right.
  - destruct Hn. left. destruct (string_dec (MigrationRecord.Name r) name); [auto|].
    now destruct Hd.
Qed.

(** X7.  The tracker on a table that exists, the connection holding.
    [Record] of a name the table does not have adds one row of this name
    and batch at the end, and [Remove] of the name then gives back the
    rows there were.  [Record] of a name the table has fails with
    [ErrTrackingTable] and changes nothing, so a table that has every name
    once keeps having every name once.  [Remove] takes out every row of
    the name and returns no error also when there is none. *)
Theorem X7_record_remove_round_trip (t : Tracker) (name : string) (b : Z) (w : World) :
  calm w -> has_table t w ->
  let rows := rows_in t w in
  let w1 := snd (Tracker_Record t name b w) in
  (~ In name (names_of rows) ->
   fst (Tracker_Record t name b w) = Ok tt /\
   rows_in t w1 = rows ++ [row name b (clock w)] /\
   fst (Tracker_Remove t name w1) = Ok tt /\
   rows_in t (snd (Tracker_Remove t name w1)) = rows) /\
  (In name (names_of rows) ->
   (exists e, fst (Tracker_Record t name b w) = Err e /\
              errors_Is e ErrTrackingTable = true) /\
   rows_in t w1 = rows) /\
  (NoDup (names_of rows) -> NoDup (names_of (rows_in t w1))) /\
  fst (Tracker_Remove t name w) = Ok tt /\
  rows_in t (snd (Tracker_Remove t name w)) = without [name] rows /\
  ~ In name (names_of (rows_in t (snd (Tracker_Remove t name w)))).
Proof.
  intros Hc [rows0 Ht]. cbv zeta.
  assert (Hr : rows_in t w = rows0) by (unfold rows_in; now rewrite Ht).
  rewrite !Hr.
  rewrite (Record_calm t name b w rows0 Hc Ht), (Remove_calm t name w rows0 Hc Ht).
  pose proof (existsb_row_name name rows0) as Hex. fold (names_of rows0) in Hex.
  assert (Hfresh : ~ In name (names_of rows0) ->
            existsb (fun r => String.eqb (MigrationRecord.Name r) name) rows0 = false).
  { intros Hn. destruct (existsb _ rows0); [|reflexivity].
    destruct Hn. now apply Hex. }
  split; [|split; [|split; [|split; [|split]]]].
  - intros Hn. rewrite (Hfresh Hn). cbn [fst snd].
    assert (Hrows1 : rows_in t (logged w [EvSQL (Record_query t) [ArgString name; ArgInt b]]
                        (<[tableName t := rows0 ++ [row name b (clock w)]]> (tables w))
                        (clock w + 1)%Z) = rows0 ++ [row name b (clock w)]).
    { unfold rows_in, logged. cbn. now rewrite lookup_insert_eq. }
    split; [reflexivity|]. split; [exact Hrows1|].
    erewrite Remove_calm; [| exact Hc |unfold logged; cbn; apply lookup_insert_eq].
    split; [reflexivity|]. unfold rows_in, logged. cbn. rewrite lookup_insert_eq.
    rewrite filter_app, (without_fresh name rows0 Hn). cbn.
    destruct (decide _) as [Hd|_]; [now destruct Hd|].
    now rewrite app_nil_r.
  - intros Hin. apply Hex in Hin. rewrite Hin. cbn [fst snd]. split; [eauto|].
    unfold rows_in, logged. cbn. now rewrite Ht.
  - intros Hnd.
    destruct (existsb _ rows0) eqn:E; cbn [snd]; unfold rows_in, logged; cbn.
    + now rewrite Ht.
    + rewrite lookup_insert_eq. unfold names_of in *. rewrite map_app. cbn.
      apply NoDup_app. split; [exact Hnd|]. split; [|repeat constructor].
      * intros x Hx Hx'. apply list_elem_of_singleton in Hx'. subst x.
        apply list_elem_of_In, Hex in Hx. congruence.
      * intros H. now apply elem_of_nil in H.
  - reflexivity.
  - cbn [snd]. unfold rows_in, logged. cbn. rewrite lookup_insert_eq.
    apply without_one.
  - cbn [snd]. unfold rows_in, logged. cbn. rewrite lookup_insert_eq.
    unfold names_of. rewrite in_map_iff. intros (r & Hrn & Hin).
    apply list_elem_of_In, list_elem_of_filter in Hin. now destruct Hin.
Qed.

End env.

Section example.
Existing Instance example_platform.

Lemma X7_record_remove_round_trip_witness :
  rows_in (NewTracker "migrations")
    (snd (Tracker_Record (NewTracker "migrations") "20240102000000_b" 2
            FreshSQL.applied_world))
  = [ row "20240101000000_a" 1 0; row "20240102000000_b" 2 1 ].
Proof.
  assert (Hh : has_table (NewTracker "migrations") FreshSQL.applied_world).
  { vm_compute. eauto. }
  destruct (X7_record_remove_round_trip (NewTracker "migrations") "20240102000000_b" 2
              FreshSQL.applied_world eq_refl Hh) as [H _].
  destruct H as (_ & H & _); [|exact H].
  vm_compute. intros [H|[]]. discriminate.
Defined.

End example.

End TrackerRoundTrip.

(** ** What the operations leave as it is *)

Module Frame.
Import migrator Effects.

Section env.
Context {platform : Platform}.

(** [preserves P a]: [P] holds after [a] when it held before. *)
Definition preserves (P : World -> Prop) {A : Type} (a : Action A) : Prop :=
  forall w, P w -> P (snd (a w)).

Section Stable.
Variable P : World -> Prop.
Hypothesis P_log : forall ev, preserves P (log ev).
Hypothesis P_connection : preserves P connection.
Hypothesis P_put : forall name rows, preserves P (put_table name rows).
Hypothesis P_tick : preserves P tick.

Lemma preserves_ret {A : Type} (x : A) : preserves P (ret x).
Proof. intros w H. exact H. Qed.

Lemma preserves_fail {A : Type} (e : error) : preserves P (@fail A e).
Proof. intros w H. exact H. Qed.

Lemma preserves_bind {A B : Type} (a : Action A) (k : A -> Action B) :
  preserves P a -> (forall x, preserves P (k x)) -> preserves P (bind a k).
Proof.
  intros Ha Hk w H. unfold bind. specialize (Ha w H).
  destruct (a w) as [[x|e] w1]; simpl in *; [now apply Hk|exact Ha].
Qed.

Lemma preserves_on_error {A : Type} (a : Action A) (f : error -> error) :
  preserves P a -> preserves P (on_error a f).
Proof.
  intros Ha w H. unfold on_error. specialize (Ha w H).
  destruct (a w) as [[x|e] w1]; exact Ha.
Qed.

Lemma preserves_attempt {A : Type} (a : Action A) :
  preserves P a -> preserves P (attempt a).
Proof.
  intros Ha w H. unfold attempt. specialize (Ha w H). destruct (a w); exact Ha.
Qed.

Lemma preserves_discard {A : Type} (a : Action A) :
  preserves P a -> preserves P (discard a).
Proof. intros Ha w H. exact (Ha w H). Qed.

Lemma preserves_lift {A : Type} (r : result A) : preserves P (lift r).
Proof. destruct r; [apply preserves_ret|apply preserves_fail]. Qed.

Lemma preserves_get_tables : preserves P get_tables.
Proof. intros w H. exact H. Qed.

Lemma preserves_for_range {A : Type} (l : list A) (body : A -> Action unit) :
  (forall x, preserves P (body x)) -> preserves P (for_range l body).
Proof.
  intros Hb. induction l as [|x l IH]; simpl; [apply preserves_ret|].
  apply preserves_bind; [apply Hb|intros _; exact IH].
Qed.

Ltac frame_step :=
  lazymatch goal with
  | |- preserves _ (bind _ _) => apply preserves_bind; [|intros ?]
  | |- preserves _ (on_error _ _) => apply preserves_on_error
  | |- preserves _ (discard _) => apply preserves_discard
  | |- preserves _ (attempt _) => apply preserves_attempt
  | |- preserves _ (lift _) => apply preserves_lift
  | |- preserves _ (ret _) => apply preserves_ret
  | |- preserves _ (fail _) => apply preserves_fail
  | |- preserves _ (log _) => apply P_log
  | |- preserves _ connection => apply P_connection
  | |- preserves _ get_tables => apply preserves_get_tables
  | |- preserves _ (put_table _ _) => apply P_put
  | |- preserves _ tick => apply P_tick
  | |- preserves _ (for_range _ _) => apply preserves_for_range; intros ?
  | |- preserves _ (match ?x with _ => _ end) => destruct x
  | |- preserves _ (let _ := _ in _) => cbv zeta
  end.

Ltac frame := unfold statement, rows_of; repeat frame_step.

Lemma preserves_EnsureTable (t : Tracker) : preserves P (Tracker_EnsureTable t).
Proof. unfold Tracker_EnsureTable. frame. Qed.

Lemma preserves_GetApplied (t : Tracker) : preserves P (Tracker_GetApplied t).
Proof. unfold Tracker_GetApplied. frame. Qed.

Lemma preserves_GetByBatch (t : Tracker) (b : Z) : preserves P (Tracker_GetByBatch t b).
Proof. unfold Tracker_GetByBatch. frame. Qed.

Lemma preserves_GetLastBatchNumber (t : Tracker) :
  preserves P (Tracker_GetLastBatchNumber t).
Proof. unfold Tracker_GetLastBatchNumber. frame. Qed.

Lemma preserves_Record (t : Tracker) (name : string) (b : Z) :
  preserves P (Tracker_Record t name b).
Proof. unfold Tracker_Record. frame. Qed.

Lemma preserves_Remove (t : Tracker) (name : string) : preserves P (Tracker_Remove t name).
Proof. unfold Tracker_Remove. frame. Qed.

Lemma preserves_NextBatchNumber (b : BatchManager) :
  preserves P (BatchManager_NextBatchNumber b).
Proof.
  unfold BatchManager_NextBatchNumber. frame. apply preserves_GetLastBatchNumber.
Qed.

Lemma preserves_GetLastBatch (b : BatchManager) :
  preserves P (BatchManager_GetLastBatch b).
Proof.
  unfold BatchManager_GetLastBatch. frame;
    [apply preserves_GetLastBatchNumber|apply preserves_GetByBatch].
Qed.

Lemma preserves_GetLastNMigrations (b : BatchManager) (n : Z) :
  preserves P (BatchManager_GetLastNMigrations b n).
Proof.
  unfold BatchManager_GetLastNMigrations. frame. apply preserves_GetApplied.
Qed.

Lemma preserves_run_before (hooks : list HookFunc) (name direction : string) :
  forall i, preserves P (run_before_from i hooks name direction).
Proof.
  induction hooks as [|fn hooks IH]; intros i; cbn [run_before_from]; frame. apply IH.
Qed.

Lemma preserves_run_after (hooks : list AfterHookFunc) (name direction : string) :
  forall i, preserves P (run_after_from i hooks name direction).
Proof.
  induction hooks as [|fn hooks IH]; intros i; cbn [run_after_from]; frame. apply IH.
Qed.

Lemma preserves_Execute (r : Runner) (mig : Migration) (direction : string) :
  preserves P (Runner_Execute r mig direction).
Proof.
  unfold Runner_Execute, Runner_executeWithoutTransaction, Runner_ExecuteInTransaction,
    Runner_runMigration. frame.
Qed.

Lemma preserves_execute (m : Migrator) (mig : Migration) (direction : string) :
  preserves P (execute m mig direction).
Proof. unfold execute. frame. apply preserves_Execute. Qed.

Lemma preserves_Up (m : Migrator) : preserves P (Migrator_Up m).
Proof.
  unfold Migrator_Up, Up_step, HookManager_RunBefore, HookManager_RunAfter. frame;
    first [ apply preserves_EnsureTable | apply preserves_GetApplied
          | apply preserves_NextBatchNumber | apply preserves_run_before
          | apply preserves_execute | apply preserves_Record
          | apply preserves_run_after ].
Qed.

Lemma preserves_Rollback (m : Migrator) (steps : Z) :
  preserves P (Migrator_Rollback m steps).
Proof.
  unfold Migrator_Rollback, Rollback_step, HookManager_RunBefore, HookManager_RunAfter.
  frame;
    first [ apply preserves_EnsureTable | apply preserves_GetLastBatch
          | apply preserves_GetLastNMigrations | apply preserves_run_before
          | apply preserves_execute | apply preserves_Remove
          | apply preserves_run_after ].
Qed.

Lemma preserves_Reset (m : Migrator) : preserves P (Migrator_Reset m).
Proof.
  unfold Migrator_Reset, Reset_step, HookManager_RunAfter. frame;
    first [ apply preserves_EnsureTable | apply preserves_GetApplied
          | apply preserves_execute | apply preserves_Remove
          | apply preserves_run_after ].
Qed.

End Stable.

Lemma calm_log (ev : Event) : preserves calm (log ev).
Proof. intros w H. exact H. Qed.

Lemma calm_connection : preserves calm connection.
Proof. unfold calm. intros w H. unfold connection. now rewrite H. Qed.

Lemma calm_put (name : string) (rows : list MigrationRecord.t) :
  preserves calm (put_table name rows).
Proof. intros w H. exact H. Qed.

Lemma calm_tick : preserves calm tick.
Proof. intros w H. exact H. Qed.

Lemma table_log (t : Tracker) (ev : Event) : preserves (has_table t) (log ev).
Proof. intros w H. exact H. Qed.

Lemma table_connection (t : Tracker) : preserves (has_table t) connection.
Proof.
  intros w H. unfold connection. destruct (faults w) as [|[|] rest]; exact H.
Qed.

Lemma table_put (t : Tracker) (name : string) (rows : list MigrationRecord.t) :
  preserves (has_table t) (put_table name rows).
Proof.
  unfold has_table. intros w H. simpl.
  destruct (decide (name = tableName t)) as [->|Hne].
  - rewrite lookup_insert_eq. eauto.
  - now rewrite lookup_insert_ne.
Qed.

Lemma table_tick (t : Tracker) : preserves (has_table t) tick.
Proof. intros w H. exact H. Qed.

End env.

End Frame.

(** ** How the operations compose *)

Module Compose.
Import migrator Effects TrackerSpec StepSpec UpSpec RollbackSpec RollbackTarget Frame.

Section env.
Context {platform : Platform}.

Lemma Up_calm (m : Migrator) : preserves calm (Migrator_Up m).
Proof.
  apply preserves_Up;
    first [exact calm_log|exact calm_connection|exact calm_put|exact calm_tick].
Qed.

Lemma Reset_calm (m : Migrator) : preserves calm (Migrator_Reset m).
Proof.
  apply preserves_Reset;
    first [exact calm_log|exact calm_connection|exact calm_put|exact calm_tick].
Qed.

Lemma names_of_entries (t : Tracker) (w : World) :
  names_of (rows_in t w) = map fst (entries t w).
Proof. unfold names_of, entries. rewrite map_map. reflexivity. Qed.

Lemma filter_none {A : Type} (P : A -> Prop) `{forall x, Decision (P x)} (l : list A) :
  (forall x, In x l -> ~ P x) -> filter P l = [].
Proof.
  induction l as [|x l IH]; intros Hall; [reflexivity|].
  rewrite filter_cons. destruct (decide (P x)) as [Hp|_].
  - destruct (Hall x (or_introl eq_refl) Hp).
  - apply IH. intros y Hy. apply Hall. now right.
Qed.

Lemma filter_all {A : Type} (P : A -> Prop) `{forall x, Decision (P x)} (l : list A) :
  (forall x, In x l -> P x) -> filter P l = l.
Proof.
  induction l as [|x l IH]; intros Hall; [reflexivity|].
  rewrite filter_cons. destruct (decide (P x)) as [_|Hn].
  - rewrite IH; [reflexivity|]. intros y Hy. apply Hall. now right.
  - destruct Hn. apply Hall. now left.
Qed.

(** After an [Up] that recorded all that was pending, nothing is. *)
Lemma pending_after (m : Migrator) (w w1 : World) (b : Z) :
  entries (tracker m) w1 = entries (tracker m) w ++ recorded b (pending m w) ->
  pending m w1 = [].
Proof.
  intros Hent. unfold pending at 1. apply filter_none. intros reg Hreg Hnot.
  rewrite names_of_entries, Hent, map_app in Hnot.
  destruct (decide (Name reg ∈ names_of (rows_in (tracker m) w))) as [Hin|Hout].
  - apply Hnot. rewrite elem_of_app. left. now rewrite <- names_of_entries.
  - apply Hnot. rewrite elem_of_app. right. unfold recorded. rewrite map_map. simpl.
    apply list_elem_of_In, in_map. unfold pending.
    apply list_elem_of_In, list_elem_of_filter. split; [exact Hout|].
    now apply list_elem_of_In.
Qed.

(** X8.  [Up] twice.  When the connection holds and every pending
    migration goes through, [Up] leaves nothing pending, and a second [Up]
    right after it is a no-op: it returns no error, records nothing and
    runs no body. *)
Theorem X8_up_twice (m : Migrator) (w : World) :
  wf m -> calm w -> forallb (goes_up m) (pending m w) = true ->
  let t := tracker m in
  let w1 := snd (Migrator_Up m w) in
  let w2 := snd (Migrator_Up m w1) in
  fst (Migrator_Up m w) = Ok tt /\ pending m w1 = [] /\
  fst (Migrator_Up m w1) = Ok tt /\
  entries t w2 = entries t w1 /\ bodies w2 = bodies w1.
Proof.
  intros Hwf Hc Hall t w1 w2.
  pose proof (Up_spec m w Hwf) as H1. unfold wp, Up_post in H1. fold t w1 in H1.
  destruct H1 as [(k & k' & _ & _ & _ & Hent & _ & Hok & _) Hcalm].
  destruct (Hcalm Hc) as [Hgood _]. specialize (Hgood Hall).
  rewrite (Hok Hgood), firstn_all in Hent.
  assert (Hp : pending m w1 = []) by (eapply pending_after; exact Hent).
  pose proof (Up_spec m w1 Hwf) as H2. unfold wp, Up_post in H2. fold t w2 in H2.
  rewrite Hp in H2.
  destruct H2 as [(j & j' & Hj1 & Hj2 & Hj3 & Hent2 & Hbod2 & _) Hcalm2].
  simpl in Hj3. assert (j' = 0) by lia. assert (j = 0) by lia. subst j j'.
  simpl in Hent2, Hbod2. rewrite app_nil_r in Hent2, Hbod2.
  split; [exact Hgood|]. split; [exact Hp|]. split; [|auto].
  apply (Hcalm2 (Up_calm m w Hc)). reflexivity.
Qed.

End env.

Section example.
Existing Instance example_platform.

Lemma X8_up_twice_witness :
  fst (Migrator_Up UpContract.example_migrator
         (snd (Migrator_Up UpContract.example_migrator UpContract.empty_world))) = Ok tt /\
  bodies (snd (Migrator_Up UpContract.example_migrator
                 (snd (Migrator_Up UpContract.example_migrator UpContract.empty_world))))
  = bodies (snd (Migrator_Up UpContract.example_migrator UpContract.empty_world)).
Proof.
  destruct (X8_up_twice UpContract.example_migrator UpContract.empty_world
              UpContract.example_migrator_wf eq_refl eq_refl) as (_ & _ & H1 & _ & H2).
  split; [exact H1|exact H2].
Defined.

End example.

Section env.
Context {platform : Platform}.

Lemma max_batch_nonneg (rows : list MigrationRecord.t) :
  Forall (fun r => (0 < MigrationRecord.Batch r)%Z) rows -> (0 <= max_batch rows)%Z.
Proof.
  intros Hpos. destruct rows as [|r rows]; [simpl; lia|].
  rewrite List.Forall_forall in Hpos.
  pose proof (Hpos r (or_introl eq_refl)).
  pose proof (max_batch_ge (r :: rows) r (or_introl eq_refl)). lia.
Qed.

(** A migration that can be taken back: no before-hook objects to its
    [down] and its [Down] returns no error. *)
Definition reversible (m : Migrator) (p : registeredMigration Migration) : bool :=
  match before_error (beforeHooks (hooks m)) (Name p) "down", Down (Migration_ p) with
  | None, None => true
  | _, _ => false
  end.

Definition undone (ps : list (registeredMigration Migration))
  : list (Migration * string) :=
  map (fun p => (Migration_ p, "down"%string)) (rev ps).

Lemma leb_antisym (a b : string) :
  Str.leb a b = true -> Str.leb b a = true -> a = b.
Proof.
  rewrite !StrFacts.leb_true. intros [H1|H1] [H2|H2]; auto.
  destruct (StrFacts.lt_asym _ _ H1 H2).
Qed.

Lemma sorted_names_leb (ps : list (registeredMigration Migration)) :
  RegistryFacts.sorted ps ->
  StronglySorted (fun a b => Str.leb a b = true) (map Name ps).
Proof.
  induction 1 as [|p ps Hs IH Hall]; simpl; constructor; [exact IH|].
  rewrite List.Forall_forall in *. intros n Hn.
  apply in_map_iff in Hn. destruct Hn as (q & <- & Hq).
  apply StrFacts.leb_true. right. now apply Hall.
Qed.

Lemma ordered_names_leb (rows : list MigrationRecord.t) :
  StronglySorted (fun a b => Str.leb a b = true) (names_of (order_by_name rows)).
Proof.
  pose proof (order_by_name_sorted rows) as H. unfold names_of.
  induction H as [|r l Hs IH Hall]; simpl; constructor; [exact IH|].
  rewrite List.Forall_forall in *. intros n Hn.
  apply in_map_iff in Hn. destruct Hn as (q & <- & Hq). now apply Hall.
Qed.

(** The rows of registered migrations, put in order, are in the order of
    the registry. *)
Lemma ordered_names (rows : list MigrationRecord.t)
    (ps : list (registeredMigration Migration)) :
  RegistryFacts.sorted ps -> Permutation (names_of rows) (map Name ps) ->
  names_of (order_by_name rows) = map Name ps.
Proof.
  intros Hs Hp.
  apply (StronglySorted_unique_strong (fun a b => Str.leb a b = true)).
  - intros a b _ _. apply leb_antisym.
  - apply ordered_names_leb.
  - now apply sorted_names_leb.
  - rewrite <- Hp. unfold names_of. apply Permutation_map, order_by_name_perm.
Qed.

Lemma downs_of_names (m : Migrator) (recs : list MigrationRecord.t)
    (ps : list (registeredMigration Migration)) :
  RegistryFacts.sorted (migrations (registry m)) ->
  (forall p, In p ps -> In p (migrations (registry m))) ->
  names_of recs = map Name ps ->
  downs m recs = map (fun p => (Migration_ p, "down"%string)) ps /\
  forall rec, In rec recs -> exists p, In p ps /\ MigrationRecord.Name rec = Name p.
Proof.
  intros Hs. revert ps. induction recs as [|rec recs IH]; intros [|p ps] Hreg Hn;
    try discriminate; [split; [reflexivity|intros ? []]|].
  simpl in Hn. injection Hn as Hn1 Hn2.
  destruct (IH ps) as [IH1 IH2]; [intros q Hq; apply Hreg; now right|exact Hn2|].
  split.
  - rewrite downs_cons, IH1.
    rewrite (downs_registered m rec (Migration_ p)); [reflexivity|].
    rewrite Hn1. apply RegistryFacts.Get_found; [exact Hs|]. apply Hreg. now left.
  - intros r [<-|Hr]; [exists p; split; [now left|exact Hn1]|].
    destruct (IH2 r Hr) as (q & Hq & Hrq). exists q. split; [now right|exact Hrq].
Qed.

(** X9.  [Rollback(0)] after [Up].  When the connection holds, something
    is pending, every pending migration goes up and can be taken back, the
    batch numbers in the table are positive and the next one fits an
    [int], then [Up] followed by [Rollback(0)] leaves the tracking table
    with the names and batches it had: the rollback takes back exactly
    what this [Up] applied, running [Down] of the same migrations in the
    opposite order. *)
Theorem X9_rollback_undoes_up (m : Migrator) (w : World) :
  wf m -> calm w ->
  (- 2 ^ 63 <= max_batch (rows_in (tracker m) w) + 1 < 2 ^ 63)%Z ->
  Forall (fun r => (0 < MigrationRecord.Batch r)%Z) (rows_in (tracker m) w) ->
  pending m w <> [] ->
  forallb (goes_up m) (pending m w) = true ->
  forallb (reversible m) (pending m w) = true ->
  let t := tracker m in
  let w1 := snd (Migrator_Up m w) in
  let w2 := snd (Migrator_Rollback m 0 w1) in
  fst (Migrator_Up m w) = Ok tt /\
  fst (Migrator_Rollback m 0 w1) = Ok tt /\
  entries t w2 = entries t w /\
  bodies w2 = bodies w ++ ups (pending m w) ++ undone (pending m w).
Proof.
  intros Hwf Hc Hfit Hpos Hne Hup Hdown t w1 w2.
  pose proof Hwf as (_ & _ & Hsorted).
  set (pend := pending m w) in *.
  set (b := (max_batch (rows_in t w) + 1)%Z).
  (* the Up *)
  pose proof (Up_spec m w Hwf) as H1. unfold wp, Up_post in H1.
  rewrite (UpContract.int_wrap_fits _ Hfit) in H1. fold t w1 pend b in H1.
  destruct H1 as [(k & k' & Hk1 & Hk2 & Hk3 & Hent & Hbod & Hok & _) Hcalm].
  destruct (Hcalm Hc) as [Hgood _]. specialize (Hgood Hup). specialize (Hok Hgood).
  assert (k' = length pend) by lia. subst k k'. rewrite firstn_all in Hent, Hbod.
  (* the rows after it *)
  unfold entries in Hent. apply map_eq_app in Hent.
  destruct Hent as (old & new & Hrows1 & Hold & Hnew).
  assert (Holdb : forall r, In r old -> (MigrationRecord.Batch r < b)%Z).
  { intros r Hr. apply (in_map entry) in Hr. rewrite Hold in Hr.
    apply in_map_iff in Hr. destruct Hr as (r0 & Hr0 & Hin0).
    pose proof (max_batch_ge _ _ Hin0) as Hge.
    assert (MigrationRecord.Batch r = MigrationRecord.Batch r0)
      by (unfold entry in Hr0; congruence).
    unfold b. fold t. lia. }
  assert (Hnewb : forall r, In r new -> MigrationRecord.Batch r = b).
  { intros r Hr. apply (in_map entry) in Hr. rewrite Hnew in Hr.
    unfold recorded in Hr. apply in_map_iff in Hr. destruct Hr as (p & Hp & _).
    unfold entry in Hp. congruence. }
  assert (Hnewn : names_of new = map Name pend).
  { unfold names_of. transitivity (map fst (map entry new)).
    - now rewrite map_map.
    - rewrite Hnew. unfold recorded. now rewrite map_map. }
  assert (Hnew_ne : new <> []).
  { intros ->. simpl in Hnewn. destruct pend; [now apply Hne|discriminate]. }
  assert (Hbpos : (0 < b)%Z).
  { pose proof (max_batch_nonneg _ Hpos). unfold b, t. lia. }
  assert (Hmax : max_batch (rows_in t w1) = b).
  { destruct (max_batch_in (rows_in t w1)) as (r & Hr & Hrb).
    { rewrite Hrows1. destruct old; [exact Hnew_ne|discriminate]. }
    destruct new as [|n0 new'] eqn:En; [congruence|].
    assert (Hn0 : In n0 (rows_in t w1)).
    { rewrite Hrows1. apply in_or_app. right. now left. }
    pose proof (max_batch_ge _ _ Hn0) as Hge.
    rewrite (Hnewb n0 (or_introl eq_refl)) in Hge.
    rewrite Hrows1 in Hr. apply in_app_or in Hr. destruct Hr as [Hr|Hr].
    - specialize (Holdb r Hr). lia.
    - rewrite <- Hrb. now apply Hnewb. }
  assert (Hrecords : rollback_records 0 (rows_in t w1) = rev (order_by_name new)).
  { unfold rollback_records, last_batch. simpl. rewrite Hmax.
    destruct (Z.eqb_spec b 0) as [Hz|_]; [lia|]. f_equal. f_equal.
    rewrite Hrows1, filter_app.
    rewrite (filter_none _ old), (filter_all _ new); [reflexivity| |].
    - intros r Hr. now apply Hnewb.
    - intros r Hr Hrb. specialize (Holdb r Hr). lia. }
  assert (Hpend_reg : forall p, In p pend -> In p (migrations (registry m))).
  { intros p Hp. unfold pend, pending in Hp.
    apply list_elem_of_In, list_elem_of_filter in Hp. apply list_elem_of_In, Hp. }
  assert (Hpend_sorted : RegistryFacts.sorted pend).
  { unfold pend, pending. now apply sorted_filter. }
  assert (Hordered : names_of (order_by_name new) = map Name pend).
  { apply ordered_names; [exact Hpend_sorted|]. now rewrite Hnewn. }
  assert (Hrev : names_of (rev (order_by_name new)) = map Name (rev pend)).
  { unfold names_of. rewrite !map_rev. f_equal. exact Hordered. }
  destruct (downs_of_names m (rev (order_by_name new)) (rev pend) Hsorted)
    as [Hdowns Hnames]; [|exact Hrev|].
  { intros p Hp. apply Hpend_reg. now apply in_rev. }
  assert (Hrecnames : forall n, n ∈ names_of (rev (order_by_name new)) <->
                                In n (map Name pend)).
  { intros n. rewrite Hrev, map_rev, list_elem_of_In, <- in_rev. reflexivity. }
  (* the rollback *)
  pose proof (Rollback_spec m 0 w1 Hwf) as H2. unfold wp, Rollback_post in H2.
  cbv zeta in H2. fold t w2 in H2. rewrite Hrecords in H2.
  destruct H2 as [(j & j' & Hj1 & Hj2 & Hj3 & Hrows2 & Hbod2 & _ & Hok2 & _) Hcalm2].
  destruct (Hcalm2 (Up_calm m w Hc)) as [Hgood2 _].
  assert (Hall : forallb (goes_down m) (rev (order_by_name new)) = true).
  { apply forallb_forall. intros rec Hrec.
    destruct (Hnames rec Hrec) as (p & Hp & Hn). apply in_rev in Hp.
    unfold goes_down. rewrite Hn.
    rewrite (RegistryFacts.Get_found (registry m) p Hsorted (Hpend_reg p Hp)).
    rewrite forallb_forall in Hdown. specialize (Hdown p Hp).
    unfold reversible in Hdown. exact Hdown. }
  specialize (Hgood2 Hall). specialize (Hok2 Hgood2).
  assert (j' = length (rev (order_by_name new))) by lia. subst j j'.
  rewrite firstn_all in Hrows2, Hbod2.
  split; [exact Hgood|]. split; [exact Hgood2|]. split.
  - unfold entries. rewrite Hrows2, Hrows1, <- Hold. f_equal.
    unfold without. rewrite filter_app.
    rewrite (filter_all _ old), (filter_none _ new); [now rewrite app_nil_r| |].
    + intros r Hr Hnot. apply Hnot, Hrecnames. rewrite <- Hnewn.
      unfold names_of. now apply in_map.
    + intros r Hr Hin. apply Hrecnames in Hin.
      apply in_map_iff in Hin. destruct Hin as (p & Hp & Hpin).
      unfold pend, pending in Hpin.
      apply list_elem_of_In, list_elem_of_filter in Hpin. destruct Hpin as [Hnot _].
      apply Hnot. rewrite Hp. apply list_elem_of_In. fold t.
      assert (Hnames_old : names_of old = names_of (rows_in t w)).
      { unfold names_of.
        transitivity (map fst (map entry old)); [now rewrite map_map|].
        rewrite Hold. now rewrite map_map. }
      rewrite <- Hnames_old. unfold names_of. now apply in_map.
  - rewrite Hbod2, Hbod, <- app_assoc. f_equal. f_equal. exact Hdowns.
Qed.

End env.

Section example.
Existing Instance example_platform.

Lemma X9_rollback_undoes_up_witness :
  entries (tracker UpContract.example_migrator)
    (snd (Migrator_Rollback UpContract.example_migrator 0
            (snd (Migrator_Up UpContract.example_migrator UpContract.empty_world))))
  = [] /\
  length (bodies
            (snd (Migrator_Rollback UpContract.example_migrator 0
                    (snd (Migrator_Up UpContract.example_migrator
                            UpContract.empty_world))))) = 4.
Proof.
  assert (Hfit : (- 2 ^ 63 <=
                  max_batch (rows_in (tracker UpContract.example_migrator)
                                     UpContract.empty_world) + 1 < 2 ^ 63)%Z).
  { vm_compute. split; [discriminate|reflexivity]. }
  assert (Hpos : Forall (fun r => (0 < MigrationRecord.Batch r)%Z)
                        (rows_in (tracker UpContract.example_migrator)
                                 UpContract.empty_world)).
  { vm_compute. constructor. }
  assert (Hne : pending UpContract.example_migrator UpContract.empty_world <> []).
  { vm_compute. discriminate. }
  destruct (X9_rollback_undoes_up UpContract.example_migrator UpContract.empty_world
              UpContract.example_migrator_wf eq_refl Hfit Hpos Hne eq_refl eq_refl)
    as (_ & _ & H1 & H2).
  split; [exact H1|]. rewrite H2. reflexivity.
Defined.

End example.

Import ResetSpec FreshSQL.

Section env.
Context {platform : Platform}.

(** [Up] on a tracking table without rows: everything registered is
    pending, and the batch is 1. *)
Lemma Up_from_scratch (m : Migrator) (w : World) :
  wf m -> calm w -> rows_in (tracker m) w = [] ->
  forallb (goes_up m) (migrations (registry m)) = true ->
  fst (Migrator_Up m w) = Ok tt /\
  entries (tracker m) (snd (Migrator_Up m w)) = recorded 1 (migrations (registry m)) /\
  bodies (snd (Migrator_Up m w)) = bodies w ++ ups (migrations (registry m)).
Proof.
  intros Hwf Hc Hrows Hall.
  pose proof (Up_spec m w Hwf) as H. unfold wp, Up_post in H. cbv zeta in H.
  assert (Hp : pending m w = migrations (registry m)).
  { unfold pending. rewrite Hrows. apply filter_all. intros reg _ Hin.
    now apply elem_of_nil in Hin. }
  unfold entries in H at 2 4. rewrite Hp, Hrows in H. simpl in H.
  change (int_wrap 1) with 1%Z in H.
  destruct H as [(k & k' & Hk1 & Hk2 & Hk3 & Hent & Hbod & Hok & _) Hcalm].
  destruct (Hcalm Hc) as [Hgood _]. specialize (Hgood Hall). specialize (Hok Hgood).
  assert (k' = length (migrations (registry m))) by lia. subst k k'.
  rewrite firstn_all in Hent, Hbod. auto.
Qed.

(** X10.  [Refresh] is [Reset] and then [Up].  An error of [Reset] is
    returned wrapped in [refresh reset phase: ] and [Up] does not start;
    an error of [Up] is returned wrapped in [refresh up phase: ].  When
    the connection holds, every row's migration is registered, no [Down]
    and no [Up] fails and no before-hook objects, [Refresh] returns no
    error and the tracking table ends with one row for every registered
    migration, all of batch 1, whatever batches it had. *)
Theorem X10_refresh_rebuilds (m : Migrator) (w : World) :
  wf m ->
  let t := tracker m in
  let all := migrations (registry m) in
  let w1 := snd (Migrator_Reset m w) in
  (forall e, fst (Migrator_Reset m w) = Err e ->
     Migrator_Refresh m w = (Err (Wrap "refresh reset phase: " e), w1)) /\
  (fst (Migrator_Reset m w) = Ok tt ->
     forall e, fst (Migrator_Up m w1) = Err e ->
     Migrator_Refresh m w = (Err (Wrap "refresh up phase: " e), snd (Migrator_Up m w1))) /\
  (calm w ->
   forallb (comes_down m) (newest_first (rows_in t w)) = true ->
   forallb (goes_up m) all = true ->
   fst (Migrator_Refresh m w) = Ok tt /\
   entries t (snd (Migrator_Refresh m w)) = recorded 1 all /\
   bodies (snd (Migrator_Refresh m w))
   = bodies w ++ downs m (newest_first (rows_in t w)) ++ ups all).
Proof.
  intros Hwf t all w1.
  assert (Hunfold : Migrator_Refresh m w =
            match Migrator_Reset m w with
            | (Ok _, w1) => on_error (Migrator_Up m) (Wrap "refresh up phase: ") w1
            | (Err e, w1) => (Err (Wrap "refresh reset phase: " e), w1)
            end).
  { unfold Migrator_Refresh, bind, on_error at 1.
    destruct (Migrator_Reset m w) as [[[]|e] w']; reflexivity. }
  split; [|split].
  - intros e He. rewrite Hunfold. subst w1.
    destruct (Migrator_Reset m w) as [[[]|e'] w']; simpl in *; congruence.
  - intros Hok e He. rewrite Hunfold. subst w1.
    destruct (Migrator_Reset m w) as [[[]|e'] w']; simpl in *; [|discriminate].
    unfold on_error. destruct (Migrator_Up m w') as [[[]|e'] w'']; simpl in *; congruence.
  - intros Hc Hdown Hup.
    pose proof (Reset_spec m w Hwf) as HR. unfold wp in HR. fold w1 in HR.
    pose proof (proj2 HR Hc Hdown) as Hok.
    destruct (Reset_done m w _ _ HR Hok) as (Hrows1 & Hbod1 & _).
    destruct (Up_from_scratch m w1 Hwf (Reset_calm m w Hc) Hrows1 Hup)
      as (Hok2 & Hent2 & Hbod2).
    rewrite Hunfold. subst w1.
    destruct (Migrator_Reset m w) as [[[]|e'] w']; simpl in *; [|discriminate].
    unfold on_error. destruct (Migrator_Up m w') as [[[]|e'] w'']; simpl in *;
      [|discriminate].
    split; [reflexivity|]. split; [exact Hent2|].
    rewrite Hbod2, Hbod1, <- app_assoc. reflexivity.
Qed.

End env.

Section example.
Existing Instance example_platform.

Lemma X10_refresh_rebuilds_witness :
  entries (tracker RollbackContract.three_migrations)
    (snd (Migrator_Refresh RollbackContract.three_migrations
            RollbackContract.two_batches))
  = [ ("20240101000000_a"%string, 1%Z); ("20240102000000_b"%string, 1%Z);
      ("20240103000000_c"%string, 1%Z) ].
Proof.
  destruct (X10_refresh_rebuilds RollbackContract.three_migrations
              RollbackContract.two_batches RollbackContract.three_migrations_wf)
    as (_ & _ & H).
  destruct H as (_ & H & _); [reflexivity|reflexivity|reflexivity|].
  exact H.
Defined.

End example.

Section env.
Context {platform : Platform}.

Lemma db_Exec_calm (stmt : string) (w : World) :
  calm w ->
  db_Exec stmt w =
    (Ok tt,
     {| tables :=
          if String.eqb stmt "DROP SCHEMA public CASCADE; CREATE SCHEMA public"
          then filter (fun entry => in_public entry.1 = false) (tables w)
          else tables w;
        clock := clock w; faults := faults w;
        trace := trace w ++ [EvSQL stmt []] |}).
Proof.
  unfold calm. intros Hc. destruct w as [tb ck fl tr]. simpl in Hc. subst fl.
  unfold db_Exec, statement, bind, log, connection, drop_schema_public. cbn.
  destruct (String.eqb stmt _); reflexivity.
Qed.

(** X11.  [Fresh].  Without a grammar it returns an error and sends
    nothing to the database.  With the PostgreSQL grammar, the connection
    holding and every registered migration going through: when the
    tracking table is a table of schema [public], [Fresh] returns no
    error, runs [Up] of every registered migration in name order, and
    leaves a tracking table with one row for each of them, of batch 1,
    whatever rows it held.  When the tracking table is in another schema,
    as a qualified table name puts it, the drop leaves its rows, and
    [Fresh] goes on as [Up] does on them. *)
Theorem X11_fresh_starts_over (m : Migrator) (w : World) :
  wf m ->
  let t := tracker m in
  let all := migrations (registry m) in
  let dropped := snd (db_Exec "DROP SCHEMA public CASCADE; CREATE SCHEMA public" w) in
  (grammar m = None ->
   Migrator_Fresh m w
   = (Err (Opaque "fresh requires a grammar: configure with WithGrammar"), w)) /\
  (grammar m = Some grammars.PostgresGrammar -> calm w ->
   in_public (tableName t) = true ->
   forallb (goes_up m) all = true ->
   fst (Migrator_Fresh m w) = Ok tt /\
   entries t (snd (Migrator_Fresh m w)) = recorded 1 all /\
   bodies (snd (Migrator_Fresh m w)) = bodies w ++ ups all) /\
  (grammar m = Some grammars.PostgresGrammar -> calm w ->
   in_public (tableName t) = false ->
   rows_in t dropped = rows_in t w /\
   Migrator_Fresh m w = Migrator_Up m dropped).
Proof.
  intros Hwf t all dropped. split; [|split].
  - intros Hg. unfold Migrator_Fresh. rewrite Hg. reflexivity.
  - intros Hg Hc Hpub Hup. rewrite (Fresh_unfold m _ w Hg), (db_Exec_calm _ w Hc).
    cbn [schema.CompileDropAllTables grammars.PostgresGrammar
           grammars.PostgresGrammar_CompileDropAllTables].
    rewrite String.eqb_refl.
    match goal with |- context [Migrator_Up m ?w0] => set (w1 := w0) end.
    assert (Hc1 : calm w1) by exact Hc.
    assert (Hrows1 : rows_in (tracker m) w1 = []).
    { unfold rows_in, w1. cbn [tables].
      rewrite (proj2 (map_lookup_filter_None _ _ _)); [reflexivity|].
      right. intros rows _. simpl. fold t. congruence. }
    assert (Hb1 : bodies w1 = bodies w).
    { unfold bodies, w1. cbn [trace]. rewrite omap_app. simpl. now rewrite app_nil_r. }
    destruct (Up_from_scratch m w1 Hwf Hc1 Hrows1 Hup) as (H1 & H2 & H3).
    rewrite <- Hb1. auto.
  - intros Hg Hc Hpub. subst dropped.
    rewrite (Fresh_unfold m _ w Hg).
    cbn [schema.CompileDropAllTables grammars.PostgresGrammar].
    unfold grammars.PostgresGrammar_CompileDropAllTables.
    rewrite !(db_Exec_calm _ w Hc), String.eqb_refl. cbn [fst snd]. split; [|reflexivity].
    unfold rows_in. cbn [tables]. fold t.
    destruct (tables w !! tableName t) as [rows|] eqn:Hrows.
    + now rewrite (proj2 (map_lookup_filter_Some _ _ _ rows) (conj Hrows Hpub)).
    + now rewrite (proj2 (map_lookup_filter_None _ _ _) (or_introl Hrows)).
Qed.

End env.

Section example.
Existing Instance example_platform.

Lemma X11_fresh_starts_over_witness :
  let m := snd (Migrator_Register (New [WithGrammar (Some grammars.PostgresGrammar)])
                  "20240105000000_e" UpContract.noop) in
  entries (tracker m) (snd (Migrator_Fresh m RollbackContract.two_batches))
  = [ ("20240105000000_e"%string, 1%Z) ].
Proof.
  intros m.
  assert (Hwf : wf m) by apply UpContract.Register_wf, UpContract.New_wf.
  destruct (X11_fresh_starts_over m RollbackContract.two_batches Hwf) as (_ & H & _).
  destruct H as (_ & H & _); [reflexivity|reflexivity|reflexivity|reflexivity|].
  exact H.
Defined.

End example.

End Compose.

(** ** More of the seeder runner *)

Module RunAllSpec.
Import seeder ResolveFacts.

Section env.
Context {platform : Platform}.

(** X12.  [RunAll] on a graph without cycles in which every dependency
    is registered.  The seeders it goes through are the registered ones,
    each once and after all of its dependencies; it calls [Run] of the
    first of them up to the first that fails, and of all of them when
    none fails.  On an empty registry it calls nothing and returns no
    error. *)
Theorem X12_run_all_in_order (r : Runner) :
  let all := seeders (registry r) in
  acyclic all -> closed all ->
  exists order,
    NoDup order /\
    (forall x, x ∈ order <-> is_Some (all !! x)) /\
    topo all order /\
    (exists err k, Runner_RunAll r = Some (err, take k order)) /\
    ((forall x, x ∈ order -> runs_well all x) -> Runner_RunAll r = Some (None, order)).
Proof.
  intros all Hac Hcl.
  unfold Runner_RunAll, Runner_resolveAllOrder, Registry_GetAll. fold all.
  destruct (Nat.eqb_spec (size all) 0) as [Hz|_].
  { apply map_size_empty_iff in Hz. exists []. rewrite Hz.
    split; [constructor|]. split; [|split; [|split]].
    - intros x. rewrite lookup_empty, elem_of_nil. split; [tauto|].
      intros [s Hs]. discriminate.
    - intros i x Hx. discriminate.
    - exists None, 0. reflexivity.
    - reflexivity. }
  pose proof (resolve_all all) as Hall.
  destruct (visit_each _ _ start) as [st|e|]; [| |destruct Hall].
  2:{ destruct (Bad_acyclic all _ e Hall) as (y & _ & Hy & d & Hd & Hr).
      - intros x mid. now apply acyclic_walk.
      - apply sorted_names_elem in Hd.
        destruct (closed_reach all d y Hcl Hd Hr) as [s Hs]. congruence. }
  destruct Hall as (Hnd & Ht & Hin).
  exists (order st). split; [exact Hnd|]. split; [exact Hin|]. split; [exact Ht|].
  split.
  - destruct (run_each_prefix all (order st) []) as (k & _ & Hk & _).
    exists (fst (run_each all (order st) [])), k.
    destruct (run_each all (order st) []) as [err ran]. simpl in *. now subst.
  - intros Hwell. now rewrite (run_each_all all _ [] Hwell).
Qed.

End env.

Section example.
Existing Instance example_platform.

Lemma X12_run_all_in_order_witness :
  Runner_RunAll RunContract.chain
  = Some (None, ["A"%string; "B"%string; "C"%string; "D"%string]).
Proof.
  assert (Hst : exists st,
            visit_each (visit (seeders (registry RunContract.chain))
                              (depth_bound (seeders (registry RunContract.chain))))
                       (sorted_names (seeders (registry RunContract.chain))) start
            = Done st) by (eexists; vm_compute; reflexivity).
  destruct Hst as [st Hst].
  assert (Hac : acyclic (seeders (registry RunContract.chain)))
    by (eapply resolved_acyclic; exact Hst).
  assert (Hcl : closed (seeders (registry RunContract.chain))).
  { intros x y Hxy. pose proof (resolve_all (seeders (registry RunContract.chain))) as H.
    rewrite Hst in H. destruct H as (_ & Ht & Hin).
    pose proof (edge_registered _ x y Hxy) as Hx. apply Hin in Hx.
    apply Hin. eapply topo_closed; [exact Ht|exact Hx|].
    eapply rtc_l; [exact Hxy|constructor]. }
  destruct (X12_run_all_in_order RunContract.chain Hac Hcl)
    as (order & _ & _ & _ & _ & _).
  vm_compute. reflexivity.
Defined.

End example.

Section env.
Context {platform : Platform}.

(** X13.  The resolution always ends: whatever the graph, cycles
    included, the recursion of [visit] is never deeper than the number of
    registered seeders plus one, so [Run] and [RunAll] return. *)
Theorem X13_resolution_terminates (r : Runner) (name : string) :
  Runner_resolveOrder r name <> Exhausted /\
  Runner_resolveAllOrder r (Registry_GetAll (registry r)) <> Exhausted /\
  Runner_Run r name <> None /\ Runner_RunAll r <> None.
Proof.
  pose proof (resolve_one (seeders (registry r)) name) as Hone.
  pose proof (resolve_all (seeders (registry r))) as Hall.
  unfold Runner_Run, Runner_RunAll, Runner_resolveOrder, Runner_resolveAllOrder,
    Registry_GetAll, Registry_Get.
  split; [|split; [|split]].
  - destruct (visit _ _ name start); [discriminate|discriminate|destruct Hone].
  - destruct (visit_each _ _ start); [discriminate|discriminate|destruct Hall].
  - destruct (seeders (registry r) !! name); [|discriminate].
    destruct (visit _ _ name start); [discriminate|discriminate|destruct Hone].
  - destruct (size (seeders (registry r)) =? 0); [discriminate|].
    destruct (visit_each _ _ start); [discriminate|discriminate|destruct Hall].
Qed.

Definition seeder_error (name : string) (err : error) : error :=
  Wrap (Str.join EmptyString ["seeder "; Str.Quote name; ": "]) err.

Lemma run_each_stop (all : gmap string Seeder) (done rest : list string) (x : string)
    (s : Seeder) (err : error) :
  (forall d, d ∈ done -> runs_well all d) -> all !! x = Some s -> Run s = Some err ->
  forall ran,
    run_each all (done ++ x :: rest) ran = (Some (seeder_error x err), ran ++ done ++ [x]).
Proof.
  intros Hdone Hx Herr. induction done as [|d done IH]; intros ran; simpl.
  - now rewrite Hx, Herr.
  - destruct (Hdone d) as (sd & -> & ->); [apply elem_of_cons; now left|].
    rewrite IH, <- app_assoc; [reflexivity|].
    intros y Hy. apply Hdone. apply elem_of_cons. now right.
Qed.

(** X14.  The first seeder that fails stops the run.  When the order
    [Run name] resolves is [done ++ x :: rest], the seeders of [done]
    return no error and [x] returns one, [Run name] has called [done] and
    [x] and no seeder of [rest], and it returns the error of [x] wrapped
    in the name of [x], the cause still in the chain.  The same holds of
    [RunAll]. *)
Theorem X14_failing_seeder_stops (r : Runner) (name : string) (st : resolver)
    (done rest : list string) (x : string) (s : Seeder) (err : error) :
  let all := seeders (registry r) in
  order st = done ++ x :: rest ->
  (forall d, d ∈ done -> runs_well all d) -> all !! x = Some s -> Run s = Some err ->
  (is_Some (all !! name) -> Runner_resolveOrder r name = Done st ->
   Runner_Run r name = Some (Some (seeder_error x err), done ++ [x])) /\
  (Runner_resolveAllOrder r all = Done st ->
   Runner_RunAll r = Some (Some (seeder_error x err), done ++ [x])) /\
  (forall c, errors_Is (seeder_error x err) c = errors_Is err c).
Proof.
  intros all Horder Hdone Hx Herr. split; [|split].
  - intros [sn Hsn] Hres. unfold Runner_Run, Registry_Get. fold all.
    rewrite Hsn, Hres. unfold Registry_GetAll. fold all.
    now rewrite Horder, (run_each_stop all done rest x s err).
  - intros Hres. unfold Runner_RunAll, Registry_GetAll. fold all.
    destruct (Nat.eqb_spec (size all) 0) as [Hz|_].
    { apply map_size_empty_iff in Hz. rewrite Hz, lookup_empty in Hx. discriminate. }
    rewrite Hres. now rewrite Horder, (run_each_stop all done rest x s err).
  - reflexivity.
Qed.

Definition broken : Seeder := {| Run := Some (Opaque "disk full"); DependsOn := None |}.

Definition second_breaks : Runner :=
  NewRunner {| seeders := {[ "a"%string := RunContract.plain None;
                             "b"%string := broken;
                             "c"%string := RunContract.plain None ]} |}.

End env.

Section example.
Existing Instance example_platform.

Lemma X14_failing_seeder_stops_witness :
  Runner_RunAll second_breaks
  = Some (Some (seeder_error "b" (Opaque "disk full")), ["a"%string; "b"%string]).
Proof.
  assert (Hst : exists st,
            Runner_resolveAllOrder second_breaks (seeders (registry second_breaks))
            = Done st /\ order st = ["a"; "b"; "c"]%string)
    by (eexists; split; vm_compute; reflexivity).
  destruct Hst as (st & Hres & Horder).
  destruct (X14_failing_seeder_stops second_breaks "a" st ["a"%string] ["c"%string]
              "b" broken (Opaque "disk full") Horder) as (_ & H & _).
  - intros d Hd. apply list_elem_of_singleton in Hd. subst d.
    eexists. split; [vm_compute; reflexivity|reflexivity].
  - vm_compute. reflexivity.
  - reflexivity.
  - exact (H Hres).
Defined.

End example.

Section env.
Context {platform : Platform}.

(** X15.  The seeder asked for comes last.  When [Run name] resolves an
    order for a registered name, [name] is the last of it, so its [Run]
    is called after that of every seeder it depends on. *)
Theorem X15_requested_runs_last (r : Runner) (name : string) (st : resolver) :
  Runner_resolveOrder r name = Done st ->
  exists before, order st = before ++ [name] /\
                 forall x, x ∈ before -> reach (seeders (registry r)) name x.
Proof.
  intros H. pose proof (resolve_one (seeders (registry r)) name) as Hone.
  unfold Runner_resolveOrder, Registry_GetAll in H. rewrite H in Hone.
  destruct Hone as (_ & _ & Hin).
  unfold depth_bound in H. cbn [visit] in H.
  change (flag (visited start) name) with (flag ∅ name) in H.
  change (flag (inProgress start) name) with (flag ∅ name) in H.
  unfold flag in H. rewrite lookup_empty in H. cbv zeta in H.
  destruct (seeders (registry r) !! name) as [s|]; [|discriminate].
  match type of H with
  | match ?after with _ => _ end = _ => destruct after as [st2|e|]; try discriminate
  end.
  injection H as <-. exists (order st2). split; [reflexivity|].
  intros x Hx. apply Hin. simpl. rewrite elem_of_app. now left.
Qed.

End env.

Section example.
Existing Instance example_platform.

Lemma X15_requested_runs_last_witness :
  exists st, Runner_resolveOrder RunContract.chain "C" = Done st /\
             order st = ["A"; "B"]%string ++ ["C"%string].
Proof.
  assert (Hst : exists st, Runner_resolveOrder RunContract.chain "C" = Done st)
    by (eexists; vm_compute; reflexivity).
  destruct Hst as [st Hst].
  destruct (X15_requested_runs_last RunContract.chain "C" st Hst) as (before & Heq & _).
  exists st. split; [exact Hst|].
  assert (Ho : order st = ["A"; "B"; "C"]%string).
  { vm_compute in Hst. injection Hst as <-. reflexivity. }
  exact Ho.
Defined.

End example.

End RunAllSpec.

(** ** The seeder registry *)

Module SeederRegistry.
Import seeder.




Section env.
Context {platform : Platform}.





(** The registry after a sequence of [Register] calls. *)
Definition after_calls (calls : list (string * Seeder)) : Registry :=
  fold_left (fun r c => snd (Registry_Register r (fst c) (snd c))) calls NewRegistry.





End env.

End SeederRegistry.

(** ** Default values as SQL literals *)

Module DefaultLiteral.
Import schema statements.

(** Reading a string literal of standard SQL: the text between two
    apostrophes, in which a doubled apostrophe stands for one.  [None]
    when the text is not one whole literal. *)
Fixpoint literal_body (s : string) : option string :=
  match s with
  | EmptyString => None
  | String c s' =>
      if Ascii.eqb c apostrophe then
        match s' with
        | EmptyString => Some EmptyString
        | String c' s'' =>
            if Ascii.eqb c' apostrophe
            then option_map (String apostrophe) (literal_body s'')
            else None
        end
      else option_map (String c) (literal_body s')
  end.

Definition read_literal (s : string) : option string :=
  match s with
  | String c s' => if Ascii.eqb c apostrophe then literal_body s' else None
  | EmptyString => None
  end.

Lemma literal_body_pair (s : string) :
  literal_body (String apostrophe (String apostrophe s))
  = option_map (String apostrophe) (literal_body s).
Proof. reflexivity. Qed.

Lemma literal_body_plain (c : ascii) (s : string) :
  c <> apostrophe ->
  literal_body (String c s) = option_map (String c) (literal_body s).
Proof.
  intros Hc. apply Ascii.eqb_neq in Hc. cbn [literal_body]. now rewrite Hc.
Qed.

Lemma literal_body_doubled (v : string) :
  literal_body (String.append (double_apostrophes v) squote) = Some v.
Proof.
  induction v as [|c v IH]; [reflexivity|].
  cbn [double_apostrophes]. destruct (Ascii.eqb_spec c apostrophe) as [->|Hc].
  - change (literal_body (String apostrophe (String apostrophe
              (String.append (double_apostrophes v) squote))) = Some (String apostrophe v)).
    now rewrite literal_body_pair, IH.
  - change (literal_body (String c (String.append (double_apostrophes v) squote))
            = Some (String c v)).
    now rewrite literal_body_plain, IH.
Qed.

(** X17.  A string default is written as one SQL string literal that
    reads back as the string: whatever bytes the value holds, apostrophes
    included, the text [formatDefault] returns is a single literal of
    standard SQL, and its value is the string given.  So two different
    strings never give the same text; and a boolean is written [TRUE] or
    [FALSE], which is no string literal. *)
Theorem X17_string_default_reads_back (v : string) :
  read_literal (formatDefault (DefaultString v)) = Some v /\
  (forall v', formatDefault (DefaultString v) = formatDefault (DefaultString v') ->
              v = v') /\
  (forall b, read_literal (formatDefault (DefaultBool b)) = None).
Proof.
  assert (Hread : forall u, read_literal (formatDefault (DefaultString u)) = Some u).
  { intros u. apply literal_body_doubled. }
  split; [apply Hread|]. split.
  - intros v' Heq. pose proof (Hread v) as H1. rewrite Heq, Hread in H1. congruence.
  - intros [|]; reflexivity.
Qed.

End DefaultLiteral.

(** ** CREATE TABLE and ALTER TABLE *)

Module CompileSpec.
Import schema blueprint grammars statements builder.
Import ColumnTypes.

Section env.
Context {platform : Platform}.

(** The column's type is one of the twelve declared. *)
Definition known (col : ColumnDefinition) : bool :=
  (0 <=? Type_ col)%Z && (Type_ col <=? 11)%Z.

Definition builder_grammar (d : dialect) : builder.Grammar :=
  match d with
  | PostgreSQL => builder.PostgresGrammar
  | MySQL => builder.MySQLGrammar
  | SQLite => builder.SQLiteGrammar
  end.

Definition compileColumnDef_of (d : dialect) : ColumnDefinition -> result string :=
  match d with
  | PostgreSQL => PostgresGrammar_compileColumnDef
  | MySQL => MySQLGrammar_compileColumnDef
  | SQLite => SQLiteGrammar_compileColumnDef
  end.

Definition quote_of (d : dialect) : string -> string :=
  match d with
  | MySQL => mysqlQuote
  | _ => quote
  end.

End env.

Ltac by_type col :=
  destruct (Type_ col) as [|p|p]; try discriminate; try (eexists; reflexivity);
  try reflexivity;
  do 4 (try destruct p as [p|p|]; try discriminate; try (eexists; reflexivity);
        try reflexivity).

Section env.
Context {platform : Platform}.

Lemma columnDef_known (d : dialect) (col : ColumnDefinition) :
  known col = true -> exists colSQL, compileColumnDef_of d col = Ok colSQL.
Proof.
  unfold known. intros H.
  destruct d; simpl;
    unfold PostgresGrammar_compileColumnDef, MySQLGrammar_compileColumnDef,
      SQLiteGrammar_compileColumnDef, PostgresGrammar_CompileColumnType,
      MySQLGrammar_CompileColumnType, SQLiteGrammar_CompileColumnType;
    destruct (SQLiteGrammar_isInlineAutoIncrementPK col);
    destruct (IsAutoIncrement col), (IsPrimary col); simpl;
    by_type col.
Qed.

Lemma columnDef_unknown (d : dialect) (col : ColumnDefinition) :
  known col = false -> compileColumnDef_of d col = Err (unsupported col).
Proof.
  unfold known. intros H.
  destruct d; simpl;
    unfold PostgresGrammar_compileColumnDef, MySQLGrammar_compileColumnDef,
      SQLiteGrammar_compileColumnDef, PostgresGrammar_CompileColumnType,
      MySQLGrammar_CompileColumnType, SQLiteGrammar_CompileColumnType;
    by_type col.
Qed.

Lemma compile_columns_known (d : dialect) (line : string -> string)
    (columns : list ColumnDefinition) :
  forallb known columns = true ->
  exists parts,
    length parts = length columns /\
    forall out, compile_columns (compileColumnDef_of d) line columns out
                = Ok (out ++ map line parts).
Proof.
  induction columns as [|col columns IH]; simpl; intros H.
  - exists []. split; [reflexivity|]. intros out. now rewrite app_nil_r.
  - apply andb_true_iff in H. destruct H as [Hcol Hrest].
    destruct (columnDef_known d col Hcol) as [colSQL Hc].
    destruct (IH Hrest) as (parts & Hlen & Hparts).
    exists (colSQL :: parts). split; [simpl; now rewrite Hlen|].
    intros out. rewrite Hc, Hparts, <- app_assoc. reflexivity.
Qed.

Lemma compile_columns_unknown (d : dialect) (line : string -> string)
    (good rest : list ColumnDefinition) (bad : ColumnDefinition) :
  forallb known good = true -> known bad = false ->
  forall out, compile_columns (compileColumnDef_of d) line (good ++ bad :: rest) out
              = Err (unsupported bad).
Proof.
  intros Hgood Hbad. induction good as [|col good IH]; simpl; intros out.
  - now rewrite (columnDef_unknown d bad Hbad).
  - simpl in Hgood. apply andb_true_iff in Hgood. destruct Hgood as [Hcol Hgood].
    destruct (columnDef_known d col Hcol) as [colSQL ->]. now apply IH.
Qed.

(** Every list of columns is all of known type, or has a first column
    that is not. *)
Lemma first_unknown (columns : list ColumnDefinition) :
  forallb known columns = true \/
  exists good bad rest,
    columns = good ++ bad :: rest /\ forallb known good = true /\ known bad = false.
Proof.
  induction columns as [|col columns IH]; [now left|].
  destruct (known col) eqn:Hcol.
  - destruct IH as [Hall|(good & bad & rest & -> & Hgood & Hbad)].
    + left. simpl. now rewrite Hcol.
    + right. exists (col :: good), bad, rest. simpl. now rewrite Hcol.
  - right. now exists [], col, columns.
Qed.

Lemma primary_key_length {A : Type} (f : A -> string) (p : A -> bool) (l : list A) :
  length (primary_key (map f (List.filter p l))) = if existsb p l then 1 else 0.
Proof.
  unfold primary_key.
  induction l as [|x l IH]; simpl; [reflexivity|].
  destruct (p x); simpl; [reflexivity|exact IH].
Qed.

Lemma append_empty (s : string) : String.append s EmptyString = s.
Proof. induction s as [|c s IH]; simpl; congruence. Qed.

Lemma trailing_indexes (bp : Blueprint) (idxs : list IndexDefinition) (sql : string) :
  exists tail,
    fold_left (trailing_index bp) idxs sql = String.append sql tail /\
    (idxs = [] -> tail = EmptyString).
Proof.
  revert sql. induction idxs as [|idx idxs IH]; intros sql; simpl.
  - exists EmptyString. split; [|reflexivity]. now rewrite append_empty.
  - destruct (IH (trailing_index bp sql idx)) as (tail & -> & _).
    unfold trailing_index. rewrite ColumnTypes.append_assoc.
    eexists. split; [reflexivity|discriminate].
Qed.

(** The parts between the parentheses of [CREATE TABLE], after the
    columns: the key, the indexes written as constraints, the foreign
    keys. *)
Definition is_key (d : dialect) (col : ColumnDefinition) : bool :=
  match d with
  | SQLite => IsPrimary col && negb (SQLiteGrammar_isInlineAutoIncrementPK col)
  | _ => IsPrimary col
  end.

Definition in_table (d : dialect) (idx : IndexDefinition) : bool :=
  match d with
  | MySQL => true
  | _ => Unique idx
  end.

Definition parts_count (d : dialect) (bp : Blueprint) : nat :=
  length (columns bp) + (if existsb (is_key d) (columns bp) then 1 else 0)
  + length (List.filter (in_table d) (indexes bp)) + length (foreignKeys bp).

Definition succeeds {A : Type} (r : result A) : bool :=
  match r with Ok _ => true | Err _ => false end.

Lemma filter_true {A : Type} (l : list A) : List.filter (fun _ => true) l = l.
Proof. induction l as [|x l IH]; simpl; congruence. Qed.

Lemma create_unknown (d : dialect) (bp : Blueprint)
    (good rest : list ColumnDefinition) (bad : ColumnDefinition) :
  columns bp = good ++ bad :: rest -> forallb known good = true -> known bad = false ->
  CompileCreate (builder_grammar d) bp = Err (unsupported bad).
Proof.
  intros Hcols Hgood Hbad.
  destruct d; simpl;
    unfold PostgresGrammar_CompileCreate, MySQLGrammar_CompileCreate,
      SQLiteGrammar_CompileCreate;
    rewrite Hcols; rewrite length_app; simpl length;
    (replace (length good + S (length rest) =? 0) with false
       by (symmetry; apply Nat.eqb_neq; lia)).
  - now rewrite (compile_columns_unknown PostgreSQL id good rest bad).
  - now rewrite (compile_columns_unknown MySQL id good rest bad).
  - now rewrite (compile_columns_unknown SQLite id good rest bad).
Qed.

Lemma create_known (d : dialect) (bp : Blueprint) :
  columns bp <> [] -> forallb known (columns bp) = true ->
  exists parts tail,
    CompileCreate (builder_grammar d) bp
    = Ok (String.append (create_table (quote_of d) bp parts) tail) /\
    length parts = parts_count d bp /\
    (d = MySQL \/ List.filter (fun idx => negb (Unique idx)) (indexes bp) = [] ->
     tail = EmptyString).
Proof.
  intros Hne Hall.
  assert (Hlen : (length (columns bp) =? 0) = false).
  { apply Nat.eqb_neq. destruct (columns bp); [congruence|simpl; lia]. }
  destruct (compile_columns_known d id (columns bp) Hall) as (parts & Hparts & Hrun).
  specialize (Hrun []). rewrite app_nil_l, map_id in Hrun.
  unfold parts_count.
  destruct d; simpl;
    unfold PostgresGrammar_CompileCreate, MySQLGrammar_CompileCreate,
      SQLiteGrammar_CompileCreate;
    rewrite Hlen; simpl in Hrun; rewrite Hrun.
  - destruct (trailing_indexes bp
                (List.filter (fun idx => negb (Unique idx)) (indexes bp))
                (create_table quote bp
                   (((parts ++ primary_key
                        (map (fun col => quote (Name col))
                             (List.filter IsPrimary (columns bp))))
                     ++ map unique_constraint (List.filter Unique (indexes bp)))
                    ++ map PostgresGrammar_compileForeignKey (foreignKeys bp))))
      as (tail & Htail & Hnil).
    eexists _, tail. split; [now rewrite Htail|]. split.
    + rewrite !length_app, !length_map, primary_key_length, Hparts. reflexivity.
    + intros [Hd|Hno]; [discriminate|auto].
  - eexists _, EmptyString. split; [|split].
    + now rewrite append_empty.
    + rewrite !length_app, !length_map, primary_key_length, Hparts, filter_true.
      reflexivity.
    + reflexivity.
  - destruct (trailing_indexes bp
                (List.filter (fun idx => negb (Unique idx)) (indexes bp))
                (create_table quote bp
                   (((parts ++ primary_key
                        (map (fun col => quote (Name col))
                             (List.filter
                                (fun col => IsPrimary col
                                   && negb (SQLiteGrammar_isInlineAutoIncrementPK col))
                                (columns bp))))
                     ++ map unique_constraint (List.filter Unique (indexes bp)))
                    ++ map SQLiteGrammar_compileForeignKey (foreignKeys bp))))
      as (tail & Htail & Hnil).
    eexists _, tail. split; [now rewrite Htail|]. split.
    + rewrite !length_app, !length_map, primary_key_length, Hparts. reflexivity.
    + intros [Hd|Hno]; [discriminate|auto].
Qed.

Lemma create_empty (d : dialect) (bp : Blueprint) :
  columns bp = [] -> CompileCreate (builder_grammar d) bp = Err (no_columns bp).
Proof.
  intros Hnil.
  destruct d; simpl;
    unfold PostgresGrammar_CompileCreate, MySQLGrammar_CompileCreate,
      SQLiteGrammar_CompileCreate; now rewrite Hnil.
Qed.

Lemma create_succeeds (d : dialect) (bp : Blueprint) :
  succeeds (CompileCreate (builder_grammar d) bp)
  = negb (length (columns bp) =? 0) && forallb known (columns bp).
Proof.
  destruct (columns bp) as [|col cols] eqn:Hcols.
  - now rewrite create_empty.
  - rewrite <- Hcols.
    replace (length (columns bp) =? 0) with false by (rewrite Hcols; reflexivity).
    simpl negb. rewrite andb_true_l.
    destruct (first_unknown (columns bp))
      as [Hall|(good & bad & rest & Hsplit & Hg & Hb)].
    + rewrite Hall. destruct (create_known d bp) as (parts & tail & -> & _);
        [congruence|exact Hall|reflexivity].
    + rewrite (create_unknown d bp good rest bad Hsplit Hg Hb). simpl. symmetry.
      rewrite Hsplit, forallb_app. simpl. rewrite Hb. now rewrite andb_false_r.
Qed.

(** X18.  [CompileCreate] of the three grammars.  A blueprint without
    columns is refused with [table "<name>": no columns defined].  A
    blueprint whose columns are not all of a known type is refused with
    the error of the first column that is not, which is
    [ErrUnsupportedType].  Any other blueprint compiles, and the same
    blueprints compile in the three dialects; the text is
    [CREATE TABLE <quoted name> (<parts>)<tail>] with one part per
    column, one for the primary key when a column is primary (in SQLite:
    primary and not an integer auto-increment key, which is declared in
    its column), one per unique index (in MySQL per index) and one per
    foreign key; the tail is empty in MySQL and when no index is
    non-unique. *)
Theorem X18_create_table (d : dialect) (bp : Blueprint) :
  let create := CompileCreate (builder_grammar d) in
  (columns bp = [] ->
   create bp = Err (no_columns bp) /\
   error_msg (no_columns bp)
   = Str.join EmptyString ["table "; Str.Quote (table bp); ": no columns defined"]) /\
  (forall good bad rest,
     columns bp = good ++ bad :: rest -> forallb known good = true ->
     known bad = false ->
     create bp = Err (unsupported bad) /\
     errors_Is (unsupported bad) ErrUnsupportedType = true) /\
  (columns bp <> [] -> forallb known (columns bp) = true ->
   exists parts tail,
     create bp = Ok (String.append (create_table (quote_of d) bp parts) tail) /\
     length parts = parts_count d bp /\
     (d = MySQL \/ List.filter (fun idx => negb (Unique idx)) (indexes bp) = [] ->
      tail = EmptyString)) /\
  succeeds (create bp)
  = negb (length (columns bp) =? 0) && forallb known (columns bp).
Proof.
  intros create. split; [|split; [|split]].
  - intros Hnil. split; [now apply create_empty|reflexivity].
  - intros good bad rest Hcols Hg Hb.
    split; [now apply (create_unknown d bp good rest bad)|reflexivity].
  - apply create_known.
  - apply create_succeeds.
Qed.

Definition command_statement_of (d : dialect) : string -> Command -> list string :=
  match d with
  | MySQL => mysql_command_statement
  | _ => command_statement
  end.

(** The command's type is one of the four declared. *)
Definition known_command (cmd : Command) : bool :=
  (0 <=? command_Type cmd)%Z && (command_Type cmd <=? 3)%Z.

Lemma compile_columns_defs (d : dialect) (line : string -> string)
    (columns : list ColumnDefinition) :
  forallb known columns = true ->
  exists defs,
    Forall2 (fun col def => compileColumnDef_of d col = Ok def) columns defs /\
    forall out, compile_columns (compileColumnDef_of d) line columns out
                = Ok (out ++ map line defs).
Proof.
  induction columns as [|col columns IH]; simpl; intros H.
  - exists []. split; [constructor|]. intros out. now rewrite app_nil_r.
  - apply andb_true_iff in H. destruct H as [Hcol Hrest].
    destruct (columnDef_known d col Hcol) as [colSQL Hc].
    destruct (IH Hrest) as (defs & Hdefs & Hrun).
    exists (colSQL :: defs). split; [now constructor|].
    intros out. rewrite Hc, Hrun, <- app_assoc. reflexivity.
Qed.

Lemma command_statements_length (d : dialect) (table : string) (cmds : list Command) :
  length (flat_map (command_statement_of d table) cmds)
  = length (List.filter known_command cmds).
Proof.
  induction cmds as [|cmd cmds IH]; simpl; [reflexivity|].
  rewrite length_app, IH. unfold known_command.
  destruct d; simpl; unfold command_statement, mysql_command_statement;
    destruct (command_Type cmd) as [|p|p]; try reflexivity;
    do 2 (try destruct p as [p|p|]; try reflexivity).
Qed.

Lemma alter_unknown (d : dialect) (bp : Blueprint)
    (good rest : list ColumnDefinition) (bad : ColumnDefinition) :
  columns bp = good ++ bad :: rest -> forallb known good = true -> known bad = false ->
  CompileAlter (builder_grammar d) bp = Err (unsupported bad).
Proof.
  intros Hcols Hgood Hbad.
  destruct d; simpl;
    unfold PostgresGrammar_CompileAlter, MySQLGrammar_CompileAlter,
      SQLiteGrammar_CompileAlter; rewrite Hcols.
  - now rewrite (compile_columns_unknown PostgreSQL _ good rest bad).
  - now rewrite (compile_columns_unknown MySQL _ good rest bad).
  - now rewrite (compile_columns_unknown SQLite _ good rest bad).
Qed.

Lemma alter_known (d : dialect) (bp : Blueprint) :
  let table := quote_of d (blueprint.table bp) in
  forallb known (columns bp) = true ->
  exists defs,
    Forall2 (fun col def => compileColumnDef_of d col = Ok def) (columns bp) defs /\
    CompileAlter (builder_grammar d) bp
    = Ok (map (add_column table) defs
          ++ flat_map (command_statement_of d table) (commands bp)
          ++ map (create_index (quote_of d) table) (indexes bp)
          ++ map (fun fk => add_foreign_key table (compileForeignKey (quote_of d) fk))
                 (foreignKeys bp)).
Proof.
  intros table Hall.
  destruct (compile_columns_defs d (add_column table) (columns bp) Hall)
    as (defs & Hdefs & Hrun).
  exists defs. split; [exact Hdefs|].
  specialize (Hrun []). rewrite app_nil_l in Hrun.
  subst table.
  destruct d; simpl;
    unfold PostgresGrammar_CompileAlter, MySQLGrammar_CompileAlter,
      SQLiteGrammar_CompileAlter;
    simpl in Hrun; rewrite Hrun; now rewrite <- !app_assoc.
Qed.

Lemma alter_succeeds (d : dialect) (bp : Blueprint) :
  succeeds (CompileAlter (builder_grammar d) bp) = forallb known (columns bp).
Proof.
  destruct (first_unknown (columns bp))
    as [Hall|(good & bad & rest & Hsplit & Hg & Hb)].
  - destruct (alter_known d bp Hall) as (defs & _ & ->). now rewrite Hall.
  - rewrite (alter_unknown d bp good rest bad Hsplit Hg Hb). simpl. symmetry.
    rewrite Hsplit, forallb_app. simpl. rewrite Hb. now rewrite andb_false_r.
Qed.

(** X19.  [CompileAlter] of the three grammars.  It fails exactly when a
    column is not of a known type, with the error of the first such
    column, and then returns no statement at all.  Otherwise the
    statements are, in this order whatever the order of the calls that
    filled the blueprint: one [ADD COLUMN] per column, one statement per
    command of a declared type, one [CREATE INDEX] per index, one
    [ADD CONSTRAINT] per foreign key.  A blueprint with nothing in it
    gives no statement and no error. *)
Theorem X19_alter_table (d : dialect) (bp : Blueprint) :
  let alter := CompileAlter (builder_grammar d) in
  let table := quote_of d (blueprint.table bp) in
  (forall good bad rest,
     columns bp = good ++ bad :: rest -> forallb known good = true ->
     known bad = false ->
     alter bp = Err (unsupported bad)) /\
  (forallb known (columns bp) = true ->
   exists defs,
     Forall2 (fun col def => compileColumnDef_of d col = Ok def) (columns bp) defs /\
     alter bp
     = Ok (map (add_column table) defs
           ++ flat_map (command_statement_of d table) (commands bp)
           ++ map (create_index (quote_of d) table) (indexes bp)
           ++ map (fun fk => add_foreign_key table (compileForeignKey (quote_of d) fk))
                  (foreignKeys bp))) /\
  (forall stmts,
     alter bp = Ok stmts ->
     length stmts
     = length (columns bp) + length (List.filter known_command (commands bp))
       + length (indexes bp) + length (foreignKeys bp)) /\
  succeeds (alter bp) = forallb known (columns bp).
Proof.
  intros alter table.
  split; [intros good bad rest; apply alter_unknown|].
  split; [apply alter_known|]. split.
  - intros stmts Hok.
    destruct (first_unknown (columns bp))
      as [Hall|(good & bad & rest & Hsplit & Hg & Hb)].
    + destruct (alter_known d bp Hall) as (defs & Hdefs & Heq).
      subst alter. rewrite Heq in Hok. injection Hok as <-.
      rewrite !length_app, !length_map, command_statements_length.
      apply Forall2_length in Hdefs. lia.
    + subst alter. rewrite (alter_unknown d bp good rest bad Hsplit Hg Hb) in Hok.
      discriminate.
  - apply alter_succeeds.
Qed.

End env.

End CompileSpec.

(** ** Blueprints filled through their methods *)

Module CallbackSpec.
Import schema blueprint grammars statements builder.
Import ColumnTypes CompileSpec.

Section env.
Context {platform : Platform}.

(** What a call adds to the four lists of a blueprint for [table]. *)
Definition first_column (c : column_call) : ColumnDefinition :=
  match c with
  | CallID => Unsigned (AutoIncrement (Primary (new_column "id" TypeBigInteger)))
  | CallString name length => set_Length length (new_column name TypeString)
  | CallText name => new_column name TypeText
  | CallInteger name => new_column name TypeInteger
  | CallBigInteger name => new_column name TypeBigInteger
  | CallBoolean name => new_column name TypeBoolean
  | CallTimestamp name => new_column name TypeTimestamp
  | CallDate name => new_column name TypeDate
  | CallDecimal name precision scale =>
      set_Precision precision scale (new_column name TypeDecimal)
  | CallFloat name => new_column name TypeFloat
  | CallUUID name => new_column name TypeUUID
  | CallJSON name => new_column name TypeJSON
  | CallBinary name => new_column name TypeBinary
  end.

Definition added_columns (c : call) : list ColumnDefinition :=
  match c with
  | CallColumn c chain => [fold_left (fun col m => modify m col) chain (first_column c)]
  | CallTimestamps =>
      [ Nullable (new_column "created_at" TypeTimestamp);
        Nullable (new_column "updated_at" TypeTimestamp) ]
  | CallSoftDeletes => [Nullable (new_column "deleted_at" TypeTimestamp)]
  | _ => []
  end.

Definition added_indexes (table : string) (c : call) : list IndexDefinition :=
  match c with
  | CallIndex columns =>
      [ {| index_Name := Str.join "_" ("idx"%string :: table :: columns);
           Columns := columns; Unique := false |} ]
  | CallUniqueIndex columns =>
      [ {| index_Name := Str.join "_" ("uniq"%string :: table :: columns);
           Columns := columns; Unique := true |} ]
  | _ => []
  end.

Definition added_keys (table : string) (c : call) : list ForeignKeyDefinition :=
  match c with
  | CallForeign column chain =>
      [ fold_left (fun fk r => refer r fk) chain
          {| Column := column; RefTable := EmptyString; RefColumn := EmptyString;
             OnDelete := EmptyString; OnUpdate := EmptyString;
             fk_Name := Str.join "_" ["fk"%string; table; column] |} ]
  | _ => []
  end.

Definition added_commands (c : call) : list Command :=
  match c with
  | CallDropColumn name =>
      [ {| command_Type := CommandDropColumn; command_Name := name; To := EmptyString |} ]
  | CallRenameColumn from to =>
      [ {| command_Type := CommandRenameColumn; command_Name := from; To := to |} ]
  | CallDropIndex name =>
      [ {| command_Type := CommandDropIndex; command_Name := name; To := EmptyString |} ]
  | CallDropForeign name =>
      [ {| command_Type := CommandDropForeign; command_Name := name; To := EmptyString |} ]
  | _ => []
  end.

Definition with_added (table : string) (bp : Blueprint) (calls : list call)
  : Blueprint :=
  {| table := blueprint.table bp;
     columns := columns bp ++ flat_map added_columns calls;
     indexes := indexes bp ++ flat_map (added_indexes table) calls;
     foreignKeys := foreignKeys bp ++ flat_map (added_keys table) calls;
     commands := commands bp ++ flat_map added_commands calls |}.

Lemma join_snoc (sep x : string) (l : list string) :
  l <> [] ->
  Str.join sep (l ++ [x]) = String.append (Str.join sep l) (String.append sep x).
Proof.
  induction l as [|a l IH]; [congruence|]. intros _.
  destruct l as [|b l]; [reflexivity|].
  change (Str.join sep ((a :: b :: l) ++ [x]))
    with (String.append a (String.append sep (Str.join sep ((b :: l) ++ [x])))).
  rewrite IH by discriminate.
  change (Str.join sep (a :: b :: l))
    with (String.append a (String.append sep (Str.join sep (b :: l)))).
  now rewrite !ColumnTypes.append_assoc.
Qed.

Lemma generateIndexName_join (bp : Blueprint) (columns : list string) (unique : bool) :
  generateIndexName bp columns unique
  = Str.join "_" ((if unique then "uniq" else "idx")%string :: table bp :: columns).
Proof.
  unfold generateIndexName.
  set (prefix := if unique then "uniq"%string else "idx"%string).
  change (String.append prefix (String.append "_" (table bp)))
    with (Str.join "_" [prefix; table bp]).
  change (prefix :: table bp :: columns) with ([prefix; table bp] ++ columns).
  generalize [prefix; table bp] (ltac:(discriminate) : [prefix; table bp] <> []).
  induction columns as [|col columns IH]; intros l Hl; cbn [fold_left].
  - now rewrite app_nil_r.
  - rewrite <- join_snoc by exact Hl. rewrite IH by (now destruct l).
    now rewrite <- app_assoc.
Qed.

Lemma chained_last (f : ColumnDefinition -> ColumnDefinition) (bp : Blueprint)
    (cols : list ColumnDefinition) (col : ColumnDefinition) :
  columns bp = cols ++ [col] ->
  chained f bp = with_columns bp (cols ++ [f col]).
Proof.
  intros H. unfold chained. rewrite H, length_app. simpl.
  replace (length cols + 1 - 1) with (length cols + 0) by lia.
  rewrite lookup_app_r by lia.
  replace (length cols + 0 - length cols) with 0 by lia. simpl.
  now rewrite insert_app_r.
Qed.

Lemma chain_last (chain : list modifier) (bp : Blueprint)
    (cols : list ColumnDefinition) (col : ColumnDefinition) :
  columns bp = cols ++ [col] ->
  fold_left (fun bp m => chained (modify m) bp) chain bp
  = with_columns bp (cols ++ [fold_left (fun col m => modify m col) chain col]).
Proof.
  revert bp col. induction chain as [|m chain IH]; intros bp col H; simpl.
  - rewrite <- H. now destruct bp.
  - rewrite (chained_last _ bp cols col H).
    now rewrite (IH (with_columns bp (cols ++ [modify m col])) (modify m col) eq_refl).
Qed.

Lemma add_last (c : column_call) (bp : Blueprint) :
  add c bp = with_columns bp (columns bp ++ [first_column c]).
Proof.
  destruct c; simpl;
    unfold ID, String_, Decimal, Text, Integer, BigInteger, Boolean, Timestamp, Date,
      Float, UUID, JSON, Binary;
    try reflexivity;
    now erewrite (chained_last _ (addColumn bp _ _)) by reflexivity.
Qed.

Lemma key_chain (chain : list reference) (bp : Blueprint)
    (keys : list ForeignKeyDefinition) (fk : ForeignKeyDefinition) :
  foreignKeys bp = keys ++ [fk] ->
  fold_left (fun bp r => chained_key (refer r) bp) chain bp
  = {| table := table bp; columns := columns bp; indexes := indexes bp;
       foreignKeys := keys ++ [fold_left (fun fk r => refer r fk) chain fk];
       commands := commands bp |}.
Proof.
  revert bp fk. induction chain as [|r chain IH]; intros bp fk H; simpl.
  - rewrite <- H. now destruct bp.
  - assert (Hstep : chained_key (refer r) bp
                    = {| table := table bp; columns := columns bp;
                         indexes := indexes bp;
                         foreignKeys := keys ++ [refer r fk];
                         commands := commands bp |}).
    { unfold chained_key. rewrite H, length_app. simpl.
      replace (length keys + 1 - 1) with (length keys + 0) by lia.
      rewrite lookup_app_r by lia.
      replace (length keys + 0 - length keys) with 0 by lia. simpl.
      now rewrite insert_app_r. }
    rewrite Hstep.
    match goal with
    | |- context [fold_left _ chain ?b] => now rewrite (IH b (refer r fk) eq_refl)
    end.
Qed.

Lemma run_call_added (bp : Blueprint) (c : call) :
  run_call bp c = with_added (table bp) bp [c].
Proof.
  unfold with_added.
  destruct c as [c chain| | | | |column chain| | | |]; simpl; rewrite ?app_nil_r.
  - rewrite add_last.
    now rewrite (chain_last chain (with_columns bp (columns bp ++ [first_column c]))
                   (columns bp) (first_column c) eq_refl).
  - unfold Timestamps, Timestamp.
    erewrite (chained_last _ (addColumn bp "created_at" TypeTimestamp)) by reflexivity.
    erewrite (chained_last _ (addColumn _ "updated_at" TypeTimestamp)) by reflexivity.
    unfold with_columns. simpl. now rewrite <- app_assoc.
  - unfold SoftDeletes, Timestamp.
    now erewrite (chained_last _ (addColumn bp "deleted_at" TypeTimestamp)) by reflexivity.
  - unfold Index, add_index. now rewrite generateIndexName_join.
  - unfold UniqueIndex, add_index. now rewrite generateIndexName_join.
  - now rewrite (key_chain chain (Foreign bp column) (foreignKeys bp) _ eq_refl).
  - reflexivity.
  - reflexivity.
  - reflexivity.
  - reflexivity.
Qed.

Lemma run_added (calls : list call) (bp : Blueprint) :
  run calls bp = with_added (table bp) bp calls.
Proof.
  revert bp. induction calls as [|c calls IH]; intros bp; simpl.
  - unfold with_added. simpl. rewrite !app_nil_r. now destruct bp.
  - rewrite IH, run_call_added. unfold with_added. simpl.
    now rewrite !app_nil_r, <- !app_assoc.
Qed.

Lemma chain_keeps (chain : list modifier) (col : ColumnDefinition) :
  Name (fold_left (fun col m => modify m col) chain col) = Name col /\
  Type_ (fold_left (fun col m => modify m col) chain col) = Type_ col.
Proof.
  revert col. induction chain as [|m chain IH]; intros col; simpl; [auto|].
  destruct (IH (modify m col)) as [-> ->]. now destruct m.
Qed.

Lemma added_columns_known (calls : list call) :
  forallb known (flat_map added_columns calls) = true.
Proof.
  induction calls as [|c calls IH]; simpl; [reflexivity|].
  rewrite forallb_app, IH, andb_true_r.
  destruct c as [c chain| | | | | | | | |]; try reflexivity.
  simpl. unfold known. rewrite (proj2 (chain_keeps chain (first_column c))).
  now destruct c.
Qed.

(** The names of the columns a call adds. *)
Definition column_name (c : column_call) : string :=
  match c with
  | CallID => "id"
  | CallString name _ | CallText name | CallInteger name | CallBigInteger name
  | CallBoolean name | CallTimestamp name | CallDate name | CallDecimal name _ _
  | CallFloat name | CallUUID name | CallJSON name | CallBinary name => name
  end.

Definition added_names (c : call) : list string :=
  match c with
  | CallColumn c _ => [column_name c]
  | CallTimestamps => ["created_at"; "updated_at"]%string
  | CallSoftDeletes => ["deleted_at"%string]
  | _ => []
  end.

Lemma added_columns_names (calls : list call) :
  map Name (flat_map added_columns calls) = flat_map added_names calls.
Proof.
  induction calls as [|c calls IH]; simpl; [reflexivity|].
  rewrite map_app, IH. f_equal.
  destruct c as [c chain| | | | | | | | |]; try reflexivity.
  simpl. rewrite (proj1 (chain_keeps chain (first_column c))). now destruct c.
Qed.

Definition adds_column (c : call) : bool :=
  match added_names c with [] => false | _ => true end.

Lemma no_column_added (calls : list call) :
  (length (flat_map added_names calls) =? 0) = negb (existsb adds_column calls).
Proof.
  induction calls as [|c calls IH]; simpl; [reflexivity|].
  rewrite length_app. unfold adds_column at 1.
  destruct (added_names c); simpl; [exact IH|reflexivity].
Qed.

(** X21.  A blueprint filled by a callback, whatever calls the callback
    makes and in whatever order.  It keeps the table name it was made
    for; its columns are the ones the calls added, in call order, one
    per column method, two for [Timestamps] and one for [SoftDeletes],
    the modifiers chained on a call changing neither the name nor the
    type; and every column is of a known type.  So in the three
    dialects [CompileAlter] never fails on it, and [CompileCreate] fails
    only when no call added a column, with [no columns defined]:
    [ErrUnsupportedType] cannot come out of a blueprint filled through
    its methods. *)
Theorem X21_callback_blueprint_compiles (d : dialect) (table : string)
    (calls : list call) :
  let bp := run calls (NewBlueprint table) in
  blueprint.table bp = table /\
  map Name (columns bp) = flat_map added_names calls /\
  forallb known (columns bp) = true /\
  succeeds (CompileAlter (builder_grammar d) bp) = true /\
  succeeds (CompileCreate (builder_grammar d) bp) = existsb adds_column calls /\
  (existsb adds_column calls = false ->
   CompileCreate (builder_grammar d) bp = Err (no_columns bp)).
Proof.
  intros bp.
  assert (Hc : columns bp = flat_map added_columns calls).
  { subst bp. now rewrite run_added. }
  assert (Hk : forallb known (columns bp) = true).
  { rewrite Hc. apply added_columns_known. }
  assert (Hn : map Name (columns bp) = flat_map added_names calls).
  { rewrite Hc. apply added_columns_names. }
  assert (Hlen : (length (columns bp) =? 0) = negb (existsb adds_column calls)).
  { now rewrite <- no_column_added, <- Hn, length_map. }
  split; [subst bp; now rewrite run_added|]. split; [exact Hn|]. split; [exact Hk|].
  split; [now rewrite alter_succeeds|]. split.
  - rewrite create_succeeds, Hlen, negb_involutive, Hk. apply andb_true_r.
  - intros Hnone. apply create_empty. rewrite Hnone in Hlen. simpl in Hlen.
    apply Nat.eqb_eq in Hlen. now destruct (columns bp).
Qed.

(** Calls on columns, and the other calls. *)
Definition on_columns (c : call) : bool :=
  match c with
  | CallColumn _ _ | CallTimestamps | CallSoftDeletes => true
  | _ => false
  end.

Lemma flat_map_split {A : Type} (f : call -> list A) (p : call -> bool)
    (calls : list call) :
  (forall c, p c = true -> f c = []) ->
  flat_map f (List.filter p calls ++ List.filter (fun c => negb (p c)) calls)
  = flat_map f calls.
Proof.
  intros Hp. rewrite flat_map_app.
  induction calls as [|c calls IH]; simpl; [reflexivity|].
  destruct (p c) eqn:Hc; simpl.
  - rewrite (Hp c Hc) in *. simpl. exact IH.
  - rewrite <- IH.
    assert (Hnil : flat_map f (List.filter p calls) = []).
    { clear IH. induction calls as [|c' calls IH']; simpl; [reflexivity|].
      destruct (p c') eqn:Hc'; simpl; [|exact IH'].
      now rewrite (Hp c' Hc'), IH'. }
    now rewrite Hnil.
Qed.

Lemma flat_map_split_neg {A : Type} (f : call -> list A) (p : call -> bool)
    (calls : list call) :
  (forall c, p c = false -> f c = []) ->
  flat_map f (List.filter p calls ++ List.filter (fun c => negb (p c)) calls)
  = flat_map f calls.
Proof.
  intros Hp. rewrite flat_map_app.
  assert (Hnil : flat_map f (List.filter (fun c => negb (p c)) calls) = []).
  { induction calls as [|c calls IH]; simpl; [reflexivity|].
    destruct (p c) eqn:Hc; simpl; [exact IH|]. now rewrite (Hp c Hc), IH. }
  rewrite Hnil, app_nil_r. clear Hnil.
  induction calls as [|c calls IH]; simpl; [reflexivity|].
  destruct (p c) eqn:Hc; simpl; [now rewrite IH|]. now rewrite (Hp c Hc).
Qed.

(** X22.  The blueprint a callback leaves is its four lists, each in
    call order: the columns with the modifiers chained on each, the
    indexes, named [idx] or, when unique, [uniq], then the table and the
    columns, joined by underscores, the foreign keys, named
    [fk_<table>_<column>] and carrying what was chained on them, and the
    commands.  The order between calls of different lists is not kept:
    a callback and the one that makes the same calls with those on
    columns moved first leave the same blueprint. *)
Theorem X22_callback_lists (table : string) (calls : list call) :
  run calls (NewBlueprint table)
  = {| blueprint.table := table;
       columns := flat_map added_columns calls;
       indexes := flat_map (added_indexes table) calls;
       foreignKeys := flat_map (added_keys table) calls;
       commands := flat_map added_commands calls |} /\
  run (List.filter on_columns calls ++ List.filter (fun c => negb (on_columns c)) calls)
      (NewBlueprint table)
  = run calls (NewBlueprint table).
Proof.
  split; [now rewrite run_added|].
  rewrite !run_added. unfold with_added. simpl. f_equal.
  - apply flat_map_split_neg. intros [] H; try reflexivity; discriminate.
  - apply flat_map_split. intros [] H; try reflexivity; discriminate.
  - apply flat_map_split. intros [] H; try reflexivity; discriminate.
  - apply flat_map_split. intros [] H; try reflexivity; discriminate.
Qed.

End env.

End CallbackSpec.

(** ** The schema builder *)

Module BuilderSpec.
Import schema blueprint statements migrator builder.
Import Effects.

(** The statements that went to the database, in order. *)
Definition statements_sent (w : World) : list string :=
  omap (fun ev => match ev with EvSQL stmt _ => Some stmt | _ => None end) (trace w).

Lemma Exec_sent (query : string) (w : World) :
  statements_sent (snd (executor_Exec query w)) = statements_sent w ++ [query].
Proof.
  unfold statements_sent, executor_Exec. rewrite TrackerSQL.sent, omap_app. reflexivity.
Qed.

Lemma Exec_calm (query : string) (w : World) :
  calm w -> fst (executor_Exec query w) = Ok tt /\ calm (snd (executor_Exec query w)).
Proof.
  intros Hc. pose proof (statement_spec query [] w) as H. unfold wp in H.
  destruct H as [(_ & _ & Hq) Hok]. split; [now apply Hok|now apply Hq].
Qed.

(** The loop of [Alter]: a prefix of the statements goes out; when the
    loop returns an error, the last statement sent is the one that
    failed. *)
Lemma each_Exec (stmts : list string) (w : World) :
  let out := for_range stmts executor_Exec w in
  exists k,
    k <= length stmts /\
    statements_sent (snd out) = statements_sent w ++ take k stmts /\
    (fst out = Ok tt -> k = length stmts) /\
    (forall err, fst out = Err err -> 0 < k) /\
    (calm w -> fst out = Ok tt /\ calm (snd out)).
Proof.
  revert w. induction stmts as [|stmt stmts IH]; intros w; simpl.
  - exists 0. rewrite app_nil_r. repeat split; auto. discriminate.
  - unfold bind. pose proof (Exec_sent stmt w) as Hsent.
    pose proof (Exec_calm stmt w) as Hcalm.
    destruct (executor_Exec stmt w) as [[[]|e] w1]; simpl in *.
    + destruct (IH w1) as (k & Hk & Hs & Hok & Herr & Hc).
      exists (S k). simpl. rewrite Hs, Hsent, <- app_assoc. simpl.
      split; [lia|]. split; [reflexivity|]. split; [intros H; f_equal; auto|].
      split; [intros; lia|].
      intros Hw. apply Hc. now apply Hcalm.
    + exists 1. rewrite Hsent. simpl. rewrite take_0.
      split; [lia|]. split; [reflexivity|]. split; [discriminate|].
      split; [intros; lia|].
      intros Hw. destruct (Hcalm Hw) as [H _]. discriminate.
Qed.

(** X20.  The builder, whatever the grammar.  [Create] and [Alter] send
    nothing when the blueprint does not compile, and return the
    compiler's error.  [Create] of a blueprint that compiles sends its one
    statement.  [Alter] sends the compiled statements in order and stops
    after the first one the database refuses: the statements before it
    have been executed and stay so, the ones after it are never sent.
    With the connection holding, everything is sent and no error is
    returned.  [Drop], [DropIfExists] and [Rename] send the one statement
    the grammar compiles. *)
Theorem X20_builder_sends (b : Builder) (table : string) (fn : Blueprint -> Blueprint)
    (w : World) :
  let bp := fn (NewBlueprint table) in
  (forall err, CompileCreate (grammar b) bp = Err err ->
     Builder_Create b table fn w = (Err err, w)) /\
  (forall sqlStr, CompileCreate (grammar b) bp = Ok sqlStr ->
     statements_sent (snd (Builder_Create b table fn w)) = statements_sent w ++ [sqlStr] /\
     (calm w -> fst (Builder_Create b table fn w) = Ok tt)) /\
  (forall err, CompileAlter (grammar b) bp = Err err ->
     Builder_Alter b table fn w = (Err err, w)) /\
  (forall stmts, CompileAlter (grammar b) bp = Ok stmts ->
     let out := Builder_Alter b table fn w in
     exists k,
       k <= length stmts /\
       statements_sent (snd out) = statements_sent w ++ take k stmts /\
       (fst out = Ok tt -> k = length stmts) /\
       (forall err, fst out = Err err -> 0 < k) /\
       (calm w -> fst out = Ok tt /\ k = length stmts)) /\
  statements_sent (snd (Builder_Drop b table w))
  = statements_sent w ++ [CompileDrop (grammar b) table] /\
  statements_sent (snd (Builder_DropIfExists b table w))
  = statements_sent w ++ [CompileDropIfExists (grammar b) table] /\
  (forall to, statements_sent (snd (Builder_Rename b table to w))
              = statements_sent w ++ [CompileRename (grammar b) table to]).
Proof.
  intros bp. split; [|split; [|split; [|split; [|split; [|split]]]]].
  - intros err H. unfold Builder_Create. fold bp. now rewrite H.
  - intros sqlStr H. unfold Builder_Create. fold bp. rewrite H. split.
    + apply Exec_sent.
    + intros Hc. now apply Exec_calm.
  - intros err H. unfold Builder_Alter. fold bp. now rewrite H.
  - intros stmts H out. subst out. unfold Builder_Alter. fold bp. rewrite H.
    destruct (each_Exec stmts w) as (k & Hk & Hs & Hok & Herr & Hc).
    exists k. repeat split; auto.
    + now apply Hc.
    + apply Hok. now apply Hc.
  - apply Exec_sent.
  - apply Exec_sent.
  - intros to. apply Exec_sent.
Qed.

End BuilderSpec.

(** ** From the callback to the database *)

Module EndToEnd.
Import schema blueprint grammars statements migrator builder.
Import Effects ColumnTypes CompileSpec CallbackSpec BuilderSpec.

Section env.
Context {platform : Platform}.

Lemma added_commands_known (calls : list call) :
  List.filter known_command (flat_map added_commands calls)
  = flat_map added_commands calls.
Proof.
  induction calls as [|c calls IH]; simpl; [reflexivity|].
  rewrite List.filter_app, IH. f_equal. now destruct c.
Qed.

(** X23.  [Create] and [Alter] of a builder for one of the three
    dialects, with a callback that fills the blueprint through its
    methods.  [Create] with a callback that adds no column returns
    [no columns defined] and sends nothing; with one that adds a column
    it sends exactly one statement, the compiled [CREATE TABLE], and with
    the connection holding returns no error.  [Alter] always compiles:
    with the connection holding it returns no error after sending one
    statement per column, index, foreign key and command of the
    callback. *)
Theorem X23_callback_to_database (d : dialect) (table : string) (calls : list call)
    (w : World) :
  let b := NewBuilder (builder_grammar d) in
  let bp := run calls (NewBlueprint table) in
  (existsb adds_column calls = false ->
   Builder_Create b table (run calls) w = (Err (no_columns bp), w)) /\
  (existsb adds_column calls = true ->
   exists sqlStr,
     CompileCreate (builder_grammar d) bp = Ok sqlStr /\
     statements_sent (snd (Builder_Create b table (run calls) w))
     = statements_sent w ++ [sqlStr] /\
     (calm w -> fst (Builder_Create b table (run calls) w) = Ok tt)) /\
  exists stmts,
    CompileAlter (builder_grammar d) bp = Ok stmts /\
    length stmts
    = length (columns bp) + length (commands bp) + length (indexes bp)
      + length (foreignKeys bp) /\
    (calm w ->
     fst (Builder_Alter b table (run calls) w) = Ok tt /\
     statements_sent (snd (Builder_Alter b table (run calls) w))
     = statements_sent w ++ stmts).
Proof.
  intros b bp.
  assert (Hk : forallb known (columns bp) = true).
  { subst bp. rewrite run_added. apply added_columns_known. }
  assert (Hlen : (length (columns bp) =? 0) = negb (existsb adds_column calls)).
  { subst bp. rewrite run_added. simpl.
    now rewrite <- no_column_added, <- added_columns_names, length_map. }
  split; [|split].
  - intros Hnone. unfold Builder_Create. fold bp. change (grammar b) with (builder_grammar d).
    rewrite create_empty; [reflexivity|].
    rewrite Hnone in Hlen. apply Nat.eqb_eq in Hlen. now destruct (columns bp).
  - intros Hsome.
    pose proof (create_succeeds d bp) as Hs. rewrite Hlen, Hsome, Hk in Hs.
    destruct (CompileCreate (builder_grammar d) bp) as [sqlStr|e] eqn:Hc;
      [|discriminate].
    exists sqlStr. split; [reflexivity|].
    unfold Builder_Create. fold bp. change (grammar b) with (builder_grammar d). rewrite Hc. split.
    + apply Exec_sent.
    + intros Hcalm. now apply Exec_calm.
  - destruct (alter_known d bp Hk) as (defs & Hdefs & Halter).
    eexists. split; [exact Halter|]. split.
    + rewrite !length_app, !length_map, command_statements_length.
      apply Forall2_length in Hdefs. rewrite <- Hdefs.
      replace (List.filter known_command (commands bp)) with (commands bp); [lia|].
      subst bp. rewrite run_added. simpl. now rewrite added_commands_known.
    + intros Hcalm. unfold Builder_Alter. fold bp. change (grammar b) with (builder_grammar d). rewrite Halter.
      match goal with
      | |- context [for_range ?l _ _] =>
          destruct (each_Exec l w) as (k & Hle & Hs & Hok & _ & Hc)
      end.
      destruct (Hc Hcalm) as [Hr _]. split; [exact Hr|].
      rewrite Hs, (Hok Hr). now rewrite firstn_all.
Qed.

End env.

End EndToEnd.
